(** * music-md: the SVG post-processing of the remark plugins

    A shallow embedding of the string surgery performed by
    [plugins/remark-lilypond/index.js] (compactSvg, escapeHtml) and by the
    remark-svguitar plugin (fixSvgViewBox, fixMultipleSvgViewBoxes,
    normaliseChordData, escapeHtml), together with the fragments of the
    ECMAScript semantics these functions rely on: strings as sequences of
    UTF-16 code units, Number values as IEEE 754 binary64, parseFloat,
    Number::toString, Number.prototype.toFixed, backtracking regular
    expressions, String.prototype.replace / match / matchAll / split. *)

From Stdlib Require Import ZArith NArith List String Ascii Bool Lia.
From Stdlib Require Import Floats.SpecFloat.
Import ListNotations.

Set Implicit Arguments.

(* ===================================================================== *)
(** ** ECMAScript strings *)
(* ===================================================================== *)

Module JsString.

(** A String value is a finite sequence of 16-bit code units.  The code
    units are kept as [N]; nothing below depends on the upper bound. *)
Definition char := N.
Definition jsstring := list char.

Definition ch (a : ascii) : char := N_of_ascii a.

(** String literals of the source, all of them ASCII. *)
Definition js (s : string) : jsstring := List.map ch (list_ascii_of_string s).

(** WhiteSpace and LineTerminator code points: the set used by [\s], by
    String.prototype.trim and by the trimming step of parseFloat. *)
Definition isWhiteSpace (c : char) : bool :=
  ((c =? 9) || (c =? 10) || (c =? 11) || (c =? 12) || (c =? 13) ||
   (c =? 32) || (c =? 160) || (c =? 5760) ||
   ((8192 <=? c) && (c <=? 8202)) ||
   (c =? 8232) || (c =? 8233) || (c =? 8239) || (c =? 8287) ||
   (c =? 12288) || (c =? 65279))%N.

Fixpoint eqb (a b : jsstring) : bool :=
  match a, b with
  | [], [] => true
  | x :: a', y :: b' => (x =? y)%N && eqb a' b'
  | _, _ => false
  end.

(** [dropPrefix p s] is the rest of [s] after its prefix [p], if [s]
    starts with [p]. *)
Fixpoint dropPrefix (p s : jsstring) : option jsstring :=
  match p with
  | [] => Some s
  | x :: p' =>
      match s with
      | [] => None
      | y :: s' => if (x =? y)%N then dropPrefix p' s' else None
      end
  end.

Definition startsWith (p s : jsstring) : bool :=
  match dropPrefix p s with Some _ => true | None => false end.

(** [includes p s]: some suffix of [s] starts with [p]. *)
Fixpoint includes (p s : jsstring) : bool :=
  startsWith p s ||
  match s with
  | [] => false
  | _ :: s' => includes p s'
  end.

Fixpoint trimStart (s : jsstring) : jsstring :=
  match s with
  | c :: s' => if isWhiteSpace c then trimStart s' else s
  | [] => []
  end.

Definition trimEnd (s : jsstring) : jsstring := rev (trimStart (rev s)).

Definition trim (s : jsstring) : jsstring := trimEnd (trimStart s).

(** String.prototype.split with a separator of one code unit: the result
    always has at least one element. *)
Fixpoint split (sep : char) (s : jsstring) : list jsstring :=
  match s with
  | [] => [[]]
  | c :: s' =>
      if (c =? sep)%N then [] :: split sep s'
      else match split sep s' with
           | h :: r => (c :: h) :: r
           | [] => [[c]]
           end
  end.

(** Array.prototype.join with a separator, on an array of strings. *)
Fixpoint join (sep : jsstring) (l : list jsstring) : jsstring :=
  match l with
  | [] => []
  | [x] => x
  | x :: r => x ++ sep ++ join sep r
  end.

End JsString.

Import JsString.

(* ===================================================================== *)
(** ** ECMAScript Number values *)
(* ===================================================================== *)

Module Number.

Local Open Scope Z_scope.

(** binary64 *)
Definition prec : Z := 53.
Definition emax : Z := 1024.

Definition number := spec_float.

Definition NaN : number := S754_nan.
Definition Infinity : number := S754_infinity false.
Definition NegInfinity : number := S754_infinity true.

Definition isNaN (x : number) : bool :=
  match x with S754_nan => true | _ => false end.

Definition add (x y : number) : number := SFadd prec emax x y.
Definition sub (x y : number) : number := SFsub prec emax x y.
Definition mul (x y : number) : number := SFmul prec emax x y.

(** The relational operators: false as soon as an operand is NaN. *)
Definition lt (x y : number) : bool := SFltb x y.
Definition gt (x y : number) : bool := SFltb y x.

(** ToBoolean on a Number: NaN and the two zeros are falsy. *)
Definition truthy (x : number) : bool :=
  match x with
  | S754_nan | S754_zero _ => false
  | _ => true
  end.

(** Math.min and Math.max on two arguments. *)
Definition min (x y : number) : number :=
  match x, y with
  | S754_nan, _ | _, S754_nan => NaN
  | S754_zero sx, S754_zero sy => S754_zero (sx || sy)
  | _, _ => if lt y x then y else x
  end.

Definition max (x y : number) : number :=
  match x, y with
  | S754_nan, _ | _, S754_nan => NaN
  | S754_zero sx, S754_zero sy => S754_zero (sx && sy)
  | _, _ => if lt x y then y else x
  end.

(** The Number value of the decimal [(-1)^neg * m * 10^e]: the nearest
    binary64, ties to even (RoundMVResult).  All the digits count: the
    standard lets an implementation round a literal after its twentieth
    significant digit, the engine node runs on does not. *)
Definition of_decimal (neg : bool) (m : Z) (e : Z) : number :=
  match m with
  | Zpos p =>
      if 0 <=? e
      then binary_round prec emax neg (Z.to_pos (Zpos p * 10 ^ e)) 0
      else SFdiv prec emax (S754_finite neg p 0)
                           (S754_finite false (Z.to_pos (10 ^ (- e))) 0)
  | _ => S754_zero neg
  end.

(** Numeric literals of the source *)
Definition of_Z (z : Z) : number := of_decimal (z <? 0) (Z.abs z) 0.

(** *** parseFloat *)

Definition isDigit (c : char) : bool := ((48 <=? c) && (c <=? 57))%N.

Fixpoint spanDigits (s : jsstring) : jsstring * jsstring :=
  match s with
  | c :: s' =>
      if isDigit c
      then let (ds, r) := spanDigits s' in (c :: ds, r)
      else ([], s)
  | [] => ([], [])
  end.

Definition digitsValue (ds : jsstring) : Z :=
  fold_left (fun acc c => 10 * acc + (Z.of_N c - 48)) ds 0.

Definition parseSign (s : jsstring) : bool * jsstring :=
  match s with
  | c :: s' =>
      if (c =? ch "+")%N then (false, s')
      else if (c =? ch "-")%N then (true, s')
      else (false, s)
  | [] => (false, [])
  end.

(** The value of an ExponentPart at the head of [s], 0 when there is
    none ([e] or [E], an optional sign, at least one digit). *)
Definition parseExponent (s : jsstring) : Z :=
  match s with
  | c :: s' =>
      if ((c =? ch "e") || (c =? ch "E"))%N
      then let (neg, s'') := parseSign s' in
           match fst (spanDigits s'') with
           | [] => 0
           | ds => if neg then - digitsValue ds else digitsValue ds
           end
      else 0
  | [] => 0
  end.

(** parseFloat: leading white space is skipped, the longest prefix that
    is a StrDecimalLiteral is converted, NaN when there is none. *)
Definition parseFloat (input : jsstring) : number :=
  let (neg, s1) := parseSign (trimStart input) in
  if startsWith (js "Infinity") s1 then S754_infinity neg
  else
    let (ip, s2) := spanDigits s1 in
    let (fp, s3) :=
      match s2 with
      | c :: s2' => if (c =? ch ".")%N then spanDigits s2' else ([], s2)
      | [] => ([], s2)
      end in
    match ip, fp with
    | [], [] => NaN
    | _, _ => of_decimal neg (digitsValue (ip ++ fp))
                             (parseExponent s3 - Z.of_nat (List.length fp))
    end.

(** *** Number::toString (radix 10) *)

(** Decimal digits of a non-negative integer, most significant first. *)
Fixpoint digitsFuel (fuel : nat) (n : Z) (acc : jsstring) : jsstring :=
  match fuel with
  | O => acc
  | S f =>
      let acc' := Z.to_N (48 + n mod 10) :: acc in
      if n / 10 =? 0 then acc' else digitsFuel f (n / 10) acc'
  end.

Definition decimalDigits (n : Z) : jsstring :=
  digitsFuel (S (Z.to_nat (Z.log2 n))) n [].

Definition zeros (n : Z) : jsstring := repeat (ch "0") (Z.to_nat n).

(** A positive finite value [m * 2^e] as the fraction [num / den]. *)
Definition numerator (m : positive) (e : Z) : Z :=
  if 0 <=? e then Zpos m * 2 ^ e else Zpos m.

Definition denominator (e : Z) : Z :=
  if 0 <=? e then 1 else 2 ^ (- e).

(** [num / den] compared with [s * 10^p] *)
Definition compareDecimal (num den s p : Z) : comparison :=
  if 0 <=? p then num ?= s * 10 ^ p * den
  else num * 10 ^ (- p) ?= s * den.

(** floor of [(num / den) / 10^p] *)
Definition scaledFloor (num den p : Z) : Z :=
  if 0 <=? p then num / (den * 10 ^ p) else (num * 10 ^ (- p)) / den.

Definition ltPow10 (num den n : Z) : bool :=
  match compareDecimal num den 1 n with Lt => true | _ => false end.

Fixpoint searchUp (fuel : nat) (num den n : Z) : Z :=
  match fuel with
  | O => n
  | S f => if ltPow10 num den n then n else searchUp f num den (n + 1)
  end.

Fixpoint searchDown (fuel : nat) (num den n : Z) : Z :=
  match fuel with
  | O => n
  | S f =>
      if ltPow10 num den (n - 1) then searchDown f num den (n - 1) else n
  end.

(** The integer [n] with [10^(n-1) <= num/den < 10^n], found from an
    estimate by the binary length. *)
Definition decimalExponent (m : positive) (e : Z) : Z :=
  let num := numerator m e in
  let den := denominator e in
  let est := ((Zpos (digits2_pos m) + e) * 1233) / 4096 in
  searchDown 700 num den (searchUp 700 num den est).

(** The integers [s] and [n] of Number::toString: [s] has [k] digits,
    [s * 10^(n-k)] converts back to [x], [k] is as small as possible and,
    among the candidates, [s * 10^(n-k)] is closest to [x]. *)
Fixpoint shortest (fuel : nat) (k : Z) (x : number) (num den n : Z)
  : Z * Z :=
  match fuel with
  | O => (0, n)
  | S f =>
      let p := n - k in
      let lo := scaledFloor num den p in
      let hi := lo + 1 in
      let pick s := if s =? 10 ^ k then (10 ^ (k - 1), n + 1) else (s, n) in
      match SFeqb (of_decimal false lo p) x,
            SFeqb (of_decimal false hi p) x with
      | true, true =>
          match compareDecimal (2 * num) den (lo + hi) p with
          | Lt => pick lo
          | Gt => pick hi
          | Eq => if Z.even lo then pick lo else pick hi
          end
      | true, false => pick lo
      | false, true => pick hi
      | false, false => shortest f (k + 1) x num den n
      end
  end.

Definition toStringPos (m : positive) (e : Z) : jsstring :=
  let (s, n) := shortest 17 1 (S754_finite false m e)
                  (numerator m e) (denominator e) (decimalExponent m e) in
  let ds := decimalDigits s in
  let k := Z.of_nat (List.length ds) in
  if (-5 <=? n) && (n <=? 21) then
    if k <=? n then ds ++ zeros (n - k)
    else if 0 <? n
         then firstn (Z.to_nat n) ds ++ ch "." :: skipn (Z.to_nat n) ds
         else js "0." ++ zeros (- n) ++ ds
  else
    let exponentSign := if n <? 0 then ch "-" else ch "+" in
    let ex := decimalDigits (Z.abs (n - 1)) in
    match ds with
    | [] => []
    | [d] => d :: ch "e" :: exponentSign :: ex
    | d :: r => d :: ch "." :: r ++ ch "e" :: exponentSign :: ex
    end.

Definition toString (x : number) : jsstring :=
  match x with
  | S754_nan => js "NaN"
  | S754_zero _ => js "0"
  | S754_infinity false => js "Infinity"
  | S754_infinity true => js "-Infinity"
  | S754_finite false m e => toStringPos m e
  | S754_finite true m e => ch "-" :: toStringPos m e
  end.

(** *** Number.prototype.toFixed *)

(** [fractionDigits] is between 0 and 100 at the only call of the source
    ([toFixed(2)]), so that no RangeError is raised. *)
Definition toFixedDigits (num den f : Z) : jsstring :=
  let n := (2 * num * 10 ^ f + den) / (2 * den) in
  let m := decimalDigits n in
  if f =? 0 then m
  else
    let k := Z.of_nat (List.length m) in
    let m' := if k <=? f then zeros (f + 1 - k) ++ m else m in
    let k' := Z.of_nat (List.length m') in
    firstn (Z.to_nat (k' - f)) m' ++ ch "." :: skipn (Z.to_nat (k' - f)) m'.

Definition toFixed (x : number) (fractionDigits : Z) : jsstring :=
  match x with
  | S754_nan | S754_infinity _ => toString x
  | S754_zero _ => toFixedDigits 0 1 fractionDigits
  | S754_finite neg m e =>
      let num := numerator m e in
      let den := denominator e in
      (if neg then [ch "-"] else []) ++
      (if 10 ^ 21 * den <=? num then toStringPos m e
       else toFixedDigits num den fractionDigits)
  end.

End Number.

(* ===================================================================== *)
(** ** ECMAScript regular expressions *)
(* ===================================================================== *)

Module RegExp.

(** Members of a character class. *)
Inductive classAtom : Type :=
| CChar (c : char)       (* a single character *)
| CSpace                 (* \s *)
| CNonSpace.             (* \S *)

(** The patterns of the source use literal characters, character
    classes, sequencing, alternation, the quantifiers [*], [+], [*?] and
    capturing groups.  A non-capturing group [(?:r)] is [r] itself. *)
Inductive regex : Type :=
| Empty
| Lit (c : char)
| Class (invert : bool) (atoms : list classAtom)
| Seq (r1 r2 : regex)
| Alt (r1 r2 : regex)
| Star (greedy : bool) (r : regex)
| Plus (greedy : bool) (r : regex)
| Group (i : nat) (r : regex).

(** A run of pattern characters. *)
Fixpoint lits (s : jsstring) : regex :=
  match s with
  | [] => Empty
  | [c] => Lit c
  | c :: s' => Seq (Lit c) (lits s')
  end.

Fixpoint seqs (l : list regex) : regex :=
  match l with
  | [] => Empty
  | [r] => r
  | r :: l' => Seq r (seqs l')
  end.

(** Results of the capturing groups, most recent first. *)
Definition captures := list (nat * jsstring).

Fixpoint capture (i : nat) (caps : captures) : option jsstring :=
  match caps with
  | [] => None
  | (j, s) :: caps' => if Nat.eqb i j then Some s else capture i caps'
  end.

Fixpoint countGroups (r : regex) : nat :=
  match r with
  | Empty | Lit _ | Class _ _ => 0
  | Seq r1 r2 | Alt r1 r2 => countGroups r1 + countGroups r2
  | Star _ r1 | Plus _ r1 => countGroups r1
  | Group _ r1 => S (countGroups r1)
  end.

(** Canonicalize of the [i] flag (without [u]): the upper-case mapping.
    The mapping is exact on ASCII.  A code unit from 128 on never
    canonicalizes to an ASCII one, and all the pattern characters of the
    source are ASCII, so that leaving the other code units alone decides
    every comparison against a pattern character as the real mapping
    does. *)
Definition canonicalize (c : char) : char :=
  if ((97 <=? c) && (c <=? 122))%N then (c - 32)%N else c.

(** The result of a successful match: the input is
    [before ++ matched ++ after]. *)
Record matchResult : Type := MatchResult {
  before : jsstring;
  matched : jsstring;
  groups : captures;
  after : jsstring
}.

(** GetSubstitution: the replacement text denoted by a template for a
    match [m] of a pattern with [ngroups] capturing groups. *)
Fixpoint getSubstitution (ngroups : nat) (m : matchResult) (t : jsstring)
  : jsstring :=
  let cap (i : nat) : jsstring :=
    match capture i (groups m) with Some s => s | None => [] end in
  match t with
  | [] => []
  | c :: t1 =>
      if negb (c =? ch "$")%N then c :: getSubstitution ngroups m t1
      else
        match t1 with
        | [] => [c]
        | d :: t2 =>
            if (d =? ch "$")%N then ch "$" :: getSubstitution ngroups m t2
            else if (d =? ch "&")%N
            then matched m ++ getSubstitution ngroups m t2
            else if (d =? ch "`")%N
            then before m ++ getSubstitution ngroups m t2
            else if (d =? ch "'")%N
            then after m ++ getSubstitution ngroups m t2
            else if Number.isDigit d then
              let i1 := N.to_nat (d - 48) in
              let oneDigit :=
                if Nat.leb 1 i1 && Nat.leb i1 ngroups
                then cap i1 ++ getSubstitution ngroups m t2
                else c :: d :: getSubstitution ngroups m t2 in
              match t2 with
              | d2 :: t3 =>
                  if Number.isDigit d2 then
                    let i2 := 10 * i1 + N.to_nat (d2 - 48) in
                    if Nat.ltb ngroups i2 then oneDigit
                    else if Nat.leb 1 i2
                    then cap i2 ++ getSubstitution ngroups m t3
                    else c :: d :: d2 :: getSubstitution ngroups m t3
                  else oneDigit
              | [] => oneDigit
              end
            else c :: getSubstitution ngroups m t1
        end
  end.

Section Matcher.

Variable ignoreCase : bool.

Definition charEq (a b : char) : bool :=
  if ignoreCase then (canonicalize a =? canonicalize b)%N else (a =? b)%N.

Definition atomMatches (x : char) (a : classAtom) : bool :=
  match a with
  | CChar c => charEq c x
  | CSpace => isWhiteSpace x
  | CNonSpace => negb (isWhiteSpace x)
  end.

Definition classMatches (invert : bool) (atoms : list classAtom) (x : char)
  : bool :=
  xorb invert (existsb (atomMatches x) atoms).

Section Backtracking.

Variable R : Type.

(** A continuation receives the rest of the input and the captures. *)
Definition cont := jsstring -> captures -> option R.

(** RepeatMatcher with min = 0: an iteration that consumes nothing
    is rejected, hence at most [length s] iterations. *)
Fixpoint iterate (step : jsstring -> captures -> cont -> option R)
  (greedy : bool) (fuel : nat) (s : jsstring) (caps : captures)
  (k : cont) : option R :=
  match fuel with
  | O => k s caps
  | S f =>
      let again :=
        step s caps
          (fun s' caps' =>
             if Nat.ltb (List.length s') (List.length s)
             then iterate step greedy f s' caps' k
             else None) in
      if greedy
      then match again with Some x => Some x | None => k s caps end
      else match k s caps with Some x => Some x | None => again end
  end.

(** The backtracking matcher, in continuation-passing style: the
    first success in priority order.  No capturing group of the
    source stands under a quantifier, so captures are not reset
    between iterations. *)
Fixpoint matchRe (r : regex) (s : jsstring) (caps : captures) (k : cont)
  {struct r} : option R :=
  match r with
  | Empty => k s caps
  | Lit c =>
      match s with
      | x :: s' => if charEq c x then k s' caps else None
      | [] => None
      end
  | Class invert atoms =>
      match s with
      | x :: s' => if classMatches invert atoms x then k s' caps else None
      | [] => None
      end
  | Seq r1 r2 =>
      matchRe r1 s caps (fun s' caps' => matchRe r2 s' caps' k)
  | Alt r1 r2 =>
      match matchRe r1 s caps k with
      | Some x => Some x
      | None => matchRe r2 s caps k
      end
  | Star greedy r1 =>
      iterate (matchRe r1) greedy (List.length s) s caps k
  | Plus greedy r1 =>
      matchRe r1 s caps
        (fun s' caps' =>
           iterate (matchRe r1) greedy (List.length s') s' caps' k)
  | Group i r1 =>
      matchRe r1 s caps
        (fun s' caps' =>
           k s' ((i, firstn (List.length s - List.length s') s) :: caps'))
  end.

End Backtracking.

(** A match starting at the head of [s]. *)
Definition matchAt (r : regex) (s : jsstring)
  : option (jsstring * captures) :=
  matchRe r s [] (fun s' caps => Some (s', caps)).

Definition shift (c : char) (m : matchResult) : matchResult :=
  MatchResult (c :: before m) (matched m) (groups m) (after m).

(** RegExpBuiltinExec from index 0: the leftmost match.  No pattern of
    the source has an assertion, so that a search from a later index
    is the search in what is left of the input. *)
Fixpoint exec (r : regex) (s : jsstring) : option matchResult :=
  match matchAt r s with
  | Some (rest, caps) =>
      Some (MatchResult [] (firstn (List.length s - List.length rest) s)
                        caps rest)
  | None =>
      match s with
      | [] => None
      | c :: s' => option_map (shift c) (exec r s')
      end
  end.

(** The successive matches of a global pattern: the search resumes
    where the previous match ended, one code unit further after an
    empty match.  [pre] is the part of the input already passed, so
    that [before] is relative to the whole input. *)
Fixpoint matchesFrom (fuel : nat) (r : regex) (pre s : jsstring)
  : list matchResult :=
  match fuel with
  | O => []
  | S f =>
      match exec r s with
      | None => []
      | Some m =>
          let m' := MatchResult (pre ++ before m) (matched m) (groups m)
                                (after m) in
          let pre' := pre ++ before m ++ matched m in
          match matched m, after m with
          | [], [] => [m']
          | [], c :: rest => m' :: matchesFrom f r (pre' ++ [c]) rest
          | _, _ => m' :: matchesFrom f r pre' (after m)
          end
      end
  end.

(** String.prototype.matchAll with a global pattern. *)
Definition matchAll (r : regex) (s : jsstring) : list matchResult :=
  matchesFrom (S (List.length s)) r [] s.

(** String.prototype.replace with a global pattern and a replacement
    text: every match of the sequence above is replaced by the
    substitution of the text, what stands in between is kept. *)
Fixpoint replaceFrom (fuel : nat) (r : regex) (replaceValue : jsstring)
  (pre s : jsstring) : jsstring :=
  match fuel with
  | O => s
  | S f =>
      match exec r s with
      | None => s
      | Some m =>
          let m' := MatchResult (pre ++ before m) (matched m) (groups m)
                                (after m) in
          let pre' := pre ++ before m ++ matched m in
          before m ++ getSubstitution (countGroups r) m' replaceValue ++
          match matched m, after m with
          | [], [] => []
          | [], c :: rest =>
              c :: replaceFrom f r replaceValue (pre' ++ [c]) rest
          | _, _ => replaceFrom f r replaceValue pre' (after m)
          end
      end
  end.

Definition replaceAll (r : regex) (replaceValue : jsstring) (s : jsstring)
  : jsstring :=
  replaceFrom (S (List.length s)) r replaceValue [] s.

(** String.prototype.replace with a pattern without the [g] flag: only
    the first match is replaced. *)
Definition replaceFirst (r : regex) (replaceValue : jsstring) (s : jsstring)
  : jsstring :=
  match exec r s with
  | None => s
  | Some m =>
      before m ++ getSubstitution (countGroups r) m replaceValue ++ after m
  end.

(** String.prototype.split with a pattern as separator (no capturing
    group in the separators of the source).  [cur] is the piece being
    accumulated, reversed. *)
Fixpoint splitFrom (fuel : nat) (r : regex) (cur : jsstring) (s : jsstring)
  : list jsstring :=
  match fuel with
  | O => [rev cur ++ s]
  | S f =>
      match s with
      | [] => [rev cur]
      | c :: s' =>
          match matchAt r s with
          | Some (rest, _) =>
              if Nat.eqb (List.length rest) (List.length s) && 
                 Nat.eqb (List.length cur) 0
              then splitFrom f r (c :: cur) s'
              else if Nat.eqb (List.length rest) (List.length s)
              then rev cur :: splitFrom f r [c] s'
              else rev cur :: splitFrom f r [] rest
          | None => splitFrom f r (c :: cur) s'
          end
      end
  end.

Definition splitRe (r : regex) (s : jsstring) : list jsstring :=
  match s with
  | [] => match matchAt r [] with Some _ => [] | None => [[]] end
  | _ => splitFrom (S (List.length s)) r [] s
  end.

End Matcher.

End RegExp.

(* ===================================================================== *)
(** ** Values and completions *)
(* ===================================================================== *)

Module Js.

Import Number.

(** The values that reach the functions below: what JSON.parse produces,
    and [undefined].  An object is the list of its own properties, in
    the order of its own keys. *)
#[local] Unset Elimination Schemes.
Inductive value : Type :=
| Undefined
| Null
| Bool (b : bool)
| Num (n : number)
| Str (s : jsstring)
| Arr (elements : list value)
| Obj (properties : list (jsstring * value)).
#[local] Set Elimination Schemes.

Inductive error : Type := TypeError.

(** The outcome of evaluating a call: a value or a thrown exception. *)
Inductive completion (A : Type) : Type :=
| Normal (a : A)
| Throw (e : error).

Arguments Normal {A} a.
Arguments Throw {A} e.

Definition bind {A B : Type} (c : completion A) (f : A -> completion B)
  : completion B :=
  match c with
  | Normal a => f a
  | Throw e => Throw e
  end.

(** The receiver of a call of a String method ([s.replace(...)],
    [s.match(...)]): reading the method off [undefined] or [null] throws
    a TypeError, and so does calling what the other non-string values
    have under that name (nothing). *)
Definition thisString (v : value) : completion jsstring :=
  match v with
  | Str s => Normal s
  | _ => Throw TypeError
  end.

(** [m[i]] as the receiver of a String method: a TypeError when the
    group did not take part in the match. *)
Definition groupString (i : nat) (m : RegExp.matchResult)
  : completion jsstring :=
  match RegExp.capture i (RegExp.groups m) with
  | Some s => Normal s
  | None => Throw TypeError
  end.

(** [m[i]] as the argument of parseFloat: [undefined] is converted to
    the string [undefined]. *)
Definition groupOrUndefined (i : nat) (m : RegExp.matchResult) : jsstring :=
  match RegExp.capture i (RegExp.groups m) with
  | Some s => s
  | None => js "undefined"
  end.

(** An array element that may be missing: ToNumber and ToString of a
    Number or of [undefined]. *)
Definition toNumber (v : option number) : number :=
  match v with Some n => n | None => NaN end.

Definition toStr (v : option number) : jsstring :=
  match v with Some n => Number.toString n | None => js "undefined" end.

(** String.prototype.replace with a global pattern and a replacer
    function, which may throw. *)
Fixpoint replaceWithFrom (ignoreCase : bool) (fuel : nat) (r : RegExp.regex)
  (replacer : jsstring -> completion jsstring) (s : jsstring)
  : completion jsstring :=
  match fuel with
  | O => Normal s
  | S f =>
      match RegExp.exec ignoreCase r s with
      | None => Normal s
      | Some m =>
          bind (replacer (RegExp.matched m)) (fun rep =>
          bind
            match RegExp.matched m, RegExp.after m with
            | [], [] => Normal []
            | [], c :: rest =>
                bind (replaceWithFrom ignoreCase f r replacer rest)
                     (fun t => Normal (c :: t))
            | _, _ =>
                replaceWithFrom ignoreCase f r replacer (RegExp.after m)
            end (fun t =>
          Normal (RegExp.before m ++ rep ++ t)))
      end
  end.

Definition replaceWith (ignoreCase : bool) (r : RegExp.regex)
  (replacer : jsstring -> completion jsstring) (s : jsstring)
  : completion jsstring :=
  replaceWithFrom ignoreCase (S (List.length s)) r replacer s.

(** [v === "text"]: only a String with the same code units. *)
Definition strictEqualsString (v : value) (text : jsstring) : bool :=
  match v with
  | Str s => JsString.eqb s text
  | _ => false
  end.

(** [v.includes("text")]: the search for a substring in a String, for an
    element that is that String in an Array (SameValueZero), a TypeError
    on the other values, which have no such method. *)
Definition includesMethod (v : value) (text : jsstring) : completion bool :=
  match v with
  | Str s => Normal (includes text s)
  | Arr l => Normal (existsb (fun x => strictEqualsString x text) l)
  | _ => Throw TypeError
  end.

(** *** ToString and ToNumber *)

(** The object has an own property under the key. *)
Definition hasOwn (key : jsstring) (props : list (jsstring * value)) : bool :=
  existsb (fun kv => JsString.eqb (fst kv) key) props.

(** ToString on the values.  An Array is joined with commas, its
    [undefined] and [null] elements giving nothing and the others their
    own ToString.  An Object reads [[object Object]], through the
    toString of Object.prototype; when it has an own property called
    toString (a value, so nothing that can be called) no method is left
    to convert it, and ToString throws a TypeError. *)
Fixpoint toStringValue (v : value) : completion jsstring :=
  match v with
  | Undefined => Normal (js "undefined")
  | Null => Normal (js "null")
  | Bool true => Normal (js "true")
  | Bool false => Normal (js "false")
  | Num n => Normal (Number.toString n)
  | Str s => Normal s
  | Arr l =>
      bind ((fix elements (l : list value) : completion (list jsstring) :=
               match l with
               | [] => Normal []
               | x :: l' =>
                   bind match x with
                        | Undefined | Null => Normal []
                        | _ => toStringValue x
                        end (fun piece =>
                   bind (elements l') (fun pieces =>
                   Normal (piece :: pieces)))
               end) l) (fun pieces =>
      Normal (join (js ",") pieces))
  | Obj props =>
      if hasOwn (js "toString") props then Throw TypeError
      else Normal (js "[object Object]")
  end.

(** The value of a digit in a radix, if it is one. *)
Definition digitOf (radix : Z) (c : char) : option Z :=
  let d :=
    if isDigit c then (Z.of_N c - 48)%Z
    else if ((97 <=? c) && (c <=? 102))%N then (Z.of_N c - 87)%Z
    else if ((65 <=? c) && (c <=? 70))%N then (Z.of_N c - 55)%Z
    else radix in
  if (d <? radix)%Z then Some d else None.

Fixpoint radixValue (radix : Z) (s : jsstring) (acc : Z) : option Z :=
  match s with
  | [] => Some acc
  | c :: s' =>
      match digitOf radix c with
      | Some d => radixValue radix s' (acc * radix + d)%Z
      | None => None
      end
  end.

(** NonDecimalIntegerLiteral: [0x], [0o] or [0b], in either case, and
    one digit at least. *)
Definition nonDecimalLiteral (s : jsstring) : option number :=
  match s with
  | z :: x :: ((_ :: _) as digits) =>
      let radix :=
        if ((x =? ch "x") || (x =? ch "X"))%N then Some 16%Z
        else if ((x =? ch "o") || (x =? ch "O"))%N then Some 8%Z
        else if ((x =? ch "b") || (x =? ch "B"))%N then Some 2%Z
        else None in
      if (z =? ch "0")%N then
        match radix with
        | Some r =>
            match radixValue r digits 0 with
            | Some n => Some (of_decimal false n 0)
            | None => None
            end
        | None => None
        end
      else None
  | _ => None
  end.

(** An ExponentPart that takes the whole of [s], or nothing at all. *)
Definition exponentPart (s : jsstring) : option Z :=
  match s with
  | [] => Some 0%Z
  | c :: s' =>
      if ((c =? ch "e") || (c =? ch "E"))%N
      then let (neg, s'') := parseSign s' in
           match spanDigits s'' with
           | ((_ :: _) as ds, []) =>
               Some (if neg then (- digitsValue ds)%Z else digitsValue ds)
           | _ => None
           end
      else None
  end.

(** StrDecimalLiteral, the whole of [s] *)
Definition strDecimalLiteral (s : jsstring) : option number :=
  let (neg, s1) := parseSign s in
  if JsString.eqb s1 (js "Infinity") then Some (S754_infinity neg)
  else
    let (ip, s2) := spanDigits s1 in
    let (fp, s3) :=
      match s2 with
      | c :: s2' => if (c =? ch ".")%N then spanDigits s2' else ([], s2)
      | [] => ([], s2)
      end in
    match ip, fp with
    | [], [] => None
    | _, _ =>
        match exponentPart s3 with
        | Some e =>
            Some (of_decimal neg (digitsValue (ip ++ fp))
                             (e - Z.of_nat (List.length fp))%Z)
        | None => None
        end
    end.

(** StringToNumber: white space around the literal is dropped, the
    empty text is 0, what is no StringNumericLiteral is NaN. *)
Definition stringToNumber (s : jsstring) : number :=
  match trim s with
  | [] => S754_zero false
  | text =>
      match nonDecimalLiteral text with
      | Some n => n
      | None =>
          match strDecimalLiteral text with
          | Some n => n
          | None => NaN
          end
      end
  end.

(** ToNumber on the values.  An Array or an Object goes through its
    ToString: the valueOf of Object.prototype gives the object back, an
    own property called valueOf cannot be called, so that the
    conversion falls to toString in both cases. *)
Definition toNumberValue (v : value) : completion number :=
  match v with
  | Undefined => Normal NaN
  | Null => Normal (S754_zero false)
  | Bool true => Normal (of_Z 1)
  | Bool false => Normal (S754_zero false)
  | Num n => Normal n
  | Str s => Normal (stringToNumber s)
  | Arr _ | Obj _ => bind (toStringValue v) (fun s => Normal (stringToNumber s))
  end.

(** The arguments of Math.max are converted first, one after the
    other. *)
Fixpoint coerceAll (args : list value) : completion (list number) :=
  match args with
  | [] => Normal []
  | v :: args' =>
      bind (toNumberValue v) (fun n =>
      bind (coerceAll args') (fun coerced => Normal (n :: coerced)))
  end.

(** Math.max: NaN as soon as an argument converts to NaN, -Infinity
    without arguments. *)
Definition mathMax (args : list value) : completion number :=
  bind (coerceAll args) (fun coerced =>
  Normal (fold_left max coerced NegInfinity)).

(** Literals with a double quote inside are written with the single
    quote standing for it: in [jsq "viewBox='"] the last character is
    the double quote. *)
Definition dquote : char := 34%N.

Definition jsq (s : string) : jsstring :=
  List.map (fun c => if (c =? ch "'")%N then dquote else c) (js s).

End Js.

(* ===================================================================== *)
(** ** The remark-svguitar plugin (unnamed/part_001) *)
(* ===================================================================== *)

Module RemarkSvguitar.

Import Number RegExp Js.

Definition notChar (c : char) : regex := Class true [CChar c].

(** The pattern [viewBox=Q([^Q]+)Q], where Q is the double quote *)
Definition viewBoxCapture : regex :=
  seqs [lits (jsq "viewBox='"); Group 1 (Plus true (notChar dquote));
        Lit dquote].

(** The pattern [viewBox=Q[^Q]+Q], where Q is the double quote *)
Definition viewBoxAttribute : regex :=
  seqs [lits (jsq "viewBox='"); Plus true (notChar dquote); Lit dquote].

(** The pattern [<svg[^>]*>], used with the [g] flag *)
Definition svgOpeningTag : regex :=
  seqs [lits (js "<svg"); Star true (notChar (ch ">")); Lit (ch ">")].

(** The literal [1.2] *)
Definition aspectRatio : number := of_decimal false 12 (-1).

(** fixSvgViewBox (the version of the plugin that renders one chord).
    What is modelled is the value returned; the line written with
    console.log when the viewBox is rewritten is left out. *)
Definition fixSvgViewBox (svgContent : value) : completion jsstring :=
  bind (thisString svgContent) (fun content =>
  match exec false viewBoxCapture content with
  | None => Normal content
  | Some viewBoxMatch =>
      bind (groupString 1 viewBoxMatch) (fun box =>
      let numbers := List.map parseFloat (split (ch " ") box) in
      let x := nth_error numbers 0 in
      let y := nth_error numbers 1 in
      let width := nth_error numbers 2 in
      let height := nth_error numbers 3 in
      if gt (toNumber height) (of_Z 0) then Normal content
      else
        let calculatedHeight := mul (toNumber width) aspectRatio in
        let fixedViewBox :=
          jsq "viewBox='" ++ toStr x ++ js " " ++ toStr y ++ js " " ++
          toStr width ++ js " " ++ Number.toString calculatedHeight ++
          [dquote] in
        Normal (replaceFirst false viewBoxAttribute fixedViewBox content))
  end).

(** The replacer function of fixMultipleSvgViewBoxes *)
Definition fixSvgTag (tag : jsstring) : completion jsstring :=
  match exec false viewBoxCapture tag with
  | None => Normal tag
  | Some viewBoxMatch =>
      bind (groupString 1 viewBoxMatch) (fun box =>
      let numbers := List.map parseFloat (split (ch " ") box) in
      let x := nth_error numbers 0 in
      let y := nth_error numbers 1 in
      let width := nth_error numbers 2 in
      let height := nth_error numbers 3 in
      if gt (toNumber height) (of_Z 0) then Normal tag
      else
        let calculatedHeight := mul (toNumber width) aspectRatio in
        let fixedViewBox :=
          jsq "viewBox='" ++ toStr x ++ js " " ++ toStr y ++ js " " ++
          toStr width ++ js " " ++ Number.toString calculatedHeight ++
          [dquote] in
        Normal (replaceFirst false viewBoxAttribute fixedViewBox tag))
  end.

(** fixMultipleSvgViewBoxes (the version that renders several chords) *)
Definition fixMultipleSvgViewBoxes (htmlContent : value)
  : completion jsstring :=
  bind (thisString htmlContent) (fun content =>
  replaceWith false svgOpeningTag fixSvgTag content).

(** escapeHtml *)
Definition escapeHtml (text : value) : completion jsstring :=
  bind (thisString text) (fun t =>
  let t1 := replaceAll false (Lit (ch "&")) (js "&amp;") t in
  let t2 := replaceAll false (Lit (ch "<")) (js "&lt;") t1 in
  let t3 := replaceAll false (Lit (ch ">")) (js "&gt;") t2 in
  let t4 := replaceAll false (Lit dquote) (js "&quot;") t3 in
  let t5 := replaceAll false (Lit (ch "'")) (js "&#039;") t4 in
  Normal t5).

(** *** normaliseChordData *)

(** ToBoolean *)
Definition toBoolean (v : value) : bool :=
  match v with
  | Undefined | Null => false
  | Bool b => b
  | Num n => truthy n
  | Str s => negb (JsString.eqb s [])
  | Arr _ | Obj _ => true
  end.

Fixpoint lookup (key : jsstring) (props : list (jsstring * value))
  : option value :=
  match props with
  | [] => None
  | (k, v) :: props' =>
      if JsString.eqb k key then Some v else lookup key props'
  end.

(** The array index a key is, when it is one: the decimal text, without
    leading zeros, of an integer from 0 to 2^32 - 2. *)
Definition arrayIndex (key : jsstring) : option Z :=
  match key with
  | [] => None
  | _ =>
      if forallb isDigit key then
        let n := digitsValue key in
        if JsString.eqb (decimalDigits n) key && (n <=? 4294967294)%Z
        then Some n else None
      else None
  end.

(** The place of a new property in the order of the own keys: an array
    index stands before the greater array indices and before the other
    keys, another key comes last. *)
Fixpoint insertProperty (key : jsstring) (v : value)
  (props : list (jsstring * value)) : list (jsstring * value) :=
  match props with
  | [] => [(key, v)]
  | (k, w) :: props' =>
      match arrayIndex key, arrayIndex k with
      | Some n, Some m =>
          if (n <? m)%Z then (key, v) :: props
          else (k, w) :: insertProperty key v props'
      | Some _, None => (key, v) :: props
      | None, _ => (k, w) :: insertProperty key v props'
      end
  end.

Fixpoint updateProperty (key : jsstring) (v : value)
  (props : list (jsstring * value)) : list (jsstring * value) :=
  match props with
  | [] => []
  | (k, w) :: props' =>
      if JsString.eqb k key then (k, v) :: props'
      else (k, w) :: updateProperty key v props'
  end.

(** CreateDataProperty, the properties of an object being listed in the
    order of its own keys (the array indices in ascending order, then
    the other keys in the order of their creation): an existing
    property keeps its place and takes the new value, a new one takes
    the place of its key. *)
Definition setProperty (key : jsstring) (v : value)
  (props : list (jsstring * value)) : list (jsstring * value) :=
  match lookup key props with
  | Some _ => updateProperty key v props
  | None => insertProperty key v props
  end.

Fixpoint indexed (i : nat) (l : list value) : list (jsstring * value) :=
  match l with
  | [] => []
  | v :: l' => (decimalDigits (Z.of_nat i), v) :: indexed (S i) l'
  end.

(** The own enumerable properties copied by a spread [...v]. *)
Definition ownProperties (v : value) : list (jsstring * value) :=
  match v with
  | Obj props => props
  | Arr l => indexed 0 l
  | Str s => indexed 0 (List.map (fun c => Str [c]) s)
  | _ => []
  end.

(** [v.key]: a TypeError on [undefined] and [null]; the properties the
    prototypes provide are not modelled, [barres] is not one of
    them. *)
Definition getProperty (v : value) (key : jsstring) : completion value :=
  match v with
  | Undefined | Null => Throw TypeError
  | Obj props =>
      Normal match lookup key props with Some w => w | None => Undefined end
  | _ => Normal Undefined
  end.

(** [(chord) => ({ barres: chord.barres || [], ...chord })] *)
Definition normaliseChord (chord : value) : completion value :=
  bind (getProperty chord (js "barres")) (fun barres =>
  let initial := [(js "barres", if toBoolean barres then barres else Arr [])] in
  Normal (Obj (fold_left (fun props kv => setProperty (fst kv) (snd kv) props)
                         (ownProperties chord) initial))).

Fixpoint mapM {A B : Type} (f : A -> completion B) (l : list A)
  : completion (list B) :=
  match l with
  | [] => Normal []
  | a :: l' =>
      bind (f a) (fun b => bind (mapM f l') (fun bs => Normal (b :: bs)))
  end.

Definition normaliseChordData (chordData : value) : completion value :=
  match chordData with
  | Arr chords => bind (mapM normaliseChord chords) (fun l => Normal (Arr l))
  | _ => Throw TypeError
  end.

(** *** adaptConfigToChord *)

(** [v[i]]: a TypeError on [undefined] and [null], [undefined] where
    there is no such element. *)
Definition getElement (v : value) (i : nat) : completion value :=
  match v with
  | Undefined | Null => Throw TypeError
  | Arr l => Normal (nth i l Undefined)
  | Str s =>
      Normal match nth_error s i with
             | Some c => Str [c]
             | None => Undefined
             end
  | Obj props =>
      Normal match lookup (decimalDigits (Z.of_nat i)) props with
             | Some w => w
             | None => Undefined
             end
  | _ => Normal Undefined
  end.

(** [v.map(f)]: only an Array has the method. *)
Definition mapArray (v : value) (f : value -> completion value)
  : completion (list value) :=
  match v with
  | Arr l => mapM f l
  | _ => Throw TypeError
  end.

(** The object literal [{ ...v }] *)
Definition spread (v : value) : list (jsstring * value) :=
  fold_left (fun props kv => setProperty (fst kv) (snd kv) props)
            (ownProperties v) [].

(** [(f) => (typeof f[1] === "number" ? f[1] : 0)] *)
Definition fingerFret (f : value) : completion value :=
  bind (getElement f 1) (fun fret =>
  Normal match fret with
         | Num _ => fret
         | _ => Num (of_Z 0)
         end).

(** [(b) => b.fret] *)
Definition barreFret (b : value) : completion value :=
  getProperty b (js "fret").

Definition adaptConfigToChord (chord defaultConfig : value)
  : completion value :=
  bind (getProperty chord (js "fingers")) (fun fingers =>
  bind (mapArray fingers fingerFret) (fun fingerFrets =>
  bind (getProperty chord (js "barres")) (fun barres =>
  bind (mapArray (if toBoolean barres then barres else Arr []) barreFret)
       (fun barreFrets =>
  bind (mathMax (fingerFrets ++ barreFrets ++ [Num (of_Z 3)])) (fun frets =>
  Normal (Obj (setProperty (js "frets") (Num frets)
                           (spread defaultConfig)))))))).

(** The chords of a block and their configurations, as the transformer
    prepares them from the parsed text. *)
Definition prepareChords (parsedData SVGuitarConfig : value)
  : completion (list value * list value) :=
  bind (normaliseChordData
          match parsedData with
          | Arr _ => parsedData
          | _ => Arr [parsedData]
          end) (fun chordDataArray =>
  bind (mapArray chordDataArray
          (fun chord => adaptConfigToChord chord SVGuitarConfig))
       (fun SVGuitarConfigArray =>
  match chordDataArray with
  | Arr chords => Normal (chords, SVGuitarConfigArray)
  | _ => Throw TypeError
  end)).

End RemarkSvguitar.

(* ===================================================================== *)
(** ** plugins/remark-lilypond/index.js *)
(* ===================================================================== *)

Module RemarkLilypond.

Import Number RegExp Js.

Definition notChar (c : char) : regex := Class true [CChar c].
Definition anyChar : regex := Class false [CSpace; CNonSpace].
Definition whiteSpace : regex := Class false [CSpace].

(** The patterns of compactSvg, in the order of the source.  The first
    three carry the flags [gi]. *)

(** [<a[^>]*lilypond\.org[^>]*>[\s\S]*?<\/a>] *)
Definition attributionLink : regex :=
  seqs [lits (js "<a"); Star true (notChar (ch ">")); lits (js "lilypond.org");
        Star true (notChar (ch ">")); Lit (ch ">"); Star false anyChar;
        lits (js "</a>")].

(** [<text[^>]*>[\s\S]*?(?:Music engraving|LilyPond)[\s\S]*?<\/text>] *)
Definition attributionText : regex :=
  seqs [lits (js "<text"); Star true (notChar (ch ">")); Lit (ch ">");
        Star false anyChar;
        Alt (lits (js "Music engraving")) (lits (js "LilyPond"));
        Star false anyChar; lits (js "</text>")].

(** [<g[^>]*>\s*<(?:a|text)[^>]*(?:lilypond|Music engraving)[\s\S]*?<\/g>] *)
Definition attributionGroup : regex :=
  seqs [lits (js "<g"); Star true (notChar (ch ">")); Lit (ch ">");
        Star true whiteSpace; Lit (ch "<");
        Alt (Lit (ch "a")) (lits (js "text"));
        Star true (notChar (ch ">"));
        Alt (lits (js "lilypond")) (lits (js "Music engraving"));
        Star false anyChar; lits (js "</g>")].

(** [<svg[^>]* viewBox=Q([^Q]* )Q[^>]* >], Q the double quote, to be
    read without the blanks *)
Definition svgViewBox : regex :=
  seqs [lits (js "<svg"); Star true (notChar (ch ">")); lits (jsq "viewBox='");
        Group 1 (Star true (notChar dquote)); Lit dquote;
        Star true (notChar (ch ">")); Lit (ch ">")].

(** [\s+] *)
Definition whiteSpaces : regex := Plus true whiteSpace.

(** [transform=Qtranslate\(([^)]+)\)Q], flag [g] *)
Definition translateTransform : regex :=
  seqs [lits (jsq "transform='translate("); Group 1 (Plus true (notChar (ch ")")));
        lits (jsq ")'")].

(** [<line[^>]* x2=Q([^Q]* )Q[^>]* >], flag [g] *)
Definition lineEnd : regex :=
  seqs [lits (js "<line"); Star true (notChar (ch ">")); lits (jsq "x2='");
        Group 1 (Star true (notChar dquote)); Lit dquote;
        Star true (notChar (ch ">")); Lit (ch ">")].

(** [<rect[^>]* x=Q([^Q]* )Q[^>]* width=Q([^Q]* )Q[^>]* >], flag [g] *)
Definition rectExtent : regex :=
  seqs [lits (js "<rect"); Star true (notChar (ch ">")); lits (jsq "x='");
        Group 1 (Star true (notChar dquote)); Lit dquote;
        Star true (notChar (ch ">")); lits (jsq "width='");
        Group 2 (Star true (notChar dquote)); Lit dquote;
        Star true (notChar (ch ">")); Lit (ch ">")].

(** [<g transform=Qtranslate\(([^)]+)\)Q[^>]*>[\s\S]*?<path[^>]*>], flag [g] *)
Definition pathGroup : regex :=
  seqs [lits (jsq "<g transform='translate(");
        Group 1 (Plus true (notChar (ch ")"))); lits (jsq ")'");
        Star true (notChar (ch ">")); Lit (ch ">"); Star false anyChar;
        lits (js "<path"); Star true (notChar (ch ">")); Lit (ch ">")].

(** [(<svg[^>]* viewBox=Q)[^Q]* (Q)], to be read without the blanks *)
Definition svgViewBoxValue : regex :=
  seqs [Group 1 (seqs [lits (js "<svg"); Star true (notChar (ch ">"));
                       lits (jsq "viewBox='")]);
        Star true (notChar dquote); Group 2 (Lit dquote)].

(** [(<svg[^>]* )width=Q[^Q]* Q], to be read without the blanks *)
Definition svgWidth : regex :=
  seqs [Group 1 (seqs [lits (js "<svg"); Star true (notChar (ch ">"))]);
        lits (jsq "width='"); Star true (notChar dquote); Lit dquote].

(** [(<svg[^>]* )height=Q[^Q]* Q], to be read without the blanks *)
Definition svgHeight : regex :=
  seqs [Group 1 (seqs [lits (js "<svg"); Star true (notChar (ch ">"))]);
        lits (jsq "height='"); Star true (notChar dquote); Lit dquote].

(** The first three statements of compactSvg: the removal of the
    attribution elements. *)
Definition removeAttribution (svgContent : jsstring) : jsstring :=
  let s1 := replaceAll true attributionLink [] svgContent in
  let s2 := replaceAll true attributionText [] s1 in
  replaceAll true attributionGroup [] s2.

(** The running content bounds *)
Record bounds : Type := Bounds {
  minX : number; maxX : number; minY : number; maxY : number
}.

Definition noBounds : bounds :=
  Bounds Infinity NegInfinity Infinity NegInfinity.

(** [match[1].split(",").map((s) => parseFloat(s.trim()))] *)
Definition coordinates (m : matchResult) : completion (list number) :=
  bind (groupString 1 m) (fun g =>
  Normal (List.map (fun s => parseFloat (trim s)) (split (ch ",") g))).

Fixpoint foldM {A B : Type} (f : B -> A -> completion B) (l : list A) (b : B)
  : completion B :=
  match l with
  | [] => Normal b
  | a :: l' => bind (f b a) (foldM f l')
  end.

Definition transformStep (b : bounds) (m : matchResult) : completion bounds :=
  bind (coordinates m) (fun coords =>
  match coords with
  | c0 :: c1 :: _ =>
      Normal (Bounds (min (minX b) c0) (max (maxX b) c0)
                     (min (minY b) c1) (max (maxY b) c1))
  | _ => Normal b
  end).

Definition lineStep (b : bounds) (m : matchResult) : completion bounds :=
  let x2 := parseFloat (groupOrUndefined 1 m) in
  if negb (isNaN x2)
  then Normal (Bounds (minX b) (max (maxX b) x2) (minY b) (maxY b))
  else Normal b.

(** [parseFloat(v) || 0] *)
Definition orZero (x : number) : number := if truthy x then x else of_Z 0.

Definition rectStep (b : bounds) (m : matchResult) : completion bounds :=
  let x := orZero (parseFloat (groupOrUndefined 1 m)) in
  let width := orZero (parseFloat (groupOrUndefined 2 m)) in
  Normal (Bounds (minX b) (max (maxX b) (add x width)) (minY b) (maxY b)).

Definition pathGroupStep (b : bounds) (m : matchResult) : completion bounds :=
  bind (coordinates m) (fun coords =>
  match coords with
  | c0 :: _ :: _ =>
      Normal (Bounds (minX b) (max (maxX b) (add c0 (of_Z 2))) (minY b) (maxY b))
  | _ => Normal b
  end).

(** The four scans of the content-bounds estimate *)
Definition contentBounds (svgContent : jsstring) : completion bounds :=
  bind (foldM transformStep (matchAll false translateTransform svgContent)
              noBounds) (fun b1 =>
  bind (foldM lineStep (matchAll false lineEnd svgContent) b1) (fun b2 =>
  bind (foldM rectStep (matchAll false rectExtent svgContent) b2) (fun b3 =>
  foldM pathGroupStep (matchAll false pathGroup svgContent) b3))).

(** The guard of the rewrite: the estimate is used only when it has a
    left edge, a top edge and a right edge. *)
Definition hasEstimate (b : bounds) : bool :=
  lt (minX b) Infinity && lt (minY b) Infinity && gt (maxX b) NegInfinity.

(** The rewrite of the [svg] element from the estimate *)
Definition applyBounds (b : bounds) (svgContent : jsstring) : jsstring :=
  let padding := of_Z 5 in
  let contentX := max (of_Z 0) (sub (minX b) padding) in
  let contentY := max (of_Z 0) (sub (minY b) padding) in
  let contentWidth := add (sub (maxX b) (minX b)) (mul (of_Z 2) padding) in
  let contentHeight := add (sub (maxY b) (minY b)) (mul (of_Z 2) padding) in
  let newViewBox :=
    Number.toString contentX ++ js " " ++ Number.toString contentY ++ js " " ++
    Number.toString contentWidth ++ js " " ++ Number.toString contentHeight in
  let s1 := replaceFirst false svgViewBoxValue
              (js "$1" ++ newViewBox ++ js "$2") svgContent in
  let s2 := replaceFirst false svgWidth (jsq "$1width='100%'") s1 in
  replaceFirst false svgHeight
    (jsq "$1height='" ++ toFixed contentHeight 2 ++ [dquote]) s2.

(** The rest of compactSvg: the crop to the content bounds. *)
Definition cropToContent (svgContent : jsstring) : completion jsstring :=
  match exec false svgViewBox svgContent with
  | None => Normal svgContent
  | Some svgMatch =>
      bind (groupString 1 svgMatch) (fun box =>
      let viewBox := List.map parseFloat (splitRe false whiteSpaces box) in
      if Nat.eqb (List.length viewBox) 4 then
        bind (contentBounds svgContent) (fun b =>
        if hasEstimate b then Normal (applyBounds b svgContent)
        else Normal svgContent)
      else Normal svgContent)
  end.

Definition compactSvg (svgContent : value) : completion jsstring :=
  bind (thisString svgContent) (fun content =>
  cropToContent (removeAttribution content)).

(** escapeHtml *)
Definition escapeHtml (text : value) : completion jsstring :=
  bind (thisString text) (fun t =>
  let t1 := replaceAll false (Lit (ch "&")) (js "&amp;") t in
  let t2 := replaceAll false (Lit (ch "<")) (js "&lt;") t1 in
  let t3 := replaceAll false (Lit (ch ">")) (js "&gt;") t2 in
  let t4 := replaceAll false (Lit dquote) (js "&quot;") t3 in
  let t5 := replaceAll false (Lit (ch "'")) (js "&#039;") t4 in
  Normal t5).

(** *** isLilyPondNotFound and parseLilyPondError *)

(** What the catch clause reads off the value it caught: [error.message]
    and [error.code].  The value caught is taken to be an object, as
    the errors of lilynode, of puppeteer and of the engine are; a
    property it does not have reads as [undefined]. *)
Record caught : Type := Caught { message : value; code : value }.

Definition lineFeed : char := 10%N.

Definition isLilyPondNotFound (error : caught) : completion bool :=
  bind (includesMethod (message error) (js "not found")) (fun notFound =>
  if notFound then Normal true
  else
    bind (includesMethod (message error) (js "ENOENT")) (fun enoent =>
    if enoent then Normal true
    else Normal (strictEqualsString (code error) (js "ENOENT")))).

Definition notFoundText : jsstring :=
  js "LilyPond executable not found in PATH".

Definition isErrorLine (line : jsstring) : bool :=
  includes (js "error:") line ||
  includes (js "warning:") line ||
  includes (js "programming error:") line ||
  includes (js "fatal error:") line.

Definition parseLilyPondError (errorMessage : value) : completion jsstring :=
  bind (includesMethod errorMessage (js "not found")) (fun notFound =>
  bind (if notFound then Normal true
        else includesMethod errorMessage (js "ENOENT")) (fun missing =>
  if missing then Normal notFoundText
  else
    bind (thisString errorMessage) (fun text =>
    let lines := split lineFeed text in
    let errorLines := List.filter isErrorLine lines in
    if Nat.ltb 0 (List.length errorLines)
    then Normal (join [lineFeed] errorLines)
    else Normal text))).

End RemarkLilypond.
(* ===================================================================== *)
(** ** The code blocks of a tree *)
(* ===================================================================== *)

Module Mdast.

Import Js.

(** The transformers see the tree through the calls of the visitor of
    [visit(tree, "code", ...)]: the code nodes in the order of the
    traversal, each with its own place [parent.children[index]].  A
    code node is read through [node.lang] and [node.value]. *)
Record codeNode : Type := CodeNode { lang : value; text : jsstring }.

(** What stands at the place of a code node: the node, or the html node
    [{ type: "html", value }] written over it. *)
Inductive child : Type :=
| Code (node : codeNode)
| Html (html : jsstring).

(** [parent.children[index] = ...], the places numbered as the code
    nodes are *)
Fixpoint setChild (index : nat) (c : child) (children : list child)
  : list child :=
  match children, index with
  | [], _ => []
  | _ :: rest, O => c :: rest
  | x :: rest, S i => x :: setChild i c rest
  end.

(** The visitor: [if (node.lang === name) codeBlocks.push(...)] *)
Fixpoint collectFrom (name : jsstring) (index : nat) (nodes : list codeNode)
  : list (nat * codeNode) :=
  match nodes with
  | [] => []
  | node :: rest =>
      if strictEqualsString (lang node) name
      then (index, node) :: collectFrom name (S index) rest
      else collectFrom name (S index) rest
  end.

Definition collect (name : jsstring) (nodes : list codeNode)
  : list (nat * codeNode) :=
  collectFrom name 0 nodes.

(** What the catch clause reads off the value it caught. *)
Definition caught : Type := RemarkLilypond.caught.

(** How the body of the loop over the code blocks ends for one block:
    the place of the block is written, or left, and the loop goes on;
    the transformer returns; an exception leaves the transformer. *)
Inductive action : Type :=
| Replace (html : jsstring)
| Keep
| Return
| Rethrow (error : caught).

(** How the loop ends *)
Inductive loopEnd : Type :=
| Done
| Returned
| Threw (error : caught).

(** How the promise of the transformer is settled *)
Inductive outcome : Type :=
| Fulfilled
| Rejected (error : caught).

Section Loop.

Variable state : Type.

(** The body of the loop, for the block of a given rank *)
Variable processBlock : nat -> codeNode -> state -> action * state.

(** [for (... of codeBlocks) { try { ... } catch (error) { ... } }] *)
Fixpoint forEachBlock (blockIndex : nat) (codeBlocks : list (nat * codeNode))
  (children : list child) (st : state) : list child * state * loopEnd :=
  match codeBlocks with
  | [] => (children, st, Done)
  | (index, node) :: rest =>
      match processBlock blockIndex node st with
      | (Replace html, st') =>
          forEachBlock (S blockIndex) rest
                       (setChild index (Html html) children) st'
      | (Keep, st') => forEachBlock (S blockIndex) rest children st'
      | (Return, st') => (children, st', Returned)
      | (Rethrow error, st') => (children, st', Threw error)
      end
  end.

End Loop.

End Mdast.

(* ===================================================================== *)
(** ** The transformer of remark-lilypond *)
(* ===================================================================== *)

Module LilypondTransformer.

Import Number RegExp Js Mdast.
Import RemarkSvguitar RemarkLilypond.

(** The options, destructured: a default stands for a property that is
    [undefined]. *)
Record settings : Type := Settings {
  binaryPath : value;
  errorInline : value;
  skipOnMissing : value;
  compact : value
}.

Definition orDefault (v default : value) : value :=
  match v with
  | Undefined => default
  | _ => v
  end.

(** [remarkLilypond(options = {})], up to the transformer it returns *)
Definition remarkLilypond (options : value) : completion settings :=
  let options := orDefault options (Obj []) in
  bind (getProperty options (js "binaryPath")) (fun binaryPath =>
  bind (getProperty options (js "errorInline")) (fun errorInline =>
  bind (getProperty options (js "skipOnMissing")) (fun skipOnMissing =>
  bind (getProperty options (js "compact")) (fun compact =>
  Normal (Settings (orDefault binaryPath (Str (js "lilypond")))
                   (orDefault errorInline (Bool false))
                   (orDefault skipOnMissing (Bool false))
                   (orDefault compact (Bool true))))))).

(** The text put in front of the code in compact mode *)
Definition paperBlock : jsstring :=
  js "\paper {" ++ lineFeed ::
  js "            indent = 0" ++ lineFeed ::
  js "            ragged-right = ##t" ++ lineFeed ::
  js "            right-margin = 0" ++ lineFeed ::
  js "            left-margin = 0" ++ lineFeed ::
  js "          }" ++ lineFeed ::
  jsq "\header { tagline = '' }" ++ [lineFeed].

(** The two inline error texts *)
Definition notFoundHtml : jsstring :=
  jsq "<div class='lilypond-error'>" ++ lineFeed ::
  js "                <strong>LilyPond Not Found:</strong> Please install LilyPond to render musical notation.<br>" ++ lineFeed ::
  jsq "                <small>Install from <a href='https://lilypond.org/download.html' target='_blank'>lilypond.org</a> or use your package manager.</small>" ++ lineFeed ::
  js "              </div>".

Definition compileErrorOpen : jsstring :=
  jsq "<div class='lilypond-error'>" ++ lineFeed ::
  js "                <strong>LilyPond Compilation Error:</strong><br>" ++ lineFeed ::
  js "                <pre>".

Definition compileErrorClose : jsstring :=
  js "</pre>" ++ lineFeed ::
  js "              </div>".

(** The answer of lilynode to a call of render: the content of the
    buffer, or the error the call is rejected with. *)
Inductive rendered : Type :=
| Rendered (svg : jsstring)
| RenderFailed (error : caught).

(** A call of render: the code and the binary path *)
Definition call : Type := (jsstring * value)%type.

Section Run.

(** The answer to the k-th call of render of the run *)
Variable respond : nat -> rendered.

(** What the catch clause reads off an exception of the engine *)
Variable thrown : error -> caught.

(** The catch clause of the loop.  The lines written with
    console.error and console.warn are left out; the text of the
    warning is made first, with the ToString of the binary path. *)
Definition handleError (s : settings) (error : caught) : action :=
  match parseLilyPondError (message error) with
  | Throw e => Rethrow (thrown e)
  | Normal errorMessage =>
      match (if toBoolean (skipOnMissing s) then isLilyPondNotFound error
             else Normal false) with
      | Throw e => Rethrow (thrown e)
      | Normal true =>
          match toStringValue (binaryPath s) with
          | Throw e => Rethrow (thrown e)
          | Normal _ => Return
          end
      | Normal false =>
          if toBoolean (errorInline s) then
            match isLilyPondNotFound error with
            | Throw e => Rethrow (thrown e)
            | Normal true => Replace notFoundHtml
            | Normal false =>
                match escapeHtml (Str errorMessage) with
                | Throw e => Rethrow (thrown e)
                | Normal escaped =>
                    Replace (compileErrorOpen ++ escaped ++ compileErrorClose)
                end
            end
          else Keep
      end
  end.

(** The body of the loop: the calls of render so far are the state. *)
Definition processBlock (s : settings) (blockIndex : nat) (node : codeNode)
  (calls : list call) : action * list call :=
  let lilypondCode :=
    if toBoolean (compact s) then paperBlock ++ text node else text node in
  let calls' := calls ++ [(lilypondCode, binaryPath s)] in
  match respond (List.length calls) with
  | Rendered svg =>
      match (if toBoolean (compact s) then compactSvg (Str svg)
             else Normal svg) with
      | Normal svgContent => (Replace svgContent, calls')
      | Throw e => (handleError s (thrown e), calls')
      end
  | RenderFailed error => (handleError s error, calls')
  end.

Definition transformer (s : settings) (nodes : list codeNode)
  (calls : list call) : list child * list call * outcome :=
  let codeBlocks := collect (js "lilypond") nodes in
  let children := List.map Code nodes in
  if Nat.eqb (List.length codeBlocks) 0 then (children, calls, Fulfilled)
  else
    match forEachBlock (processBlock s) 0 codeBlocks children calls with
    | (children', calls', Threw error) => (children', calls', Rejected error)
    | (children', calls', _) => (children', calls', Fulfilled)
    end.

End Run.

End LilypondTransformer.

(* ===================================================================== *)
(** ** The transformer of remark-svguitar *)
(* ===================================================================== *)

Module SvguitarTransformer.

Import Number RegExp Js Mdast.
Import RemarkLilypond RemarkSvguitar.

(** The options, destructured *)
Record settings : Type := Settings {
  errorInline : value;
  skipOnMissing : value;
  puppeteerOptions : value;
  SVGuitarConfig : value;
  keepAlive : value
}.

Definition orDefault (v default : value) : value :=
  match v with
  | Undefined => default
  | _ => v
  end.

(** [remarkSvguitar(options = {})], up to the transformer it returns *)
Definition remarkSvguitar (options : value) : completion settings :=
  let options := orDefault options (Obj []) in
  bind (getProperty options (js "errorInline")) (fun errorInline =>
  bind (getProperty options (js "skipOnMissing")) (fun skipOnMissing =>
  bind (getProperty options (js "puppeteerOptions")) (fun puppeteerOptions =>
  bind (getProperty options (js "SVGuitarConfig")) (fun SVGuitarConfig =>
  bind (getProperty options (js "keepAlive")) (fun keepAlive =>
  Normal (Settings (orDefault errorInline (Bool false))
                   (orDefault skipOnMissing (Bool false))
                   (orDefault puppeteerOptions (Obj []))
                   (orDefault SVGuitarConfig (Obj []))
                   (orDefault keepAlive (Bool false)))))))).

(** createErrorNode: the value of the html node it returns *)
Definition createErrorNode (errorMessage : value) : completion jsstring :=
  bind (escapeHtml errorMessage) (fun escaped =>
  Normal (jsq "<div class='svguitar-error'>" ++ lineFeed ::
          js "    <strong>SVGuitar Error:</strong><br>" ++ lineFeed ::
          js "    <pre>" ++ escaped ++ js "</pre>" ++ lineFeed ::
          js "  </div>")).

(** The argument of puppeteer.launch:
    [{ headless: true, args: [...], ...puppeteerOptions }] *)
Definition launchOptions (s : settings) : value :=
  Obj (fold_left (fun props kv => setProperty (fst kv) (snd kv) props)
         (ownProperties (puppeteerOptions s))
         [(js "headless", Bool true);
          (js "args", Arr [Str (js "--no-sandbox");
                           Str (js "--disable-setuid-sandbox")])]).

(** What the plugin asks of puppeteer, in order: a launch; the page of
    a block, with what renderChordsWithPuppeteer is given; the close of
    a browser.  A browser is named by the number of events before the
    launch that gave it.  The runs of the transformer are taken one
    after the other: no run starts while another one awaits. *)
Definition browser : Type := nat.

Inductive event : Type :=
| Launch (options : value)
| Render (chordDataArray SVGuitarConfigArray : list value) (blockId : nat)
| Close (b : browser).

(** The module variable [browserInstance] and the events so far *)
Record world : Type := World {
  browserInstance : option browser;
  events : list event
}.

Definition log (e : event) (w : world) : world :=
  World (browserInstance w) (events w ++ [e]).

(** The answers of the outside: of JSON.parse, of puppeteer.launch, of
    the page of a block (the outerHTML of the chord container once
    every chord has its svg and the page is closed, or the error one of
    the steps is rejected with), of browser.close. *)
Inductive parsed : Type :=
| Parsed (parsedData : value)
| SyntaxError (parseError : caught).

Inductive launched : Type :=
| Launched
| LaunchFailed (error : caught).

Inductive page : Type :=
| Page (combinedContent : jsstring)
| PageFailed (error : caught).

Section Run.

Variable jsonParse : jsstring -> parsed.

(** The answers to what is asked after [k] events *)
Variable launch : nat -> launched.
Variable renderPage : nat -> page.
Variable close : nat -> option caught.

(** What the catch clause reads off an exception of the engine *)
Variable thrown : error -> caught.

(** closeBrowser *)
Definition closeBrowser (w : world) : world * option caught :=
  match browserInstance w with
  | Some b =>
      match close (List.length (events w)) with
      | None => (World None (events w ++ [Close b]), None)
      | Some error => (log (Close b) w, Some error)
      end
  | None => (w, None)
  end.

(** renderChordsWithPuppeteer *)
Definition renderChordsWithPuppeteer
  (chordDataArray SVGuitarConfigArray : list value) (blockId : nat)
  (w : world) : (jsstring + caught) * world :=
  let w' := log (Render chordDataArray SVGuitarConfigArray blockId) w in
  match renderPage (List.length (events w)) with
  | Page combinedContent =>
      match fixMultipleSvgViewBoxes (Str combinedContent) with
      | Normal fixedSvgContent => (inl fixedSvgContent, w')
      | Throw e => (inr (thrown e), w')
      end
  | PageFailed error => (inr error, w')
  end.

(** The catch clause of the loop (without the line written with
    console.error) *)
Definition handleError (s : settings) (error : caught) : action :=
  match toStringValue (message error) with
  | Throw e => Rethrow (thrown e)
  | Normal text =>
      let errorMessage := js "SVGuitar rendering error: " ++ text in
      if toBoolean (errorInline s) then
        match createErrorNode (Str errorMessage) with
        | Normal errorHtml => Replace errorHtml
        | Throw e => Rethrow (thrown e)
        end
      else Keep
  end.

(** [throw new Error(`Invalid JSON in SVGuitar block: ...`)], in the
    catch clause of JSON.parse: what the catch clause of the loop
    catches, the new error, or the exception of the ToString of the
    message. *)
Definition invalidJson (parseError : caught) : caught :=
  match toStringValue (message parseError) with
  | Normal text =>
      Caught (Str (js "Invalid JSON in SVGuitar block: " ++ text)) Undefined
  | Throw e => thrown e
  end.

(** The body of the loop *)
Definition processBlock (s : settings) (blockIndex : nat) (node : codeNode)
  (w : world) : action * world :=
  match jsonParse (trim (text node)) with
  | SyntaxError parseError => (handleError s (invalidJson parseError), w)
  | Parsed parsedData =>
      match prepareChords parsedData (SVGuitarConfig s) with
      | Throw e => (handleError s (thrown e), w)
      | Normal (chordDataArray, SVGuitarConfigArray) =>
          match renderChordsWithPuppeteer chordDataArray SVGuitarConfigArray
                                          blockIndex w with
          | (inl svgContent, w') => (Replace svgContent, w')
          | (inr error, w') => (handleError s error, w')
          end
      end
  end.

(** The loop of the launch failure: every block takes the error node. *)
Definition launchFailedBlock (blockIndex : nat) (node : codeNode) (w : world)
  : action * world :=
  match createErrorNode (Str (js "Failed to launch Puppeteer browser")) with
  | Normal errorHtml => (Replace errorHtml, w)
  | Throw e => (Rethrow (thrown e), w)
  end.

Definition settle (r : list child * world * loopEnd)
  : list child * world * outcome :=
  match r with
  | (children, w, Threw error) => (children, w, Rejected error)
  | (children, w, _) => (children, w, Fulfilled)
  end.

Definition transformer (s : settings) (nodes : list codeNode) (w : world)
  : list child * world * outcome :=
  let codeBlocks := collect (js "svguitar") nodes in
  let children := List.map Code nodes in
  if Nat.eqb (List.length codeBlocks) 0 then (children, w, Fulfilled)
  else
    let started :=
      match browserInstance w with
      | Some _ => inl w
      | None =>
          match launch (List.length (events w)) with
          | Launched =>
              inl (World (Some (List.length (events w)))
                         (events w ++ [Launch (launchOptions s)]))
          | LaunchFailed error => inr (log (Launch (launchOptions s)) w)
          end
      end in
    match started with
    | inr w' =>
        if toBoolean (skipOnMissing s) then (children, w', Fulfilled)
        else if toBoolean (errorInline s)
        then settle (forEachBlock launchFailedBlock 0 codeBlocks children w')
        else (children, w', Fulfilled)
    | inl w' =>
        match forEachBlock (processBlock s) 0 codeBlocks children w' with
        | (children', w'', Done) =>
            if toBoolean (keepAlive s) then (children', w'', Fulfilled)
            else
              match closeBrowser w'' with
              | (w''', None) => (children', w''', Fulfilled)
              | (w''', Some error) => (children', w''', Rejected error)
              end
        | r => settle r
        end
    end.

End Run.

End SvguitarTransformer.

(* ===================================================================== *)
(** ** The transformer of the first remark-svguitar *)
(* ===================================================================== *)

(** The first version of the plugin (unnamed/part_001, lines 1 to
    336) draws one chord for a block, with fixSvgViewBox for the
    viewBox, and never closes its browser.  Its createErrorNode and
    escapeHtml are those of the later version, letter for letter. *)
Module SvguitarSingle.

Import Number RegExp Js Mdast.
Import RemarkLilypond RemarkSvguitar.

(** The options, destructured *)
Record settings : Type := Settings {
  errorInline : value;
  skipOnMissing : value;
  puppeteerOptions : value
}.

(** [remarkSvguitar(options = {})], up to the transformer it returns *)
Definition remarkSvguitar (options : value) : completion settings :=
  let options := SvguitarTransformer.orDefault options (Obj []) in
  bind (getProperty options (js "errorInline")) (fun errorInline =>
  bind (getProperty options (js "skipOnMissing")) (fun skipOnMissing =>
  bind (getProperty options (js "puppeteerOptions")) (fun puppeteerOptions =>
  Normal (Settings
            (SvguitarTransformer.orDefault errorInline (Bool false))
            (SvguitarTransformer.orDefault skipOnMissing (Bool false))
            (SvguitarTransformer.orDefault puppeteerOptions (Obj [])))))).

Definition createErrorNode : value -> completion jsstring :=
  SvguitarTransformer.createErrorNode.

(** The argument of puppeteer.launch *)
Definition launchOptions (s : settings) : value :=
  Obj (fold_left (fun props kv => setProperty (fst kv) (snd kv) props)
         (ownProperties (puppeteerOptions s))
         [(js "headless", Bool true);
          (js "args", Arr [Str (js "--no-sandbox");
                           Str (js "--disable-setuid-sandbox")])]).

(** What the plugin asks of puppeteer, in order: a launch, the page of
    a block with its chord.  A browser is named by the number of events
    before the launch that gave it.  The answers of JSON.parse and of
    puppeteer are of the types of the later version. *)
Definition browser : Type := nat.

Inductive event : Type :=
| Launch (options : value)
| Render (chordData : value).

Record world : Type := World {
  browserInstance : option browser;
  events : list event
}.

Definition log (e : event) (w : world) : world :=
  World (browserInstance w) (events w ++ [e]).

Section Run.

Variable jsonParse : jsstring -> SvguitarTransformer.parsed.

(** The answers to what is asked after [k] events: the launch, and the
    page of a block (the outerHTML of the svg of the chord container
    once the page is closed, or the error one of the steps is rejected
    with) *)
Variable launch : nat -> SvguitarTransformer.launched.
Variable renderPage : nat -> SvguitarTransformer.page.

(** What the catch clause reads off an exception of the engine *)
Variable thrown : error -> caught.

(** renderChordWithPuppeteer *)
Definition renderChordWithPuppeteer (chordData : value) (w : world)
  : (jsstring + caught) * world :=
  let w' := log (Render chordData) w in
  match renderPage (List.length (events w)) with
  | SvguitarTransformer.Page svgContent =>
      match fixSvgViewBox (Str svgContent) with
      | Normal fixedSvgContent => (inl fixedSvgContent, w')
      | Throw e => (inr (thrown e), w')
      end
  | SvguitarTransformer.PageFailed error => (inr error, w')
  end.

(** The catch clause of the loop (without the line written with
    console.error) *)
Definition handleError (s : settings) (error : caught) : action :=
  match toStringValue (message error) with
  | Throw e => Rethrow (thrown e)
  | Normal text =>
      let errorMessage := js "SVGuitar rendering error: " ++ text in
      if toBoolean (errorInline s) then
        match createErrorNode (Str errorMessage) with
        | Normal errorHtml => Replace errorHtml
        | Throw e => Rethrow (thrown e)
        end
      else Keep
  end.

(** [throw new Error(`Invalid JSON in SVGuitar block: ...`)], in the
    catch clause of JSON.parse: what the catch clause of the loop
    catches, the new error, or the exception of the ToString of the
    message. *)
Definition invalidJson (parseError : caught) : caught :=
  match toStringValue (message parseError) with
  | Normal text =>
      Caught (Str (js "Invalid JSON in SVGuitar block: " ++ text)) Undefined
  | Throw e => thrown e
  end.

(** The body of the loop; the rank of the block is not used. *)
Definition processBlock (s : settings) (blockIndex : nat) (node : codeNode)
  (w : world) : action * world :=
  match jsonParse (trim (text node)) with
  | SvguitarTransformer.SyntaxError parseError =>
      (handleError s (invalidJson parseError), w)
  | SvguitarTransformer.Parsed chordData =>
      match renderChordWithPuppeteer chordData w with
      | (inl svgContent, w') => (Replace svgContent, w')
      | (inr error, w') => (handleError s error, w')
      end
  end.

(** The loop of the launch failure: every block takes the error node. *)
Definition launchFailedBlock (blockIndex : nat) (node : codeNode) (w : world)
  : action * world :=
  match createErrorNode (Str (js "Failed to launch Puppeteer browser")) with
  | Normal errorHtml => (Replace errorHtml, w)
  | Throw e => (Rethrow (thrown e), w)
  end.

Definition settle (r : list child * world * loopEnd)
  : list child * world * outcome :=
  match r with
  | (children, w, Threw error) => (children, w, Rejected error)
  | (children, w, _) => (children, w, Fulfilled)
  end.

Definition transformer (s : settings) (nodes : list codeNode) (w : world)
  : list child * world * outcome :=
  let codeBlocks := collect (js "svguitar") nodes in
  let children := List.map Code nodes in
  if Nat.eqb (List.length codeBlocks) 0 then (children, w, Fulfilled)
  else
    let started :=
      match browserInstance w with
      | Some _ => inl w
      | None =>
          match launch (List.length (events w)) with
          | SvguitarTransformer.Launched =>
              inl (World (Some (List.length (events w)))
                         (events w ++ [Launch (launchOptions s)]))
          | SvguitarTransformer.LaunchFailed error =>
              inr (log (Launch (launchOptions s)) w)
          end
      end in
    match started with
    | inr w' =>
        if toBoolean (skipOnMissing s) then (children, w', Fulfilled)
        else if toBoolean (errorInline s)
        then settle (forEachBlock launchFailedBlock 0 codeBlocks children w')
        else (children, w', Fulfilled)
    | inl w' => settle (forEachBlock (processBlock s) 0 codeBlocks children w')
    end.

End Run.

End SvguitarSingle.

(* ===================================================================== *)
(** ** The vocabulary of the statements *)
(* ===================================================================== *)

Module Statements.

Import Number RegExp Js.

(** *** Matches *)

(** [t] is what is left of [s] after some prefix. *)
Definition isSuffix (t s : jsstring) : Prop := exists p, s = p ++ t.

(** Group [i] takes part in every match of [r]. *)
Fixpoint binds (i : nat) (r : regex) : bool :=
  match r with
  | Empty | Lit _ | Class _ _ | Star _ _ => false
  | Seq r1 r2 => binds i r1 || binds i r2
  | Alt r1 r2 => binds i r1 && binds i r2
  | Plus _ r1 => binds i r1
  | Group j r1 => Nat.eqb i j || binds i r1
  end.

(** Group [i] has a value in [caps]. *)
Definition bound (i : nat) (caps : captures) : Prop := capture i caps <> None.

(** Whatever a matcher answers, it has it from its continuation,
    called on a suffix of the input, with the groups of [r] bound and
    none of the earlier ones lost. *)
Definition sound (R : Type) (r : regex)
  (step : jsstring -> captures -> cont R -> option R) : Prop :=
  forall s caps k x,
    step s caps k = Some x ->
    exists s' caps',
      k s' caps' = Some x /\ isSuffix s' s /\
      forall i, binds i r = true \/ bound i caps -> bound i caps'.

(** The occurrence of [p] right after [pre] is the first one: no earlier
    position of [pre ++ p] starts with [p]. *)
Fixpoint firstAt (p pre : jsstring) : bool :=
  match pre with
  | [] => true
  | _ :: pre' => negb (startsWith p (pre ++ p)) && firstAt p pre'
  end.

(** [m], found in what follows [pre], seen from the start of the input. *)
Definition prepend (pre : jsstring) (m : matchResult) : matchResult :=
  MatchResult (pre ++ before m) (matched m) (groups m) (after m).

(** The continuation [k] tried where each non-empty suffix of [run]
    starts, from the right to the left: the way back of a greedy star. *)
Fixpoint retreat (R : Type) (k : cont R) (caps : captures)
  (run t : jsstring) : option R :=
  match run with
  | [] => None
  | c :: run' =>
      match retreat k caps run' t with
      | Some x => Some x
      | None => k (run ++ t) caps
      end
  end.

(** *** The viewBox repair of the svguitar plugin *)

Import RemarkSvguitar.

(** The text that opens a viewBox attribute *)
Definition viewBoxOpen : jsstring := jsq "viewBox='".

(** The rewritten attribute *)
Definition synthesized (x y w : jsstring) : jsstring :=
  viewBoxOpen ++ Number.toString (parseFloat x) ++ js " " ++
  Number.toString (parseFloat y) ++ js " " ++
  Number.toString (parseFloat w) ++ js " " ++
  Number.toString (mul (parseFloat w) aspectRatio) ++ [dquote].

(** What the repair writes in the place of a viewBox attribute whose
    value is [box] *)
Definition repairedAttribute (box : jsstring) : jsstring :=
  let numbers := List.map parseFloat (split (ch " ") box) in
  let x := nth_error numbers 0 in
  let y := nth_error numbers 1 in
  let width := nth_error numbers 2 in
  let height := nth_error numbers 3 in
  if gt (toNumber height) (of_Z 0) then viewBoxOpen ++ box ++ [dquote]
  else
    viewBoxOpen ++ toStr x ++ js " " ++ toStr y ++ js " " ++
    toStr width ++ js " " ++
    Number.toString (mul (toNumber width) aspectRatio) ++ [dquote].

(** A container as the batch repair sees it: pieces of text, each one
    followed by an opening tag [<svg attrs>], and a tail. *)
Record segment : Type := Segment { text : jsstring; attrs : jsstring }.

(** The text that opens an svg tag *)
Definition svgOpen : jsstring := js "<svg".

Definition openingTag (a : jsstring) : jsstring := svgOpen ++ a ++ [ch ">"].

(** The tag of a segment is the first [<svg] of the segment, and its
    attributes end at the first [>]. *)
Definition wellFormed (g : segment) : bool :=
  firstAt svgOpen (text g) && negb (existsb (N.eqb (ch ">")) (attrs g)).

Fixpoint container (segs : list segment) (tail : jsstring) : jsstring :=
  match segs with
  | [] => tail
  | g :: segs' => text g ++ openingTag (attrs g) ++ container segs' tail
  end.

Fixpoint rebuilt (segs : list segment) (tags : list jsstring)
  (tail : jsstring) : jsstring :=
  match segs, tags with
  | g :: segs', t :: tags' => text g ++ t ++ rebuilt segs' tags' tail
  | _, _ => tail
  end.

(** What the repair of one opening tag is, in terms of the tag alone. *)
Definition repairedTag (tag tag' : jsstring) : Prop :=
  (includes viewBoxOpen tag = false -> tag' = tag) /\
  forall pre box post x y w h rest,
    tag = pre ++ viewBoxOpen ++ box ++ dquote :: post ->
    firstAt viewBoxOpen pre = true ->
    ~ In dquote box ->
    split (ch " ") box = x :: y :: w :: h :: rest ->
    tag' = if gt (parseFloat h) (of_Z 0) then tag
           else pre ++ synthesized x y w ++ post.

(** *** The crop of the lilypond plugin *)

Import RemarkLilypond.

(** The text that opens a translate transform *)
Definition translateOpen : jsstring := jsq "transform='translate(".

(** The fragment carries one of the positional hints the scan looks
    for. *)
Definition hintPresent (s : jsstring) : Prop :=
  matchAll false translateTransform s <> [] \/
  matchAll false lineEnd s <> [] \/
  matchAll false rectExtent s <> [] \/
  matchAll false pathGroup s <> [].

(** The scan ends with an estimate that passes the guard. *)
Definition estimateProduced (s : jsstring) : Prop :=
  exists b, contentBounds s = Normal b /\ hasEstimate b = true.

(** The origin of a translate transform: its first two coordinates,
    when it has two or more. *)
Definition origin (m : matchResult) : list (number * number) :=
  match coordinates m with
  | Normal (c0 :: c1 :: _) => [(c0, c1)]
  | _ => []
  end.

(** The origins of the translate transforms of the fragment, in the
    order of the text *)
Definition origins (s : jsstring) : list (number * number) :=
  flat_map origin (matchAll false translateTransform s).

(** The end points of the lines: the x2 that parse to a number *)
Definition lineEdges (s : jsstring) : list number :=
  List.filter (fun x2 => negb (isNaN x2))
    (List.map (fun m => parseFloat (groupOrUndefined 1 m))
              (matchAll false lineEnd s)).

(** The right edges of the rects: x plus width, each read as 0 when it
    parses to NaN or to zero *)
Definition rectEdges (s : jsstring) : list number :=
  List.map (fun m => add (orZero (parseFloat (groupOrUndefined 1 m)))
                         (orZero (parseFloat (groupOrUndefined 2 m))))
           (matchAll false rectExtent s).

(** The right edges of the path groups: the x of the origin plus 2 *)
Definition pathEdges (s : jsstring) : list number :=
  List.map (fun o => add (fst o) (of_Z 2))
           (flat_map origin (matchAll false pathGroup s)).

(** Everything the scan takes for a right edge: the x of the origins,
    then the lines, the rects and the path groups. *)
Definition rightEdges (s : jsstring) : list number :=
  List.map fst (origins s) ++ lineEdges s ++ rectEdges s ++ pathEdges s.

(** Math.min and Math.max of a list of numbers *)
Definition least (l : list number) : number := fold_left min l Infinity.
Definition greatest (l : list number) : number :=
  fold_left max l NegInfinity.

(** The bounds the scan ends with *)
Definition estimate (s : jsstring) : bounds :=
  Bounds (least (List.map fst (origins s))) (greatest (rightEdges s))
         (least (List.map snd (origins s)))
         (greatest (List.map snd (origins s))).

(** None of the numbers is NaN. *)
Definition numbers (l : list number) : bool :=
  forallb (fun x => negb (isNaN x)) l.

(** The number is neither NaN nor infinite. *)
Definition finite (x : number) : bool := lt x Infinity && gt x NegInfinity.

(** When the scan ends with an estimate: no y of an origin and no right
    edge is NaN, some x and some y of an origin are below Infinity, and
    some right edge is above -Infinity. *)
Definition estimable (s : jsstring) : bool :=
  numbers (List.map snd (origins s)) && numbers (rightEdges s) &&
  existsb (fun x => lt x Infinity) (List.map fst (origins s)) &&
  existsb (fun y => lt y Infinity) (List.map snd (origins s)) &&
  existsb (fun x => gt x NegInfinity) (rightEdges s).

(** One of the two edges the guard asks for is NaN. *)
Definition edgeLost (b : bounds) : bool := isNaN (minX b) || isNaN (minY b).

(** An opening tag written as a list of attributes, each one a blank,
    a name, the equals sign and a value between double quotes. *)
Definition attribute : Type := (jsstring * jsstring)%type.

Definition render (a : attribute) : jsstring :=
  ch " " :: fst a ++ ch "=" :: dquote :: snd a ++ [dquote].

Definition renderAll (attrs : list attribute) : jsstring :=
  flat_map render attrs.

(** The text that opens the attribute [name] *)
Definition opening (name : jsstring) : jsstring := name ++ [ch "="; dquote].

(** What a name and a value are made of *)
Definition nameChar (c : char) : bool :=
  negb ((c =? ch " ") || (c =? ch "=") || (c =? dquote) || (c =? ch ">"))%N.

Definition valueChar (c : char) : bool :=
  negb ((c =? ch "=") || (c =? dquote) || (c =? ch ">"))%N.

Definition plainAttribute (a : attribute) : bool :=
  forallb nameChar (fst a) && forallb valueChar (snd a).

(** [name] ends no suffix of [run]: [run] does not end with [name]. *)
Fixpoint suffixFree (name run : jsstring) : bool :=
  match run with
  | [] => true
  | _ :: run' => negb (JsString.eqb name run) && suffixFree name run'
  end.

(** No attribute name ends with [name], but [name] itself. *)
Definition distinctName (name : jsstring) (a : attribute) : bool :=
  JsString.eqb name (fst a) || suffixFree name (fst a).

Definition named (name : jsstring) (a : attribute) : bool :=
  JsString.eqb name (fst a).

(** The value of the last attribute called [name] set to [v] *)
Fixpoint setLast (name v : jsstring) (attrs : list attribute)
  : list attribute :=
  match attrs with
  | [] => []
  | a :: attrs' =>
      if existsb (named name) attrs' then a :: setLast name v attrs'
      else if named name a then (fst a, v) :: attrs'
      else a :: attrs'
  end.

(** No suffix of the name of the attribute is [name]: the name does not
    end with [name]. *)
Definition endingFree (name : jsstring) (a : attribute) : bool :=
  suffixFree name (fst a).

(** The value of the last attribute called [name] *)
Fixpoint getLast (name : jsstring) (attrs : list attribute)
  : option jsstring :=
  match attrs with
  | [] => None
  | a :: attrs' =>
      match getLast name attrs' with
      | Some v => Some v
      | None => if named name a then Some (snd a) else None
      end
  end.

(** [p] stands at the start of [s], letter case apart. *)
Fixpoint startsWithAnyCase (p s : jsstring) : bool :=
  match p, s with
  | [], _ => true
  | _ :: _, [] => false
  | x :: p', y :: s' =>
      (canonicalize x =? canonicalize y)%N && startsWithAnyCase p' s'
  end.

(** [p] stands somewhere in [s], letter case apart. *)
Fixpoint mentions (p s : jsstring) : bool :=
  startsWithAnyCase p s ||
  match s with
  | [] => false
  | _ :: s' => mentions p s'
  end.

(** The words one of which every attribution pattern looks for *)
Definition markers : list jsstring := [js "lilypond"; js "music engraving"].

Definition marked (s : jsstring) : bool :=
  existsb (fun p => mentions p s) markers.

(** Every match of [r], letter case ignored, starts in front of a
    marker. *)
Definition requiresMarker (r : regex) : Prop :=
  forall (R : Type) s caps (k : cont R) x,
    matchRe true r s caps k = Some x -> marked s = true.

(** The pattern of svgWidth and of svgHeight, for the attribute
    [name] *)
Definition tagAttribute (name : jsstring) : regex :=
  Seq (Group 1 (Seq (lits svgOpen) (Star true (notChar (ch ">")))))
      (Seq (lits (opening name))
           (Seq (Star true (notChar dquote)) (Lit dquote))).

(** The opening tag of the svg element, after [pre] and before
    [rest] *)
Definition svgElement (pre : jsstring) (attrs : list attribute)
  (rest : jsstring) : jsstring :=
  pre ++ svgOpen ++ renderAll attrs ++ ch ">" :: rest.

(** The attributes are plain and, for each of the three names the crop
    looks for, no other name ends with it. *)
Definition plainTag (attrs : list attribute) : bool :=
  forallb plainAttribute attrs &&
  forallb (distinctName (js "viewBox")) attrs &&
  forallb (distinctName (js "width")) attrs &&
  forallb (distinctName (js "height")) attrs.

(** The viewBox, the width and the height the crop writes *)
Definition croppedViewBox (b : bounds) : jsstring :=
  let padding := of_Z 5 in
  Number.toString (max (of_Z 0) (sub (minX b) padding)) ++ js " " ++
  Number.toString (max (of_Z 0) (sub (minY b) padding)) ++ js " " ++
  Number.toString (add (sub (maxX b) (minX b)) (mul (of_Z 2) padding)) ++
  js " " ++
  Number.toString (add (sub (maxY b) (minY b)) (mul (of_Z 2) padding)).

Definition croppedHeight (b : bounds) : jsstring :=
  toFixed (add (sub (maxY b) (minY b)) (mul (of_Z 2) (of_Z 5))) 2.

Definition croppedAttributes (b : bounds) (attrs : list attribute)
  : list attribute :=
  setLast (js "height") (croppedHeight b)
    (setLast (js "width") (js "100%")
       (setLast (js "viewBox") (croppedViewBox b) attrs)).

(** *** The error messages of the lilypond plugin *)

(** The line carries one of the two words that make a line of LilyPond
    output an error line. *)
Definition mentionsError (line : jsstring) : bool :=
  includes (js "error:") line || includes (js "warning:") line.

(** The message names a missing executable. *)
Definition mentionsMissing (text : jsstring) : bool :=
  includes (js "not found") text || includes (js "ENOENT") text.

(** What parseLilyPondError makes of a message *)
Definition parsedError (text : jsstring) : jsstring :=
  if mentionsMissing text then notFoundText
  else if existsb mentionsError (split lineFeed text)
       then join [lineFeed] (List.filter mentionsError (split lineFeed text))
       else text.

(** *** Number::toString and escapeHtml *)

(** The code units Number::toString writes: none of them is a [$], a
    blank, a double quote or [>]. *)
Definition numeric (c : char) : bool :=
  isDigit c || (c =? ch ".")%N || (c =? ch "e")%N || (c =? ch "+")%N ||
  (c =? ch "-")%N || (c =? ch "N")%N || (c =? ch "a")%N || (c =? ch "I")%N ||
  (c =? ch "n")%N || (c =? ch "f")%N || (c =? ch "i")%N || (c =? ch "t")%N ||
  (c =? ch "y")%N.

(** The replacement of every code unit [c] by the text [rep] *)
Definition substitute (c : char) (rep : jsstring) (s : jsstring) : jsstring :=
  flat_map (fun x => if (x =? c)%N then rep else [x]) s.

(** The entity, if any, that stands for a code unit *)
Definition escapeChar (x : char) : jsstring :=
  if (x =? ch "&")%N then js "&amp;"
  else if (x =? ch "<")%N then js "&lt;"
  else if (x =? ch ">")%N then js "&gt;"
  else if (x =? dquote)%N then js "&quot;"
  else if (x =? ch "'")%N then js "&#039;"
  else [x].

(** The five entities escapeHtml writes *)
Definition entities : list jsstring :=
  [js "&amp;"; js "&lt;"; js "&gt;"; js "&quot;"; js "&#039;"].

(** The five passes of escapeHtml, one after the other *)
Definition passes (s : jsstring) : jsstring :=
  substitute (ch "'") (js "&#039;")
    (substitute dquote (js "&quot;")
       (substitute (ch ">") (js "&gt;")
          (substitute (ch "<") (js "&lt;")
             (substitute (ch "&") (js "&amp;") s)))).

(** *** normaliseChordData *)

(** A chord as JSON.parse gives it: an object, each key once. *)
Definition chordObject (v : value) : Prop :=
  exists props, v = Obj props /\ NoDup (List.map fst props).

(** [chord'] is [chord] with a barres property: the chord's own one
    when it has one, the empty array otherwise; the other properties are
    those of [chord]. *)
Definition withBarres (chord chord' : value) : Prop :=
  exists props props',
    chord = Obj props /\ chord' = Obj props' /\
    lookup (js "barres") props'
    = Some match lookup (js "barres") props with
           | Some v => v
           | None => Arr []
           end /\
    forall k, k <> js "barres" -> lookup k props' = lookup k props.

(** *** adaptConfigToChord *)

(** A value with properties to read: neither [undefined] nor [null]. *)
Definition readable (v : value) : bool :=
  match v with
  | Undefined | Null => false
  | _ => true
  end.

(** ToNumber gives a Number for the value: no object with an own
    property called toString stands in the way. *)
Definition convertible (v : value) : bool :=
  match toNumberValue v with
  | Normal _ => true
  | Throw _ => false
  end.

(** A barre Math.max can take: a readable value whose fret converts. *)
Definition usableBarre (b : value) : bool :=
  match getProperty b (js "fret") with
  | Normal fret => convertible fret
  | Throw _ => false
  end.

(** The chords adaptConfigToChord takes: the fingers are an array of
    readable values, the barres are falsy, or an array of readable
    values whose frets convert to Numbers. *)
Definition acceptedChord (chord : value) : Prop :=
  exists fingers barres,
    getProperty chord (js "fingers") = Normal (Arr fingers) /\
    forallb readable fingers = true /\
    getProperty chord (js "barres") = Normal barres /\
    (toBoolean barres = false \/
     exists bs, barres = Arr bs /\ forallb usableBarre bs = true).

(** The frets a chord asks for: the second element of each finger when
    it is a Number, the fret of each barre, whatever it is. *)
Definition askedFret (chord : value) (fret : value) : Prop :=
  (exists fingers f n,
      getProperty chord (js "fingers") = Normal (Arr fingers) /\
      In f fingers /\ getElement f 1 = Normal (Num n) /\ fret = Num n) \/
  (exists barres b,
      getProperty chord (js "barres") = Normal (Arr barres) /\
      In b barres /\ getProperty b (js "fret") = Normal fret).

(** The chords of a parsed block: the elements of an array, or the one
    value that is not an array. *)
Definition chordsOf (parsedData : value) : list value :=
  match parsedData with
  | Arr chords => chords
  | _ => [parsedData]
  end.

(** *** The loop over the code blocks *)

Import Mdast.

Section Pass.

Variable state : Type.
Variable processBlock : nat -> codeNode -> state -> action * state.
Variable name : jsstring.

(** The loop read in one pass over the code nodes of the tree: a node
    of another language stays; a block of the language takes what the
    body of the loop gives it, as long as the loop goes on; once the
    loop has ended, the nodes that are left stay. *)
Fixpoint pass (blockIndex : nat) (nodes : list codeNode) (st : state)
  : list child * state * loopEnd :=
  match nodes with
  | [] => ([], st, Done)
  | node :: rest =>
      if strictEqualsString (lang node) name then
        match processBlock blockIndex node st with
        | (Replace html, st') =>
            let '(children, st'', e) := pass (S blockIndex) rest st' in
            (Html html :: children, st'', e)
        | (Keep, st') =>
            let '(children, st'', e) := pass (S blockIndex) rest st' in
            (Code node :: children, st'', e)
        | (Return, st') => (List.map Code (node :: rest), st', Returned)
        | (Rethrow error, st') =>
            (List.map Code (node :: rest), st', Threw error)
        end
      else
        let '(children, st', e) := pass blockIndex rest st in
        (Code node :: children, st', e)
  end.

End Pass.

(** The node is a block of the language [name]. *)
Definition isBlock (name : jsstring) (node : codeNode) : bool :=
  strictEqualsString (lang node) name.

(** The number of blocks of the language among the nodes *)
Definition blockCount (name : jsstring) (nodes : list codeNode) : nat :=
  List.length (List.filter (isBlock name) nodes).

(** *** The transformer of remark-lilypond *)

Import LilypondTransformer.

(** What is given to render for a block, and what is written for it
    when render answers with an svg *)
Definition submitted (s : settings) (node : codeNode) : call :=
  (if toBoolean (compact s) then paperBlock ++ text node else text node,
   binaryPath s).

Definition finished (s : settings) (svg : jsstring) : jsstring :=
  if toBoolean (compact s)
  then match compactSvg (Str svg) with
       | Normal svgContent => svgContent
       | Throw _ => svg
       end
  else svg.

(** The calls of render for the blocks of a list of nodes *)
Definition submittedCalls (s : settings) (nodes : list codeNode) : list call :=
  List.map (submitted s) (List.filter (isBlock (js "lilypond")) nodes).

(** The error names a missing executable: by its message or by its
    code. *)
Definition missingExecutable (text : jsstring) (code : value) : bool :=
  mentionsMissing text || strictEqualsString code (js "ENOENT").

(** The html written for an error with the message [text] *)
Definition errorHtml (text : jsstring) (code : value) : jsstring :=
  if missingExecutable text code then notFoundHtml
  else compileErrorOpen ++ flat_map escapeChar (parsedError text)
                        ++ compileErrorClose.

(** What stands at the place of a block after its turn, given the
    answer of render, when the run goes on *)
Definition shown (s : settings) (node : codeNode) (answer : rendered) : child :=
  match answer with
  | Rendered svg => Html (finished s svg)
  | RenderFailed error =>
      match message error with
      | Str text =>
          if toBoolean (errorInline s) then Html (errorHtml text (code error))
          else Code node
      | _ => Code node
      end
  end.

(** The tree when each block is handled on its own, the block of rank
    [k] with the answer to the call [k] *)
Fixpoint shownTree (s : settings) (respond : nat -> rendered) (k : nat)
  (nodes : list codeNode) : list child :=
  match nodes with
  | [] => []
  | node :: rest =>
      if isBlock (js "lilypond") node
      then shown s node (respond k) :: shownTree s respond (S k) rest
      else Code node :: shownTree s respond k rest
  end.

(** The answer does not end the run: it is an svg, or an error with a
    message that is a string and, when skipOnMissing is set, does not
    name a missing executable. *)
Definition goesOn (s : settings) (answer : rendered) : Prop :=
  match answer with
  | Rendered _ => True
  | RenderFailed error =>
      exists text,
        message error = Str text /\
        toBoolean (skipOnMissing s) && missingExecutable text (code error)
        = false
  end.

(** None of the answers to the calls from [from] on, [count] of them,
    ends the run. *)
Definition allGoOn (s : settings) (respond : nat -> rendered)
  (from count : nat) : Prop :=
  forall k, k < count -> goesOn s (respond (from + k)).

(** The value has no includes method. *)
Definition noText (v : value) : bool :=
  match v with
  | Str _ | Arr _ => false
  | _ => true
  end.

(** *** The transformer of remark-svguitar *)

(** ToString gives a text for the value, and the text it gives *)
Definition printable (v : value) : bool :=
  match toStringValue v with
  | Normal _ => true
  | Throw _ => false
  end.

Definition printed (v : value) : jsstring :=
  match toStringValue v with
  | Normal text => text
  | Throw _ => []
  end.

(** The messages of the errors the catch clause of the loop can meet
    have a text: those of the exceptions of the engine and those of the
    errors of the pages. *)
Definition errorsPrint (renderPage : nat -> SvguitarTransformer.page)
  (thrown : error -> caught) : Prop :=
  (forall e, printable (message (thrown e)) = true) /\
  forall k error,
    renderPage k = SvguitarTransformer.PageFailed error ->
    printable (message error) = true.

(** The html of the error node for a message *)
Definition errorBox (errorMessage : jsstring) : jsstring :=
  jsq "<div class='svguitar-error'>" ++ lineFeed ::
  js "    <strong>SVGuitar Error:</strong><br>" ++ lineFeed ::
  js "    <pre>" ++ flat_map escapeChar errorMessage ++ js "</pre>" ++
  lineFeed :: js "  </div>".

Section Pages.

Import SvguitarTransformer.

Variable jsonParse : jsstring -> parsed.

(** The page asked for a block of rank [blockIndex]: one, with the
    prepared chords and the rank, when the text of the block parses and
    its chords are accepted; none otherwise. *)
Definition blockEvents (s : SvguitarTransformer.settings) (blockIndex : nat)
  (node : codeNode) : list event :=
  match jsonParse (trim (text node)) with
  | Parsed parsedData =>
      match prepareChords parsedData (SVGuitarConfig s) with
      | Normal (chordDataArray, SVGuitarConfigArray) =>
          [Render chordDataArray SVGuitarConfigArray blockIndex]
      | Throw _ => []
      end
  | SyntaxError _ => []
  end.

(** The pages asked for the blocks of a list of nodes, the first block
    having the rank [blockIndex] *)
Fixpoint renderEvents (s : SvguitarTransformer.settings) (blockIndex : nat)
  (nodes : list codeNode) : list event :=
  match nodes with
  | [] => []
  | node :: rest =>
      if isBlock (js "svguitar") node
      then blockEvents s blockIndex node
             ++ renderEvents s (S blockIndex) rest
      else renderEvents s blockIndex rest
  end.

Variable renderPage : nat -> page.
Variable thrown : error -> caught.

(** What stands at the place of a block that failed with the message
    [failure] *)
Definition failed (s : SvguitarTransformer.settings) (node : codeNode)
  (failure : jsstring) : child :=
  if toBoolean (SvguitarTransformer.errorInline s)
  then Html (errorBox (js "SVGuitar rendering error: " ++ failure))
  else Code node.

(** What stands at the place of a block after its turn, [asked] being
    the number of events before it: the repaired content of its page,
    or what stands for the failure of the JSON, of the chords, of the
    page or of the repair. *)
Definition blockShown (s : SvguitarTransformer.settings) (node : codeNode)
  (asked : nat) : child :=
  match jsonParse (trim (text node)) with
  | SyntaxError parseError =>
      failed s node
        (if printable (message parseError)
         then js "Invalid JSON in SVGuitar block: "
                ++ printed (message parseError)
         else printed (message (thrown TypeError)))
  | Parsed parsedData =>
      match prepareChords parsedData (SVGuitarConfig s) with
      | Throw e => failed s node (printed (message (thrown e)))
      | Normal _ =>
          match renderPage asked with
          | Page combinedContent =>
              match fixMultipleSvgViewBoxes (Str combinedContent) with
              | Normal fixedSvgContent => Html fixedSvgContent
              | Throw e => failed s node (printed (message (thrown e)))
              end
          | PageFailed error => failed s node (printed (message error))
          end
      end
  end.

(** The tree when each block is handled on its own, [asked] events
    having been asked before the first one *)
Fixpoint chordTree (s : SvguitarTransformer.settings) (asked : nat)
  (nodes : list codeNode) : list child :=
  match nodes with
  | [] => []
  | node :: rest =>
      if isBlock (js "svguitar") node
      then blockShown s node asked
             :: chordTree s (asked + List.length (blockEvents s 0 node)) rest
      else Code node :: chordTree s asked rest
  end.

(** The browser of a run: the one that is there, or the one the run
    launches *)
Definition browserOf (w : world) : browser :=
  match browserInstance w with
  | Some b => b
  | None => List.length (events w)
  end.

Definition launchEvents (s : SvguitarTransformer.settings) (w : world)
  : list event :=
  match browserInstance w with
  | Some _ => []
  | None => [Launch (launchOptions s)]
  end.

(** A browser is there, or the launch succeeds. *)
Definition browserReady (launch : nat -> launched) (w : world) : Prop :=
  browserInstance w = None -> launch (List.length (events w)) = Launched.

Variable close : nat -> option caught.

(** The end of a run that went through its blocks: the browser is
    closed unless keepAlive is set. *)
Definition finish (s : SvguitarTransformer.settings) (children : list child)
  (w : world) : list child * world * outcome :=
  if toBoolean (keepAlive s) then (children, w, Fulfilled)
  else
    match closeBrowser close w with
    | (w', None) => (children, w', Fulfilled)
    | (w', Some error) => (children, w', Rejected error)
    end.

End Pages.

(** The block id of a page; the other events have none. *)
Definition blockIdOf (e : SvguitarTransformer.event) : option nat :=
  match e with
  | SvguitarTransformer.Render _ _ blockId => Some blockId
  | _ => None
  end.

Definition isLaunch (e : SvguitarTransformer.event) : bool :=
  match e with
  | SvguitarTransformer.Launch _ => true
  | _ => false
  end.

(** *** The transformer of the first remark-svguitar *)

Section Single.

Import SvguitarSingle.

Variable jsonParse : jsstring -> SvguitarTransformer.parsed.
Variable renderPage : nat -> SvguitarTransformer.page.
Variable thrown : error -> caught.

(** What stands at the place of a block that failed with the message
    [failure] *)
Definition singleFailed (s : SvguitarSingle.settings) (node : codeNode)
  (failure : jsstring) : child :=
  if toBoolean (SvguitarSingle.errorInline s)
  then Html (errorBox (js "SVGuitar rendering error: " ++ failure))
  else Code node.

(** The page asked for a block: one, with the parsed chord, when the
    text of the block parses *)
Definition singleEvents (node : codeNode) : list SvguitarSingle.event :=
  match jsonParse (trim (Mdast.text node)) with
  | SvguitarTransformer.Parsed chordData => [SvguitarSingle.Render chordData]
  | SvguitarTransformer.SyntaxError _ => []
  end.

Definition singlePages (nodes : list codeNode) : list SvguitarSingle.event :=
  flat_map singleEvents (List.filter (isBlock (js "svguitar")) nodes).

(** What stands at the place of a block after its turn, [asked] being
    the number of events before it *)
Definition singleShown (s : SvguitarSingle.settings) (node : codeNode)
  (asked : nat) : child :=
  match jsonParse (trim (Mdast.text node)) with
  | SvguitarTransformer.SyntaxError parseError =>
      singleFailed s node
        (if printable (message parseError)
         then js "Invalid JSON in SVGuitar block: "
                ++ printed (message parseError)
         else printed (message (thrown TypeError)))
  | SvguitarTransformer.Parsed chordData =>
      match renderPage asked with
      | SvguitarTransformer.Page svgContent =>
          match fixSvgViewBox (Str svgContent) with
          | Normal fixedSvgContent => Html fixedSvgContent
          | Throw e => singleFailed s node (printed (message (thrown e)))
          end
      | SvguitarTransformer.PageFailed error =>
          singleFailed s node (printed (message error))
      end
  end.

Fixpoint singleTree (s : SvguitarSingle.settings) (asked : nat)
  (nodes : list codeNode) : list child :=
  match nodes with
  | [] => []
  | node :: rest =>
      if isBlock (js "svguitar") node
      then singleShown s node asked
             :: singleTree s (asked + List.length (singleEvents node)) rest
      else Code node :: singleTree s asked rest
  end.

(** The browser of a run, and what the run asks for it *)
Definition singleBrowser (w : SvguitarSingle.world) : SvguitarSingle.browser :=
  match SvguitarSingle.browserInstance w with
  | Some b => b
  | None => List.length (SvguitarSingle.events w)
  end.

Definition singleLaunch (s : SvguitarSingle.settings)
  (w : SvguitarSingle.world) : list SvguitarSingle.event :=
  match SvguitarSingle.browserInstance w with
  | Some _ => []
  | None => [SvguitarSingle.Launch (SvguitarSingle.launchOptions s)]
  end.

Definition singleReady (launch : nat -> SvguitarTransformer.launched)
  (w : SvguitarSingle.world) : Prop :=
  SvguitarSingle.browserInstance w = None ->
  launch (List.length (SvguitarSingle.events w)) = SvguitarTransformer.Launched.

End Single.

End Statements.

(* ===================================================================== *)
(** ** Facts about the matcher *)
(* ===================================================================== *)

Module RegExpFacts.

Import RegExp.
Import Statements.

Lemma isSuffix_refl (s : jsstring) : isSuffix s s.
Proof. exists []. reflexivity. Qed.

Lemma isSuffix_trans (a b c : jsstring) :
  isSuffix a b -> isSuffix b c -> isSuffix a c.
Proof.
  intros [p Hp] [q Hq]. exists (q ++ p). subst. now rewrite app_assoc.
Qed.

Lemma isSuffix_cons (c : char) (s : jsstring) : isSuffix s (c :: s).
Proof. exists [c]. reflexivity. Qed.

Lemma isSuffix_split (t s : jsstring) :
  isSuffix t s -> s = firstn (List.length s - List.length t) s ++ t.
Proof.
  intros [p ->]. rewrite length_app.
  replace (List.length p + List.length t - List.length t)
    with (List.length p + 0) by lia.
  rewrite firstn_app_2. simpl. now rewrite app_nil_r.
Qed.

Section Soundness.

Variable ignoreCase : bool.
Variable R : Type.

Lemma iterate_sound (r : regex) (greedy : bool)
  (step : jsstring -> captures -> cont R -> option R) :
  sound r step ->
  forall fuel s caps k x,
    iterate step greedy fuel s caps k = Some x ->
    exists s' caps',
      k s' caps' = Some x /\ isSuffix s' s /\
      forall i, bound i caps -> bound i caps'.
Proof.
  intros Hstep. induction fuel as [|f IH]; intros s caps k x H; simpl in H.
  - exists s, caps. auto using isSuffix_refl.
  - assert (Hagain : forall y,
             step s caps
               (fun s' caps' =>
                  if Nat.ltb (List.length s') (List.length s)
                  then iterate step greedy f s' caps' k else None) = Some y ->
             exists s' caps',
               k s' caps' = Some y /\ isSuffix s' s /\
               forall i, bound i caps -> bound i caps').
    { intros y Hy. apply Hstep in Hy.
      destruct Hy as (s1 & caps1 & Hk & Hsuf & Hcaps).
      destruct (Nat.ltb (List.length s1) (List.length s)); [|discriminate].
      apply IH in Hk. destruct Hk as (s2 & caps2 & Hk2 & Hsuf2 & Hcaps2).
      exists s2, caps2. split; [assumption|]. split.
      - eapply isSuffix_trans; eassumption.
      - intros i Hi. apply Hcaps2, Hcaps. now right. }
    destruct greedy.
    + destruct (step s caps _) as [y|] eqn:E.
      * inversion H; subst. now apply Hagain.
      * exists s, caps. auto using isSuffix_refl.
    + destruct (k s caps) as [y|] eqn:E.
      * inversion H; subst. exists s, caps. auto using isSuffix_refl.
      * now apply Hagain.
Qed.

Lemma matchRe_sound (r : regex) : sound r (matchRe ignoreCase (R:=R) r).
Proof.
  induction r as [|c|inv atoms|r1 IH1 r2 IH2|r1 IH1 r2 IH2|g r1 IH1
                 |g r1 IH1|j r1 IH1];
    intros s caps k x H; simpl in H.
  - exists s, caps. split; [assumption|]. split; [apply isSuffix_refl|].
    intros i [Hi|Hi]; [discriminate|assumption].
  - destruct s as [|y s']; [discriminate|].
    destruct (charEq ignoreCase c y); [|discriminate].
    exists s', caps. split; [assumption|]. split; [apply isSuffix_cons|].
    intros i [Hi|Hi]; [discriminate|assumption].
  - destruct s as [|y s']; [discriminate|].
    destruct (classMatches ignoreCase inv atoms y); [|discriminate].
    exists s', caps. split; [assumption|]. split; [apply isSuffix_cons|].
    intros i [Hi|Hi]; [discriminate|assumption].
  - apply IH1 in H. destruct H as (s1 & caps1 & H & Hsuf1 & Hcaps1).
    apply IH2 in H. destruct H as (s2 & caps2 & H & Hsuf2 & Hcaps2).
    exists s2, caps2. split; [assumption|]. split.
    + eapply isSuffix_trans; eassumption.
    + intros i Hi. simpl in Hi. apply Hcaps2.
      destruct Hi as [Hi|Hi].
      * apply orb_true_iff in Hi. destruct Hi as [Hi|Hi]; [right|left; assumption].
        apply Hcaps1. now left.
      * right. apply Hcaps1. now right.
  - destruct (matchRe ignoreCase r1 s caps k) as [y|] eqn:E.
    + inversion H; subst. apply IH1 in E.
      destruct E as (s1 & caps1 & Hk & Hsuf & Hcaps).
      exists s1, caps1. split; [assumption|]. split; [assumption|].
      intros i [Hi|Hi]; apply Hcaps; [left|now right].
      simpl in Hi. now apply andb_true_iff in Hi.
    + apply IH2 in H. destruct H as (s1 & caps1 & Hk & Hsuf & Hcaps).
      exists s1, caps1. split; [assumption|]. split; [assumption|].
      intros i [Hi|Hi]; apply Hcaps; [left|now right].
      simpl in Hi. now apply andb_true_iff in Hi.
  - apply (iterate_sound (r:=r1) g IH1) in H.
    destruct H as (s1 & caps1 & Hk & Hsuf & Hcaps).
    exists s1, caps1. split; [assumption|]. split; [assumption|].
    intros i [Hi|Hi]; [discriminate|now apply Hcaps].
  - apply IH1 in H. destruct H as (s1 & caps1 & H & Hsuf1 & Hcaps1).
    apply (iterate_sound (r:=r1) g IH1) in H.
    destruct H as (s2 & caps2 & Hk & Hsuf2 & Hcaps2).
    exists s2, caps2. split; [assumption|]. split.
    + eapply isSuffix_trans; eassumption.
    + intros i Hi. apply Hcaps2, Hcaps1. exact Hi.
  - apply IH1 in H. destruct H as (s1 & caps1 & Hk & Hsuf & Hcaps).
    exists s1, ((j, firstn (List.length s - List.length s1) s) :: caps1).
    split; [assumption|]. split; [assumption|].
    intros i Hi. unfold bound. simpl.
    destruct (Nat.eqb i j) eqn:Eij; [discriminate|].
    apply Hcaps. simpl in Hi. rewrite Eij in Hi. exact Hi.
Qed.

End Soundness.

(** A successful [exec] splits its input, and binds the groups that
    take part in every match. *)
Lemma matchAt_sound (ic : bool) (r : regex) (s rest : jsstring)
  (caps : captures) :
  matchAt ic r s = Some (rest, caps) ->
  isSuffix rest s /\ forall i, binds i r = true -> bound i caps.
Proof.
  unfold matchAt. intros H. apply matchRe_sound in H.
  destruct H as (s' & caps' & Hk & Hsuf & Hcaps).
  inversion Hk; subst. split; [assumption|].
  intros i Hi. apply Hcaps. now left.
Qed.

Lemma exec_sound (ic : bool) (r : regex) (s : jsstring) (m : matchResult) :
  exec ic r s = Some m ->
  s = before m ++ matched m ++ after m /\
  forall i, binds i r = true -> bound i (groups m).
Proof.
  revert m. induction s as [|c s IH]; intros m H; simpl in H.
  - destruct (matchAt ic r []) as [[rest caps]|] eqn:E; [|discriminate].
    inversion H; subst. simpl. apply matchAt_sound in E.
    destruct E as [Hsuf Hcaps]. split; [|assumption].
    now apply isSuffix_split in Hsuf.
  - destruct (matchAt ic r (c :: s)) as [[rest caps]|] eqn:E.
    + inversion H; subst. cbn [before matched after groups].
      apply matchAt_sound in E. destruct E as [Hsuf Hcaps].
      split; [|assumption]. now apply isSuffix_split in Hsuf.
    + destruct (exec ic r s) as [m'|] eqn:E'; [|discriminate].
      inversion H; subst. destruct (IH m' eq_refl) as [Hs Hcaps].
      cbn [shift before matched after groups]. split; [|assumption].
      simpl. now f_equal.
Qed.

End RegExpFacts.

Module SearchFacts.

Import RegExp RegExpFacts.
Import Statements.

(** The boolean equality of strings decides equality. *)
Lemma jsstring_eqb_spec (a b : jsstring) : JsString.eqb a b = true <-> a = b.
Proof.
  revert b. induction a as [|x a IH]; intros [|y b]; simpl;
    try (split; [discriminate|discriminate]); [tauto|].
  rewrite andb_true_iff, N.eqb_eq, IH. split.
  - intros [-> ->]. reflexivity.
  - intros H. inversion H. auto.
Qed.

Lemma jsstring_eqb_refl (a : jsstring) : JsString.eqb a a = true.
Proof. now apply jsstring_eqb_spec. Qed.

Lemma jsstring_eqb_neq (a b : jsstring) : a <> b -> JsString.eqb a b = false.
Proof.
  intros H. destruct (JsString.eqb a b) eqn:E; [|reflexivity].
  apply jsstring_eqb_spec in E. contradiction.
Qed.

Lemma dropPrefix_app (p s : jsstring) : dropPrefix p (p ++ s) = Some s.
Proof.
  induction p as [|c p IH]; simpl; [reflexivity|].
  now rewrite N.eqb_refl.
Qed.

Lemma dropPrefix_Some (p s t : jsstring) :
  dropPrefix p s = Some t -> s = p ++ t.
Proof.
  revert s. induction p as [|c p IH]; intros s H; simpl in H.
  - now inversion H.
  - destruct s as [|y s]; [discriminate|].
    destruct (N.eqb_spec c y); [|discriminate]. subst.
    simpl. f_equal. now apply IH.
Qed.

Lemma startsWith_app (p s : jsstring) : startsWith p (p ++ s) = true.
Proof. unfold startsWith. now rewrite dropPrefix_app. Qed.

Lemma startsWith_true (p s : jsstring) :
  startsWith p s = true -> exists t, s = p ++ t.
Proof.
  unfold startsWith. destruct (dropPrefix p s) as [t|] eqn:E; [|discriminate].
  intros _. exists t. now apply dropPrefix_Some.
Qed.

Lemma startsWith_false (p s : jsstring) :
  startsWith p s = false -> dropPrefix p s = None.
Proof.
  unfold startsWith. now destruct (dropPrefix p s).
Qed.

(** Only the first [length p] code units matter. *)
Lemma startsWith_app_long (p x y : jsstring) :
  List.length p <= List.length x ->
  startsWith p (x ++ y) = startsWith p x.
Proof.
  unfold startsWith. revert x.
  induction p as [|c p IH]; intros x H; simpl; [reflexivity|].
  destruct x as [|d x]; simpl in *; [lia|].
  destruct (c =? d)%N; [|reflexivity]. apply IH. lia.
Qed.

Lemma includes_false_app_l (p a b : jsstring) :
  includes p (a ++ b) = false -> includes p b = false.
Proof.
  induction a as [|c a IH]; simpl; intros H; [assumption|].
  apply orb_false_iff in H. now apply IH.
Qed.

Lemma includes_false_app_r (p a b : jsstring) :
  includes p (a ++ b) = false -> includes p a = false.
Proof.
  induction a as [|c a IH]; simpl; intros H.
  - destruct p; [|reflexivity].
    destruct b; simpl in H; discriminate.
  - apply orb_false_iff in H. destruct H as [H1 H2].
    apply orb_false_iff. split; [|now apply IH].
    destruct (startsWith p (c :: a)) eqn:E; [|reflexivity].
    apply startsWith_true in E. destruct E as [t Ht].
    change (c :: a ++ b) with ((c :: a) ++ b) in H1. rewrite Ht in H1.
    rewrite <- app_assoc in H1. now rewrite startsWith_app in H1.
Qed.

(** A pattern on no [$] is its own substitution. *)
Lemma getSubstitution_plain (n : nat) (m : matchResult) (t : jsstring) :
  ~ In (ch "$") t -> getSubstitution n m t = t.
Proof.
  induction t as [|c t IH]; intros H; [reflexivity|].
  cbn [getSubstitution].
  destruct (N.eqb_spec c (ch "$")) as [->|Hc].
  - exfalso. apply H. now left.
  - cbn [negb]. f_equal. apply IH. intros Hin. apply H. now right.
Qed.

Section CaseSensitive.

Variable R : Type.

(** A run of pattern characters consumes exactly that prefix. *)
Lemma matchRe_lits (p s : jsstring) (caps : captures) (k : cont R) :
  matchRe false (lits p) s caps k =
  match dropPrefix p s with
  | Some s' => k s' caps
  | None => None
  end.
Proof.
  revert s. induction p as [|c p IH]; intros s; [reflexivity|].
  destruct p as [|d p].
  - simpl. destruct s as [|y s]; [reflexivity|].
    unfold charEq. now destruct (c =? y)%N.
  - change (lits (c :: d :: p)) with (Seq (Lit c) (lits (d :: p))).
    cbn [matchRe]. destruct s as [|y s]; [reflexivity|].
    unfold charEq. cbn [dropPrefix].
    destruct (c =? y)%N; [|reflexivity]. apply IH.
Qed.

Lemma matchRe_lits_seq (p : jsstring) (r : regex) (s : jsstring)
  (caps : captures) (k : cont R) :
  matchRe false (Seq (lits p) r) s caps k =
  match dropPrefix p s with
  | Some s' => matchRe false r s' caps k
  | None => None
  end.
Proof. cbn [matchRe]. apply matchRe_lits. Qed.

End CaseSensitive.

Section AnyCase.

Variable ignoreCase : bool.
Variable R : Type.

(** A greedy run over a character class takes the whole run when the
    continuation accepts what follows it. *)
Lemma iterate_class_greedy (invert : bool) (atoms : list classAtom)
  (a b : jsstring) (caps : captures) (k : cont R) (x : R) :
  Forall (fun c => classMatches ignoreCase invert atoms c = true) a ->
  match b with
  | [] => True
  | c :: _ => classMatches ignoreCase invert atoms c = false
  end ->
  k b caps = Some x ->
  forall fuel, List.length a <= fuel ->
  iterate (matchRe ignoreCase (Class invert atoms)) true fuel (a ++ b) caps k
  = Some x.
Proof.
  intros Ha Hb Hk. induction Ha as [|c a Hc Ha IH]; intros fuel Hfuel.
  - simpl. destruct fuel as [|f]; [assumption|]. simpl.
    destruct b as [|c b]; [assumption|]. now rewrite Hb.
  - destruct fuel as [|f]; simpl in Hfuel; [lia|].
    cbn [iterate app matchRe]. rewrite Hc.
    replace (Nat.ltb (List.length (a ++ b)) (List.length (c :: a ++ b)))
      with true by (symmetry; apply Nat.ltb_lt; simpl; lia).
    rewrite IH by lia. reflexivity.
Qed.

Lemma star_class_greedy (invert : bool) (atoms : list classAtom)
  (a b : jsstring) (caps : captures) (k : cont R) (x : R) :
  Forall (fun c => classMatches ignoreCase invert atoms c = true) a ->
  match b with
  | [] => True
  | c :: _ => classMatches ignoreCase invert atoms c = false
  end ->
  k b caps = Some x ->
  matchRe ignoreCase (Star true (Class invert atoms)) (a ++ b) caps k = Some x.
Proof.
  intros Ha Hb Hk. cbn [matchRe].
  apply iterate_class_greedy; try assumption.
  rewrite length_app. lia.
Qed.

Lemma plus_class_greedy (invert : bool) (atoms : list classAtom)
  (a b : jsstring) (caps : captures) (k : cont R) (x : R) :
  a <> [] ->
  Forall (fun c => classMatches ignoreCase invert atoms c = true) a ->
  match b with
  | [] => True
  | c :: _ => classMatches ignoreCase invert atoms c = false
  end ->
  k b caps = Some x ->
  matchRe ignoreCase (Plus true (Class invert atoms)) (a ++ b) caps k = Some x.
Proof.
  intros Hne Ha Hb Hk. destruct a as [|c a]; [congruence|].
  inversion Ha; subst. cbn [matchRe app]. rewrite H1.
  apply iterate_class_greedy; try assumption.
  rewrite length_app. lia.
Qed.

End AnyCase.

(** [exec] passes over a prefix in which no position matches. *)
Lemma exec_skip (ic : bool) (r : regex) (pre s : jsstring) :
  (forall a b, pre = a ++ b -> b <> [] -> matchAt ic r (b ++ s) = None) ->
  exec ic r (pre ++ s) = option_map (prepend pre) (exec ic r s).
Proof.
  induction pre as [|c pre IH]; intros H.
  - simpl. destruct (exec ic r s) as [[b m g a]|]; reflexivity.
  - cbn [app exec].
    assert (H0 : matchAt ic r (c :: pre ++ s) = None)
      by (apply (H [] (c :: pre) eq_refl); discriminate).
    rewrite H0, IH.
    + destruct (exec ic r s) as [[b m g a]|]; reflexivity.
    + intros a b Hab Hb. apply (H (c :: a) b); [|assumption].
      simpl. now f_equal.
Qed.

Lemma exec_here (ic : bool) (r : regex) (s rest : jsstring) (caps : captures) :
  matchAt ic r s = Some (rest, caps) ->
  exec ic r s =
  Some (MatchResult [] (firstn (List.length s - List.length rest) s) caps rest).
Proof.
  intros H. destruct s; simpl; now rewrite H.
Qed.

(** A pattern that begins with the characters [p] cannot match where
    [p] does not stand. *)
Lemma matchAt_lits_None (p : jsstring) (r : regex) (s : jsstring) :
  startsWith p s = false -> matchAt false (Seq (lits p) r) s = None.
Proof.
  intros H. unfold matchAt. rewrite matchRe_lits_seq.
  now rewrite (startsWith_false _ _ H).
Qed.

Lemma firstAt_suffix (p a b : jsstring) :
  firstAt p (a ++ b) = true -> firstAt p b = true.
Proof.
  induction a as [|c a IH]; simpl; intros H; [assumption|].
  apply andb_true_iff in H. now apply IH.
Qed.

Lemma firstAt_startsWith (p a b s : jsstring) :
  firstAt p (a ++ b) = true -> b <> [] -> startsWith p (b ++ p ++ s) = false.
Proof.
  intros H Hb. apply firstAt_suffix in H.
  destruct b as [|c b]; [congruence|]. simpl in H.
  apply andb_true_iff in H. destruct H as [H _].
  apply negb_true_iff in H.
  change (c :: b ++ p) with ((c :: b) ++ p) in H.
  rewrite app_assoc. rewrite startsWith_app_long; [assumption|].
  rewrite length_app. simpl. lia.
Qed.

(** The search for a pattern that begins with [p], in an input whose
    first [p] stands after [pre]. *)
Lemma exec_first_lits (p : jsstring) (r : regex) (pre s : jsstring) :
  firstAt p pre = true ->
  exec false (Seq (lits p) r) (pre ++ p ++ s) =
  option_map (prepend pre) (exec false (Seq (lits p) r) (p ++ s)).
Proof.
  intros H. apply exec_skip. intros a b Hab Hb.
  apply matchAt_lits_None. subst. now apply firstAt_startsWith with (a := a).
Qed.

(** No match for a pattern that begins with [p] in an input without
    [p]. *)
Lemma exec_lits_None (p : jsstring) (r : regex) (s : jsstring) :
  includes p s = false -> exec false (Seq (lits p) r) s = None.
Proof.
  induction s as [|c s IH]; intros H.
  - simpl. rewrite matchAt_lits_None; [reflexivity|].
    simpl in H. now apply orb_false_iff in H.
  - simpl in H. apply orb_false_iff in H. destruct H as [H1 H2].
    cbn [exec]. rewrite matchAt_lits_None by assumption.
    now rewrite IH.
Qed.

End SearchFacts.

Module NumberFacts.

Import Number.
Import Statements.

Lemma numeric_digit (c : char) : isDigit c = true -> numeric c = true.
Proof. unfold numeric. now intros ->. Qed.

Lemma isDigit_of_Z (n : Z) : isDigit (Z.to_N (48 + n mod 10)) = true.
Proof.
  unfold isDigit. pose proof (Z.mod_pos_bound n 10 eq_refl) as H.
  apply andb_true_iff. split; apply N.leb_le; lia.
Qed.

Lemma digitsFuel_digits (fuel : nat) (n : Z) (acc : jsstring) :
  forallb isDigit acc = true -> forallb isDigit (digitsFuel fuel n acc) = true.
Proof.
  revert n acc. induction fuel as [|f IH]; intros n acc H; simpl; [assumption|].
  assert (H' : forallb isDigit (Z.to_N (48 + n mod 10) :: acc) = true)
    by (cbn [forallb]; now rewrite isDigit_of_Z).
  destruct (n / 10 =? 0)%Z; [assumption|]. now apply IH.
Qed.

Lemma decimalDigits_digits (n : Z) : forallb isDigit (decimalDigits n) = true.
Proof. unfold decimalDigits. now apply digitsFuel_digits. Qed.

Lemma forallb_weaken (p q : char -> bool) (l : jsstring) :
  (forall c, p c = true -> q c = true) ->
  forallb p l = true -> forallb q l = true.
Proof.
  intros Hpq H. rewrite forallb_forall in *. auto.
Qed.

Lemma decimalDigits_numeric (n : Z) : forallb numeric (decimalDigits n) = true.
Proof.
  apply forallb_weaken with (p := isDigit); [apply numeric_digit|].
  apply decimalDigits_digits.
Qed.

Lemma zeros_numeric (n : Z) : forallb numeric (zeros n) = true.
Proof.
  unfold zeros. induction (Z.to_nat n) as [|k IH]; simpl; [reflexivity|assumption].
Qed.

Lemma firstn_numeric (n : nat) (l : jsstring) :
  forallb numeric l = true -> forallb numeric (firstn n l) = true.
Proof.
  intros H. rewrite <- (firstn_skipn n l), forallb_app in H.
  now apply andb_true_iff in H.
Qed.

Lemma skipn_numeric (n : nat) (l : jsstring) :
  forallb numeric l = true -> forallb numeric (skipn n l) = true.
Proof.
  intros H. rewrite <- (firstn_skipn n l), forallb_app in H.
  now apply andb_true_iff in H.
Qed.

Lemma toStringPos_numeric (m : positive) (e : Z) :
  forallb numeric (toStringPos m e) = true.
Proof.
  unfold toStringPos.
  destruct (shortest _ _ _ _ _ _) as [s n].
  pose proof (decimalDigits_numeric s) as Hs.
  pose proof (decimalDigits_numeric (Z.abs (n - 1))) as He.
  destruct ((-5 <=? n)%Z && (n <=? 21)%Z).
  - destruct (_ <=? n)%Z.
    + rewrite forallb_app, Hs. apply zeros_numeric.
    + destruct (0 <? n)%Z.
      * rewrite forallb_app. cbn [forallb].
        rewrite firstn_numeric, skipn_numeric by assumption. reflexivity.
      * rewrite !forallb_app, zeros_numeric, Hs. reflexivity.
  - destruct (decimalDigits s) as [|d [|d' r]]; [reflexivity| |].
    + cbn [forallb] in *. apply andb_true_iff in Hs. destruct Hs as [-> _].
      rewrite He. now destruct (n <? 0)%Z.
    + cbn [forallb] in Hs.
      apply andb_true_iff in Hs. destruct Hs as [Hd Hs].
      apply andb_true_iff in Hs. destruct Hs as [Hd' Hr].
      cbn [forallb app]. rewrite Hd, Hd', forallb_app, Hr.
      cbn [forallb]. rewrite He. now destruct (n <? 0)%Z.
Qed.

#[local] Strategy 1000 [toStringPos].

Lemma toString_numeric (x : number) : forallb numeric (toString x) = true.
Proof.
  destruct x as [s|s| |s m e].
  - reflexivity.
  - now destruct s.
  - reflexivity.
  - destruct s; unfold toString.
    + apply andb_true_iff. split; [reflexivity|apply toStringPos_numeric].
    + apply toStringPos_numeric.
Qed.

Lemma toString_not_In (c : char) (x : number) :
  numeric c = false -> ~ In c (toString x).
Proof.
  intros Hc Hin. pose proof (toString_numeric x) as H.
  rewrite forallb_forall in H. apply H in Hin. congruence.
Qed.

Lemma toFixedDigits_numeric (num den f : Z) :
  forallb numeric (toFixedDigits num den f) = true.
Proof.
  unfold toFixedDigits.
  set (m := decimalDigits _).
  assert (Hm : forallb numeric m = true) by apply decimalDigits_numeric.
  destruct (f =? 0)%Z; [assumption|].
  set (m' := if (_ <=? f)%Z then _ else _).
  assert (Hm' : forallb numeric m' = true).
  { subst m'. destruct (_ <=? f)%Z; [|assumption].
    now rewrite forallb_app, zeros_numeric, Hm. }
  rewrite forallb_app. cbn [forallb].
  now rewrite firstn_numeric, skipn_numeric by assumption.
Qed.

Lemma toFixed_numeric (x : number) (f : Z) :
  forallb numeric (toFixed x f) = true.
Proof.
  destruct x as [s|s| |s m e].
  - apply toFixedDigits_numeric.
  - now destruct s.
  - reflexivity.
  - unfold toFixed. rewrite forallb_app. apply andb_true_iff. split.
    + now destruct s.
    + destruct (_ <=? _)%Z;
        [apply toStringPos_numeric|apply toFixedDigits_numeric].
Qed.

End NumberFacts.

Module ViewBoxFacts.

Import Number RegExp Js RegExpFacts SearchFacts RemarkSvguitar.
Import Statements.

Lemma matchRe_Seq (ic : bool) (R : Type) (r1 r2 : regex) (s : jsstring)
  (caps : captures) (k : cont R) :
  matchRe ic (Seq r1 r2) s caps k =
  matchRe ic r1 s caps (fun s' caps' => matchRe ic r2 s' caps' k).
Proof. reflexivity. Qed.

Lemma matchRe_Group (ic : bool) (R : Type) (i : nat) (r : regex)
  (s : jsstring) (caps : captures) (k : cont R) :
  matchRe ic (Group i r) s caps k =
  matchRe ic r s caps
    (fun s' caps' =>
       k s' ((i, firstn (List.length s - List.length s') s) :: caps')).
Proof. reflexivity. Qed.

Lemma notChar_other (q c : char) :
  c <> q -> classMatches false true [CChar q] c = true.
Proof.
  intros H. unfold classMatches, atomMatches, charEq. simpl.
  destruct (N.eqb_spec q c); [congruence|reflexivity].
Qed.

Lemma notChar_same (q : char) : classMatches false true [CChar q] q = false.
Proof.
  unfold classMatches, atomMatches, charEq. simpl. now rewrite N.eqb_refl.
Qed.

Lemma notChar_run (q : char) (a : jsstring) :
  ~ In q a -> Forall (fun c => classMatches false true [CChar q] c = true) a.
Proof.
  intros H. apply Forall_forall. intros c Hc. apply notChar_other.
  intros ->. contradiction.
Qed.

Lemma firstn_app_exact (a b : jsstring) :
  firstn (List.length (a ++ b) - List.length b) (a ++ b) = a.
Proof.
  rewrite length_app.
  replace (List.length a + List.length b - List.length b)
    with (List.length a + 0) by lia.
  rewrite firstn_app_2. simpl. apply app_nil_r.
Qed.

(** Where the value of a viewBox attribute stands, both patterns match
    the attribute, up to its closing quote. *)
Lemma matchAt_viewBoxCapture (box post : jsstring) :
  box <> [] -> ~ In dquote box ->
  matchAt false viewBoxCapture (viewBoxOpen ++ box ++ dquote :: post)
  = Some (post, [(1, box)]).
Proof.
  intros Hne Hq. unfold matchAt, viewBoxCapture. cbn [seqs].
  rewrite matchRe_lits_seq. fold viewBoxOpen. rewrite dropPrefix_app.
  rewrite matchRe_Seq, matchRe_Group. unfold notChar.
  erewrite plus_class_greedy; [reflexivity|assumption|now apply notChar_run| |].
  - apply notChar_same.
  - cbn [matchRe]. unfold charEq. rewrite N.eqb_refl.
    now rewrite firstn_app_exact.
Qed.

Lemma matchAt_viewBoxAttribute (box post : jsstring) :
  box <> [] -> ~ In dquote box ->
  matchAt false viewBoxAttribute (viewBoxOpen ++ box ++ dquote :: post)
  = Some (post, []).
Proof.
  intros Hne Hq. unfold matchAt, viewBoxAttribute. cbn [seqs].
  rewrite matchRe_lits_seq. fold viewBoxOpen. rewrite dropPrefix_app.
  rewrite matchRe_Seq. unfold notChar.
  erewrite plus_class_greedy; [reflexivity|assumption|now apply notChar_run| |].
  - apply notChar_same.
  - cbn [matchRe]. unfold charEq. now rewrite N.eqb_refl.
Qed.

Lemma attribute_length (box post : jsstring) :
  firstn (List.length (viewBoxOpen ++ box ++ dquote :: post) - List.length post)
         (viewBoxOpen ++ box ++ dquote :: post)
  = viewBoxOpen ++ box ++ [dquote].
Proof.
  replace (viewBoxOpen ++ box ++ dquote :: post)
    with ((viewBoxOpen ++ box ++ [dquote]) ++ post)
    by (now rewrite <- !app_assoc).
  apply firstn_app_exact.
Qed.

Lemma exec_viewBoxCapture (pre box post : jsstring) :
  firstAt viewBoxOpen pre = true -> box <> [] -> ~ In dquote box ->
  exec false viewBoxCapture (pre ++ viewBoxOpen ++ box ++ dquote :: post)
  = Some (MatchResult pre (viewBoxOpen ++ box ++ [dquote]) [(1, box)] post).
Proof.
  intros Hpre Hne Hq.
  pose proof (exec_here _ _ _ (matchAt_viewBoxCapture post Hne Hq)) as H.
  rewrite attribute_length in H. revert H.
  unfold viewBoxCapture. cbn [seqs]. fold viewBoxOpen. intros H.
  rewrite exec_first_lits by assumption. rewrite H.
  unfold prepend. cbn. now rewrite app_nil_r.
Qed.

Lemma exec_viewBoxAttribute (pre box post : jsstring) :
  firstAt viewBoxOpen pre = true -> box <> [] -> ~ In dquote box ->
  exec false viewBoxAttribute (pre ++ viewBoxOpen ++ box ++ dquote :: post)
  = Some (MatchResult pre (viewBoxOpen ++ box ++ [dquote]) [] post).
Proof.
  intros Hpre Hne Hq.
  pose proof (exec_here _ _ _ (matchAt_viewBoxAttribute post Hne Hq)) as H.
  rewrite attribute_length in H. revert H.
  unfold viewBoxAttribute. cbn [seqs]. fold viewBoxOpen. intros H.
  rewrite exec_first_lits by assumption. rewrite H.
  unfold prepend. cbn. now rewrite app_nil_r.
Qed.

Lemma fixSvgViewBox_Str (s : jsstring) : fixSvgViewBox (Str s) = fixSvgTag s.
Proof. reflexivity. Qed.

Lemma split_nonempty (sep : char) (s : jsstring) (x y : jsstring)
  (rest : list jsstring) :
  split sep s = x :: y :: rest -> s <> [].
Proof. intros H ->. discriminate. Qed.

Lemma synthesized_plain (x y w : jsstring) : ~ In (ch "$") (synthesized x y w).
Proof.
  unfold synthesized. rewrite !in_app_iff.
  intros [H|[H|[H|[H|[H|[H|[H|[H|H]]]]]]]];
    try (revert H; now apply NumberFacts.toString_not_In);
    cbv in H; repeat (destruct H as [H|H]; [discriminate|]); assumption.
Qed.

Lemma fixSvgTag_positive (pre box post x y w h : jsstring)
  (rest : list jsstring) :
  firstAt viewBoxOpen pre = true ->
  ~ In dquote box ->
  split (ch " ") box = x :: y :: w :: h :: rest ->
  gt (parseFloat h) (of_Z 0) = true ->
  fixSvgTag (pre ++ viewBoxOpen ++ box ++ dquote :: post)
  = Normal (pre ++ viewBoxOpen ++ box ++ dquote :: post).
Proof.
  intros Hpre Hq Hsplit Hh. unfold fixSvgTag.
  rewrite exec_viewBoxCapture;
    [|assumption|eapply split_nonempty; eassumption|assumption].
  cbn [groupString groups capture Nat.eqb bind]. rewrite Hsplit.
  cbn [List.map nth_error toNumber]. now rewrite Hh.
Qed.

Lemma fixSvgTag_degenerate (pre box post x y w h : jsstring)
  (rest : list jsstring) :
  firstAt viewBoxOpen pre = true ->
  ~ In dquote box ->
  split (ch " ") box = x :: y :: w :: h :: rest ->
  gt (parseFloat h) (of_Z 0) = false ->
  fixSvgTag (pre ++ viewBoxOpen ++ box ++ dquote :: post)
  = Normal (pre ++ synthesized x y w ++ post).
Proof.
  intros Hpre Hq Hsplit Hh. unfold fixSvgTag.
  rewrite exec_viewBoxCapture;
    [|assumption|eapply split_nonempty; eassumption|assumption].
  cbn [groupString groups capture Nat.eqb bind]. rewrite Hsplit.
  cbn [List.map nth_error toNumber toStr]. rewrite Hh.
  unfold replaceFirst. rewrite exec_viewBoxAttribute;
    [|assumption|eapply split_nonempty; eassumption|assumption].
  cbn [before after]. fold viewBoxOpen. fold (synthesized x y w).
  now rewrite getSubstitution_plain by apply synthesized_plain.
Qed.

Lemma fixSvgTag_absent (s : jsstring) :
  includes viewBoxOpen s = false -> fixSvgTag s = Normal s.
Proof.
  intros H. unfold fixSvgTag, viewBoxCapture. cbn [seqs]. fold viewBoxOpen.
  now rewrite exec_lits_None.
Qed.

(** A replacer that gives every piece of the input back leaves the
    input as it is. *)
Lemma replaceWithFrom_id (ic : bool) (r : regex)
  (f : jsstring -> completion jsstring) (fuel : nat) (s : jsstring) :
  (forall a t b, s = a ++ t ++ b -> f t = Normal t) ->
  replaceWithFrom ic fuel r f s = Normal s.
Proof.
  revert s. induction fuel as [|n IH]; intros s Hf; [reflexivity|].
  cbn [replaceWithFrom].
  destruct (exec ic r s) as [m|] eqn:E; [|reflexivity].
  apply exec_sound in E. destruct E as [Hs _].
  rewrite (Hf (before m) (matched m) (after m) Hs). cbn [bind].
  destruct (matched m) as [|c t] eqn:Em.
  - destruct (after m) as [|c rest] eqn:Ea.
    + cbn [bind]. now rewrite Hs.
    + rewrite IH.
      * cbn [bind]. now rewrite Hs.
      * intros a t b Hab. apply (Hf (before m ++ c :: a) t b).
        rewrite Hs, Hab. cbn. now rewrite <- app_assoc.
  - rewrite IH.
    + cbn [bind]. now rewrite Hs.
    + intros a u b Hab. apply (Hf (before m ++ (c :: t) ++ a) u b).
      rewrite Hs, Hab. now rewrite <- !app_assoc.
Qed.

Lemma fixMultiple_absent (s : jsstring) :
  includes viewBoxOpen s = false ->
  fixMultipleSvgViewBoxes (Str s) = Normal s.
Proof.
  intros H. cbn [fixMultipleSvgViewBoxes thisString bind]. unfold replaceWith.
  apply replaceWithFrom_id. intros a t b Hs. apply fixSvgTag_absent.
  subst s. apply includes_false_app_l in H.
  now apply includes_false_app_r in H.
Qed.

End ViewBoxFacts.

Module BatchFacts.

Import Number RegExp Js RegExpFacts SearchFacts RemarkSvguitar ViewBoxFacts.
Import Statements.

Lemma existsb_In (q : char) (a : jsstring) :
  existsb (N.eqb q) a = false -> ~ In q a.
Proof.
  intros H Hin. assert (existsb (N.eqb q) a = true); [|congruence].
  apply existsb_exists. exists q. split; [assumption|apply N.eqb_refl].
Qed.

Lemma matchAt_svgOpeningTag (a rest : jsstring) :
  ~ In (ch ">") a ->
  matchAt false svgOpeningTag (svgOpen ++ a ++ ch ">" :: rest) = Some (rest, []).
Proof.
  intros Ha. unfold matchAt, svgOpeningTag. cbn [seqs].
  rewrite matchRe_lits_seq. fold svgOpen. rewrite dropPrefix_app.
  rewrite matchRe_Seq. unfold notChar.
  erewrite star_class_greedy; [reflexivity|now apply notChar_run| |].
  - apply notChar_same.
  - cbn [matchRe]. unfold charEq. now rewrite N.eqb_refl.
Qed.

Lemma exec_svgOpeningTag (pre a rest : jsstring) :
  firstAt svgOpen pre = true -> ~ In (ch ">") a ->
  exec false svgOpeningTag (pre ++ openingTag a ++ rest)
  = Some (MatchResult pre (openingTag a) [] rest).
Proof.
  intros Hpre Ha.
  pose proof (exec_here _ _ _ (@matchAt_svgOpeningTag a rest Ha)) as H.
  replace (svgOpen ++ a ++ ch ">" :: rest) with (openingTag a ++ rest) in H
    by (unfold openingTag; now rewrite <- !app_assoc).
  rewrite firstn_app_exact in H. revert H.
  unfold openingTag at 1 3. rewrite <- !app_assoc.
  unfold svgOpeningTag. cbn [seqs]. fold svgOpen. intros H.
  rewrite exec_first_lits by assumption. rewrite H.
  unfold prepend. cbn. now rewrite app_nil_r.
Qed.

(** The repair of a tag never throws. *)
Lemma fixSvgTag_total (tag : jsstring) : exists tag', fixSvgTag tag = Normal tag'.
Proof.
  unfold fixSvgTag.
  destruct (exec false viewBoxCapture tag) as [m|] eqn:E; [|now exists tag].
  apply exec_sound in E. destruct E as [_ Hb].
  specialize (Hb 1 eq_refl). unfold bound in Hb. unfold groupString.
  destruct (capture 1 (groups m)) as [box|]; [|congruence]. cbn [bind].
  destruct (gt _ _); eexists; reflexivity.
Qed.

Lemma fixSvgTag_repairedTag (tag tag' : jsstring) :
  fixSvgTag tag = Normal tag' -> repairedTag tag tag'.
Proof.
  intros H. split.
  - intros Habs. rewrite fixSvgTag_absent in H by assumption. now inversion H.
  - intros pre box post x y w h rest -> Hpre Hq Hsplit.
    destruct (gt (parseFloat h) (of_Z 0)) eqn:Hh.
    + erewrite fixSvgTag_positive in H by eassumption. now inversion H.
    + erewrite fixSvgTag_degenerate in H by eassumption. now inversion H.
Qed.

Lemma replaceWithFrom_None (fuel : nat) (r : regex)
  (f : jsstring -> completion jsstring) (s : jsstring) :
  exec false r s = None -> replaceWithFrom false fuel r f s = Normal s.
Proof. intros H. destruct fuel; [reflexivity|]. simpl. now rewrite H. Qed.

Lemma openingTag_cons (a : jsstring) :
  openingTag a = ch "<" :: js "svg" ++ a ++ [ch ">"].
Proof. reflexivity. Qed.

(** Every tag of the container is repaired on its own, in place. *)
Lemma replaceWithFrom_container (segs : list segment) (tail : jsstring) :
  forallb wellFormed segs = true ->
  includes svgOpen tail = false ->
  forall fuel, List.length segs <= fuel ->
  exists tags,
    Forall2 (fun g tag' => fixSvgTag (openingTag (attrs g)) = Normal tag')
            segs tags /\
    replaceWithFrom false fuel svgOpeningTag fixSvgTag (container segs tail)
    = Normal (rebuilt segs tags tail).
Proof.
  intros Hwf Htail. induction segs as [|g segs IH]; intros fuel Hfuel.
  - exists []. split; [constructor|]. cbn [container rebuilt].
    apply replaceWithFrom_None. unfold svgOpeningTag. cbn [seqs].
    now apply exec_lits_None.
  - cbn [forallb] in Hwf. apply andb_true_iff in Hwf. destruct Hwf as [Hg Hwf].
    unfold wellFormed in Hg. apply andb_true_iff in Hg. destruct Hg as [Ht Ha].
    apply negb_true_iff, existsb_In in Ha.
    destruct fuel as [|f]; simpl in Hfuel; [lia|].
    destruct (IH Hwf f) as (tags & Htags & Hrest); [lia|].
    destruct (fixSvgTag_total (openingTag (attrs g))) as [tag' Htag].
    exists (tag' :: tags). split; [now constructor|].
    cbn [container replaceWithFrom].
    rewrite exec_svgOpeningTag by assumption. cbn [matched before after].
    rewrite Htag. cbn [bind]. rewrite openingTag_cons, Hrest. reflexivity.
Qed.

(** A replacer that never throws makes a replacement that never throws. *)
Lemma replaceWithFrom_total (ic : bool) (r : regex)
  (f : jsstring -> completion jsstring) :
  (forall t, exists t', f t = Normal t') ->
  forall fuel s, exists out, replaceWithFrom ic fuel r f s = Normal out.
Proof.
  intros Hf. induction fuel as [|n IH]; intros s; [now exists s|].
  cbn [replaceWithFrom].
  destruct (exec ic r s) as [m|]; [|now exists s].
  destruct (Hf (matched m)) as [rep ->]. cbn [bind].
  destruct (matched m) as [|c t].
  - destruct (after m) as [|c rest].
    + eexists. reflexivity.
    + destruct (IH rest) as [out ->]. eexists. reflexivity.
  - destruct (IH (after m)) as [out ->]. eexists. reflexivity.
Qed.

Lemma container_length (segs : list segment) (tail : jsstring) :
  List.length segs <= List.length (container segs tail).
Proof.
  induction segs as [|g segs IH]; [simpl; lia|].
  cbn [container]. unfold openingTag. rewrite !length_app.
  change (List.length (g :: segs)) with (S (List.length segs)).
  change (List.length [ch ">"]) with 1. lia.
Qed.

(** *** The repair of one attribute, in place *)

Lemma toStr_plain (v : option number) : ~ In (ch "$") (toStr v).
Proof.
  destruct v as [n|]; cbn [toStr].
  - now apply NumberFacts.toString_not_In.
  - cbv. intuition discriminate.
Qed.

(** Whatever the number of pieces of the value, the repair rewrites the
    first viewBox attribute in place, from its value alone. *)
Lemma fixSvgTag_at (pre box post : jsstring) :
  firstAt viewBoxOpen pre = true -> box <> [] -> ~ In dquote box ->
  fixSvgTag (pre ++ viewBoxOpen ++ box ++ dquote :: post)
  = Normal (pre ++ repairedAttribute box ++ post).
Proof.
  intros Hpre Hne Hq. unfold fixSvgTag, repairedAttribute.
  rewrite exec_viewBoxCapture by assumption.
  cbn [groupString groups capture Nat.eqb bind]. cbv zeta.
  destruct (gt _ _).
  - now rewrite <- !app_assoc.
  - unfold replaceFirst. rewrite exec_viewBoxAttribute by assumption.
    cbn [before after]. fold viewBoxOpen.
    rewrite getSubstitution_plain; [now rewrite <- !app_assoc|].
    rewrite !in_app_iff.
    intros [H|[H|[H|[H|[H|[H|[H|[H|H]]]]]]]];
      try (revert H; now apply toStr_plain);
      try (revert H; now apply NumberFacts.toString_not_In);
      cbv in H; repeat (destruct H as [H|H]; [discriminate|]); assumption.
Qed.

(** The batch repair on a fragment with one opening tag *)
Lemma fixMultiple_one_tag (pre a rest tag' : jsstring) :
  firstAt svgOpen pre = true -> ~ In (ch ">") a ->
  includes svgOpen rest = false ->
  fixSvgTag (openingTag a) = Normal tag' ->
  fixMultipleSvgViewBoxes (Str (pre ++ openingTag a ++ rest))
  = Normal (pre ++ tag' ++ rest).
Proof.
  intros Hpre Ha Hrest Htag.
  cbn [fixMultipleSvgViewBoxes thisString bind]. unfold replaceWith.
  cbn [replaceWithFrom].
  rewrite exec_svgOpeningTag by assumption. cbn [matched before after].
  rewrite Htag. cbn [bind].
  rewrite replaceWithFrom_None.
  - now rewrite openingTag_cons.
  - unfold svgOpeningTag. cbn [seqs]. now apply exec_lits_None.
Qed.

End BatchFacts.

Module CropFacts.

Import Number RegExp Js RegExpFacts SearchFacts RemarkLilypond.
Import Statements.

Lemma matchesFrom_sound (ic : bool) (r : regex) (fuel : nat)
  (pre s : jsstring) (m : matchResult) :
  In m (matchesFrom ic fuel r pre s) ->
  forall i, binds i r = true -> bound i (groups m).
Proof.
  revert pre s. induction fuel as [|f IH]; intros pre s Hin i Hi;
    [contradiction|].
  cbn [matchesFrom] in Hin.
  destruct (exec ic r s) as [m0|] eqn:E; [|contradiction].
  apply exec_sound in E. destruct E as [_ Hb].
  destruct (matched m0) as [|c t]; [destruct (after m0) as [|c rest]|];
    destruct Hin as [<-|Hin]; try (now apply Hb); try contradiction;
    eapply IH; eassumption.
Qed.

Lemma matchAll_sound (ic : bool) (r : regex) (s : jsstring) (m : matchResult) :
  In m (matchAll ic r s) -> forall i, binds i r = true -> bound i (groups m).
Proof. apply matchesFrom_sound. Qed.

Lemma matchAll_None (ic : bool) (r : regex) (s : jsstring) :
  exec ic r s = None -> matchAll ic r s = [].
Proof. intros H. unfold matchAll. cbn [matchesFrom]. now rewrite H. Qed.

Lemma foldM_total (A B : Type) (f : B -> A -> completion B) (l : list A) :
  (forall b a, In a l -> exists b', f b a = Normal b') ->
  forall b, exists b', foldM f l b = Normal b'.
Proof.
  induction l as [|a l IH]; intros Hf b; cbn [foldM]; [now exists b|].
  destruct (Hf b a (or_introl eq_refl)) as [b1 Hb1]. rewrite Hb1.
  cbn [bind]. apply IH. intros b0 a0 Hin. apply Hf. now right.
Qed.

(** A scan that leaves the left and top edges alone. *)
Lemma foldM_keeps_min (A : Type) (f : bounds -> A -> completion bounds)
  (l : list A) :
  (forall b a, exists b',
      f b a = Normal b' /\ minX b' = minX b /\ minY b' = minY b) ->
  forall b, exists b',
    foldM f l b = Normal b' /\ minX b' = minX b /\ minY b' = minY b.
Proof.
  intros Hf. induction l as [|a l IH]; intros b; cbn [foldM]; [now exists b|].
  destruct (Hf b a) as (b1 & Hb1 & Hx & Hy). rewrite Hb1. cbn [bind].
  destruct (IH b1) as (b2 & Hb2 & Hx2 & Hy2).
  exists b2. split; [assumption|]. split; congruence.
Qed.

Lemma coordinates_total (r : regex) (s : jsstring) (m : matchResult) :
  binds 1 r = true -> In m (matchAll false r s) ->
  exists coords, coordinates m = Normal coords.
Proof.
  intros Hb Hin. pose proof (matchAll_sound _ _ _ _ Hin 1 Hb) as H.
  unfold coordinates, groupString. unfold bound in H.
  destruct (capture 1 (groups m)); [|congruence].
  eexists. reflexivity.
Qed.

Lemma lineStep_shape (b : bounds) (m : matchResult) :
  exists b', lineStep b m = Normal b' /\ minX b' = minX b /\ minY b' = minY b.
Proof.
  unfold lineStep. destruct (negb _); eexists; (split; [reflexivity|]); auto.
Qed.

Lemma rectStep_shape (b : bounds) (m : matchResult) :
  exists b', rectStep b m = Normal b' /\ minX b' = minX b /\ minY b' = minY b.
Proof. unfold rectStep. eexists. split; [reflexivity|]. auto. Qed.

Lemma contentBounds_total (s : jsstring) :
  exists b, contentBounds s = Normal b.
Proof.
  unfold contentBounds.
  destruct (@foldM_total _ _ transformStep
              (matchAll false translateTransform s)) with (b := noBounds)
    as [b1 H1].
  { intros b m Hin. unfold transformStep.
    destruct (coordinates_total translateTransform s m eq_refl Hin) as [cs ->].
    cbn [bind]. destruct cs as [|c0 [|c1 cs]]; eexists; reflexivity. }
  rewrite H1. cbn [bind].
  destruct (foldM_keeps_min lineStep (matchAll false lineEnd s)
              lineStep_shape b1) as (b2 & H2 & _).
  rewrite H2. cbn [bind].
  destruct (foldM_keeps_min rectStep (matchAll false rectExtent s)
              rectStep_shape b2) as (b3 & H3 & _).
  rewrite H3. cbn [bind].
  apply foldM_total. intros b m Hin. unfold pathGroupStep.
  destruct (coordinates_total pathGroup s m eq_refl Hin) as [cs ->].
  cbn [bind]. destruct cs as [|c0 [|c1 cs]]; eexists; reflexivity.
Qed.

Lemma cropToContent_total (s : jsstring) :
  exists out, cropToContent s = Normal out.
Proof.
  unfold cropToContent.
  destruct (exec false svgViewBox s) as [m|] eqn:E; [|now exists s].
  apply exec_sound in E. destruct E as [_ Hb].
  specialize (Hb 1 eq_refl). unfold bound in Hb. unfold groupString.
  destruct (capture 1 (groups m)) as [box|]; [|congruence]. cbn [bind].
  destruct (Nat.eqb _ 4); [|now exists s].
  destruct (contentBounds_total s) as [b ->]. cbn [bind].
  destruct (hasEstimate b); eexists; reflexivity.
Qed.

Lemma foldM_keeps_min_in (A : Type) (f : bounds -> A -> completion bounds)
  (l : list A) :
  (forall b a, In a l -> exists b',
      f b a = Normal b' /\ minX b' = minX b /\ minY b' = minY b) ->
  forall b, exists b',
    foldM f l b = Normal b' /\ minX b' = minX b /\ minY b' = minY b.
Proof.
  induction l as [|a l IH]; intros Hf b; cbn [foldM]; [now exists b|].
  destruct (Hf b a (or_introl eq_refl)) as (b1 & Hb1 & Hx & Hy).
  rewrite Hb1. cbn [bind].
  destruct (IH (fun b0 a0 Hin => Hf b0 a0 (or_intror Hin)) b1)
    as (b2 & Hb2 & Hx2 & Hy2).
  exists b2. split; [assumption|]. split; congruence.
Qed.

Lemma pathGroupStep_shape (s : jsstring) (b : bounds) (m : matchResult) :
  In m (matchAll false pathGroup s) ->
  exists b',
    pathGroupStep b m = Normal b' /\ minX b' = minX b /\ minY b' = minY b.
Proof.
  intros Hin. unfold pathGroupStep.
  destruct (coordinates_total pathGroup s m eq_refl Hin) as [cs ->].
  cbn [bind].
  destruct cs as [|c0 [|c1 cs]]; eexists; (split; [reflexivity|]); auto.
Qed.

(** Without a match of the translate pattern the scan has no left
    edge. *)
Lemma contentBounds_no_transform (s : jsstring) :
  matchAll false translateTransform s = [] ->
  exists b, contentBounds s = Normal b /\ hasEstimate b = false.
Proof.
  intros H. unfold contentBounds. rewrite H. cbn [foldM bind].
  destruct (foldM_keeps_min lineStep (matchAll false lineEnd s)
              lineStep_shape noBounds) as (b2 & H2 & Hx2 & Hy2).
  rewrite H2. cbn [bind].
  destruct (foldM_keeps_min rectStep (matchAll false rectExtent s)
              rectStep_shape b2) as (b3 & H3 & Hx3 & Hy3).
  rewrite H3. cbn [bind].
  destruct (@foldM_keeps_min_in _ pathGroupStep (matchAll false pathGroup s)
              (fun b m => pathGroupStep_shape s b m) b3)
    as (b4 & H4 & Hx4 & Hy4).
  exists b4. split; [assumption|].
  unfold hasEstimate. rewrite Hx4, Hx3, Hx2. reflexivity.
Qed.


(** *** A coordinate that is not a number *)

(** A fragment without the text that opens a translate transform has
    no match of the translate pattern. *)
Lemma matchAll_no_translate (s : jsstring) :
  includes translateOpen s = false ->
  matchAll false translateTransform s = [].
Proof.
  intros H. apply matchAll_None.
  unfold translateTransform. cbn [seqs]. fold translateOpen.
  now apply exec_lits_None.
Qed.

Lemma foldM_app (A B : Type) (f : B -> A -> completion B) (l1 l2 : list A)
  (b : B) :
  foldM f (l1 ++ l2) b = bind (foldM f l1 b) (foldM f l2).
Proof.
  revert b. induction l1 as [|a l1 IH]; intros b; [reflexivity|].
  cbn [app foldM]. destruct (f b a) as [b'|e]; cbn [bind]; [apply IH|].
  reflexivity.
Qed.

Lemma isNaN_min (x y : number) :
  isNaN x || isNaN y = true -> isNaN (min x y) = true.
Proof.
  destruct x; destruct y; try reflexivity; cbn; discriminate.
Qed.

Lemma transformStep_edgeLost (b b' : bounds) (m : matchResult) :
  transformStep b m = Normal b' -> edgeLost b = true -> edgeLost b' = true.
Proof.
  unfold transformStep, edgeLost.
  destruct (coordinates m) as [cs|e]; cbn [bind]; [|discriminate].
  destruct cs as [|c0 [|c1 cs]]; intros H; inversion H; subst;
    try (intros Hb; exact Hb).
  cbn [minX minY]. intros Hb. apply orb_true_iff in Hb.
  apply orb_true_iff. destruct Hb as [Hb|Hb]; [left|right];
    apply isNaN_min; now rewrite Hb.
Qed.

Lemma foldM_transformStep_edgeLost (l : list matchResult) (b b' : bounds) :
  foldM transformStep l b = Normal b' ->
  edgeLost b = true -> edgeLost b' = true.
Proof.
  revert b. induction l as [|m l IH]; intros b H Hb; cbn [foldM] in H.
  - inversion H; now subst.
  - destruct (transformStep b m) as [b1|e] eqn:E; cbn [bind] in H;
      [|discriminate].
    apply (IH b1 H). now apply (transformStep_edgeLost _ _ E).
Qed.

Lemma hasEstimate_edgeLost (b : bounds) :
  edgeLost b = true -> hasEstimate b = false.
Proof.
  unfold edgeLost, hasEstimate. intros H. apply orb_true_iff in H.
  destruct H as [H|H].
  - destruct (minX b); try discriminate. reflexivity.
  - destruct (minY b); try discriminate.
    now rewrite andb_false_r.
Qed.

(** A translate transform with a first or second coordinate that is not
    a number leaves the scan without an estimate, whatever else the
    fragment holds. *)
Lemma contentBounds_nan_coordinate (s : jsstring) (m : matchResult)
  (c0 c1 : number) (cs : list number) :
  In m (matchAll false translateTransform s) ->
  coordinates m = Normal (c0 :: c1 :: cs) ->
  isNaN c0 || isNaN c1 = true ->
  exists b, contentBounds s = Normal b /\ hasEstimate b = false.
Proof.
  intros Hin Hc Hnan.
  destruct (contentBounds_total s) as [b Hb]. exists b. split; [assumption|].
  apply hasEstimate_edgeLost.
  unfold contentBounds in Hb.
  destruct (foldM transformStep (matchAll false translateTransform s)
              noBounds) as [b1|e] eqn:E1; cbn [bind] in Hb; [|discriminate].
  assert (H1 : edgeLost b1 = true).
  { apply in_split in Hin. destruct Hin as (l1 & l2 & Hl).
    rewrite Hl, foldM_app in E1.
    destruct (foldM transformStep l1 noBounds) as [b0|e] eqn:E0;
      cbn [bind] in E1; [|discriminate].
    cbn [foldM] in E1. unfold transformStep at 1 in E1.
    rewrite Hc in E1. cbn [bind] in E1.
    apply (foldM_transformStep_edgeLost _ _ E1).
    unfold edgeLost. cbn [minX minY]. apply orb_true_iff in Hnan.
    apply orb_true_iff. destruct Hnan as [H|H]; [left|right];
      apply isNaN_min; rewrite H; apply orb_true_r. }
  destruct (foldM_keeps_min lineStep (matchAll false lineEnd s)
              lineStep_shape b1) as (b2 & H2 & Hx2 & Hy2).
  rewrite H2 in Hb. cbn [bind] in Hb.
  destruct (foldM_keeps_min rectStep (matchAll false rectExtent s)
              rectStep_shape b2) as (b3 & H3 & Hx3 & Hy3).
  rewrite H3 in Hb. cbn [bind] in Hb.
  destruct (@foldM_keeps_min_in _ pathGroupStep (matchAll false pathGroup s)
              (fun b m => pathGroupStep_shape s b m) b3)
    as (b4 & H4 & Hx4 & Hy4).
  rewrite H4 in Hb. inversion Hb; subst b4.
  unfold edgeLost in *. now rewrite Hx4, Hy4, Hx3, Hy3, Hx2, Hy2.
Qed.

Lemma cropToContent_no_estimate (s : jsstring) (b : bounds) :
  contentBounds s = Normal b -> hasEstimate b = false ->
  cropToContent s = Normal s.
Proof.
  intros Hb He. unfold cropToContent.
  destruct (exec false svgViewBox s) as [m|] eqn:E; [|reflexivity].
  destruct (groupString 1 m) as [box|e] eqn:Eg; cbn [bind].
  - destruct (Nat.eqb _ 4); [|reflexivity].
    rewrite Hb. cbn [bind]. now rewrite He.
  - exfalso. apply exec_sound in E. destruct E as [_ Hbd].
    specialize (Hbd 1 eq_refl). unfold bound in Hbd. unfold groupString in Eg.
    destruct (capture 1 (groups m)); [discriminate|congruence].
Qed.

End CropFacts.

Module AttributeFacts.

Import Number RegExp Js Statements.
Import RegExpFacts SearchFacts ViewBoxFacts.

Section Backtrack.

Variable ignoreCase : bool.
Variable R : Type.
Variable k : cont R.
Variable caps : captures.

Lemma retreat_app (r1 r2 t : jsstring) :
  retreat k caps (r1 ++ r2) t
  = match retreat k caps r2 t with
    | Some x => Some x
    | None => retreat k caps r1 (r2 ++ t)
    end.
Proof.
  induction r1 as [|c r1 IH]; cbn [app retreat].
  - now destruct (retreat k caps r2 t).
  - rewrite IH. destruct (retreat k caps r2 t); [reflexivity|].
    now rewrite <- app_assoc.
Qed.

(** A greedy star over a character class, on a run of the class that
    ends at [t]: the continuation is tried at the end of the run first,
    then further and further back. *)
Lemma iterate_class_retreat (invert : bool) (atoms : list classAtom)
  (run t : jsstring) :
  Forall (fun c => classMatches ignoreCase invert atoms c = true) run ->
  match t with
  | [] => True
  | c :: _ => classMatches ignoreCase invert atoms c = false
  end ->
  forall fuel, List.length run <= fuel ->
  iterate (matchRe ignoreCase (Class invert atoms)) true fuel (run ++ t) caps k
  = match k t caps with
    | Some x => Some x
    | None => retreat k caps run t
    end.
Proof.
  intros Hrun Ht. induction Hrun as [|c run Hc Hrun IH]; intros fuel Hfuel.
  - cbn [app retreat]. destruct fuel as [|f]; cbn [iterate].
    + now destruct (k t caps).
    + destruct t as [|c t]; cbn [matchRe]; [|rewrite Ht];
        now destruct (k _ caps).
  - destruct fuel as [|f]; cbn [List.length] in Hfuel; [lia|].
    cbn [iterate app matchRe retreat]. rewrite Hc.
    replace (Nat.ltb (List.length (run ++ t)) (List.length (c :: run ++ t)))
      with true by (symmetry; apply Nat.ltb_lt; cbn [List.length]; lia).
    rewrite IH by lia.
    destruct (k t caps); [reflexivity|].
    now destruct (retreat k caps run t).
Qed.

End Backtrack.

(** *** Where the name of an attribute can match *)

Section Names.

Variable name : jsstring.
Hypothesis name_plain : forallb nameChar name = true.
Hypothesis name_nonempty : name <> [].

Lemma nameChar_not (c x : char) :
  nameChar c = true ->
  x = ch " " \/ x = ch "=" \/ x = dquote \/ x = ch ">" ->
  (c =? x)%N = false /\ (x =? c)%N = false.
Proof.
  unfold nameChar. intros H Hx. apply negb_true_iff in H.
  repeat (apply orb_false_iff in H; destruct H as [H ?]).
  destruct Hx as [-> | [-> | [-> | ->]]]; split; try assumption;
    rewrite N.eqb_sym; assumption.
Qed.

(** In front of an equals sign and a quote, [opening] matches the
    run [u] of name characters exactly when [u] is [name]. *)
Lemma dropPrefix_opening_name (u rest : jsstring) :
  forallb nameChar u = true ->
  dropPrefix (opening name) (u ++ ch "=" :: dquote :: rest)
  = if JsString.eqb name u then Some rest else None.
Proof.
  unfold opening. revert u name_plain. clear name_nonempty.
  induction name as [|x nm IH]; intros u Hname Hu.
  - destruct u as [|c u]; cbn; [reflexivity|].
    cbn [forallb] in Hu. apply andb_true_iff in Hu. destruct Hu as [Hc _].
    destruct (@nameChar_not c (ch "=") Hc) as [_ H]; [tauto|].
    cbn in H. now rewrite H.
  - cbn [forallb] in Hname. apply andb_true_iff in Hname.
    destruct Hname as [Hx Hnm].
    destruct u as [|c u]; cbn [app dropPrefix JsString.eqb].
    + destruct (@nameChar_not x (ch "=") Hx) as [H _]; [tauto|]. now rewrite H.
    + cbn [forallb] in Hu. apply andb_true_iff in Hu. destruct Hu as [Hc Hu].
      destruct (x =? c)%N; [|reflexivity]. cbn [andb]. now apply IH.
Qed.

(** Inside a value and at its closing quote, [opening] does not
    match. *)
Lemma dropPrefix_opening_value (u t : jsstring) :
  forallb valueChar u = true ->
  dropPrefix (opening name) (u ++ dquote :: t) = None.
Proof.
  unfold opening. revert u name_plain. clear name_nonempty.
  induction name as [|x nm IH]; intros u Hname Hu.
  - destruct u as [|c u]; cbn; [reflexivity|].
    cbn [forallb] in Hu. apply andb_true_iff in Hu. destruct Hu as [Hc _].
    unfold valueChar in Hc. apply negb_true_iff in Hc.
    repeat (apply orb_false_iff in Hc; destruct Hc as [Hc ?]).
    rewrite N.eqb_sym in Hc. cbn in Hc. now rewrite Hc.
  - cbn [forallb] in Hname. apply andb_true_iff in Hname.
    destruct Hname as [Hx Hnm].
    destruct u as [|c u]; cbn [app dropPrefix].
    + destruct (@nameChar_not x dquote Hx) as [H _]; [tauto|]. now rewrite H.
    + cbn [forallb] in Hu. apply andb_true_iff in Hu. destruct Hu as [Hc Hu].
      destruct (x =? c)%N; [|reflexivity]. now apply IH.
Qed.

(** Nor does it where a blank, an equals sign, a quote or the end of
    the tag stands. *)
Lemma dropPrefix_opening_other (x : char) (t : jsstring) :
  x = ch " " \/ x = ch "=" \/ x = dquote \/ x = ch ">" ->
  dropPrefix (opening name) (x :: t) = None.
Proof.
  intros Hx. unfold opening. destruct name as [|c nm]; [congruence|].
  cbn [forallb] in name_plain. apply andb_true_iff in name_plain.
  destruct name_plain as [Hc _]. cbn [app dropPrefix].
  destruct (@nameChar_not c x Hc Hx) as [H _]. now rewrite H.
Qed.

Lemma suffixFree_short (u : jsstring) :
  List.length u < List.length name -> suffixFree name u = true.
Proof.
  induction u as [|c u IH]; intros H; [reflexivity|].
  cbn [suffixFree]. rewrite IH by (cbn [List.length] in H; lia).
  rewrite andb_true_r. apply negb_true_iff.
  destruct (JsString.eqb name (c :: u)) eqn:E; [|reflexivity].
  apply jsstring_eqb_spec in E. rewrite E in H. lia.
Qed.

Variable R : Type.
Variable k : cont R.
Variable caps : captures.
Variable K : jsstring -> jsstring -> option R.
Hypothesis k_opening :
  forall s, k s caps = match dropPrefix (opening name) s with
                       | Some s' => K s s'
                       | None => None
                       end.

Lemma retreat_value (v t : jsstring) :
  forallb valueChar v = true -> retreat k caps (v ++ [dquote]) t = None.
Proof.
  induction v as [|c v IH]; intros Hv.
  - cbn [app retreat]. rewrite k_opening.
    rewrite dropPrefix_opening_other; [reflexivity|tauto].
  - cbn [app retreat]. cbn [forallb] in Hv. apply andb_true_iff in Hv.
    rewrite IH by tauto. rewrite k_opening.
    change (c :: (v ++ [dquote]) ++ t) with ((c :: v ++ [dquote]) ++ t).
    replace ((c :: v ++ [dquote]) ++ t) with ((c :: v) ++ dquote :: t)
      by (cbn [app]; now rewrite <- app_assoc).
    rewrite dropPrefix_opening_value; [reflexivity|].
    cbn [forallb]. apply andb_true_iff. tauto.
Qed.

Lemma retreat_other_name (n t : jsstring) :
  forallb nameChar n = true -> suffixFree name n = true ->
  retreat k caps n (ch "=" :: dquote :: t) = None.
Proof.
  induction n as [|c n IH]; intros Hn Hfree; [reflexivity|].
  cbn [retreat]. cbn [suffixFree] in Hfree. apply andb_true_iff in Hfree.
  destruct Hfree as [Hne Hfree].
  rewrite IH; [|cbn [forallb] in Hn; apply andb_true_iff in Hn; tauto|assumption].
  rewrite k_opening, dropPrefix_opening_name by assumption.
  apply negb_true_iff in Hne. now rewrite Hne.
Qed.

Lemma retreat_own_name (t : jsstring) :
  retreat k caps name (ch "=" :: dquote :: t)
  = k (name ++ ch "=" :: dquote :: t) caps.
Proof.
  enough (H : forall n, n = name ->
                retreat k caps n (ch "=" :: dquote :: t)
                = k (n ++ ch "=" :: dquote :: t) caps)
    by (apply H; reflexivity).
  intros n Hn. pose proof name_plain as Hp. pose proof name_nonempty as Hne.
  rewrite <- Hn in Hp, Hne.
  destruct n as [|c nm]; [congruence|].
  cbn [retreat]. rewrite retreat_other_name; [reflexivity| |].
  - cbn [forallb] in Hp. apply andb_true_iff in Hp. tauto.
  - apply suffixFree_short. rewrite <- Hn. cbn [List.length]. lia.
Qed.

(** On the way back through one attribute the continuation is reached
    at one place at most: where the name stands, if the name is
    [name]. *)
Lemma retreat_render (a : attribute) (t : jsstring) :
  plainAttribute a = true -> distinctName name a = true ->
  retreat k caps (render a) t
  = if named name a
    then k (name ++ ch "=" :: dquote :: snd a ++ dquote :: t) caps
    else None.
Proof.
  destruct a as [n v]. unfold plainAttribute, distinctName, named, render.
  cbn [fst snd]. intros Hplain Hdist.
  apply andb_true_iff in Hplain. destruct Hplain as [Hn Hv].
  replace (ch " " :: n ++ ch "=" :: dquote :: v ++ [dquote])
    with ([ch " "] ++ n ++ [ch "="] ++ [dquote] ++ (v ++ [dquote]))
    by reflexivity.
  rewrite (retreat_app k caps [ch " "]).
  rewrite (retreat_app k caps n).
  rewrite (retreat_app k caps [ch "="]).
  rewrite (retreat_app k caps [dquote] (v ++ [dquote])).
  rewrite retreat_value by assumption.
  cbn [retreat app]. rewrite !k_opening.
  rewrite !dropPrefix_opening_other by tauto.
  rewrite <- app_assoc. cbn [app].
  destruct (JsString.eqb name n) eqn:E.
  - apply jsstring_eqb_spec in E. subst n.
    rewrite retreat_own_name, k_opening.
    destruct (dropPrefix _ _) as [s'|]; [now destruct (K _ s')|reflexivity].
  - cbn [orb] in Hdist. now rewrite retreat_other_name.
Qed.

(** On the way back through a list of attributes: the last one called
    [name], when the continuation succeeds there. *)
Lemma retreat_renderAll_none (attrs : list attribute) (t : jsstring) :
  forallb plainAttribute attrs = true ->
  forallb (distinctName name) attrs = true ->
  existsb (named name) attrs = false ->
  retreat k caps (renderAll attrs) t = None.
Proof.
  induction attrs as [|a attrs IH]; intros Hp Hd Hn; [reflexivity|].
  cbn [forallb existsb] in *.
  apply andb_true_iff in Hp. apply andb_true_iff in Hd.
  apply orb_false_iff in Hn.
  cbn [renderAll flat_map]. fold (renderAll attrs).
  rewrite retreat_app, IH by tauto.
  rewrite retreat_render by tauto. destruct Hn as [-> _]. reflexivity.
Qed.

Lemma retreat_renderAll (before : list attribute) (v : jsstring)
  (after : list attribute) (t : jsstring) (x : R) :
  forallb plainAttribute after = true ->
  forallb (distinctName name) after = true ->
  existsb (named name) after = false ->
  forallb valueChar v = true ->
  k (name ++ ch "=" :: dquote :: v ++ dquote :: renderAll after ++ t) caps
  = Some x ->
  retreat k caps (renderAll (before ++ (name, v) :: after)) t = Some x.
Proof.
  intros Hp Hd Hn Hv Hk.
  unfold renderAll. rewrite flat_map_app. cbn [flat_map].
  fold (renderAll before) (renderAll after).
  rewrite retreat_app, retreat_app.
  rewrite retreat_renderAll_none by assumption.
  rewrite retreat_render.
  - unfold named. cbn [fst snd]. rewrite jsstring_eqb_refl.
    now rewrite Hk.
  - unfold plainAttribute. cbn [fst snd]. now rewrite name_plain, Hv.
  - unfold distinctName. cbn [fst]. now rewrite jsstring_eqb_refl.
Qed.

End Names.

End AttributeFacts.

Module TagFacts.

Import Number RegExp Js Statements.
Import RegExpFacts SearchFacts NumberFacts ViewBoxFacts AttributeFacts.
Import RemarkLilypond.

(** *** The characters of a rendered tag *)

Lemma valueChar_nameChar (c : char) : nameChar c = true -> valueChar c = true.
Proof.
  unfold nameChar, valueChar. intros H. apply negb_true_iff in H.
  repeat (apply orb_false_iff in H; destruct H as [H ?]).
  apply negb_true_iff. repeat (apply orb_false_iff; split); assumption.
Qed.

Lemma valueChar_In (v : jsstring) (x : char) :
  forallb valueChar v = true ->
  x = ch "=" \/ x = dquote \/ x = ch ">" -> ~ In x v.
Proof.
  intros Hv Hx Hin. rewrite forallb_forall in Hv. apply Hv in Hin.
  unfold valueChar in Hin. apply negb_true_iff in Hin.
  repeat (apply orb_false_iff in Hin; destruct Hin as [Hin ?]).
  destruct Hx as [-> | [-> | ->]]; now rewrite N.eqb_refl in *.
Qed.

Lemma render_valueChar (a : attribute) :
  plainAttribute a = true -> ~ In (ch ">") (render a).
Proof.
  destruct a as [n v]. unfold plainAttribute, render. cbn [fst snd].
  intros H. apply andb_true_iff in H. destruct H as [Hn Hv].
  apply (@forallb_weaken nameChar valueChar _ valueChar_nameChar) in Hn.
  intros [E|Hin]; [discriminate|].
  apply in_app_or in Hin. destruct Hin as [Hin|[E|[E|Hin]]];
    try discriminate.
  - revert Hin. apply valueChar_In; tauto.
  - apply in_app_or in Hin. destruct Hin as [Hin|[E|[]]]; [|discriminate].
    revert Hin. apply valueChar_In; tauto.
Qed.

Lemma renderAll_valueChar (attrs : list attribute) :
  forallb plainAttribute attrs = true -> ~ In (ch ">") (renderAll attrs).
Proof.
  induction attrs as [|a attrs IH]; intros H; [tauto|].
  cbn [forallb] in H. apply andb_true_iff in H.
  cbn [renderAll flat_map]. intros Hin. apply in_app_or in Hin.
  destruct Hin as [Hin|Hin].
  - revert Hin. apply render_valueChar; tauto.
  - revert Hin. apply IH; tauto.
Qed.

Lemma renderAll_app (l1 l2 : list attribute) :
  renderAll (l1 ++ l2) = renderAll l1 ++ renderAll l2.
Proof. apply flat_map_app. Qed.

Lemma renderAll_cons (name v : jsstring) (l : list attribute) :
  renderAll ((name, v) :: l)
  = ch " " :: name ++ ch "=" :: dquote :: v ++ dquote :: renderAll l.
Proof.
  cbn [renderAll flat_map render fst snd app].
  f_equal. rewrite <- app_assoc. cbn [app]. f_equal. f_equal. f_equal.
  now rewrite <- app_assoc.
Qed.

(** *** The greedy scan of the attributes *)

Section Scan.

Variable name : jsstring.
Hypothesis name_plain : forallb nameChar name = true.
Hypothesis name_nonempty : name <> [].

Variable R : Type.
Variable k : cont R.
Variable caps : captures.
Variable K : jsstring -> jsstring -> option R.
Hypothesis k_opening :
  forall s, k s caps = match dropPrefix (opening name) s with
                       | Some s' => K s s'
                       | None => None
                       end.

(** [[^>]*], followed by the name of an attribute, on the attributes
    of a tag: the scan runs to the end of the tag and comes back to the
    last attribute of that name. *)
Lemma scan_last_attribute (before : list attribute) (v : jsstring)
  (after : list attribute) (rest : jsstring) (x : R) :
  forallb plainAttribute (before ++ (name, v) :: after) = true ->
  forallb (distinctName name) after = true ->
  existsb (named name) after = false ->
  K (name ++ ch "=" :: dquote :: v ++ dquote :: renderAll after ++
       ch ">" :: rest)
    (v ++ dquote :: renderAll after ++ ch ">" :: rest) = Some x ->
  matchRe false (Star true (notChar (ch ">")))
    (renderAll (before ++ (name, v) :: after) ++ ch ">" :: rest) caps k
  = Some x.
Proof.
  intros Hp Hd Hn HK. cbn [matchRe]. unfold notChar.
  rewrite iterate_class_retreat.
  - rewrite k_opening, (dropPrefix_opening_other name_plain name_nonempty)
      by tauto.
    rewrite forallb_app in Hp. cbn [forallb] in Hp.
    apply andb_true_iff in Hp. destruct Hp as [_ Hp].
    apply andb_true_iff in Hp. destruct Hp as [Hv Hp].
    unfold plainAttribute in Hv. cbn [fst snd] in Hv.
    apply andb_true_iff in Hv. destruct Hv as [_ Hv].
    apply (retreat_renderAll name_plain name_nonempty k caps K k_opening);
      try assumption.
    rewrite k_opening.
    change (ch "=" :: dquote :: v ++ dquote :: renderAll after ++ ch ">" :: rest)
      with ([ch "="; dquote] ++ v ++ dquote :: renderAll after ++ ch ">" :: rest).
    rewrite app_assoc. fold (opening name). rewrite dropPrefix_app.
    rewrite <- HK. unfold opening. now rewrite <- app_assoc.
  - apply notChar_run. now apply renderAll_valueChar.
  - apply notChar_same.
  - rewrite length_app. lia.
Qed.

End Scan.

(** *** The three patterns of the rewrite on an opening tag *)

Lemma tag_split (name v : jsstring) (before after : list attribute)
  (rest : jsstring) :
  svgOpen ++ renderAll (before ++ (name, v) :: after) ++ ch ">" :: rest
  = (svgOpen ++ renderAll before ++ [ch " "]) ++
    name ++ ch "=" :: dquote :: v ++ dquote :: renderAll after ++
    ch ">" :: rest.
Proof.
  rewrite renderAll_app, renderAll_cons.
  repeat (rewrite <- ?app_assoc; cbn [app]). reflexivity.
Qed.

Lemma firstn_tag_split (a b : jsstring) (s : jsstring) :
  s = a ++ b -> firstn (List.length s - List.length b) s = a.
Proof. intros ->. apply firstn_app_exact. Qed.

Lemma value_run (v : jsstring) :
  forallb valueChar v = true ->
  Forall (fun c => classMatches false true [CChar dquote] c = true) v.
Proof. intros H. apply notChar_run. revert H. intros H. apply (valueChar_In v H). tauto. Qed.

Lemma matchRe_Lit_same (R : Type) (c : char) (s : jsstring)
  (caps : captures) (k : cont R) :
  matchRe false (Lit c) (c :: s) caps k = k s caps.
Proof. cbn [matchRe]. unfold charEq. now rewrite N.eqb_refl. Qed.

Section Patterns.

Variable name : jsstring.
Hypothesis name_plain : forallb nameChar name = true.
Hypothesis name_nonempty : name <> [].

Variables (before after : list attribute) (v rest : jsstring).
Hypothesis tag_plain :
  forallb plainAttribute (before ++ (name, v) :: after) = true.
Hypothesis after_distinct : forallb (distinctName name) after = true.
Hypothesis after_other : existsb (named name) after = false.

Lemma value_plain : forallb valueChar v = true.
Proof.
  pose proof tag_plain as Hp.
  rewrite forallb_app in Hp. cbn [forallb] in Hp.
  apply andb_true_iff in Hp. destruct Hp as [_ Hp].
  apply andb_true_iff in Hp. destruct Hp as [Hv _].
  unfold plainAttribute in Hv. cbn [fst snd] in Hv.
  apply andb_true_iff in Hv. tauto.
Qed.

Lemma after_plain : forallb plainAttribute after = true.
Proof.
  pose proof tag_plain as Hp.
  rewrite forallb_app in Hp. cbn [forallb] in Hp.
  apply andb_true_iff in Hp. destruct Hp as [_ Hp].
  apply andb_true_iff in Hp. tauto.
Qed.

(** [(<svg[^>]* )name=Q[^Q]* Q] at the opening tag: the last attribute
    called [name], group 1 being the tag up to it. *)
Lemma matchAt_tagAttribute :
  matchAt false (tagAttribute name)
    (svgOpen ++ renderAll (before ++ (name, v) :: after) ++ ch ">" :: rest)
  = Some (renderAll after ++ ch ">" :: rest,
          [(1, svgOpen ++ renderAll before ++ [ch " "])]).
Proof.
  unfold matchAt, tagAttribute.
  rewrite matchRe_Seq, matchRe_Group, matchRe_lits_seq, dropPrefix_app.
  set (whole := svgOpen ++ _).
  eapply (@scan_last_attribute name name_plain name_nonempty _ _ []
            (fun s s' =>
               matchRe false (Seq (Star true (notChar dquote)) (Lit dquote)) s'
                 [(1, firstn (List.length whole - List.length s) whole)]
                 (fun s'' caps'' => Some (s'', caps''))));
    try assumption.
  - intros s. cbv beta. now rewrite matchRe_lits_seq.
  - rewrite matchRe_Seq. unfold notChar.
    erewrite star_class_greedy;
      [reflexivity|apply value_run, value_plain|apply notChar_same|].
    cbn [matchRe]. unfold charEq. rewrite N.eqb_refl.
    rewrite (@firstn_tag_split (svgOpen ++ renderAll before ++ [ch " "]));
      [reflexivity|].
    subst whole. apply tag_split.
Qed.

End Patterns.

Section ViewBox.

Variables (before after : list attribute) (v rest : jsstring).
Hypothesis tag_plain :
  forallb plainAttribute (before ++ (js "viewBox", v) :: after) = true.
Hypothesis after_distinct :
  forallb (distinctName (js "viewBox")) after = true.
Hypothesis after_other : existsb (named (js "viewBox")) after = false.

Let tag : jsstring :=
  svgOpen ++ renderAll (before ++ (js "viewBox", v) :: after) ++
  ch ">" :: rest.

Lemma viewBox_name : forallb nameChar (js "viewBox") = true /\ js "viewBox" <> [].
Proof. split; [reflexivity|discriminate]. Qed.

(** [(<svg[^>]* viewBox=Q)[^Q]* (Q)] at the opening tag *)
Lemma matchAt_svgViewBoxValue :
  matchAt false svgViewBoxValue tag
  = Some (renderAll after ++ ch ">" :: rest,
          [(2, [dquote]);
           (1, svgOpen ++ renderAll before ++ ch " " :: viewBoxOpen)]).
Proof.
  destruct viewBox_name as [Hname Hne].
  unfold matchAt, svgViewBoxValue. cbn [seqs].
  rewrite matchRe_Seq, matchRe_Group, matchRe_lits_seq.
  unfold tag. fold svgOpen. rewrite dropPrefix_app. fold tag.
  rewrite matchRe_Seq.
  eapply (@scan_last_attribute (js "viewBox") Hname Hne _ _ []
            (fun s s' =>
               matchRe false
                 (Seq (Star true (notChar dquote)) (Group 2 (Lit dquote))) s'
                 [(1, firstn (List.length tag - List.length s') tag)]
                 (fun s'' caps'' => Some (s'', caps''))));
    try assumption.
  - intros s. cbv beta. now rewrite matchRe_lits.
  - rewrite matchRe_Seq. unfold notChar.
    erewrite star_class_greedy;
      [reflexivity
      |apply value_run, (value_plain _ _ _ _ tag_plain)
      |apply notChar_same|].
    rewrite matchRe_Group. cbn [matchRe]. unfold charEq. rewrite N.eqb_refl.
    rewrite (@firstn_tag_split
               (svgOpen ++ renderAll before ++ ch " " :: viewBoxOpen)
               (v ++ dquote :: renderAll after ++ ch ">" :: rest) tag).
    + change (dquote :: renderAll after ++ ch ">" :: rest)
        with ([dquote] ++ renderAll after ++ ch ">" :: rest).
      now rewrite (firstn_app_exact [dquote]).
    + unfold tag. rewrite tag_split.
      repeat (rewrite <- ?app_assoc; cbn [app]). reflexivity.
Qed.

(** [<svg[^>]* viewBox=Q([^Q]* )Q[^>]* >] at the opening tag *)
Lemma matchAt_svgViewBox :
  matchAt false svgViewBox tag = Some (rest, [(1, v)]).
Proof.
  destruct viewBox_name as [Hname Hne].
  unfold matchAt, svgViewBox. cbn [seqs].
  rewrite matchRe_lits_seq.
  unfold tag. fold svgOpen. rewrite dropPrefix_app.
  rewrite matchRe_Seq.
  eapply (@scan_last_attribute (js "viewBox") Hname Hne _ _ []
            (fun s s' =>
               matchRe false
                 (Seq (Group 1 (Star true (notChar dquote)))
                    (Seq (Lit dquote)
                       (Seq (Star true (notChar (ch ">"))) (Lit (ch ">")))))
                 s' [] (fun s'' caps'' => Some (s'', caps''))));
    try assumption.
  - intros s. cbv beta. now rewrite matchRe_lits_seq.
  - rewrite matchRe_Seq, matchRe_Group. unfold notChar.
    erewrite star_class_greedy;
      [reflexivity
      |apply value_run, (value_plain _ _ _ _ tag_plain)
      |apply notChar_same|].
    rewrite matchRe_Seq, matchRe_Lit_same, matchRe_Seq.
    erewrite star_class_greedy;
      [reflexivity
      |apply notChar_run, renderAll_valueChar,
         (after_plain _ _ _ _ tag_plain)
      |apply notChar_same|].
    rewrite matchRe_Lit_same. now rewrite firstn_app_exact.
Qed.

End ViewBox.

(** *** The search for the opening tag, and the substitution *)

Lemma matchAt_group_lits_None (i : nat) (p : jsstring) (r r' : regex)
  (s : jsstring) :
  startsWith p s = false ->
  matchAt false (Seq (Group i (Seq (lits p) r)) r') s = None.
Proof.
  intros H. unfold matchAt.
  rewrite matchRe_Seq, matchRe_Group, matchRe_lits_seq.
  now rewrite (startsWith_false _ _ H).
Qed.

(** The search for a pattern that needs [<svg] where it starts, in an
    input whose first [<svg] stands after [pre]. *)
Lemma exec_first_tag (r : regex) (pre t rest : jsstring) (caps : captures) :
  (forall s, startsWith svgOpen s = false -> matchAt false r s = None) ->
  firstAt svgOpen pre = true ->
  matchAt false r (svgOpen ++ t) = Some (rest, caps) ->
  exec false r (pre ++ svgOpen ++ t)
  = Some (MatchResult pre
            (firstn (List.length (svgOpen ++ t) - List.length rest)
                    (svgOpen ++ t))
            caps rest).
Proof.
  intros Hr Hpre Hm. rewrite exec_skip.
  - rewrite (exec_here _ _ _ Hm). unfold prepend. cbn [option_map before
      matched groups after]. now rewrite app_nil_r.
  - intros a b Hab Hb. apply Hr. subst pre.
    now apply firstAt_startsWith with (a := a).
Qed.

Lemma getSubstitution_app_plain (n : nat) (m : matchResult) (t u : jsstring) :
  ~ In (ch "$") t ->
  getSubstitution n m (t ++ u) = t ++ getSubstitution n m u.
Proof.
  induction t as [|c t IH]; intros H; [reflexivity|].
  cbn [app getSubstitution].
  destruct (N.eqb_spec c (ch "$")) as [->|Hc].
  - exfalso. apply H. now left.
  - cbn [negb]. f_equal. apply IH. intros Hin. apply H. now right.
Qed.

(** [$1] and [$2] in a template, for a pattern with fewer than ten
    groups: whatever follows, digits as well, the group is meant. *)
Lemma getSubstitution_group (i n : nat) (m : matchResult) (t : jsstring)
  (g : jsstring) :
  1 <= i <= n -> n < 10 -> i < 10 ->
  capture i (groups m) = Some g ->
  getSubstitution n m (ch "$" :: N.of_nat (48 + i) :: t)
  = g ++ getSubstitution n m t.
Proof.
  intros Hi Hn Hi10 Hg.
  assert (Hd : N.to_nat (N.of_nat (48 + i) - 48) = i) by lia.
  assert (Hdig : isDigit (N.of_nat (48 + i)) = true).
  { unfold isDigit. apply andb_true_iff. split; apply N.leb_le; lia. }
  assert (Hne : forall c, (c = 36 \/ c = 38 \/ c = 96 \/ c = 39)%N ->
                          (N.of_nat (48 + i) =? c)%N = false).
  { intros c Hc. apply N.eqb_neq. lia. }
  cbn [getSubstitution].
  change (negb (ch "$" =? ch "$")%N) with false. cbv iota.
  change (ch "$") with 36%N. change (ch "&") with 38%N.
  change (ch "`") with 96%N. change (ch "'") with 39%N.
  rewrite !Hne by tauto. rewrite Hdig, Hd, Hg.
  replace (Nat.leb 1 i && Nat.leb i n) with true
    by (symmetry; apply andb_true_iff; split; apply Nat.leb_le; lia).
  destruct t as [|d2 t3]; [reflexivity|].
  destruct (isDigit d2); [|reflexivity].
  replace (Nat.ltb n (10 * i + N.to_nat (d2 - 48))) with true
    by (symmetry; apply Nat.ltb_lt; lia).
  reflexivity.
Qed.

(** *** The last attribute of a name *)

Lemma named_spec (name : jsstring) (a : attribute) :
  named name a = true -> a = (name, snd a).
Proof.
  destruct a as [n v]. unfold named. cbn [fst snd]. intros H.
  apply jsstring_eqb_spec in H. now subst.
Qed.

Lemma last_named (name : jsstring) (attrs : list attribute) :
  existsb (named name) attrs = true ->
  exists before v after,
    attrs = before ++ (name, v) :: after /\
    existsb (named name) after = false /\
    getLast name attrs = Some v /\
    forall v', setLast name v' attrs = before ++ (name, v') :: after.
Proof.
  induction attrs as [|a attrs IH]; intros H; [discriminate|].
  cbn [existsb setLast getLast] in *.
  destruct (existsb (named name) attrs) eqn:E.
  - destruct (IH eq_refl) as (before & v & after & -> & Hn & Hg & Hs).
    exists (a :: before), v, after. rewrite Hg.
    repeat split; try assumption. intros v'. cbn [app]. now rewrite Hs.
  - rewrite orb_false_r in H. rewrite H.
    exists [], (snd a), attrs. cbn [app].
    rewrite (named_spec _ _ H) at 1. repeat split; try assumption.
    + enough (Hg : getLast name attrs = None) by now rewrite Hg.
      clear -E. induction attrs as [|b attrs IH]; [reflexivity|].
      cbn [existsb getLast] in *. apply orb_false_iff in E.
      destruct E as [Eb E]. now rewrite IH, Eb.
    + intros v'. now rewrite (named_spec _ _ H).
Qed.

Lemma setLast_plain (name v : jsstring) (attrs : list attribute) :
  forallb valueChar v = true ->
  forallb plainAttribute attrs = true ->
  forallb plainAttribute (setLast name v attrs) = true.
Proof.
  intros Hv. induction attrs as [|a attrs IH]; intros H; [reflexivity|].
  cbn [forallb setLast] in *. apply andb_true_iff in H. destruct H as [Ha H].
  destruct (existsb (named name) attrs).
  - cbn [forallb]. now rewrite Ha, IH.
  - destruct (named name a); cbn [forallb]; rewrite H; [|now rewrite Ha].
    unfold plainAttribute in *. cbn [fst snd].
    apply andb_true_iff in Ha. destruct Ha as [-> _]. now rewrite Hv.
Qed.

Lemma setLast_names (name v : jsstring) (attrs : list attribute) :
  List.map fst (setLast name v attrs) = List.map fst attrs.
Proof.
  induction attrs as [|a attrs IH]; [reflexivity|].
  cbn [setLast]. destruct (existsb (named name) attrs).
  - cbn [List.map]. now rewrite IH.
  - now destruct (named name a).
Qed.

Lemma distinctName_names (n : jsstring) (attrs : list attribute) :
  forallb (distinctName n) attrs
  = forallb (fun x => JsString.eqb n x || suffixFree n x) (List.map fst attrs).
Proof.
  induction attrs as [|a attrs IH]; [reflexivity|].
  cbn [forallb List.map]. now rewrite IH.
Qed.

Lemma named_names (n : jsstring) (attrs : list attribute) :
  existsb (named n) attrs = existsb (JsString.eqb n) (List.map fst attrs).
Proof.
  induction attrs as [|a attrs IH]; [reflexivity|].
  cbn [existsb List.map]. now rewrite IH.
Qed.

Lemma setLast_distinct (n name v : jsstring) (attrs : list attribute) :
  forallb (distinctName n) (setLast name v attrs)
  = forallb (distinctName n) attrs.
Proof. now rewrite !distinctName_names, setLast_names. Qed.

Lemma setLast_named (n name v : jsstring) (attrs : list attribute) :
  existsb (named n) (setLast name v attrs) = existsb (named n) attrs.
Proof. now rewrite !named_names, setLast_names. Qed.

Lemma forallb_app_r (A : Type) (p : A -> bool) (l1 l2 : list A) :
  forallb p (l1 ++ l2) = true -> forallb p l2 = true.
Proof. rewrite forallb_app. intros H. apply andb_true_iff in H. tauto. Qed.

Lemma countGroups_lits (p : jsstring) : countGroups (lits p) = 0.
Proof.
  induction p as [|c p IH]; [reflexivity|].
  destruct p as [|d p]; [reflexivity|].
  change (lits (c :: d :: p)) with (Seq (Lit c) (lits (d :: p))).
  cbn [countGroups]. now rewrite IH.
Qed.

(** *** The three replacements, on an opening tag *)

Section Replace.

Variables (pre rest : jsstring) (attrs : list attribute).
Hypothesis pre_first : firstAt svgOpen pre = true.
Hypothesis attrs_plain : forallb plainAttribute attrs = true.

(** [replace(/(<svg[^>]* )name=Q[^Q]* Q/, '$1name=Qv'Q')] sets the value
    of the last attribute called [name] of the first opening tag. *)
Lemma replaceFirst_tagAttribute (name v' : jsstring) :
  forallb nameChar name = true -> name <> [] ->
  ~ In (ch "$") name -> ~ In (ch "$") v' ->
  forallb (distinctName name) attrs = true ->
  existsb (named name) attrs = true ->
  replaceFirst false (tagAttribute name)
    (js "$1" ++ opening name ++ v' ++ [dquote]) (svgElement pre attrs rest)
  = svgElement pre (setLast name v' attrs) rest.
Proof.
  intros Hname Hne Hdn Hdv Hdist Hex.
  destruct (last_named _ _ Hex) as (before & v & after & E & Hn & _ & Hs).
  rewrite Hs. subst attrs. clear Hs Hex.
  assert (Hd : forallb (distinctName name) after = true).
  { apply forallb_app_r in Hdist. cbn [forallb] in Hdist.
    apply andb_true_iff in Hdist. tauto. }
  unfold replaceFirst, svgElement.
  pose proof (@exec_first_tag (tagAttribute name) _ _ _ _
                (fun s => @matchAt_group_lits_None 1 svgOpen _ _ s) pre_first
                (matchAt_tagAttribute Hname Hne _ _ _ rest attrs_plain Hd Hn))
    as Hexec.
  unfold attribute in Hexec |- *. rewrite Hexec. clear Hexec.
  cbn [RegExp.before RegExp.after]. f_equal.
  assert (Hc : countGroups (tagAttribute name) = 1).
  { unfold tagAttribute. cbn [countGroups]. now rewrite !countGroups_lits. }
  rewrite Hc.
  change (js "$1" ++ opening name ++ v' ++ [dquote])
    with (ch "$" :: N.of_nat (48 + 1) :: opening name ++ v' ++ [dquote]).
  rewrite getSubstitution_group
    with (g := svgOpen ++ renderAll before ++ [ch " "]);
    [|lia|lia|lia|reflexivity].
  rewrite getSubstitution_plain.
  - rewrite renderAll_app, renderAll_cons. unfold opening.
    repeat (rewrite <- ?app_assoc; cbn [app]). reflexivity.
  - unfold opening. intros Hin.
    repeat (apply in_app_or in Hin; destruct Hin as [Hin|Hin]);
      try contradiction;
      repeat (destruct Hin as [Hin|Hin]; [discriminate|]); assumption.
Qed.

(** [replace(/(<svg[^>]* viewBox=Q)[^Q]* (Q)/, '$1' + v' + '$2')] sets
    the value of the last viewBox attribute of the first opening tag. *)
Lemma replaceFirst_svgViewBoxValue (v' : jsstring) :
  ~ In (ch "$") v' ->
  forallb (distinctName (js "viewBox")) attrs = true ->
  existsb (named (js "viewBox")) attrs = true ->
  replaceFirst false svgViewBoxValue (js "$1" ++ v' ++ js "$2")
    (svgElement pre attrs rest)
  = svgElement pre (setLast (js "viewBox") v' attrs) rest.
Proof.
  intros Hdv Hdist Hex.
  destruct (last_named _ _ Hex) as (before & v & after & E & Hn & _ & Hs).
  rewrite Hs. subst attrs. clear Hs Hex.
  assert (Hd : forallb (distinctName (js "viewBox")) after = true).
  { apply forallb_app_r in Hdist. cbn [forallb] in Hdist.
    apply andb_true_iff in Hdist. tauto. }
  unfold replaceFirst, svgElement.
  pose proof (@exec_first_tag svgViewBoxValue _ _ _ _
                (fun s => @matchAt_group_lits_None 1 svgOpen _ _ s) pre_first
                (matchAt_svgViewBoxValue _ _ _ rest attrs_plain Hd Hn))
    as Hexec.
  unfold attribute in Hexec |- *. rewrite Hexec. clear Hexec.
  cbn [RegExp.before RegExp.after]. f_equal.
  change (countGroups svgViewBoxValue) with 2.
  change (js "$1" ++ v' ++ js "$2")
    with (ch "$" :: N.of_nat (48 + 1) :: v' ++ [ch "$"; N.of_nat (48 + 2)]).
  rewrite getSubstitution_group
    with (g := svgOpen ++ renderAll before ++ ch " " :: viewBoxOpen);
    [|lia|lia|lia|reflexivity].
  rewrite getSubstitution_app_plain by assumption.
  rewrite getSubstitution_group with (g := [dquote]);
    [|lia|lia|lia|reflexivity].
  cbn [getSubstitution]. rewrite renderAll_app, renderAll_cons.
  repeat (rewrite <- ?app_assoc; cbn [app]). reflexivity.
Qed.

(** The search of the crop for the opening tag and its viewBox: the
    value of the last viewBox attribute of the first opening tag. *)
Lemma exec_svgViewBox (v : jsstring) :
  forallb (distinctName (js "viewBox")) attrs = true ->
  getLast (js "viewBox") attrs = Some v ->
  exists m,
    exec false svgViewBox (svgElement pre attrs rest) = Some m /\
    capture 1 (groups m) = Some v.
Proof.
  intros Hdist Hv.
  assert (Hex : existsb (named (js "viewBox")) attrs = true).
  { destruct (existsb (named (js "viewBox")) attrs) eqn:E; [reflexivity|].
    exfalso. clear -E Hv. revert Hv.
    induction attrs as [|a l IH]; [discriminate|].
    cbn [existsb getLast] in *. apply orb_false_iff in E.
    destruct E as [Ea E]. rewrite Ea.
    destruct (getLast (js "viewBox") l); [now apply IH|discriminate]. }
  destruct (last_named _ _ Hex) as (before & v0 & after & E & Hn & Hg & _).
  assert (v0 = v) by congruence. subst v0 attrs.
  assert (Hd : forallb (distinctName (js "viewBox")) after = true).
  { apply forallb_app_r in Hdist. cbn [forallb] in Hdist.
    apply andb_true_iff in Hdist. tauto. }
  unfold svgElement.
  pose proof (@exec_first_tag svgViewBox _ _ _ _
                (fun s => @matchAt_lits_None svgOpen _ s) pre_first
                (matchAt_svgViewBox _ _ _ rest attrs_plain Hd Hn))
    as Hexec.
  unfold attribute in Hexec |- *. rewrite Hexec. clear Hexec.
  eexists. split; reflexivity.
Qed.

End Replace.

(** *** The crop, on an opening tag *)

Lemma numeric_other (c x : char) :
  numeric x = false -> numeric c = true -> c <> x.
Proof. intros Hx Hc ->. congruence. Qed.

(** A text made of the characters of numbers, of blanks and of
    percent signs can stand as a value and in a template. *)
Lemma numeric_value (v : jsstring) :
  (forall c, In c v -> numeric c = true \/ c = ch " " \/ c = ch "%") ->
  forallb valueChar v = true /\ ~ In (ch "$") v.
Proof.
  intros H. split.
  - apply forallb_forall. intros c Hc. unfold valueChar.
    apply negb_true_iff. destruct (H c Hc) as [Hn | [-> | ->]];
      [|reflexivity|reflexivity].
    repeat (apply orb_false_iff; split); apply N.eqb_neq;
      now apply numeric_other.
  - intros Hin. destruct (H _ Hin) as [Hn | [E | E]]; discriminate.
Qed.

Lemma toString_chars (x : number) (c : char) :
  In c (Number.toString x) -> numeric c = true.
Proof.
  pose proof (toString_numeric x) as H. rewrite forallb_forall in H. apply H.
Qed.

Lemma croppedViewBox_value (b : bounds) :
  forallb valueChar (croppedViewBox b) = true /\
  ~ In (ch "$") (croppedViewBox b).
Proof.
  apply numeric_value. intros c Hin. unfold croppedViewBox in Hin.
  cbv zeta in Hin.
  repeat (apply in_app_or in Hin; destruct Hin as [Hin|Hin]);
    try (left; now apply toString_chars in Hin);
    destruct Hin as [<-|[]]; tauto.
Qed.

Lemma croppedHeight_value (b : bounds) :
  forallb valueChar (croppedHeight b) = true /\
  ~ In (ch "$") (croppedHeight b).
Proof.
  apply numeric_value. intros c Hin. left.
  pose proof (toFixed_numeric
                (add (sub (maxY b) (minY b)) (mul (of_Z 2) (of_Z 5))) 2) as H.
  rewrite forallb_forall in H. now apply H.
Qed.

Lemma getLast_named (name v : jsstring) (attrs : list attribute) :
  getLast name attrs = Some v -> existsb (named name) attrs = true.
Proof.
  revert v. induction attrs as [|a l IH]; intros v; [discriminate|].
  cbn [existsb getLast]. destruct (getLast name l) as [w|].
  - intros _. rewrite (IH w eq_refl). apply orb_true_r.
  - destruct (named name a); [reflexivity|discriminate].
Qed.

(** The rewrite of the crop on a fragment whose first opening tag is a
    list of plain attributes with a viewBox, a width and a height: the
    three values are set, nothing else changes. *)
Lemma applyBounds_svgElement (pre rest : jsstring) (attrs : list attribute)
  (b : bounds) :
  firstAt svgOpen pre = true ->
  plainTag attrs = true ->
  existsb (named (js "viewBox")) attrs = true ->
  existsb (named (js "width")) attrs = true ->
  existsb (named (js "height")) attrs = true ->
  applyBounds b (svgElement pre attrs rest)
  = svgElement pre (croppedAttributes b attrs) rest.
Proof.
  intros Hpre Hplain Hvb Hw Hh. unfold plainTag in Hplain.
  apply andb_true_iff in Hplain. destruct Hplain as [Hplain Hdh].
  apply andb_true_iff in Hplain. destruct Hplain as [Hplain Hdw].
  apply andb_true_iff in Hplain. destruct Hplain as [Hplain Hdv].
  destruct (croppedViewBox_value b) as [Hv1 Hv2].
  destruct (croppedHeight_value b) as [Hh1 Hh2].
  unfold applyBounds, croppedAttributes. cbv zeta.
  fold (croppedViewBox b).
  rewrite replaceFirst_svgViewBoxValue by assumption.
  change (replaceFirst false svgWidth (jsq "$1width='100%'"))
    with (replaceFirst false (tagAttribute (js "width"))
            (js "$1" ++ opening (js "width") ++ js "100%" ++ [dquote])).
  rewrite replaceFirst_tagAttribute;
    [|assumption|now apply setLast_plain|reflexivity|discriminate
     |cbv; intuition discriminate|cbv; intuition discriminate
     |now rewrite setLast_distinct|now rewrite setLast_named].
  change (replaceFirst false svgHeight
            (jsq "$1height='" ++
             toFixed (add (sub (maxY b) (minY b)) (mul (of_Z 2) (of_Z 5))) 2 ++
             [dquote]))
    with (replaceFirst false (tagAttribute (js "height"))
            (js "$1" ++ opening (js "height") ++ croppedHeight b ++ [dquote])).
  rewrite replaceFirst_tagAttribute;
    [reflexivity|assumption
    |apply setLast_plain; [reflexivity|now apply setLast_plain]
    |reflexivity|discriminate
    |cbv; intuition discriminate|assumption
    |now rewrite !setLast_distinct|now rewrite !setLast_named].
Qed.

Lemma cropToContent_svgElement (pre rest : jsstring)
  (attrs : list attribute) (v : jsstring) (b : bounds) :
  firstAt svgOpen pre = true ->
  plainTag attrs = true ->
  getLast (js "viewBox") attrs = Some v ->
  existsb (named (js "width")) attrs = true ->
  existsb (named (js "height")) attrs = true ->
  List.length (splitRe false whiteSpaces v) = 4 ->
  contentBounds (svgElement pre attrs rest) = Normal b ->
  hasEstimate b = true ->
  cropToContent (svgElement pre attrs rest)
  = Normal (svgElement pre (croppedAttributes b attrs) rest).
Proof.
  intros Hpre Hplain Hv Hw Hh Hlen Hb He.
  pose proof Hplain as Hp. unfold plainTag in Hp.
  apply andb_true_iff in Hp. destruct Hp as [Hp _].
  apply andb_true_iff in Hp. destruct Hp as [Hp _].
  apply andb_true_iff in Hp. destruct Hp as [Hp Hdv].
  destruct (exec_svgViewBox pre rest attrs Hpre Hp Hdv Hv) as (m & Hm & Hbox).
  unfold cropToContent. rewrite Hm. unfold groupString. rewrite Hbox.
  cbn [bind]. rewrite length_map, Hlen. cbn [Nat.eqb]. rewrite Hb.
  cbn [bind]. rewrite He. f_equal.
  apply applyBounds_svgElement; try assumption.
  now apply getLast_named with (v := v).
Qed.

End TagFacts.

Module MarkerFacts.

Import Number RegExp Js Statements.
Import RegExpFacts SearchFacts.
Import RemarkLilypond.

Lemma startsWithAnyCase_trans (q p s : jsstring) :
  startsWithAnyCase q p = true -> startsWithAnyCase p s = true ->
  startsWithAnyCase q s = true.
Proof.
  revert p s. induction q as [|x q IH]; intros p s Hqp Hps; [reflexivity|].
  destruct p as [|y p]; [discriminate|].
  destruct s as [|z s]; [discriminate|].
  cbn [startsWithAnyCase] in *.
  apply andb_true_iff in Hqp. destruct Hqp as [Hxy Hqp].
  apply andb_true_iff in Hps. destruct Hps as [Hyz Hps].
  apply N.eqb_eq in Hxy. apply N.eqb_eq in Hyz.
  apply andb_true_iff. split.
  - apply N.eqb_eq. congruence.
  - now apply IH with (p := p).
Qed.

Lemma mentions_here (p s : jsstring) :
  startsWithAnyCase p s = true -> mentions p s = true.
Proof. intros H. destruct s; cbn [mentions]; now rewrite H. Qed.

Lemma mentions_suffix (p t s : jsstring) :
  isSuffix t s -> mentions p t = true -> mentions p s = true.
Proof.
  intros [a ->] H. induction a as [|c a IH]; [assumption|].
  cbn [app mentions]. rewrite IH. apply orb_true_r.
Qed.

Lemma marked_suffix (t s : jsstring) :
  isSuffix t s -> marked t = true -> marked s = true.
Proof.
  intros Hsuf. unfold marked. rewrite !existsb_exists.
  intros (p & Hp & Hm). exists p. split; [assumption|].
  now apply mentions_suffix with (t := t).
Qed.

Section AnyCase.

Variable R : Type.

(** A run of pattern characters matches, letter case ignored, only
    where it stands, letter case apart. *)
Lemma matchRe_lits_anyCase (p s : jsstring) (caps : captures) (k : cont R)
  (x : R) :
  matchRe true (lits p) s caps k = Some x -> startsWithAnyCase p s = true.
Proof.
  revert s. induction p as [|c p IH]; intros s H; [reflexivity|].
  destruct p as [|d p].
  - cbn [lits matchRe] in H. destruct s as [|y s]; [discriminate|].
    unfold charEq in H. cbn [startsWithAnyCase].
    destruct (canonicalize c =? canonicalize y)%N; [reflexivity|discriminate].
  - change (lits (c :: d :: p)) with (Seq (Lit c) (lits (d :: p))) in H.
    cbn [matchRe] in H. destruct s as [|y s]; [discriminate|].
    unfold charEq in H. cbn [startsWithAnyCase].
    destruct (canonicalize c =? canonicalize y)%N; [|discriminate].
    now apply IH in H.
Qed.

End AnyCase.

(** *** What a pattern needs *)

Lemma requiresMarker_lits (q p : jsstring) :
  In q markers -> startsWithAnyCase q p = true -> requiresMarker (lits p).
Proof.
  intros Hq Hqp R s caps k x H. apply matchRe_lits_anyCase in H.
  unfold marked. apply existsb_exists. exists q. split; [assumption|].
  apply mentions_here. now apply startsWithAnyCase_trans with (p := p).
Qed.

Lemma requiresMarker_first (r1 r2 : regex) :
  requiresMarker r1 -> requiresMarker (Seq r1 r2).
Proof. intros H R s caps k x Hm. cbn [matchRe] in Hm. now apply H in Hm. Qed.

Lemma requiresMarker_later (r1 r2 : regex) :
  requiresMarker r2 -> requiresMarker (Seq r1 r2).
Proof.
  intros H R s caps k x Hm. cbn [matchRe] in Hm.
  apply matchRe_sound in Hm. destruct Hm as (s1 & caps1 & Hm & Hsuf & _).
  apply H in Hm. now apply marked_suffix with (t := s1).
Qed.

Lemma requiresMarker_either (r1 r2 : regex) :
  requiresMarker r1 -> requiresMarker r2 -> requiresMarker (Alt r1 r2).
Proof.
  intros H1 H2 R s caps k x Hm. cbn [matchRe] in Hm.
  destruct (matchRe true r1 s caps k) as [y|] eqn:E.
  - now apply H1 in E.
  - now apply H2 in Hm.
Qed.

Lemma attributionLink_marker : requiresMarker attributionLink.
Proof.
  unfold attributionLink. cbn [seqs].
  do 2 apply requiresMarker_later. apply requiresMarker_first.
  apply requiresMarker_lits with (q := js "lilypond");
    [now left|reflexivity].
Qed.

Lemma attributionText_marker : requiresMarker attributionText.
Proof.
  unfold attributionText. cbn [seqs].
  do 4 apply requiresMarker_later. apply requiresMarker_first.
  apply requiresMarker_either.
  - apply requiresMarker_lits with (q := js "music engraving");
      [right; now left|reflexivity].
  - apply requiresMarker_lits with (q := js "lilypond");
      [now left|reflexivity].
Qed.

Lemma attributionGroup_marker : requiresMarker attributionGroup.
Proof.
  unfold attributionGroup. cbn [seqs].
  do 7 apply requiresMarker_later. apply requiresMarker_first.
  apply requiresMarker_either.
  - apply requiresMarker_lits with (q := js "lilypond");
      [now left|reflexivity].
  - apply requiresMarker_lits with (q := js "music engraving");
      [right; now left|reflexivity].
Qed.

(** *** A fragment without markers *)

Lemma exec_unmarked (r : regex) (s : jsstring) :
  requiresMarker r -> marked s = false -> exec true r s = None.
Proof.
  intros Hr. induction s as [|c s IH]; intros Hs.
  - cbn [exec]. unfold matchAt.
    destruct (matchRe true r [] [] _) as [y|] eqn:E; [|reflexivity].
    apply Hr in E. congruence.
  - cbn [exec]. unfold matchAt.
    destruct (matchRe true r (c :: s) [] _) as [y|] eqn:E.
    + apply Hr in E. congruence.
    + rewrite IH; [reflexivity|].
      destruct (marked s) eqn:Em; [|reflexivity].
      rewrite (marked_suffix (isSuffix_cons c s) Em) in Hs. discriminate.
Qed.

Lemma replaceAll_unmarked (r : regex) (replaceValue s : jsstring) :
  requiresMarker r -> marked s = false ->
  replaceAll true r replaceValue s = s.
Proof.
  intros Hr Hs. unfold replaceAll. cbn [replaceFrom].
  now rewrite exec_unmarked.
Qed.

Lemma removeAttribution_unmarked (s : jsstring) :
  marked s = false -> removeAttribution s = s.
Proof.
  intros Hs. unfold removeAttribution. cbv zeta.
  rewrite (@replaceAll_unmarked _ [] s attributionLink_marker Hs).
  rewrite (@replaceAll_unmarked _ [] s attributionText_marker Hs).
  now rewrite (@replaceAll_unmarked _ [] s attributionGroup_marker Hs).
Qed.

End MarkerFacts.

Module ErrorFacts.

Import Number RegExp Js Statements.
Import SearchFacts.
Import RemarkLilypond.

(** *** split and join *)

Lemma split_not_nil (sep : char) (s : jsstring) : split sep s <> [].
Proof.
  destruct s as [|c s]; cbn [split]; [discriminate|].
  destruct (c =? sep)%N; [discriminate|].
  destruct (split sep s); discriminate.
Qed.

(** [s.split(sep).join(sep)] is [s]. *)
Lemma join_split (sep : char) (s : jsstring) : join [sep] (split sep s) = s.
Proof.
  induction s as [|c s IH]; [reflexivity|].
  cbn [split]. destruct (N.eqb_spec c sep) as [->|Hc].
  - pose proof (split_not_nil sep s) as Hne.
    destruct (split sep s) as [|h r]; [congruence|].
    cbn [join app] in *. now rewrite IH.
  - pose proof (split_not_nil sep s) as Hne.
    destruct (split sep s) as [|h r]; [congruence|].
    destruct r as [|h' r]; cbn [join app] in *; now rewrite IH.
Qed.

Lemma split_pieces (sep : char) (s : jsstring) :
  Forall (fun piece => ~ In sep piece) (split sep s).
Proof.
  induction s as [|c s IH]; cbn [split].
  - constructor; [tauto|constructor].
  - destruct (N.eqb_spec c sep) as [->|Hc].
    + constructor; [tauto|assumption].
    + destruct (split sep s) as [|h r]; [repeat constructor; cbn; intuition|].
      inversion IH; subst. constructor; [|assumption].
      intros [E|Hin]; [congruence|contradiction].
Qed.

Lemma split_piece (sep : char) (piece : jsstring) :
  ~ In sep piece -> split sep piece = [piece].
Proof.
  induction piece as [|c piece IH]; intros H; [reflexivity|].
  cbn [split]. destruct (N.eqb_spec c sep) as [->|Hc].
  - exfalso. apply H. now left.
  - rewrite IH; [reflexivity|]. intros Hin. apply H. now right.
Qed.

Lemma split_app (sep : char) (piece s : jsstring) :
  ~ In sep piece ->
  split sep (piece ++ sep :: s) = piece :: split sep s.
Proof.
  induction piece as [|c piece IH]; intros H.
  - cbn [app split]. now rewrite N.eqb_refl.
  - cbn [app split]. destruct (N.eqb_spec c sep) as [->|Hc].
    + exfalso. apply H. now left.
    + rewrite IH; [reflexivity|]. intros Hin. apply H. now right.
Qed.

(** [pieces.join(sep).split(sep)] is [pieces], for pieces without
    [sep], one at least. *)
Lemma split_join (sep : char) (pieces : list jsstring) :
  pieces <> [] -> Forall (fun piece => ~ In sep piece) pieces ->
  split sep (join [sep] pieces) = pieces.
Proof.
  induction pieces as [|h r IH]; intros Hne H; [congruence|].
  inversion H as [|? ? Hh Hr]; subst.
  destruct r as [|h' r].
  - cbn [join]. now apply split_piece.
  - change (join [sep] (h :: h' :: r)) with (h ++ sep :: join [sep] (h' :: r)).
    rewrite split_app by assumption. rewrite IH; [reflexivity|discriminate|assumption].
Qed.

(** *** A text without the separator, in the pieces *)

Lemma startsWith_before (sep : char) (p a b : jsstring) :
  ~ In sep p ->
  startsWith p (a ++ sep :: b) = startsWith p a.
Proof.
  unfold startsWith. revert a. induction p as [|x p IH]; intros a H;
    [reflexivity|].
  destruct a as [|y a]; cbn [app dropPrefix].
  - destruct (N.eqb_spec x sep) as [->|Hx]; [|reflexivity].
    exfalso. apply H. now left.
  - destruct (x =? y)%N; [|reflexivity].
    apply IH. intros Hin. apply H. now right.
Qed.

Lemma includes_pieces (sep : char) (p a b : jsstring) :
  ~ In sep p -> p <> [] ->
  includes p (a ++ sep :: b) = includes p a || includes p b.
Proof.
  intros Hsep Hne. induction a as [|y a IH].
  - cbn [app includes].
    assert (H1 : startsWith p (sep :: b) = false).
    { destruct p as [|x p]; [congruence|]. unfold startsWith.
      cbn [dropPrefix]. destruct (N.eqb_spec x sep) as [->|Hx]; [|reflexivity].
      exfalso. apply Hsep. now left. }
    assert (H2 : startsWith p [] = false)
      by (destruct p; [congruence|reflexivity]).
    now rewrite H1, H2.
  - cbn [app includes].
    change (y :: a ++ sep :: b) with ((y :: a) ++ sep :: b).
    rewrite startsWith_before by assumption. rewrite IH.
    now rewrite orb_assoc.
Qed.

Lemma includes_join (sep : char) (p : jsstring) (pieces : list jsstring) :
  ~ In sep p -> p <> [] -> pieces <> [] ->
  includes p (join [sep] pieces) = existsb (includes p) pieces.
Proof.
  intros Hsep Hne. induction pieces as [|h r IH]; intros Hr; [congruence|].
  destruct r as [|h' r].
  - cbn [join existsb]. now rewrite orb_false_r.
  - change (join [sep] (h :: h' :: r)) with (h ++ sep :: join [sep] (h' :: r)).
    rewrite includes_pieces by assumption.
    rewrite IH by discriminate. reflexivity.
Qed.

Lemma includes_split (sep : char) (p s : jsstring) :
  ~ In sep p -> p <> [] ->
  includes p s = existsb (includes p) (split sep s).
Proof.
  intros Hsep Hne. rewrite <- (join_split sep s) at 1.
  apply includes_join; try assumption. apply split_not_nil.
Qed.

(** *** parseLilyPondError *)

Lemma includes_app_true (p a b c : jsstring) :
  includes p b = true -> includes p (a ++ b ++ c) = true.
Proof.
  intros H.
  destruct (includes p (a ++ b ++ c)) eqn:E; [reflexivity|].
  apply includes_false_app_l in E. apply includes_false_app_r in E.
  congruence.
Qed.

(** The tests for [programming error:] and for [fatal error:] add
    nothing to the test for [error:]. *)
Lemma isErrorLine_mentionsError (line : jsstring) :
  isErrorLine line = mentionsError line.
Proof.
  unfold isErrorLine, mentionsError.
  destruct (includes (js "error:") line) eqn:E; [reflexivity|].
  cbn [orb].
  assert (H : forall a, includes (a ++ js "error:") line = false).
  { intros a. destruct (includes (a ++ js "error:") line) eqn:Ea;
      [|reflexivity].
    exfalso. clear -E Ea. induction line as [|c line IH].
    - cbn [includes] in Ea. rewrite orb_false_r in Ea.
      apply startsWith_true in Ea. destruct Ea as [t Ht].
      destruct a; discriminate.
    - cbn [includes] in E, Ea. apply orb_false_iff in E.
      destruct E as [E1 E2]. apply orb_true_iff in Ea.
      destruct Ea as [Ea|Ea]; [|now apply IH].
      apply startsWith_true in Ea. destruct Ea as [t Ht].
      assert (Hin : includes (js "error:") (c :: line) = true).
      { rewrite Ht, <- app_assoc. apply includes_app_true with (c := t).
        cbn. reflexivity. }
      cbn [includes] in Hin. rewrite E1, E2 in Hin. discriminate. }
  change (js "programming error:") with (js "programming " ++ js "error:").
  change (js "fatal error:") with (js "fatal " ++ js "error:").
  rewrite !H. now rewrite !orb_false_r.
Qed.

Lemma existsb_filter_nil (A : Type) (f : A -> bool) (l : list A) :
  existsb f l = false <-> List.filter f l = [].
Proof.
  induction l as [|a l IH]; [tauto|].
  cbn [existsb List.filter]. destruct (f a); cbn [orb]; [|assumption].
  split; discriminate.
Qed.

Lemma parseLilyPondError_Str (text : jsstring) :
  parseLilyPondError (Str text) = Normal (parsedError text).
Proof.
  unfold parseLilyPondError, parsedError, mentionsMissing.
  cbn [includesMethod bind thisString].
  destruct (includes (js "not found") text); cbn [bind orb]; [reflexivity|].
  destruct (includes (js "ENOENT") text); cbn [bind]; [reflexivity|].
  rewrite (filter_ext _ _ isErrorLine_mentionsError).
  destruct (existsb mentionsError (split lineFeed text)) eqn:E.
  - destruct (List.filter mentionsError (split lineFeed text)) eqn:Ef;
      [|reflexivity].
    apply existsb_filter_nil in Ef. congruence.
  - apply existsb_filter_nil in E. now rewrite E.
Qed.

Lemma filter_all (A : Type) (f : A -> bool) (l : list A) :
  List.filter f (List.filter f l) = List.filter f l.
Proof.
  induction l as [|a l IH]; [reflexivity|].
  cbn [List.filter]. destruct (f a) eqn:E; [|assumption].
  cbn [List.filter]. now rewrite E, IH.
Qed.

Lemma Forall_filter (A : Type) (P : A -> Prop) (f : A -> bool) (l : list A) :
  Forall P l -> Forall P (List.filter f l).
Proof.
  induction 1 as [|a l Ha Hl IH]; [constructor|].
  cbn [List.filter]. destruct (f a); [constructor|]; assumption.
Qed.

Lemma existsb_filter (A : Type) (g f : A -> bool) (l : list A) :
  existsb g (List.filter f l) = true -> existsb g l = true.
Proof.
  induction l as [|a l IH]; [discriminate|].
  cbn [List.filter existsb]. destruct (f a); cbn [existsb]; intros H.
  - apply orb_true_iff in H. apply orb_true_iff.
    destruct H as [H|H]; [now left|right; now apply IH].
  - apply orb_true_iff. right. now apply IH.
Qed.

(** The lines kept mention a missing executable only if the message
    does. *)
Lemma mentionsMissing_kept (text : jsstring) :
  List.filter mentionsError (split lineFeed text) <> [] ->
  mentionsMissing text = false ->
  mentionsMissing
    (join [lineFeed] (List.filter mentionsError (split lineFeed text)))
  = false.
Proof.
  intros Hne H. unfold mentionsMissing in *.
  apply orb_false_iff in H. destruct H as [H1 H2].
  apply orb_false_iff. split.
  - rewrite includes_join; [|cbv; intuition discriminate|discriminate
                            |assumption].
    destruct (existsb _ _) eqn:E; [|reflexivity].
    apply existsb_filter in E.
    rewrite <- (@includes_split lineFeed) in E;
      [congruence|cbv; intuition discriminate|discriminate].
  - rewrite includes_join; [|cbv; intuition discriminate|discriminate
                            |assumption].
    destruct (existsb _ _) eqn:E; [|reflexivity].
    apply existsb_filter in E.
    rewrite <- (@includes_split lineFeed) in E;
      [congruence|cbv; intuition discriminate|discriminate].
Qed.

Lemma parseLilyPondError_again (text : jsstring) :
  parseLilyPondError (Str (parsedError text)) = Normal (parsedError text).
Proof.
  rewrite parseLilyPondError_Str. f_equal.
  unfold parsedError at 2 3.
  destruct (mentionsMissing text) eqn:Em; [reflexivity|].
  destruct (existsb mentionsError (split lineFeed text)) eqn:Ee.
  - assert (Hne : List.filter mentionsError (split lineFeed text) <> []).
    { intros Hf. apply existsb_filter_nil in Hf. congruence. }
    unfold parsedError.
    rewrite mentionsMissing_kept by assumption.
    rewrite split_join;
      [|assumption|apply Forall_filter, split_pieces].
    rewrite filter_all.
    destruct (existsb mentionsError (List.filter _ _)) eqn:E2; [reflexivity|].
    apply existsb_filter_nil in E2. rewrite filter_all in E2. congruence.
  - unfold parsedError. now rewrite Em, Ee.
Qed.

End ErrorFacts.

(* ===================================================================== *)
(** ** Attributes whose names end with the name looked for *)
(* ===================================================================== *)

Module EndingFacts.

Import Number RegExp Js Statements.
Import RegExpFacts SearchFacts ViewBoxFacts AttributeFacts TagFacts.
Import RemarkLilypond.

Section Endings.

Variable name : jsstring.
Hypothesis name_plain : forallb nameChar name = true.
Hypothesis name_nonempty : name <> [].

Lemma endingFree_named (attrs : list attribute) :
  forallb (endingFree name) attrs = true ->
  forallb (distinctName name) attrs = true /\
  existsb (named name) attrs = false.
Proof.
  induction attrs as [|[n v] attrs IH]; intros H; [now split|].
  cbn [forallb existsb] in *. apply andb_true_iff in H.
  destruct H as [Hn H]. destruct (IH H) as [-> ->].
  unfold endingFree, distinctName, named in *. cbn [fst] in *.
  rewrite Hn, orb_true_r. split; [reflexivity|].
  rewrite orb_false_r. destruct n as [|c n].
  - destruct name; [congruence|reflexivity].
  - cbn [suffixFree] in Hn. apply andb_true_iff in Hn.
    destruct Hn as [Hn _]. now apply negb_true_iff in Hn.
Qed.

Variable R : Type.
Variable k : cont R.
Variable caps : captures.
Variable K : jsstring -> jsstring -> option R.
Hypothesis k_opening :
  forall s, k s caps = match dropPrefix (opening name) s with
                       | Some s' => K s s'
                       | None => None
                       end.

(** On the way back through a name that ends with [name], the
    continuation is reached where [name] starts. *)
Lemma retreat_name_ending (x t : jsstring) (r : R) :
  k (name ++ ch "=" :: dquote :: t) caps = Some r ->
  retreat k caps (x ++ name) (ch "=" :: dquote :: t) = Some r.
Proof.
  intros H.
  rewrite retreat_app,
    (retreat_own_name name_plain name_nonempty k caps K k_opening).
  now rewrite H.
Qed.

Lemma retreat_render_ending (x v t : jsstring) (r : R) :
  forallb valueChar v = true ->
  k (name ++ ch "=" :: dquote :: v ++ dquote :: t) caps = Some r ->
  retreat k caps (render (x ++ name, v)) t = Some r.
Proof.
  intros Hv Hk. unfold render. cbn [fst snd].
  replace (ch " " :: (x ++ name) ++ ch "=" :: dquote :: v ++ [dquote])
    with ([ch " "] ++ (x ++ name) ++ [ch "="] ++ [dquote] ++ (v ++ [dquote]))
    by reflexivity.
  rewrite (retreat_app k caps [ch " "]).
  rewrite (retreat_app k caps (x ++ name)).
  rewrite (retreat_app k caps [ch "="]).
  rewrite (retreat_app k caps [dquote] (v ++ [dquote])).
  rewrite (retreat_value name_plain name_nonempty k caps K k_opening)
    by assumption.
  cbn [retreat app]. rewrite !k_opening.
  rewrite !(dropPrefix_opening_other name_plain name_nonempty) by tauto.
  rewrite <- app_assoc. cbn [app].
  now rewrite (retreat_name_ending x _ Hk).
Qed.

Lemma retreat_renderAll_ending (before : list attribute) (x v : jsstring)
  (after : list attribute) (t : jsstring) (r : R) :
  forallb plainAttribute after = true ->
  forallb (endingFree name) after = true ->
  forallb valueChar v = true ->
  k (name ++ ch "=" :: dquote :: v ++ dquote :: renderAll after ++ t) caps
  = Some r ->
  retreat k caps (renderAll (before ++ (x ++ name, v) :: after)) t = Some r.
Proof.
  intros Hp He Hv Hk. destruct (endingFree_named _ He) as [Hd Hn].
  unfold renderAll. rewrite flat_map_app. cbn [flat_map].
  fold (renderAll before) (renderAll after).
  rewrite retreat_app, retreat_app.
  rewrite (retreat_renderAll_none name_plain name_nonempty k caps K k_opening)
    by assumption.
  now rewrite (retreat_render_ending x v _ Hv Hk).
Qed.

(** [[^>]*], followed by [name], on the attributes of a tag: the scan
    comes back to the last attribute whose name ends with [name]. *)
Lemma scan_last_ending (before : list attribute) (x v : jsstring)
  (after : list attribute) (rest : jsstring) (r : R) :
  forallb plainAttribute (before ++ (x ++ name, v) :: after) = true ->
  forallb (endingFree name) after = true ->
  K (name ++ ch "=" :: dquote :: v ++ dquote :: renderAll after ++
       ch ">" :: rest)
    (v ++ dquote :: renderAll after ++ ch ">" :: rest) = Some r ->
  matchRe false (Star true (notChar (ch ">")))
    (renderAll (before ++ (x ++ name, v) :: after) ++ ch ">" :: rest) caps k
  = Some r.
Proof.
  intros Hp He HK. cbn [matchRe]. unfold notChar.
  rewrite iterate_class_retreat.
  - rewrite k_opening, (dropPrefix_opening_other name_plain name_nonempty)
      by tauto.
    rewrite forallb_app in Hp. cbn [forallb] in Hp.
    apply andb_true_iff in Hp. destruct Hp as [_ Hp].
    apply andb_true_iff in Hp. destruct Hp as [Hv Hp].
    unfold plainAttribute in Hv. cbn [fst snd] in Hv.
    apply andb_true_iff in Hv. destruct Hv as [_ Hv].
    apply retreat_renderAll_ending; try assumption.
    rewrite k_opening.
    change (ch "=" :: dquote :: v ++ dquote :: renderAll after ++ ch ">" :: rest)
      with ([ch "="; dquote] ++ v ++ dquote :: renderAll after ++ ch ">" :: rest).
    rewrite app_assoc. fold (opening name). rewrite dropPrefix_app.
    rewrite <- HK. unfold opening. now rewrite <- app_assoc.
  - apply notChar_run. now apply renderAll_valueChar.
  - apply notChar_same.
  - rewrite length_app. lia.
Qed.

End Endings.

Lemma tag_split_ending (name x v : jsstring) (before after : list attribute)
  (rest : jsstring) :
  svgOpen ++ renderAll (before ++ (x ++ name, v) :: after) ++ ch ">" :: rest
  = (svgOpen ++ renderAll before ++ ch " " :: x) ++
    name ++ ch "=" :: dquote :: v ++ dquote :: renderAll after ++
    ch ">" :: rest.
Proof.
  rewrite renderAll_app, renderAll_cons.
  repeat (rewrite <- ?app_assoc; cbn [app]). reflexivity.
Qed.

Section Patterns.

Variable name : jsstring.
Hypothesis name_plain : forallb nameChar name = true.
Hypothesis name_nonempty : name <> [].

Variables (before after : list attribute) (x v rest : jsstring).
Hypothesis tag_plain :
  forallb plainAttribute (before ++ (x ++ name, v) :: after) = true.
Hypothesis after_free : forallb (endingFree name) after = true.

Lemma value_plain_ending : forallb valueChar v = true.
Proof.
  pose proof tag_plain as Hp.
  rewrite forallb_app in Hp. cbn [forallb] in Hp.
  apply andb_true_iff in Hp. destruct Hp as [_ Hp].
  apply andb_true_iff in Hp. destruct Hp as [Hv _].
  unfold plainAttribute in Hv. cbn [fst snd] in Hv.
  apply andb_true_iff in Hv. tauto.
Qed.

(** [(<svg[^>]* )name=Q[^Q]* Q] at the opening tag: the last attribute
    whose name ends with [name], group 1 being the tag up to where
    [name] starts. *)
Lemma matchAt_tagAttribute_ending :
  matchAt false (tagAttribute name)
    (svgOpen ++ renderAll (before ++ (x ++ name, v) :: after)
             ++ ch ">" :: rest)
  = Some (renderAll after ++ ch ">" :: rest,
          [(1, svgOpen ++ renderAll before ++ ch " " :: x)]).
Proof.
  unfold matchAt, tagAttribute.
  rewrite matchRe_Seq, matchRe_Group, matchRe_lits_seq, dropPrefix_app.
  set (whole := svgOpen ++ _).
  eapply (@scan_last_ending name name_plain name_nonempty _ _ []
            (fun s s' =>
               matchRe false (Seq (Star true (notChar dquote)) (Lit dquote)) s'
                 [(1, firstn (List.length whole - List.length s) whole)]
                 (fun s'' caps'' => Some (s'', caps''))));
    try assumption.
  - intros s. cbv beta. now rewrite matchRe_lits_seq.
  - rewrite matchRe_Seq. unfold notChar.
    erewrite star_class_greedy;
      [reflexivity|apply value_run, value_plain_ending|apply notChar_same|].
    cbn [matchRe]. unfold charEq. rewrite N.eqb_refl.
    rewrite (@firstn_tag_split (svgOpen ++ renderAll before ++ ch " " :: x));
      [reflexivity|].
    subst whole. apply tag_split_ending.
Qed.

Variable pre : jsstring.
Hypothesis pre_first : firstAt svgOpen pre = true.

(** [replace(/(<svg[^>]* )name=Q[^Q]* Q/, '$1name=Qv'Q')] sets the value
    of the last attribute of the first opening tag whose name ends with
    [name]. *)
Lemma replaceFirst_tagAttribute_ending (v' : jsstring) :
  ~ In (ch "$") name -> ~ In (ch "$") v' ->
  replaceFirst false (tagAttribute name)
    (js "$1" ++ opening name ++ v' ++ [dquote])
    (svgElement pre (before ++ (x ++ name, v) :: after) rest)
  = svgElement pre (before ++ (x ++ name, v') :: after) rest.
Proof.
  intros Hdn Hdv. unfold replaceFirst, svgElement.
  pose proof (@exec_first_tag (tagAttribute name) _ _ _ _
                (fun s => @matchAt_group_lits_None 1 svgOpen _ _ s) pre_first
                matchAt_tagAttribute_ending) as Hexec.
  unfold attribute in Hexec |- *. rewrite Hexec. clear Hexec.
  cbn [RegExp.before RegExp.after]. f_equal.
  assert (Hc : countGroups (tagAttribute name) = 1).
  { unfold tagAttribute. cbn [countGroups]. now rewrite !countGroups_lits. }
  rewrite Hc.
  change (js "$1" ++ opening name ++ v' ++ [dquote])
    with (ch "$" :: N.of_nat (48 + 1) :: opening name ++ v' ++ [dquote]).
  rewrite getSubstitution_group
    with (g := svgOpen ++ renderAll before ++ ch " " :: x);
    [|lia|lia|lia|reflexivity].
  rewrite getSubstitution_plain.
  - rewrite !renderAll_app, !renderAll_cons. unfold opening.
    repeat (rewrite <- ?app_assoc; cbn [app]). reflexivity.
  - unfold opening. intros Hin.
    repeat (apply in_app_or in Hin; destruct Hin as [Hin|Hin]);
      try contradiction;
      repeat (destruct Hin as [Hin|Hin]; [discriminate|]); assumption.
Qed.

End Patterns.

End EndingFacts.

Module EscapeFacts.

Import RegExp Js RegExpFacts SearchFacts.
Import Statements.

Lemma substitute_app (c : char) (rep a b : jsstring) :
  substitute c rep (a ++ b) = substitute c rep a ++ substitute c rep b.
Proof. apply flat_map_app. Qed.

Lemma substitute_absent (c : char) (rep s : jsstring) :
  ~ In c s -> substitute c rep s = s.
Proof.
  induction s as [|x s IH]; intros H; [reflexivity|].
  cbn [substitute flat_map]. destruct (N.eqb_spec x c) as [->|Hx].
  - exfalso. apply H. now left.
  - cbn [app]. f_equal. apply IH. intros Hin. apply H. now right.
Qed.

(** The leftmost match of a one-character pattern is the first
    occurrence of the character. *)
Lemma exec_Lit (c : char) (s : jsstring) :
  match exec false (Lit c) s with
  | None => ~ In c s
  | Some m =>
      exists a b, s = a ++ c :: b /\ ~ In c a /\ m = MatchResult a [c] [] b
  end.
Proof.
  induction s as [|x s IH]; [intros []|].
  cbn [exec matchAt matchRe]. unfold charEq.
  destruct (N.eqb_spec c x) as [->|Hx].
  - exists [], s. split; [reflexivity|]. split; [intros []|].
    replace (List.length (x :: s) - List.length s) with 1
      by (cbn [List.length]; lia).
    reflexivity.
  - destruct (exec false (Lit c) s) as [m|].
    + destruct IH as (a & b & -> & Ha & ->).
      exists (x :: a), b. split; [reflexivity|]. split; [|reflexivity].
      intros [H|H]; [congruence|contradiction].
    + intros [H|H]; [congruence|contradiction].
Qed.

Lemma replaceFrom_Lit (c : char) (rep : jsstring) :
  ~ In (ch "$") rep ->
  forall fuel pre s, List.length s < fuel ->
  replaceFrom false fuel (Lit c) rep pre s = substitute c rep s.
Proof.
  intros Hrep. induction fuel as [|f IH]; intros pre s Hlen; [lia|].
  cbn [replaceFrom]. pose proof (exec_Lit c s) as E.
  destruct (exec false (Lit c) s) as [m|].
  - destruct E as (a & b & -> & Ha & ->). cbn [before matched after groups].
    rewrite getSubstitution_plain by assumption.
    rewrite substitute_app, (substitute_absent c rep a Ha).
    cbn [substitute flat_map]. rewrite N.eqb_refl.
    rewrite IH; [reflexivity|].
    rewrite length_app in Hlen. cbn [List.length] in Hlen. lia.
  - now rewrite substitute_absent.
Qed.

Lemma replaceAll_Lit (c : char) (rep s : jsstring) :
  ~ In (ch "$") rep ->
  replaceAll false (Lit c) rep s = substitute c rep s.
Proof. intros H. unfold replaceAll. apply replaceFrom_Lit; [assumption|lia]. Qed.

Ltac plain := cbv; intros H; repeat (destruct H as [H|H]; [discriminate|]); exact H.

Lemma passes_app (a b : jsstring) : passes (a ++ b) = passes a ++ passes b.
Proof. unfold passes. now rewrite !substitute_app. Qed.

Lemma passes_char (x : char) : passes [x] = escapeChar x.
Proof.
  unfold passes, escapeChar. cbn [substitute flat_map app].
  destruct (N.eqb_spec x (ch "&")) as [->|H1]; [reflexivity|].
  cbn [flat_map app].
  destruct (N.eqb_spec x (ch "<")) as [->|H2]; [reflexivity|].
  cbn [flat_map app].
  destruct (N.eqb_spec x (ch ">")) as [->|H3]; [reflexivity|].
  cbn [flat_map app].
  destruct (N.eqb_spec x dquote) as [->|H4]; [reflexivity|].
  cbn [flat_map app].
  destruct (N.eqb_spec x (ch "'")) as [->|H5]; reflexivity.
Qed.

Lemma passes_flat_map (s : jsstring) : passes s = flat_map escapeChar s.
Proof.
  induction s as [|x s IH]; [reflexivity|].
  change (x :: s) with ([x] ++ s).
  rewrite passes_app, passes_char, IH. reflexivity.
Qed.

Lemma escapeHtml_flat_map (s : jsstring) :
  RemarkLilypond.escapeHtml (Str s) = Normal (flat_map escapeChar s).
Proof.
  cbn [RemarkLilypond.escapeHtml thisString bind].
  rewrite !replaceAll_Lit by plain.
  f_equal. apply passes_flat_map.
Qed.

Lemma escapeHtml_same (v : value) :
  RemarkSvguitar.escapeHtml v = RemarkLilypond.escapeHtml v.
Proof. reflexivity. Qed.

(** What a single code unit becomes: itself, when it is none of the
    five, or an entity. *)
Lemma escapeChar_cases (x : char) :
  (escapeChar x = [x] /\ x <> ch "&" /\ x <> ch "<" /\ x <> ch ">" /\
   x <> dquote /\ x <> ch "'") \/
  In (escapeChar x) entities.
Proof.
  unfold escapeChar, entities.
  destruct (N.eqb_spec x (ch "&")); [right; cbn; tauto|].
  destruct (N.eqb_spec x (ch "<")); [right; cbn; tauto|].
  destruct (N.eqb_spec x (ch ">")); [right; cbn; tauto|].
  destruct (N.eqb_spec x dquote); [right; cbn; tauto|].
  destruct (N.eqb_spec x (ch "'")); [right; cbn; tauto|].
  left. tauto.
Qed.

Lemma escaped_free (c : char) (s : jsstring) :
  c = ch "<" \/ c = ch ">" \/ c = dquote \/ c = ch "'" ->
  ~ In c (flat_map escapeChar s).
Proof.
  intros Hc. induction s as [|x s IH]; [intros []|].
  cbn [flat_map]. rewrite in_app_iff. intros [H|H]; [|contradiction].
  destruct (escapeChar_cases x) as [(E & H1 & H2 & H3 & H4 & H5)|E].
  - rewrite E in H. destruct H as [H|[]]. subst x.
    destruct Hc as [-> | [-> | [-> | ->]]]; congruence.
  - unfold entities in E. cbn [In] in E.
    destruct E as [E|[E|[E|[E|[E|[]]]]]]; rewrite <- E in H;
      destruct Hc as [-> | [-> | [-> | ->]]]; revert H; plain.
Qed.

Lemma entity_shape (e : jsstring) :
  In e entities -> exists t, e = ch "&" :: t /\ ~ In (ch "&") t.
Proof.
  unfold entities. cbn [In].
  intros [<-|[<-|[<-|[<-|[<-|[]]]]]]; eexists; (split; [reflexivity|plain]).
Qed.

(** Every ampersand of the output opens an entity. *)
Lemma ampersand_entity (s a b : jsstring) :
  flat_map escapeChar s = a ++ ch "&" :: b ->
  exists e, In e entities /\ startsWith e (ch "&" :: b) = true.
Proof.
  revert a. induction s as [|x s IH]; intros a H.
  - destruct a; discriminate.
  - cbn [flat_map] in H.
    destruct (escapeChar_cases x) as [(E & H1 & _)|E].
    + rewrite E in H. destruct a as [|y a]; cbn [app] in H.
      * inversion H. congruence.
      * inversion H. eapply IH. eassumption.
    + destruct (entity_shape E) as (t & Et & Ht).
      apply app_eq_app in H. destruct H as [l [[H1 H2]|[H1 H2]]].
      * destruct l as [|z l].
        -- cbn [app] in H2. apply (IH []). now rewrite <- H2.
        -- cbn [app] in H2. inversion H2; subst z b.
           destruct a as [|y a].
           ++ exists (escapeChar x). split; [assumption|].
              cbn [app] in H1. rewrite H1.
              apply (startsWith_app (ch "&" :: l)).
           ++ exfalso. rewrite Et in H1. cbn [app] in H1.
              inversion H1. apply Ht. rewrite H3.
              apply in_or_app. right. now left.
      * apply (IH l). assumption.
Qed.

End EscapeFacts.

Module ChordFacts.

Import Number RegExp Js SearchFacts RemarkSvguitar.
Import Statements.

Lemma lookup_updateProperty (key k : jsstring) (v : value)
  (props : list (jsstring * value)) :
  lookup key props <> None ->
  lookup k (updateProperty key v props)
  = if JsString.eqb key k then Some v else lookup k props.
Proof.
  induction props as [|[k0 w] props IH]; cbn [updateProperty lookup];
    intros Hin; [congruence|].
  destruct (JsString.eqb k0 key) eqn:E0; cbn [lookup].
  - apply jsstring_eqb_spec in E0. subst k0.
    now destruct (JsString.eqb key k).
  - destruct (JsString.eqb k0 k) eqn:E1.
    + apply jsstring_eqb_spec in E1. subst k0.
      destruct (JsString.eqb key k) eqn:E2; [|reflexivity].
      apply jsstring_eqb_spec in E2. subst key.
      now rewrite jsstring_eqb_refl in E0.
    + now apply IH.
Qed.

Lemma lookup_insertProperty (key k : jsstring) (v : value)
  (props : list (jsstring * value)) :
  lookup key props = None ->
  lookup k (insertProperty key v props)
  = if JsString.eqb key k then Some v else lookup k props.
Proof.
  induction props as [|[k0 w] props IH]; intros Hout;
    cbn [insertProperty lookup]; [reflexivity|].
  cbn [lookup] in Hout.
  destruct (JsString.eqb k0 key) eqn:E0; [discriminate|].
  assert (Hthere :
    lookup k ((k0, w) :: insertProperty key v props)
    = if JsString.eqb key k then Some v
      else if JsString.eqb k0 k then Some w else lookup k props).
  { cbn [lookup]. rewrite (IH Hout).
    destruct (JsString.eqb k0 k) eqn:E1; [|reflexivity].
    apply jsstring_eqb_spec in E1. subst k0.
    destruct (JsString.eqb key k) eqn:E2; [|reflexivity].
    apply jsstring_eqb_spec in E2. subst key.
    now rewrite jsstring_eqb_refl in E0. }
  destruct (arrayIndex key) as [n|]; [|exact Hthere].
  destruct (arrayIndex k0) as [m|]; [|reflexivity].
  destruct (n <? m)%Z; [reflexivity|exact Hthere].
Qed.

(** Reading a property after a write: the value written, under the key
    written; what was there, under the others. *)
Lemma lookup_setProperty (key k : jsstring) (v : value)
  (props : list (jsstring * value)) :
  lookup k (setProperty key v props)
  = if JsString.eqb key k then Some v else lookup k props.
Proof.
  unfold setProperty. destruct (lookup key props) as [w|] eqn:E.
  - apply lookup_updateProperty. congruence.
  - now apply lookup_insertProperty.
Qed.

(** A spread over [init]: the properties of the source win. *)
Lemma lookup_spread (k : jsstring) (props init : list (jsstring * value)) :
  NoDup (List.map fst props) ->
  lookup k (fold_left (fun acc kv => setProperty (fst kv) (snd kv) acc)
                      props init)
  = match lookup k props with
    | Some v => Some v
    | None => lookup k init
    end.
Proof.
  revert init. induction props as [|[k0 w] props IH]; intros init Hnd;
    cbn [fold_left lookup fst snd]; [reflexivity|].
  inversion Hnd as [|? ? Hnotin Hnd']; subst.
  rewrite IH by assumption. rewrite lookup_setProperty.
  destruct (JsString.eqb k0 k) eqn:E; [|reflexivity].
  apply jsstring_eqb_spec in E. subst k0.
  destruct (lookup k props) as [v|] eqn:El; [|reflexivity].
  exfalso. apply Hnotin. clear - El.
  induction props as [|[k1 w1] props IH]; [discriminate|].
  cbn [lookup] in El. cbn [List.map fst In].
  destruct (JsString.eqb k1 k) eqn:E.
  - left. now apply jsstring_eqb_spec.
  - right. now apply IH.
Qed.

End ChordFacts.

Module ConfigFacts.

Import Number RegExp Js Statements.
Import SearchFacts ChordFacts.
Import RemarkSvguitar.

(** *** The order of the Number values *)

Ltac compare_cases :=
  repeat (cbn in *; subst;
          rewrite ?Z.compare_refl, ?Pos.compare_refl in *;
          try discriminate; try reflexivity; try lia;
          match goal with
          | H : context [(?a ?= ?b)%Z] |- _ =>
              let c := fresh in
              destruct (Z.compare_spec a b) as [c|c|c]
          | |- context [(?a ?= ?b)%Z] =>
              let c := fresh in
              destruct (Z.compare_spec a b) as [c|c|c]
          | H : context [(?a ?= ?b)%positive] |- _ =>
              let c := fresh in
              destruct (Pos.compare_spec a b) as [c|c|c]
          | |- context [(?a ?= ?b)%positive] =>
              let c := fresh in
              destruct (Pos.compare_spec a b) as [c|c|c]
          end).

Ltac order :=
  unfold lt, SFltb, SFcompare; intros;
  repeat match goal with
         | x : number |- _ => destruct x as [[|]|[|]| |[|] ? ?]
         end;
  cbn in *; try discriminate; try reflexivity;
  change (Pos.compare_cont Eq) with Pos.compare in *;
  compare_cases;
  cbn in *; subst; rewrite ?Z.compare_refl, ?Pos.compare_refl in *;
  try discriminate; try reflexivity; try lia.

Lemma max_not_below_r (x y : number) : lt (max x y) y = false.
Proof. revert x y. unfold max. order. Qed.

Lemma max_keeps_above (acc y x : number) :
  lt acc x = false -> lt (max acc y) x = false.
Proof. revert acc y x. unfold max. order. Qed.

Lemma isNaN_max (x y : number) : isNaN (max x y) = isNaN x || isNaN y.
Proof. revert x y. unfold max. order. Qed.

Lemma Forall2_In_l (A B : Type) (R : A -> B -> Prop) (l : list A)
  (l' : list B) (a : A) :
  Forall2 R l l' -> In a l -> exists b, In b l' /\ R a b.
Proof.
  induction 1 as [|x y l l' Hxy _ IH]; intros Hin; [contradiction|].
  destruct Hin as [->|Hin].
  - exists y. split; [now left|assumption].
  - destruct (IH Hin) as (b & Hb & Hab). exists b. split; [now right|assumption].
Qed.

Lemma Forall2_In_r (A B : Type) (R : A -> B -> Prop) (l : list A)
  (l' : list B) (b : B) :
  Forall2 R l l' -> In b l' -> exists a, In a l /\ R a b.
Proof.
  induction 1 as [|x y l l' Hxy _ IH]; intros Hin; [contradiction|].
  destruct Hin as [->|Hin].
  - exists x. split; [now left|assumption].
  - destruct (IH Hin) as (a & Ha & Hab). exists a. split; [now right|assumption].
Qed.

(** *** Math.max *)

Lemma fold_max_keeps_above (l : list number) (acc x : number) :
  lt acc x = false -> lt (fold_left max l acc) x = false.
Proof.
  revert acc. induction l as [|n l IH]; intros acc H; [assumption|].
  cbn [fold_left]. apply IH. now apply max_keeps_above.
Qed.

Lemma fold_max_not_below (l : list number) (n : number) :
  In n l -> forall acc, lt (fold_left max l acc) n = false.
Proof.
  induction l as [|a l IH]; intros Hin acc; [contradiction|].
  cbn [fold_left]. destruct Hin as [->|Hin].
  - apply fold_max_keeps_above, max_not_below_r.
  - now apply IH.
Qed.

Lemma isNaN_fold_max (l : list number) (acc : number) :
  isNaN (fold_left max l acc) = isNaN acc || existsb isNaN l.
Proof.
  revert acc. induction l as [|a l IH]; intros acc; cbn [fold_left existsb].
  - now rewrite orb_false_r.
  - rewrite IH, isNaN_max. now rewrite orb_assoc.
Qed.

Lemma coerceAll_Normal (args : list value) (coerced : list number) :
  coerceAll args = Normal coerced ->
  Forall2 (fun v n => toNumberValue v = Normal n) args coerced.
Proof.
  revert coerced. induction args as [|v args IH]; intros coerced H;
    cbn [coerceAll] in H.
  - inversion H. constructor.
  - destruct (toNumberValue v) as [n|e] eqn:E; cbn [bind] in H;
      [|discriminate].
    destruct (coerceAll args) as [ns|e]; cbn [bind] in H; [|discriminate].
    inversion H; subst. constructor; [assumption|now apply IH].
Qed.

Lemma coerceAll_total (args : list value) :
  forallb convertible args = true ->
  exists coerced, coerceAll args = Normal coerced.
Proof.
  induction args as [|v args IH]; intros H; [now exists []|].
  cbn [forallb] in H. apply andb_true_iff in H. destruct H as [Hv H].
  destruct (IH H) as [ns Hns]. unfold convertible in Hv.
  cbn [coerceAll]. destruct (toNumberValue v) as [n|e]; [|discriminate].
  rewrite Hns. now exists (n :: ns).
Qed.

Lemma coerceAll_convertible (args : list value) (coerced : list number) :
  coerceAll args = Normal coerced -> forallb convertible args = true.
Proof.
  intros H. apply coerceAll_Normal in H.
  induction H as [|v n args coerced Hv _ IH]; [reflexivity|].
  cbn [forallb]. unfold convertible at 1. now rewrite Hv, IH.
Qed.

(** Math.max returns exactly when each of its arguments converts. *)
Lemma mathMax_convertible (args : list value) :
  (exists highest, mathMax args = Normal highest) <->
  forallb convertible args = true.
Proof.
  unfold mathMax. split.
  - intros [highest H].
    destruct (coerceAll args) as [coerced|e] eqn:E; [|discriminate].
    now apply coerceAll_convertible in E.
  - intros H. destruct (coerceAll_total _ H) as [coerced ->].
    cbn [bind]. now eexists.
Qed.

(** The result is below none of the arguments. *)
Lemma mathMax_not_below (args : list value) (highest : number) (v : value) :
  mathMax args = Normal highest ->
  In v args ->
  exists n, toNumberValue v = Normal n /\ lt highest n = false.
Proof.
  unfold mathMax. intros H Hin.
  destruct (coerceAll args) as [coerced|e] eqn:E; [|discriminate].
  cbn [bind] in H. inversion H; subst highest. clear H.
  apply coerceAll_Normal in E.
  destruct (Forall2_In_l v E Hin) as (n & Hn & Hvn).
  exists n. split; [assumption|]. now apply fold_max_not_below.
Qed.

(** It is NaN exactly when an argument converts to NaN. *)
Lemma isNaN_mathMax (args : list value) (highest : number) :
  mathMax args = Normal highest ->
  (isNaN highest = true <->
   exists v, In v args /\ toNumberValue v = Normal NaN).
Proof.
  unfold mathMax. intros H.
  destruct (coerceAll args) as [coerced|e] eqn:E; [|discriminate].
  cbn [bind] in H. inversion H; subst highest. clear H.
  apply coerceAll_Normal in E.
  rewrite isNaN_fold_max. change (isNaN NegInfinity) with false.
  cbn [orb]. rewrite existsb_exists. split.
  - intros (n & Hin & Hnan).
    destruct (Forall2_In_r n E Hin) as (v & Hv & Hvn).
    exists v. split; [assumption|].
    destruct n; try discriminate. exact Hvn.
  - intros (v & Hin & Hv).
    destruct (Forall2_In_l v E Hin) as (n & Hn & Hvn).
    exists n. split; [assumption|]. rewrite Hv in Hvn.
    now inversion Hvn.
Qed.

(** *** mapM *)

Lemma mapM_Normal (A B : Type) (f : A -> completion B) (l : list A)
  (out : list B) :
  mapM f l = Normal out -> Forall2 (fun a b => f a = Normal b) l out.
Proof.
  revert out. induction l as [|a l IH]; intros out H; cbn [mapM] in H.
  - inversion H. constructor.
  - destruct (f a) as [b|e] eqn:E; cbn [bind] in H; [|discriminate].
    destruct (mapM f l) as [bs|e]; cbn [bind] in H; [|discriminate].
    inversion H; subst. constructor; [assumption|now apply IH].
Qed.

Lemma mapM_total (A B : Type) (f : A -> completion B) (l : list A) :
  Forall (fun a => exists b, f a = Normal b) l ->
  exists out, mapM f l = Normal out.
Proof.
  induction 1 as [|a l [b Hb] _ [bs Hbs]]; [now exists []|].
  exists (b :: bs). cbn [mapM]. now rewrite Hb, Hbs.
Qed.

(** *** adaptConfigToChord *)

Lemma getElement_readable (v : value) (i : nat) :
  (exists w, getElement v i = Normal w) <-> readable v = true.
Proof.
  destruct v; cbn [getElement readable]; split;
    try discriminate; try reflexivity;
    try (intros [w H]; discriminate); intros _; eexists; reflexivity.
Qed.


Lemma mapArray_Arr (v : value) (f : value -> completion value)
  (out : list value) :
  mapArray v f = Normal out -> exists l, v = Arr l /\ mapM f l = Normal out.
Proof. destruct v; try discriminate. intros H. eexists. split; eauto. Qed.

Lemma Forall2_readable (f : value -> completion value) (l out : list value) :
  (forall v, (exists w, f v = Normal w) -> readable v = true) ->
  Forall2 (fun a b => f a = Normal b) l out -> forallb readable l = true.
Proof.
  intros Hf. induction 1 as [|a b l out Hab _ IH]; [reflexivity|].
  cbn [forallb]. rewrite IH, andb_true_r. apply Hf. now exists b.
Qed.

Lemma mapM_readable (f : value -> completion value) (l : list value) :
  (forall v, readable v = true -> exists w, f v = Normal w) ->
  forallb readable l = true -> exists out, mapM f l = Normal out.
Proof.
  intros Hf H. apply mapM_total. apply Forall_forall. intros v Hin.
  apply Hf. rewrite forallb_forall in H. now apply H.
Qed.

Lemma fingerFret_readable (v : value) :
  (exists w, fingerFret v = Normal w) <-> readable v = true.
Proof.
  rewrite <- (getElement_readable v 1). unfold fingerFret. split.
  - intros [w H]. destruct (getElement v 1) as [x|e]; [now exists x|].
    discriminate.
  - intros [x ->]. cbn [bind]. eexists. reflexivity.
Qed.

Lemma fingerFret_Num (f w : value) :
  fingerFret f = Normal w -> exists n, w = Num n.
Proof.
  unfold fingerFret. destruct (getElement f 1) as [x|e]; [|discriminate].
  cbn [bind]. intros H. inversion H.
  destruct x; eexists; reflexivity.
Qed.

(** The result, when there is one *)
Lemma adaptConfigToChord_Normal (chord config out : value) :
  adaptConfigToChord chord config = Normal out ->
  exists fingers fingerFrets barres bs barreFrets frets,
    getProperty chord (js "fingers") = Normal (Arr fingers) /\
    Forall2 (fun a b => fingerFret a = Normal b) fingers fingerFrets /\
    getProperty chord (js "barres") = Normal barres /\
    (if toBoolean barres then barres else Arr []) = Arr bs /\
    Forall2 (fun a b => barreFret a = Normal b) bs barreFrets /\
    mathMax (fingerFrets ++ barreFrets ++ [Num (of_Z 3)]) = Normal frets /\
    out = Obj (setProperty (js "frets") (Num frets) (spread config)).
Proof.
  unfold adaptConfigToChord. intros H.
  destruct (getProperty chord (js "fingers")) as [fingers|e];
    cbn [bind] in H; [|discriminate].
  destruct (mapArray fingers fingerFret) as [fingerFrets|e] eqn:Ef;
    cbn [bind] in H; [|discriminate].
  destruct (getProperty chord (js "barres")) as [barres|e];
    cbn [bind] in H; [|discriminate].
  destruct (mapArray _ barreFret) as [barreFrets|e] eqn:Eb;
    cbn [bind] in H; [|discriminate].
  destruct (mathMax _) as [frets|e] eqn:Em; cbn [bind] in H; [|discriminate].
  apply mapArray_Arr in Ef. destruct Ef as (fs & -> & Ef).
  apply mapArray_Arr in Eb. destruct Eb as (bs & Ebs & Eb).
  exists fs, fingerFrets, barres, bs, barreFrets, frets.
  inversion H; subst.
  repeat split; try assumption; now apply mapM_Normal.
Qed.

Lemma toBoolean_Arr (l : list value) : toBoolean (Arr l) = true.
Proof. reflexivity. Qed.

(** An asked fret is among the arguments of Math.max. *)
Lemma askedFret_argument (chord : value) (fingers fingerFrets : list value)
  (barres : value) (bs barreFrets : list value) (fret : value) :
  getProperty chord (js "fingers") = Normal (Arr fingers) ->
  Forall2 (fun a b => fingerFret a = Normal b) fingers fingerFrets ->
  getProperty chord (js "barres") = Normal barres ->
  (if toBoolean barres then barres else Arr []) = Arr bs ->
  Forall2 (fun a b => barreFret a = Normal b) bs barreFrets ->
  askedFret chord fret ->
  In fret (fingerFrets ++ barreFrets ++ [Num (of_Z 3)]).
Proof.
  intros Hf Hff Hb Hbs Hbf [(fs & f & n & Hfs & Hin & Hel & ->)
                           |(bs' & b & Hbs' & Hin & Hfret)].
  - rewrite Hf in Hfs. inversion Hfs; subst fs.
    destruct (Forall2_In_l f Hff Hin) as (w & Hw & Hfw).
    unfold fingerFret in Hfw. rewrite Hel in Hfw. cbn [bind] in Hfw.
    inversion Hfw; subst w. apply in_or_app. now left.
  - rewrite Hb in Hbs'. inversion Hbs'; subst barres.
    rewrite toBoolean_Arr in Hbs. inversion Hbs; subst bs'.
    destruct (Forall2_In_l b Hbf Hin) as (w & Hw & Hbw).
    unfold barreFret in Hbw. rewrite Hfret in Hbw. inversion Hbw; subst w.
    apply in_or_app. right. apply in_or_app. now left.
Qed.

(** An argument of Math.max that is NaN is an asked fret. *)
Lemma argument_askedFret (chord : value) (fingers fingerFrets : list value)
  (barres : value) (bs barreFrets : list value) (v : value) :
  getProperty chord (js "fingers") = Normal (Arr fingers) ->
  Forall2 (fun a b => fingerFret a = Normal b) fingers fingerFrets ->
  getProperty chord (js "barres") = Normal barres ->
  (if toBoolean barres then barres else Arr []) = Arr bs ->
  Forall2 (fun a b => barreFret a = Normal b) bs barreFrets ->
  In v (fingerFrets ++ barreFrets ++ [Num (of_Z 3)]) ->
  toNumberValue v = Normal NaN ->
  askedFret chord v.
Proof.
  intros Hf Hff Hb Hbs Hbf Hin Hnan.
  apply in_app_or in Hin. destruct Hin as [Hin|Hin].
  - destruct (Forall2_In_r v Hff Hin) as (f & Hfin & Hfv).
    unfold fingerFret in Hfv.
    destruct (getElement f 1) as [x|e] eqn:Ex; cbn [bind] in Hfv;
      [|discriminate].
    left. exists fingers, f.
    destruct x as [| | |n| | |]; inversion Hfv; subst v;
      try (vm_compute in Hnan; discriminate Hnan).
    exists n. auto.
  - apply in_app_or in Hin. destruct Hin as [Hin|[<-|[]]];
      [|vm_compute in Hnan; discriminate Hnan].
    destruct (Forall2_In_r v Hbf Hin) as (b & Hbin & Hbv).
    right. destruct (toBoolean barres) eqn:Et.
    + subst barres. exists bs, b. auto.
    + inversion Hbs; subst bs. contradiction.
Qed.

(** *** The chords adaptConfigToChord takes *)

Lemma Forall2_usable (bs barreFrets : list value) :
  Forall2 (fun a b => barreFret a = Normal b) bs barreFrets ->
  forallb convertible barreFrets = true ->
  forallb usableBarre bs = true.
Proof.
  induction 1 as [|b w bs ws Hbw _ IH]; intros H; [reflexivity|].
  cbn [forallb] in *. apply andb_true_iff in H. destruct H as [Hw H].
  rewrite (IH H), andb_true_r. unfold usableBarre.
  unfold barreFret in Hbw. now rewrite Hbw.
Qed.

Lemma mapM_usable (bs : list value) :
  forallb usableBarre bs = true ->
  exists barreFrets,
    mapM barreFret bs = Normal barreFrets /\
    forallb convertible barreFrets = true.
Proof.
  induction bs as [|b bs IH]; intros H; [now exists []|].
  cbn [forallb] in H. apply andb_true_iff in H. destruct H as [Hb H].
  destruct (IH H) as (ws & Hws & Hc). unfold usableBarre in Hb.
  cbn [mapM]. unfold barreFret at 1.
  destruct (getProperty b (js "fret")) as [w|e]; [|discriminate].
  cbn [bind]. rewrite Hws. cbn [bind]. exists (w :: ws).
  split; [reflexivity|]. cbn [forallb]. now rewrite Hb, Hc.
Qed.

Lemma fingerFrets_convertible (fingers fingerFrets : list value) :
  Forall2 (fun a b => fingerFret a = Normal b) fingers fingerFrets ->
  forallb convertible fingerFrets = true.
Proof.
  induction 1 as [|f w fs ws Hfw _ IH]; [reflexivity|].
  cbn [forallb]. rewrite IH, andb_true_r.
  destruct (fingerFret_Num _ Hfw) as [n ->]. reflexivity.
Qed.

Lemma adaptConfigToChord_accepted (chord config : value) :
  (exists out, adaptConfigToChord chord config = Normal out) <->
  acceptedChord chord.
Proof.
  split.
  - intros [out H]. apply adaptConfigToChord_Normal in H.
    destruct H as (fingers & fingerFrets & barres & bs & barreFrets & frets &
                   Hf & Hff & Hb & Hbs & Hbf & Hm & _).
    exists fingers, barres. repeat split; try assumption.
    + apply (@Forall2_readable fingerFret fingers fingerFrets);
        [apply fingerFret_readable|assumption].
    + destruct (toBoolean barres); [right|now left].
      exists bs. split; [assumption|].
      apply (Forall2_usable Hbf).
      assert (Hc : forallb convertible
                     (fingerFrets ++ barreFrets ++ [Num (of_Z 3)]) = true)
        by (apply mathMax_convertible; now exists frets).
      rewrite !forallb_app in Hc. apply andb_true_iff in Hc.
      destruct Hc as [_ Hc]. apply andb_true_iff in Hc. tauto.
  - intros (fingers & barres & Hf & Hfr & Hb & Hbr).
    unfold adaptConfigToChord. rewrite Hf. cbn [bind mapArray].
    destruct (@mapM_readable fingerFret fingers) as [fingerFrets Hff];
      [apply fingerFret_readable|assumption|].
    rewrite Hff. cbn [bind]. rewrite Hb. cbn [bind].
    apply mapM_Normal in Hff. apply fingerFrets_convertible in Hff.
    assert (Hmax : forall barreFrets,
               forallb convertible barreFrets = true ->
               exists frets,
                 mathMax (fingerFrets ++ barreFrets ++ [Num (of_Z 3)])
                 = Normal frets).
    { intros ws Hws. apply mathMax_convertible.
      rewrite !forallb_app, Hff, Hws. reflexivity. }
    destruct Hbr as [Hfalse|(bs & -> & Hbs)].
    + rewrite Hfalse. cbn [mapArray mapM bind].
      destruct (Hmax [] eq_refl) as [frets ->]. cbn [bind]. now eexists.
    + cbn [toBoolean mapArray].
      destruct (mapM_usable _ Hbs) as (barreFrets & -> & Hc).
      cbn [bind]. destruct (Hmax _ Hc) as [frets ->]. cbn [bind].
      now eexists.
Qed.

Lemma normaliseChord_withBarres (chord : value) :
  chordObject chord ->
  exists chord', normaliseChord chord = Normal chord' /\
                 withBarres chord chord'.
Proof.
  intros (props & -> & Hnd).
  cbn [normaliseChord getProperty bind ownProperties].
  eexists. split; [reflexivity|].
  eexists. eexists. split; [reflexivity|]. split; [reflexivity|]. split.
  - rewrite lookup_spread by assumption.
    destruct (lookup (js "barres") props) as [v|]; reflexivity.
  - intros k Hk. rewrite lookup_spread by assumption.
    destruct (lookup k props) as [v|]; [reflexivity|].
    cbn [lookup]. rewrite jsstring_eqb_neq; [reflexivity|].
    intros E. now apply Hk.
Qed.

(** Normalising a chord changes nothing to whether it is taken. *)
Lemma acceptedChord_withBarres (chord chord' : value) :
  withBarres chord chord' -> (acceptedChord chord' <-> acceptedChord chord).
Proof.
  intros (props & props' & -> & -> & Hb & Hother).
  assert (Hfingers : lookup (js "fingers") props'
                     = lookup (js "fingers") props)
    by (apply Hother; discriminate).
  unfold acceptedChord. cbn [getProperty]. rewrite Hb, Hfingers.
  split.
  - intros (fingers & barres & Hf & Hfr & Hbar & Hok).
    exists fingers. eexists. repeat split; try eassumption.
    inversion Hbar; subst barres.
    destruct (lookup (js "barres") props) as [v|]; [assumption|].
    now left.
  - intros (fingers & barres & Hf & Hfr & Hbar & Hok).
    exists fingers. eexists. repeat split; try eassumption.
    inversion Hbar; subst barres.
    destruct (lookup (js "barres") props) as [v|]; [assumption|].
    right. exists []. split; reflexivity.
Qed.

(** The chords of a block are prepared exactly when each of them is
    taken by adaptConfigToChord. *)
Lemma prepareChords_accepted (parsedData config : value) :
  Forall chordObject (chordsOf parsedData) ->
  ((exists prepared, prepareChords parsedData config = Normal prepared) <->
   Forall acceptedChord (chordsOf parsedData)) /\
  forall chords configs,
    prepareChords parsedData config = Normal (chords, configs) ->
    List.length chords = List.length (chordsOf parsedData) /\
    List.length configs = List.length (chordsOf parsedData).
Proof.
  intros Hobj. unfold prepareChords.
  replace (match parsedData with Arr _ => parsedData | _ => Arr [parsedData]
           end) with (Arr (chordsOf parsedData))
    by (now destruct parsedData).
  cbn [normaliseChordData].
  induction (chordsOf parsedData) as [|chord chords IH].
  - cbn [mapM bind mapArray]. split.
    + split; [constructor|]. intros _. eexists. reflexivity.
    + intros cs cfgs H. inversion H. split; reflexivity.
  - inversion Hobj as [|? ? Hchord Hrest]; subst.
    destruct (IH Hrest) as [IHiff IHlen]. clear IH.
    destruct (normaliseChord_withBarres Hchord) as (chord' & Hn & Hw).
    cbn [mapM]. rewrite Hn. cbn [bind].
    destruct (mapM normaliseChord chords) as [chords'|e] eqn:Em;
      cbn [bind mapArray mapM] in *.
    + destruct (adaptConfigToChord chord' config) as [cfg|e] eqn:Ea;
        cbn [bind].
      * assert (Hacc : acceptedChord chord).
        { apply (acceptedChord_withBarres Hw).
          apply (adaptConfigToChord_accepted chord' config). now exists cfg. }
        destruct (mapM (fun c => adaptConfigToChord c config) chords')
          as [cfgs|e] eqn:Ec; cbn [bind] in *.
        -- split.
           ++ split; [|intros _; eexists; reflexivity].
              intros _. constructor; [assumption|].
              apply IHiff. eexists. reflexivity.
           ++ intros cs cfgs' H. inversion H; subst.
              destruct (IHlen chords' cfgs eq_refl) as [H1 H2].
              cbn [List.length]. now rewrite H1, H2.
        -- split; [|intros cs cfgs' H; discriminate].
           split; [intros [p H]; discriminate|].
           intros Hall. inversion Hall; subst.
           apply IHiff in H2. destruct H2 as [p H2]. discriminate.
      * split; [|intros cs cfgs' H; discriminate].
        split; [intros [p H]; discriminate|].
        intros Hall. inversion Hall as [|? ? Hacc _]; subst. exfalso.
        apply (acceptedChord_withBarres Hw) in Hacc.
        apply (adaptConfigToChord_accepted chord' config) in Hacc.
        destruct Hacc as [out Hout]. congruence.
    + exfalso. clear -Hrest Em.
      revert e Em. induction Hrest as [|c cs Hc _ IH]; intros e Em;
        [discriminate|].
      cbn [mapM] in Em.
      destruct (normaliseChord_withBarres Hc) as (c' & Hn & _).
      rewrite Hn in Em. cbn [bind] in Em.
      destruct (mapM normaliseChord cs) as [cs'|e'] eqn:E;
        cbn [bind] in Em; [discriminate|].
      now apply (IH e').
Qed.

End ConfigFacts.

(* ===================================================================== *)
(** ** The estimate of the content bounds *)
(* ===================================================================== *)

Module EstimateFacts.

Import Number RegExp Js RegExpFacts SearchFacts RemarkLilypond.
Import Statements CropFacts ConfigFacts.

(** *** Math.min and Math.max against the infinities *)

Lemma lt_min_Infinity (x y : number) :
  isNaN x = false -> isNaN y = false ->
  lt (min x y) Infinity = lt x Infinity || lt y Infinity.
Proof. revert x y. unfold min. order. Qed.

Lemma gt_max_NegInfinity (x y : number) :
  isNaN x = false -> isNaN y = false ->
  gt (max x y) NegInfinity = gt x NegInfinity || gt y NegInfinity.
Proof. revert x y. unfold max, gt. order. Qed.

Lemma isNaN_min_of (x y : number) : isNaN (min x y) = isNaN x || isNaN y.
Proof. revert x y. unfold min. order. Qed.

Lemma isNaN_fold_min (l : list number) (acc : number) :
  isNaN (fold_left min l acc) = isNaN acc || negb (numbers l).
Proof.
  revert acc. induction l as [|x l IH]; intros acc; cbn [fold_left].
  - cbn. now rewrite orb_false_r.
  - rewrite IH, isNaN_min_of. unfold numbers. cbn [forallb].
    now destruct (isNaN acc), (isNaN x), (forallb _ l).
Qed.

Lemma isNaN_fold_max_of (l : list number) (acc : number) :
  isNaN (fold_left max l acc) = isNaN acc || negb (numbers l).
Proof.
  revert acc. induction l as [|x l IH]; intros acc; cbn [fold_left].
  - cbn. now rewrite orb_false_r.
  - rewrite IH, isNaN_max. unfold numbers. cbn [forallb].
    now destruct (isNaN acc), (isNaN x), (forallb _ l).
Qed.

Lemma lt_NaN (x : number) : isNaN x = true -> lt x Infinity = false.
Proof. now destruct x. Qed.

Lemma gt_NaN (x : number) : isNaN x = true -> gt x NegInfinity = false.
Proof. now destruct x. Qed.

Lemma lt_fold_min (l : list number) (acc : number) :
  isNaN acc = false ->
  lt (fold_left min l acc) Infinity
  = numbers l && (lt acc Infinity || existsb (fun x => lt x Infinity) l).
Proof.
  revert acc. induction l as [|x l IH]; intros acc Hacc; cbn [fold_left].
  - cbn. now rewrite orb_false_r.
  - unfold numbers. cbn [forallb existsb].
    destruct (isNaN x) eqn:Ex; cbn [negb andb].
    + apply lt_NaN. rewrite isNaN_fold_min, isNaN_min_of, Ex.
      now rewrite orb_true_r.
    + rewrite IH by (now rewrite isNaN_min_of, Hacc, Ex).
      rewrite (lt_min_Infinity _ _ Hacc Ex). fold (numbers l).
      now rewrite orb_assoc.
Qed.

Lemma gt_fold_max (l : list number) (acc : number) :
  isNaN acc = false ->
  gt (fold_left max l acc) NegInfinity
  = numbers l && (gt acc NegInfinity || existsb (fun x => gt x NegInfinity) l).
Proof.
  revert acc. induction l as [|x l IH]; intros acc Hacc; cbn [fold_left].
  - cbn. now rewrite orb_false_r.
  - unfold numbers. cbn [forallb existsb].
    destruct (isNaN x) eqn:Ex; cbn [negb andb].
    + apply gt_NaN. rewrite isNaN_fold_max_of, isNaN_max, Ex.
      now rewrite orb_true_r.
    + rewrite IH by (now rewrite isNaN_max, Hacc, Ex).
      rewrite (gt_max_NegInfinity _ _ Hacc Ex). fold (numbers l).
      now rewrite orb_assoc.
Qed.

Lemma lt_least (l : list number) :
  lt (least l) Infinity
  = numbers l && existsb (fun x => lt x Infinity) l.
Proof. unfold least. now rewrite lt_fold_min. Qed.

Lemma gt_greatest (l : list number) :
  gt (greatest l) NegInfinity
  = numbers l && existsb (fun x => gt x NegInfinity) l.
Proof. unfold greatest. now rewrite gt_fold_max. Qed.

(** *** The four scans *)

(** The scan of the translate transforms: the four edges over the
    origins *)
Lemma foldM_transformStep (l : list matchResult) :
  (forall m, In m l -> exists coords, coordinates m = Normal coords) ->
  forall b,
    foldM transformStep l b
    = Normal (Bounds
                (fold_left min (List.map fst (flat_map origin l)) (minX b))
                (fold_left max (List.map fst (flat_map origin l)) (maxX b))
                (fold_left min (List.map snd (flat_map origin l)) (minY b))
                (fold_left max (List.map snd (flat_map origin l)) (maxY b))).
Proof.
  induction l as [|m l IH]; intros Hl b; cbn [foldM flat_map].
  - cbn. now destruct b.
  - destruct (Hl m (or_introl eq_refl)) as [coords Hc].
    assert (Ho : origin m = match coords with
                            | c0 :: c1 :: _ => [(c0, c1)]
                            | _ => []
                            end) by (unfold origin; now rewrite Hc).
    rewrite Ho. unfold transformStep at 1. rewrite Hc.
    specialize (IH (fun m' H => Hl m' (or_intror H))).
    destruct coords as [|c0 [|c1 coords]];
      cbn [bind app List.map fold_left fst snd]; rewrite IH; reflexivity.
Qed.

Lemma foldM_lineStep (l : list matchResult) (b : bounds) :
  foldM lineStep l b
  = Normal (Bounds (minX b)
              (fold_left max
                 (List.filter (fun x2 => negb (isNaN x2))
                    (List.map (fun m => parseFloat (groupOrUndefined 1 m)) l))
                 (maxX b))
              (minY b) (maxY b)).
Proof.
  revert b. induction l as [|m l IH]; intros b; cbn [foldM List.map List.filter].
  - cbn. now destruct b.
  - unfold lineStep at 1.
    destruct (negb (isNaN (parseFloat (groupOrUndefined 1 m))));
      cbn [bind fold_left]; rewrite IH; reflexivity.
Qed.

Lemma foldM_rectStep (l : list matchResult) (b : bounds) :
  foldM rectStep l b
  = Normal (Bounds (minX b)
              (fold_left max
                 (List.map (fun m =>
                              add (orZero (parseFloat (groupOrUndefined 1 m)))
                                  (orZero (parseFloat (groupOrUndefined 2 m))))
                           l)
                 (maxX b))
              (minY b) (maxY b)).
Proof.
  revert b. induction l as [|m l IH]; intros b; cbn [foldM List.map].
  - cbn. now destruct b.
  - unfold rectStep at 1. cbn [bind fold_left]. rewrite IH. reflexivity.
Qed.

Lemma foldM_pathGroupStep (l : list matchResult) :
  (forall m, In m l -> exists coords, coordinates m = Normal coords) ->
  forall b,
    foldM pathGroupStep l b
    = Normal (Bounds (minX b)
                (fold_left max
                   (List.map (fun o => add (fst o) (of_Z 2))
                             (flat_map origin l))
                   (maxX b))
                (minY b) (maxY b)).
Proof.
  induction l as [|m l IH]; intros Hl b; cbn [foldM flat_map].
  - cbn. now destruct b.
  - destruct (Hl m (or_introl eq_refl)) as [coords Hc].
    assert (Ho : origin m = match coords with
                            | c0 :: c1 :: _ => [(c0, c1)]
                            | _ => []
                            end) by (unfold origin; now rewrite Hc).
    rewrite Ho. unfold pathGroupStep at 1. rewrite Hc.
    specialize (IH (fun m' H => Hl m' (or_intror H))).
    destruct coords as [|c0 [|c1 coords]];
      cbn [bind app List.map fold_left fst snd]; rewrite IH; reflexivity.
Qed.

(** The scan ends with the least x and y of the origins, the greatest
    right edge and the greatest y. *)
Lemma contentBounds_estimate (s : jsstring) :
  contentBounds s = Normal (estimate s).
Proof.
  unfold contentBounds.
  rewrite foldM_transformStep
    by (intros m Hin; exact (coordinates_total translateTransform s m
                               eq_refl Hin)).
  cbn [bind]. rewrite foldM_lineStep. cbn [bind].
  rewrite foldM_rectStep. cbn [bind].
  rewrite foldM_pathGroupStep
    by (intros m Hin; exact (coordinates_total pathGroup s m eq_refl Hin)).
  cbn [minX maxX minY maxY noBounds].
  unfold estimate, least, greatest, rightEdges, lineEdges, rectEdges,
    pathEdges, origins.
  now rewrite !fold_left_app.
Qed.

(** The guard on the bounds of the scan *)
Lemma hasEstimate_estimate (s : jsstring) :
  hasEstimate (estimate s) = estimable s.
Proof.
  unfold hasEstimate, estimate, estimable. cbn [minX maxX minY].
  rewrite !lt_least, gt_greatest.
  assert (H : numbers (rightEdges s) = true ->
              numbers (List.map fst (origins s)) = true).
  { unfold rightEdges, numbers. rewrite forallb_app.
    intros H. now apply andb_true_iff in H. }
  destruct (numbers (rightEdges s)).
  - rewrite (H eq_refl).
    now destruct (numbers (List.map snd (origins s))),
      (existsb _ (List.map fst (origins s))),
      (existsb _ (List.map snd (origins s))),
      (existsb _ (rightEdges s)).
  - now destruct (numbers (List.map snd (origins s))),
      (numbers (List.map fst (origins s))),
      (existsb _ (List.map fst (origins s))),
      (existsb _ (List.map snd (origins s))).
Qed.

Lemma estimateProduced_estimable (s : jsstring) :
  estimateProduced s <-> estimable s = true.
Proof.
  unfold estimateProduced. split.
  - intros (b & Hb & He). rewrite contentBounds_estimate in Hb.
    inversion Hb; subst b. now rewrite <- hasEstimate_estimate.
  - intros H. exists (estimate s).
    split; [apply contentBounds_estimate|].
    now rewrite hasEstimate_estimate.
Qed.

(** An estimate needs an origin. *)
Lemma estimable_origins (s : jsstring) :
  estimable s = true ->
  origins s <> [] /\ matchAll false translateTransform s <> [].
Proof.
  unfold estimable. intros H.
  assert (Ho : origins s <> []).
  { intros E. rewrite E in H. cbn in H.
    now rewrite !andb_false_r in H. }
  split; [exact Ho|]. intros E. apply Ho. unfold origins. now rewrite E.
Qed.

Lemma finite_number (x : number) : finite x = true -> isNaN x = false.
Proof. now destruct x. Qed.

Lemma finite_numbers (l : list number) :
  forallb finite l = true -> numbers l = true.
Proof.
  unfold numbers. induction l as [|x l IH]; [reflexivity|].
  cbn [forallb]. intros H. apply andb_true_iff in H. destruct H as [Hx Hl].
  now rewrite (finite_number _ Hx), IH.
Qed.

Lemma finite_exists (p : number -> bool) (l : list number) :
  (forall x, finite x = true -> p x = true) ->
  forallb finite l = true -> l <> [] -> existsb p l = true.
Proof.
  intros Hp Hl Hne. destruct l as [|x l]; [contradiction|].
  cbn [forallb existsb] in *. apply andb_true_iff in Hl.
  now rewrite (Hp x (proj1 Hl)).
Qed.

(** With finite numbers an origin is enough. *)
Lemma finite_estimable (s : jsstring) :
  forallb finite (List.map snd (origins s)) = true ->
  forallb finite (rightEdges s) = true ->
  origins s <> [] ->
  estimable s = true.
Proof.
  intros Hy Hr Ho. unfold estimable.
  assert (Hx : forallb finite (List.map fst (origins s)) = true).
  { unfold rightEdges in Hr. rewrite forallb_app in Hr.
    now apply andb_true_iff in Hr. }
  assert (Hxs : List.map fst (origins s) <> [])
    by (destruct (origins s); [contradiction|discriminate]).
  assert (Hys : List.map snd (origins s) <> [])
    by (destruct (origins s); [contradiction|discriminate]).
  assert (Hrs : rightEdges s <> []).
  { unfold rightEdges. destruct (List.map fst (origins s));
      [contradiction|discriminate]. }
  rewrite (finite_numbers _ Hy), (finite_numbers _ Hr).
  rewrite (@finite_exists (fun x => lt x Infinity) _
             (fun x H => proj1 (proj1 (andb_true_iff _ _) H)) Hx Hxs).
  rewrite (@finite_exists (fun x => lt x Infinity) _
             (fun x H => proj1 (proj1 (andb_true_iff _ _) H)) Hy Hys).
  rewrite (@finite_exists (fun x => gt x NegInfinity) _
             (fun x H => proj2 (proj1 (andb_true_iff _ _) H)) Hr Hrs).
  reflexivity.
Qed.

(** Without an estimate the crop returns the fragment. *)
Lemma cropToContent_not_estimable (s : jsstring) :
  estimable s = false -> cropToContent s = Normal s.
Proof.
  intros H.
  apply (cropToContent_no_estimate s (contentBounds_estimate s)).
  now rewrite hasEstimate_estimate.
Qed.

End EstimateFacts.

Module LoopFacts.

Import Number RegExp Js Mdast Statements.

Lemma setChild_app (pre : list child) (c x : child) (rest : list child) :
  setChild (List.length pre) c (pre ++ x :: rest) = pre ++ c :: rest.
Proof.
  induction pre as [|y pre IH]; [reflexivity|].
  cbn [List.length app setChild]. now rewrite IH.
Qed.

Section Pass.

Variable state : Type.
Variable processBlock : nat -> codeNode -> state -> action * state.
Variable name : jsstring.

(** The loop over the blocks the visitor kept, writing at their places,
    is the one pass over the code nodes. *)
Lemma forEachBlock_pass_from (nodes : list codeNode) :
  forall (pre : list child) (blockIndex : nat) (st : state),
    forEachBlock processBlock blockIndex
                 (collectFrom name (List.length pre) nodes)
                 (pre ++ List.map Code nodes) st
    = let '(children, st', e) := pass processBlock name blockIndex nodes st in
      (pre ++ children, st', e).
Proof.
  induction nodes as [|node rest IH]; intros pre b st.
  - cbn [collectFrom forEachBlock List.map pass]. reflexivity.
  - cbn [collectFrom List.map pass].
    assert (Hnext : forall c,
               pre ++ c :: List.map Code rest
               = (pre ++ [c]) ++ List.map Code rest)
      by (intros c; now rewrite <- app_assoc).
    assert (Hlen : forall c, S (List.length pre) = List.length (pre ++ [c]))
      by (intros c; rewrite length_app; cbn [List.length]; lia).
    destruct (strictEqualsString (lang node) name).
    + cbn [forEachBlock].
      destruct (processBlock b node st) as [[html| | |error] st'].
      * rewrite setChild_app, (Hnext (Html html)), (Hlen (Html html)), IH.
        destruct (pass processBlock name (S b) rest st') as [[cs st''] e].
        now rewrite <- app_assoc.
      * rewrite (Hnext (Code node)), (Hlen (Code node)), IH.
        destruct (pass processBlock name (S b) rest st') as [[cs st''] e].
        now rewrite <- app_assoc.
      * reflexivity.
      * reflexivity.
    + rewrite (Hnext (Code node)), (Hlen (Code node)), IH.
      destruct (pass processBlock name b rest st) as [[cs st'] e].
      now rewrite <- app_assoc.
Qed.

Lemma forEachBlock_pass (nodes : list codeNode) (st : state) :
  forEachBlock processBlock 0 (collect name nodes) (List.map Code nodes) st
  = pass processBlock name 0 nodes st.
Proof.
  unfold collect.
  pose proof (forEachBlock_pass_from nodes [] 0 st) as H.
  cbn [List.length app] in H. rewrite H.
  now destruct (pass processBlock name 0 nodes st) as [[cs st'] e].
Qed.

(** No block of the language: nothing to do. *)
Lemma collectFrom_nil (nodes : list codeNode) (index : nat) :
  collectFrom name index nodes = [] <->
  forallb (fun node => negb (isBlock name node)) nodes = true.
Proof.
  revert index. induction nodes as [|node rest IH]; intros index;
    cbn [collectFrom forallb]; [tauto|].
  unfold isBlock at 1.
  destruct (strictEqualsString (lang node) name); cbn [negb andb].
  - split; discriminate.
  - apply IH.
Qed.

Lemma pass_no_block (nodes : list codeNode) (blockIndex : nat) (st : state) :
  forallb (fun node => negb (isBlock name node)) nodes = true ->
  pass processBlock name blockIndex nodes st = (List.map Code nodes, st, Done).
Proof.
  induction nodes as [|node rest IH]; intros H; [reflexivity|].
  cbn [forallb] in H. apply andb_true_iff in H. destruct H as [Hn Hrest].
  unfold isBlock in Hn. apply negb_true_iff in Hn.
  cbn [pass List.map]. rewrite Hn, IH by assumption. reflexivity.
Qed.

(** What the pass keeps: the number of places, the nodes of the other
    languages, and at every place either the node that was there or an
    html node. *)
Lemma pass_frame (nodes : list codeNode) :
  forall (blockIndex : nat) (st : state) children st' e,
    pass processBlock name blockIndex nodes st = (children, st', e) ->
    List.length children = List.length nodes /\
    forall i node,
      nth_error nodes i = Some node ->
      (isBlock name node = false -> nth_error children i = Some (Code node)) /\
      (nth_error children i = Some (Code node) \/
       exists html, nth_error children i = Some (Html html)).
Proof.
  induction nodes as [|node rest IH]; intros b st children st' e H.
  - cbn [pass] in H. inversion H; subst. split; [reflexivity|].
    intros [|i] n Hn; discriminate.
  - cbn [pass] in H.
    assert (Hkeep : forall cs,
               List.length cs = List.length rest /\
               (forall i n, nth_error rest i = Some n ->
                  (isBlock name n = false -> nth_error cs i = Some (Code n)) /\
                  (nth_error cs i = Some (Code n) \/
                   exists html, nth_error cs i = Some (Html html))) ->
               forall c, (c = Code node \/
                          (isBlock name node = true /\ exists h, c = Html h)) ->
               List.length (c :: cs) = List.length (node :: rest) /\
               forall i n, nth_error (node :: rest) i = Some n ->
                  (isBlock name n = false ->
                   nth_error (c :: cs) i = Some (Code n)) /\
                  (nth_error (c :: cs) i = Some (Code n) \/
                   exists html, nth_error (c :: cs) i = Some (Html html))).
    { intros cs [Hl Hcs] c Hc. split; [cbn [List.length]; now rewrite Hl|].
      intros [|i] n Hn; cbn [nth_error] in *.
      - inversion Hn; subst n. destruct Hc as [->|[Hb [h ->]]].
        + split; [reflexivity|now left].
        + split; [congruence|right; now exists h].
      - now apply Hcs. }
    assert (Hall : forall l : list codeNode,
               List.length (List.map Code l) = List.length l /\
               forall i n, nth_error l i = Some n ->
                 (isBlock name n = false ->
                  nth_error (List.map Code l) i = Some (Code n)) /\
                 (nth_error (List.map Code l) i = Some (Code n) \/
                  exists html, nth_error (List.map Code l) i = Some (Html html))).
    { intros l. split; [apply length_map|].
      intros i n Hn. rewrite nth_error_map, Hn. cbn. split; [reflexivity|].
      now left. }
    fold (isBlock name node) in H.
    destruct (isBlock name node) eqn:Eb.
    + destruct (processBlock b node st) as [[html| | |error] st1].
      * destruct (pass processBlock name (S b) rest st1) as [[cs st2] e2] eqn:Ep.
        inversion H; subst. apply Hkeep; [eapply IH; eassumption|].
        right. split; [reflexivity|now exists html].
      * destruct (pass processBlock name (S b) rest st1) as [[cs st2] e2] eqn:Ep.
        inversion H; subst. apply Hkeep; [eapply IH; eassumption|now left].
      * inversion H; subst. apply (Hall (node :: rest)).
      * inversion H; subst. apply (Hall (node :: rest)).
    + destruct (pass processBlock name b rest st) as [[cs st2] e2] eqn:Ep.
      inversion H; subst. apply Hkeep; [eapply IH; eassumption|now left].
Qed.

(** The pass over two lists of nodes, one after the other *)
Lemma pass_app (l1 l2 : list codeNode) :
  forall (blockIndex : nat) (st : state),
    pass processBlock name blockIndex (l1 ++ l2) st
    = let '(cs1, st1, e1) := pass processBlock name blockIndex l1 st in
      match e1 with
      | Done =>
          let '(cs2, st2, e2) :=
            pass processBlock name (blockIndex + blockCount name l1) l2 st1 in
          (cs1 ++ cs2, st2, e2)
      | _ => (cs1 ++ List.map Code l2, st1, e1)
      end.
Proof.
  induction l1 as [|node rest IH]; intros b st.
  - cbn [app pass blockCount List.filter List.length]. rewrite Nat.add_0_r.
    now destruct (pass processBlock name b l2 st) as [[cs st'] e].
  - cbn [app pass]. unfold blockCount. cbn [List.filter].
    fold (isBlock name node).
    destruct (isBlock name node) eqn:Eb.
    + destruct (processBlock b node st) as [[html| | |error] st'].
      * rewrite IH.
        destruct (pass processBlock name (S b) rest st') as [[cs1 st1] e1].
        cbn [List.length]. fold (blockCount name rest).
        replace (b + S (blockCount name rest))
          with (S b + blockCount name rest) by lia.
        destruct e1; [|reflexivity|reflexivity].
        now destruct (pass processBlock name _ l2 st1) as [[cs2 st2] e2].
      * rewrite IH.
        destruct (pass processBlock name (S b) rest st') as [[cs1 st1] e1].
        cbn [List.length]. fold (blockCount name rest).
        replace (b + S (blockCount name rest))
          with (S b + blockCount name rest) by lia.
        destruct e1; [|reflexivity|reflexivity].
        now destruct (pass processBlock name _ l2 st1) as [[cs2 st2] e2].
      * cbn [List.map app]. now rewrite map_app.
      * cbn [List.map app]. now rewrite map_app.
    + rewrite IH.
      destruct (pass processBlock name b rest st) as [[cs1 st1] e1].
      fold (blockCount name rest).
      destruct e1; [|reflexivity|reflexivity].
      now destruct (pass processBlock name _ l2 st1) as [[cs2 st2] e2].
Qed.

End Pass.

End LoopFacts.

Module LilypondFacts.

Import Number RegExp Js Mdast Statements LilypondTransformer.
Import RemarkSvguitar RemarkLilypond.
Import LoopFacts ErrorFacts EscapeFacts CropFacts.

Lemma compactSvg_Str (svg : jsstring) :
  exists out, compactSvg (Str svg) = Normal out.
Proof. cbn [compactSvg thisString bind]. apply cropToContent_total. Qed.

Lemma isLilyPondNotFound_Str (text : jsstring) (code : value) :
  isLilyPondNotFound (Caught (Str text) code)
  = Normal (missingExecutable text code).
Proof.
  unfold isLilyPondNotFound, missingExecutable, mentionsMissing.
  cbn [message RemarkLilypond.code includesMethod bind].
  destruct (includes (js "not found") text); [reflexivity|].
  cbn [bind orb]. now destruct (includes (js "ENOENT") text).
Qed.

Section Run.

Variable respond : nat -> rendered.
Variable thrown : error -> caught.

Lemma transformer_pass (s : settings) (nodes : list codeNode)
  (calls : list call) :
  transformer respond thrown s nodes calls
  = let '(children, calls', e) :=
      pass (processBlock respond thrown s) (js "lilypond") 0 nodes calls in
    (children, calls',
     match e with Threw error => Rejected error | _ => Fulfilled end).
Proof.
  unfold transformer. rewrite forEachBlock_pass.
  destruct (Nat.eqb (List.length (collect (js "lilypond") nodes)) 0) eqn:E.
  - apply Nat.eqb_eq, length_zero_iff_nil in E. unfold collect in E.
    apply (proj1 (@collectFrom_nil (list call)
                    (processBlock respond thrown s) (js "lilypond") nodes 0))
      in E.
    now rewrite pass_no_block.
  - destruct (pass (processBlock respond thrown s) (js "lilypond") 0 nodes calls)
      as [[cs st] e].
    now destruct e.
Qed.

(** The catch clause on an error whose message is a string *)
Lemma handleError_Str (s : settings) (text : jsstring) (code : value) :
  handleError thrown s (Caught (Str text) code)
  = if toBoolean (skipOnMissing s) && missingExecutable text code
    then match toStringValue (binaryPath s) with
         | Normal _ => Return
         | Throw e => Rethrow (thrown e)
         end
    else if toBoolean (errorInline s) then Replace (errorHtml text code)
         else Keep.
Proof.
  unfold handleError, errorHtml. cbn [message].
  rewrite parseLilyPondError_Str, isLilyPondNotFound_Str, escapeHtml_flat_map.
  destruct (toBoolean (skipOnMissing s)), (missingExecutable text code),
    (toBoolean (errorInline s)); reflexivity.
Qed.

(** The catch clause on an error whose message has no includes method *)
Lemma handleError_noText (s : settings) (error : caught) :
  noText (message error) = true ->
  handleError thrown s error = Rethrow (thrown TypeError).
Proof.
  unfold handleError, parseLilyPondError.
  now destruct (message error).
Qed.

Lemma processBlock_calls (s : settings) (blockIndex : nat) (node : codeNode)
  (calls : list call) :
  snd (processBlock respond thrown s blockIndex node calls)
  = calls ++ [submitted s node].
Proof.
  unfold processBlock, submitted.
  destruct (respond (List.length calls)); [|reflexivity].
  now destruct (if toBoolean (compact s) then compactSvg (Str svg)
                else Normal svg).
Qed.

Lemma processBlock_goesOn (s : settings) (blockIndex : nat) (node : codeNode)
  (calls : list call) :
  goesOn s (respond (List.length calls)) ->
  exists a,
    processBlock respond thrown s blockIndex node calls
    = (a, calls ++ [submitted s node]) /\
    match a with
    | Replace html => shown s node (respond (List.length calls)) = Html html
    | Keep => shown s node (respond (List.length calls)) = Code node
    | _ => False
    end.
Proof.
  unfold processBlock, submitted, goesOn, shown, finished.
  destruct (respond (List.length calls)) as [svg|[m c]].
  - intros _. destruct (toBoolean (compact s)).
    + destruct (compactSvg_Str svg) as [out ->]. now eexists.
    + now eexists.
  - cbn [message code]. intros (text & -> & Hskip).
    rewrite handleError_Str, Hskip.
    destruct (toBoolean (errorInline s)); now eexists.
Qed.

(** As long as no answer ends the run, each block is handled on its
    own. *)
Lemma pass_allGoOn (s : settings) (nodes : list codeNode) :
  forall (blockIndex : nat) (calls : list call),
    allGoOn s respond (List.length calls) (blockCount (js "lilypond") nodes) ->
    pass (processBlock respond thrown s) (js "lilypond") blockIndex nodes calls
    = (shownTree s respond (List.length calls) nodes,
       calls ++ submittedCalls s nodes, Done).
Proof.
  induction nodes as [|node rest IH]; intros b calls Hall.
  - cbn [pass shownTree]. unfold submittedCalls. cbn [List.filter List.map].
    now rewrite app_nil_r.
  - cbn [pass shownTree]. unfold submittedCalls, blockCount in *.
    cbn [List.filter] in *. fold (isBlock (js "lilypond") node).
    destruct (isBlock (js "lilypond") node) eqn:Eb.
    + cbn [List.length List.map] in *.
      assert (H0 : goesOn s (respond (List.length calls))).
      { specialize (Hall 0 ltac:(lia)). now rewrite Nat.add_0_r in Hall. }
      destruct (processBlock_goesOn s b node calls H0) as (a & -> & Ha).
      assert (Hrest : allGoOn s respond
                        (List.length (calls ++ [submitted s node]))
                        (List.length (List.filter (isBlock (js "lilypond")) rest))).
      { intros k Hk. rewrite length_app. cbn [List.length].
        replace (List.length calls + 1 + k)
          with (List.length calls + S k) by lia.
        apply Hall. lia. }
      assert (Hlen : List.length (calls ++ [submitted s node])
                     = S (List.length calls))
        by (rewrite length_app; cbn [List.length]; lia).
      destruct a as [html| | |error]; try contradiction.
      * rewrite (IH (S b) _ Hrest), Hlen, Ha, <- app_assoc. reflexivity.
      * rewrite (IH (S b) _ Hrest), Hlen, Ha, <- app_assoc. reflexivity.
    + now rewrite (IH b calls Hall).
Qed.

(** The answer that ends the run at a block *)
Lemma pass_ends (s : settings) (before after : list codeNode)
  (node : codeNode) (calls : list call) (e : loopEnd) :
  isBlock (js "lilypond") node = true ->
  allGoOn s respond (List.length calls) (blockCount (js "lilypond") before) ->
  fst (processBlock respond thrown s (blockCount (js "lilypond") before) node
         (calls ++ submittedCalls s before))
  = match e with
    | Done => Keep
    | Returned => Return
    | Threw error => Rethrow error
    end ->
  e <> Done ->
  pass (processBlock respond thrown s) (js "lilypond") 0 (before ++ node :: after)
       calls
  = (shownTree s respond (List.length calls) before
       ++ List.map Code (node :: after),
     calls ++ submittedCalls s (before ++ [node]), e).
Proof.
  intros Hb Hall Hp He.
  rewrite pass_app, (@pass_allGoOn s before 0 calls Hall).
  cbn [pass Nat.add]. unfold isBlock in Hb. rewrite Hb.
  pose proof (processBlock_calls s (blockCount (js "lilypond") before) node
                (calls ++ submittedCalls s before)) as Hc.
  destruct (processBlock respond thrown s (blockCount (js "lilypond") before) node
              (calls ++ submittedCalls s before)) as [a calls'].
  cbn [fst snd] in Hp, Hc. subst a calls'.
  assert (Hcalls : (calls ++ submittedCalls s before) ++ [submitted s node]
                   = calls ++ submittedCalls s (before ++ [node])).
  { unfold submittedCalls. rewrite filter_app, map_app. cbn [List.filter].
    fold (isBlock (js "lilypond") node). unfold isBlock. rewrite Hb.
    cbn [List.map]. now rewrite app_assoc. }
  rewrite Hcalls.
  destruct e; [contradiction|reflexivity|reflexivity].
Qed.

(** The calls of render: the blocks in their order, as far as the run
    goes. *)
Lemma pass_calls (s : settings) (nodes : list codeNode) :
  forall (blockIndex : nat) (calls : list call),
  exists n,
    snd (fst (pass (processBlock respond thrown s) (js "lilypond") blockIndex nodes
                   calls))
    = calls ++ firstn n (submittedCalls s nodes).
Proof.
  induction nodes as [|node rest IH]; intros b calls.
  - exists 0. cbn. now rewrite app_nil_r.
  - cbn [pass]. unfold submittedCalls. cbn [List.filter].
    fold (isBlock (js "lilypond") node).
    destruct (isBlock (js "lilypond") node) eqn:Eb.
    + pose proof (processBlock_calls s b node calls) as Hc.
      destruct (processBlock respond thrown s b node calls) as [a calls'].
      cbn [snd] in Hc. subst calls'. cbn [List.map].
      destruct (IH (S b) (calls ++ [submitted s node])) as [n Hn].
      destruct a as [html| | |error].
      * exists (S n).
        destruct (pass (processBlock respond thrown s) (js "lilypond") (S b) rest _)
          as [[cs st] e].
        cbn [fst snd firstn] in *. now rewrite Hn, <- app_assoc.
      * exists (S n).
        destruct (pass (processBlock respond thrown s) (js "lilypond") (S b) rest _)
          as [[cs st] e].
        cbn [fst snd firstn] in *. now rewrite Hn, <- app_assoc.
      * now exists 1.
      * now exists 1.
    + destruct (IH b calls) as [n Hn]. exists n.
      destruct (pass (processBlock respond thrown s) (js "lilypond") b rest calls)
        as [[cs st] e].
      exact Hn.
Qed.

End Run.

End LilypondFacts.

Module SvguitarFacts.

Import Number RegExp Js Mdast Statements SvguitarTransformer.
Import RemarkLilypond RemarkSvguitar.
Import LoopFacts EscapeFacts.

Lemma createErrorNode_Str (errorMessage : jsstring) :
  createErrorNode (Str errorMessage) = Normal (errorBox errorMessage).
Proof.
  unfold createErrorNode, errorBox.
  rewrite escapeHtml_same, escapeHtml_flat_map. reflexivity.
Qed.

Lemma world_eta (w : world) : World (browserInstance w) (events w) = w.
Proof. now destruct w. Qed.

Section Run.

Variable jsonParse : jsstring -> parsed.
Variable launch : nat -> launched.
Variable renderPage : nat -> page.
Variable close : nat -> option caught.
Variable thrown : error -> caught.

Lemma printable_printed (v : value) :
  printable v = true -> toStringValue v = Normal (printed v).
Proof.
  unfold printable, printed. now destruct (toStringValue v).
Qed.

Lemma unprintable_throws (v : value) :
  printable v = false -> toStringValue v = Throw TypeError.
Proof.
  unfold printable. now destruct (toStringValue v) as [text|[]].
Qed.

Lemma handleError_printed (s : settings) (error : caught) :
  printable (message error) = true ->
  handleError thrown s error
  = if toBoolean (errorInline s)
    then Replace (errorBox (js "SVGuitar rendering error: "
                              ++ printed (message error)))
    else Keep.
Proof.
  intros H. unfold handleError.
  now rewrite (printable_printed _ H), createErrorNode_Str.
Qed.

Lemma handleError_unprintable (s : settings) (error : caught) :
  printable (message error) = false ->
  handleError thrown s error = Rethrow (thrown TypeError).
Proof.
  intros H. unfold handleError. now rewrite (unprintable_throws _ H).
Qed.

Lemma invalidJson_cases (parseError : caught) :
  invalidJson thrown parseError
  = if printable (message parseError)
    then Caught (Str (js "Invalid JSON in SVGuitar block: "
                        ++ printed (message parseError))) Undefined
    else thrown TypeError.
Proof.
  unfold invalidJson, printable, printed.
  now destruct (toStringValue (message parseError)) as [text|[]].
Qed.

(** Whatever the body of the loop does with a block, the browser stays
    and the one event it can add is the page of the block. *)
Lemma processBlock_world (s : settings) (blockIndex : nat) (node : codeNode)
  (w : world) :
  snd (processBlock jsonParse renderPage thrown s blockIndex node w)
  = World (browserInstance w)
          (events w ++ blockEvents jsonParse s blockIndex node).
Proof.
  unfold processBlock, blockEvents, renderChordsWithPuppeteer, log.
  destruct (jsonParse (trim (Mdast.text node))) as [parsedData|parseError].
  - destruct (prepareChords parsedData (SVGuitarConfig s))
      as [[chords configs]|e].
    + destruct (renderPage (List.length (events w))) as [combined|error];
        [|reflexivity].
      now destruct (fixMultipleSvgViewBoxes (Str combined)).
    + cbn [snd]. now rewrite app_nil_r, world_eta.
  - cbn [snd]. now rewrite app_nil_r, world_eta.
Qed.

(** The pages asked by the loop: those of the blocks, in their order,
    as far as the loop goes. *)
Lemma pass_world (s : settings) (nodes : list codeNode) :
  forall (blockIndex : nat) (w : world),
  exists n,
    snd (fst (pass (processBlock jsonParse renderPage thrown s)
                   (js "svguitar") blockIndex nodes w))
    = World (browserInstance w)
            (events w
               ++ firstn n (renderEvents jsonParse s blockIndex nodes)).
Proof.
  induction nodes as [|node rest IH]; intros b w.
  - exists 0. cbn. now rewrite app_nil_r, world_eta.
  - cbn [pass renderEvents]. fold (isBlock (js "svguitar") node).
    destruct (isBlock (js "svguitar") node) eqn:Eb.
    + pose proof (processBlock_world s b node w) as Hw.
      destruct (processBlock jsonParse renderPage thrown s b node w)
        as [a w1].
      cbn [snd] in Hw. subst w1.
      set (page := blockEvents jsonParse s b node).
      destruct (IH (S b) (World (browserInstance w) (events w ++ page)))
        as [n Hn].
      cbn [browserInstance events] in Hn.
      assert (Hall : firstn (List.length page + n)
                       (page ++ renderEvents jsonParse s (S b) rest)
                     = page ++ firstn n (renderEvents jsonParse s (S b) rest))
        by (rewrite firstn_app_2; reflexivity).
      assert (Hnone : firstn (List.length page)
                        (page ++ renderEvents jsonParse s (S b) rest)
                      = page)
        by (rewrite <- (Nat.add_0_r (List.length page)), firstn_app_2;
            cbn [firstn]; apply app_nil_r).
      destruct a as [html| | |error].
      * exists (List.length page + n).
        destruct (pass _ _ (S b) rest _) as [[cs w'] e].
        cbn [fst snd] in *. now rewrite Hn, Hall, <- app_assoc.
      * exists (List.length page + n).
        destruct (pass _ _ (S b) rest _) as [[cs w'] e].
        cbn [fst snd] in *. now rewrite Hn, Hall, <- app_assoc.
      * exists (List.length page). cbn [fst snd]. now rewrite Hnone.
      * exists (List.length page). cbn [fst snd]. now rewrite Hnone.
    + destruct (IH b w) as [n Hn]. exists n.
      destruct (pass _ _ b rest w) as [[cs w'] e]. exact Hn.
Qed.

Lemma blockEvents_rank (s : settings) (blockIndex : nat) (node : codeNode) :
  List.length (blockEvents jsonParse s blockIndex node)
  = List.length (blockEvents jsonParse s 0 node).
Proof.
  unfold blockEvents.
  destruct (jsonParse (trim (Mdast.text node))) as [parsedData|parseError];
    [|reflexivity].
  now destruct (prepareChords parsedData (SVGuitarConfig s)) as [[? ?]|e].
Qed.

Section Printing.

Hypothesis prints : errorsPrint renderPage thrown.

(** When the messages have a text, the body of the loop never ends the
    loop: the block is replaced, or kept when errors are not shown
    inline. *)
Lemma processBlock_cases (s : settings) (blockIndex : nat) (node : codeNode)
  (w : world) :
  exists a,
    processBlock jsonParse renderPage thrown s blockIndex node w
    = (a, World (browserInstance w)
                (events w ++ blockEvents jsonParse s blockIndex node)) /\
    match a with
    | Replace html =>
        blockShown jsonParse renderPage thrown s node
                   (List.length (events w)) = Html html
    | Keep =>
        toBoolean (errorInline s) = false /\
        blockShown jsonParse renderPage thrown s node
                   (List.length (events w)) = Code node
    | _ => False
    end.
Proof.
  destruct prints as [Hthrown Hpage].
  pose proof (processBlock_world s blockIndex node w) as Hw.
  destruct (processBlock jsonParse renderPage thrown s blockIndex node w)
    as [a w1] eqn:Ep.
  cbn [snd] in Hw. subst w1. exists a. split; [reflexivity|].
  apply (f_equal fst) in Ep. cbn [fst] in Ep. subst a.
  unfold processBlock, blockShown, renderChordsWithPuppeteer.
  assert (Hcatch : forall error,
             printable (message error) = true ->
             match handleError thrown s error with
             | Replace html =>
                 failed s node (printed (message error)) = Html html
             | Keep =>
                 toBoolean (errorInline s) = false /\
                 failed s node (printed (message error)) = Code node
             | _ => False
             end).
  { intros error Hp. rewrite (handleError_printed s error Hp). unfold failed.
    destruct (toBoolean (errorInline s)); [reflexivity|now split]. }
  destruct (jsonParse (trim (Mdast.text node))) as [parsedData|parseError].
  - destruct (prepareChords parsedData (SVGuitarConfig s))
      as [[chords configs]|e]; [|apply Hcatch, Hthrown].
    destruct (renderPage (List.length (events w))) as [combined|error] eqn:Er;
      [|apply Hcatch, (Hpage _ _ Er)].
    destruct (fixMultipleSvgViewBoxes (Str combined)) as [fixed|e];
      [reflexivity|apply Hcatch, Hthrown].
  - cbn [fst]. rewrite invalidJson_cases.
    destruct (printable (message parseError)).
    + apply (Hcatch (Caught (Str _) Undefined)). reflexivity.
    + apply Hcatch, Hthrown.
Qed.

(** The loop over the blocks goes to its end. *)
Lemma pass_blocks (s : settings) (nodes : list codeNode) :
  forall (blockIndex : nat) (w : world),
    pass (processBlock jsonParse renderPage thrown s) (js "svguitar")
         blockIndex nodes w
    = (chordTree jsonParse renderPage thrown s (List.length (events w)) nodes,
       World (browserInstance w)
             (events w ++ renderEvents jsonParse s blockIndex nodes),
       Done).
Proof.
  induction nodes as [|node rest IH]; intros b w.
  - cbn [pass renderEvents chordTree]. now rewrite app_nil_r, world_eta.
  - cbn [pass renderEvents chordTree]. fold (isBlock (js "svguitar") node).
    destruct (isBlock (js "svguitar") node) eqn:Eb.
    + destruct (processBlock_cases s b node w) as (a & -> & Ha).
      rewrite (IH (S b)). cbn [browserInstance events].
      rewrite length_app, blockEvents_rank, <- app_assoc.
      destruct a as [html| | |error]; try contradiction.
      * now rewrite Ha.
      * destruct Ha as [_ Ha]. now rewrite Ha.
    + now rewrite (IH b w).
Qed.

(** With errorInline, every block is replaced. *)
Lemma chordTree_replaced (s : settings) (nodes : list codeNode) :
  toBoolean (errorInline s) = true ->
  forall asked i node,
    nth_error nodes i = Some node ->
    isBlock (js "svguitar") node = true ->
    exists html,
      nth_error (chordTree jsonParse renderPage thrown s asked nodes) i
      = Some (Html html).
Proof.
  intros Hinline.
  induction nodes as [|n rest IH]; intros asked [|i] node Hn Hb;
    try discriminate; cbn [nth_error chordTree] in *.
  - inversion Hn; subst n. rewrite Hb. cbn [nth_error].
    destruct (processBlock_cases s 0 node (World None (repeat (Close 0) asked)))
      as (a & _ & Ha).
    cbn [events] in Ha. rewrite repeat_length in Ha.
    destruct a as [html| | |error]; try contradiction.
    + exists html. now rewrite Ha.
    + destruct Ha as [Hfalse _]. congruence.
  - destruct (isBlock (js "svguitar") n); cbn [nth_error];
      exact (IH _ i node Hn Hb).
Qed.

End Printing.

(** The loop of the launch failure *)
Lemma pass_launchFailed (nodes : list codeNode) :
  forall (blockIndex : nat) (w : world),
    pass (launchFailedBlock thrown) (js "svguitar") blockIndex nodes w
    = (List.map (fun node =>
                   if isBlock (js "svguitar") node
                   then Html (errorBox
                                (js "Failed to launch Puppeteer browser"))
                   else Code node) nodes,
       w, Done).
Proof.
  induction nodes as [|node rest IH]; intros b w; [reflexivity|].
  cbn [pass List.map]. fold (isBlock (js "svguitar") node).
  unfold launchFailedBlock at 1. rewrite createErrorNode_Str.
  destruct (isBlock (js "svguitar") node); now rewrite IH.
Qed.

Lemma blockCount_collect (name : jsstring) (nodes : list codeNode) :
  forall index,
    List.length (collectFrom name index nodes) = blockCount name nodes.
Proof.
  unfold blockCount.
  induction nodes as [|node rest IH]; intros index; [reflexivity|].
  cbn [collectFrom List.filter]. fold (isBlock name node).
  destruct (isBlock name node); cbn [List.length]; now rewrite IH.
Qed.

(** The block ids of the pages asked: increasing from the rank of the
    first block, below the number of blocks. *)
Lemma renderEvents_ids (s : settings) (nodes : list codeNode) :
  forall blockIndex,
  exists ids,
    List.map blockIdOf (renderEvents jsonParse s blockIndex nodes)
    = List.map Some ids /\
    Forall (fun k => blockIndex <= k
                     < blockIndex + blockCount (js "svguitar") nodes) ids /\
    NoDup ids.
Proof.
  induction nodes as [|node rest IH]; intros b.
  - exists []. repeat constructor.
  - cbn [renderEvents]. unfold blockCount. cbn [List.filter].
    fold (isBlock (js "svguitar") node).
    destruct (isBlock (js "svguitar") node).
    + destruct (IH (S b)) as (ids & Hids & Hrange & Hnd).
      fold (blockCount (js "svguitar") rest). cbn [List.length].
      assert (Hrange' : Forall (fun k => b <= k
                          < b + S (blockCount (js "svguitar") rest)) ids).
      { eapply Forall_impl; [|exact Hrange]. cbn beta. intros k Hk. lia. }
      unfold blockEvents.
      destruct (jsonParse (trim (Mdast.text node))) as [parsedData|parseError];
        [|now exists ids].
      destruct (prepareChords parsedData (SVGuitarConfig s))
        as [[chords configs]|e]; [|now exists ids].
      exists (b :: ids). cbn [app List.map blockIdOf]. rewrite Hids.
      split; [reflexivity|]. split.
      * constructor; [lia|exact Hrange'].
      * constructor; [|exact Hnd].
        intros Hin. rewrite Forall_forall in Hrange.
        specialize (Hrange b Hin). lia.
    + destruct (IH b) as (ids & Hids & Hrange & Hnd).
      now exists ids.
Qed.

Lemma renderEvents_no_launch (s : settings) (nodes : list codeNode) :
  forall blockIndex,
    existsb isLaunch (renderEvents jsonParse s blockIndex nodes) = false.
Proof.
  induction nodes as [|node rest IH]; intros b; [reflexivity|].
  cbn [renderEvents]. destruct (isBlock (js "svguitar") node); [|apply IH].
  rewrite existsb_app, IH, orb_false_r. unfold blockEvents.
  destruct (jsonParse (trim (Mdast.text node))) as [parsedData|parseError];
    [|reflexivity].
  now destruct (prepareChords parsedData (SVGuitarConfig s)) as [[? ?]|e].
Qed.

Lemma finish_cases (s : settings) (children : list child) (w : world)
  (b : browser) :
  browserInstance w = Some b ->
  finish close s children w
  = if toBoolean (keepAlive s) then (children, w, Fulfilled)
    else match close (List.length (events w)) with
         | None => (children, World None (events w ++ [Close b]), Fulfilled)
         | Some error =>
             (children, World (Some b) (events w ++ [Close b]),
              Rejected error)
         end.
Proof.
  intros Hb. unfold finish, closeBrowser, log. rewrite Hb.
  destruct (toBoolean (keepAlive s)); [reflexivity|].
  now destruct (close (List.length (events w))).
Qed.

(** The run when a browser is there or is launched: the loop, then the
    close of the browser if the loop went to its end. *)
Lemma transformer_loop (s : settings) (nodes : list codeNode) (w : world) :
  blockCount (js "svguitar") nodes <> 0 ->
  browserReady launch w ->
  transformer jsonParse launch renderPage close thrown s nodes w
  = match pass (processBlock jsonParse renderPage thrown s) (js "svguitar")
               0 nodes
               (World (Some (browserOf w)) (events w ++ launchEvents s w))
    with
    | (children, w', Done) => finish close s children w'
    | r => settle r
    end.
Proof.
  intros Hcount Hlaunch.
  unfold transformer, collect. rewrite blockCount_collect.
  destruct (Nat.eqb_spec (blockCount (js "svguitar") nodes) 0) as [E|_];
    [contradiction|].
  fold (collect (js "svguitar") nodes).
  unfold browserReady in Hlaunch.
  unfold browserOf, launchEvents, finish in *.
  destruct (browserInstance w) as [b|] eqn:Eb.
  - rewrite forEachBlock_pass, app_nil_r.
    replace (World (Some b) (events w)) with w
      by (rewrite <- Eb; symmetry; apply world_eta).
    reflexivity.
  - rewrite (Hlaunch eq_refl). cbv beta iota zeta.
    now rewrite forEachBlock_pass.
Qed.

Lemma transformer_started (s : settings) (nodes : list codeNode) (w : world) :
  errorsPrint renderPage thrown ->
  blockCount (js "svguitar") nodes <> 0 ->
  browserReady launch w ->
  transformer jsonParse launch renderPage close thrown s nodes w
  = finish close s
      (chordTree jsonParse renderPage thrown s
         (List.length (events w ++ launchEvents s w)) nodes)
      (World (Some (browserOf w))
             (events w ++ launchEvents s w
                ++ renderEvents jsonParse s 0 nodes)).
Proof.
  intros Hprints Hcount Hlaunch.
  rewrite (@transformer_loop s nodes w Hcount Hlaunch).
  rewrite (pass_blocks Hprints). cbn [browserInstance events].
  now rewrite <- app_assoc.
Qed.

Lemma transformer_result (s : settings) (nodes : list codeNode) (w : world) :
  errorsPrint renderPage thrown ->
  blockCount (js "svguitar") nodes <> 0 ->
  browserReady launch w ->
  let asked :=
    events w ++ launchEvents s w ++ renderEvents jsonParse s 0 nodes in
  let children :=
    chordTree jsonParse renderPage thrown s
      (List.length (events w ++ launchEvents s w)) nodes in
  transformer jsonParse launch renderPage close thrown s nodes w
  = if toBoolean (keepAlive s)
    then (children, World (Some (browserOf w)) asked, Fulfilled)
    else match close (List.length asked) with
         | None =>
             (children, World None (asked ++ [Close (browserOf w)]),
              Fulfilled)
         | Some error =>
             (children,
              World (Some (browserOf w)) (asked ++ [Close (browserOf w)]),
              Rejected error)
         end.
Proof.
  intros Hprints E Hready asked children. subst asked children.
  rewrite (@transformer_started s nodes w Hprints E Hready).
  now rewrite (@finish_cases s _
                 (World (Some (browserOf w))
                    (events w ++ launchEvents s w
                       ++ renderEvents jsonParse s 0 nodes))
                 (browserOf w) eq_refl).
Qed.

(** The run without a block *)
Lemma transformer_no_block (s : settings) (nodes : list codeNode) (w : world) :
  blockCount (js "svguitar") nodes = 0 ->
  transformer jsonParse launch renderPage close thrown s nodes w
  = (List.map Code nodes, w, Fulfilled).
Proof.
  intros H. unfold transformer, collect.
  now rewrite blockCount_collect, H.
Qed.

(** The run when the launch fails *)
Lemma transformer_launch_failed (s : settings) (nodes : list codeNode)
  (w : world) (error : caught) :
  blockCount (js "svguitar") nodes <> 0 ->
  browserInstance w = None ->
  launch (List.length (events w)) = LaunchFailed error ->
  transformer jsonParse launch renderPage close thrown s nodes w
  = (if toBoolean (skipOnMissing s) || negb (toBoolean (errorInline s))
     then List.map Code nodes
     else List.map (fun node =>
                      if isBlock (js "svguitar") node
                      then Html (errorBox
                                   (js "Failed to launch Puppeteer browser"))
                      else Code node) nodes,
     log (Launch (launchOptions s)) w, Fulfilled).
Proof.
  intros Hcount Hb Hl. unfold transformer, collect.
  rewrite blockCount_collect.
  destruct (Nat.eqb_spec (blockCount (js "svguitar") nodes) 0) as [E|_];
    [contradiction|].
  fold (collect (js "svguitar") nodes). rewrite Hb, Hl.
  destruct (toBoolean (skipOnMissing s)); [reflexivity|].
  destruct (toBoolean (errorInline s)); [|reflexivity].
  cbn [orb negb]. now rewrite forEachBlock_pass, pass_launchFailed.
Qed.

Lemma finish_children (s : settings) (children : list child) (w : world) :
  fst (fst (finish close s children w)) = children.
Proof.
  unfold finish. destruct (toBoolean (keepAlive s)); [reflexivity|].
  now destruct (closeBrowser close w) as [w' [error|]].
Qed.

Lemma no_block_at (name : jsstring) (nodes : list codeNode) :
  blockCount name nodes = 0 ->
  forall i node, nth_error nodes i = Some node -> isBlock name node = false.
Proof.
  unfold blockCount.
  induction nodes as [|n rest IH]; intros H [|i] node Hn;
    try discriminate; cbn [List.filter nth_error] in *.
  - inversion Hn; subst n.
    destruct (isBlock name node); [discriminate|reflexivity].
  - destruct (isBlock name n); [discriminate|]. now apply (IH H i).
Qed.

(** How a run starts: without a block, with a failed launch, or with a
    browser *)
Lemma transformer_start (s : settings) (nodes : list codeNode) (w : world) :
  blockCount (js "svguitar") nodes = 0 \/
  (blockCount (js "svguitar") nodes <> 0 /\
   browserInstance w = None /\
   exists error, launch (List.length (events w)) = LaunchFailed error) \/
  (blockCount (js "svguitar") nodes <> 0 /\ browserReady launch w).
Proof.
  destruct (Nat.eq_dec (blockCount (js "svguitar") nodes) 0) as [E|E];
    [now left|right].
  unfold browserReady.
  destruct (browserInstance w) as [b|]; [right; split; [exact E|discriminate]|].
  destruct (launch (List.length (events w))) as [|error] eqn:El.
  - right. now split.
  - left. split; [exact E|]. split; [reflexivity|]. now exists error.
Qed.

(** What every run keeps *)
Lemma transformer_children (s : settings) (nodes : list codeNode) (w : world) :
  let children :=
    fst (fst (transformer jsonParse launch renderPage close thrown s
                          nodes w)) in
  List.length children = List.length nodes /\
  forall i node,
    nth_error nodes i = Some node ->
    (isBlock (js "svguitar") node = false ->
     nth_error children i = Some (Code node)) /\
    (nth_error children i = Some (Code node) \/
     exists html, nth_error children i = Some (Html html)).
Proof.
  assert (Hmap : forall c : codeNode -> child,
             (forall node, c node = Code node \/
                           (isBlock (js "svguitar") node = true /\
                            exists html, c node = Html html)) ->
             List.length (List.map c nodes) = List.length nodes /\
             forall i node,
               nth_error nodes i = Some node ->
               (isBlock (js "svguitar") node = false ->
                nth_error (List.map c nodes) i = Some (Code node)) /\
               (nth_error (List.map c nodes) i = Some (Code node) \/
                exists html, nth_error (List.map c nodes) i
                             = Some (Html html))).
  { intros c Hc. split; [apply length_map|].
    intros i node Hn. rewrite nth_error_map, Hn. cbn [option_map].
    destruct (Hc node) as [->|(Hb & html & ->)].
    - split; [reflexivity|now left].
    - split; [intros H; rewrite H in Hb; discriminate|right; now exists html]. }
  destruct (transformer_start s nodes w)
    as [E|[(E & Hb & error & El)|(E & Hready)]].
  - rewrite (transformer_no_block s nodes w E). cbn [fst].
    apply Hmap. now left.
  - rewrite (transformer_launch_failed s nodes w E Hb El). cbn [fst].
    destruct (toBoolean (skipOnMissing s) || negb (toBoolean (errorInline s))).
    + apply Hmap. now left.
    + apply Hmap. intros node.
      destruct (isBlock (js "svguitar") node); [right|now left].
      split; [reflexivity|]. now eexists.
  - rewrite (@transformer_loop s nodes w E Hready).
    pose proof (@pass_frame world
                  (processBlock jsonParse renderPage thrown s)
                  (js "svguitar") nodes 0
                  (World (Some (browserOf w)) (events w ++ launchEvents s w)))
      as Hframe.
    destruct (pass _ _ 0 nodes _) as [[children w'] e].
    specialize (Hframe children w' e eq_refl).
    destruct e; [rewrite finish_children|cbn [settle fst]|cbn [settle fst]];
      exact Hframe.
Qed.

(** What every run asks, once it has its browser: the launch, pages
    of the blocks in their order, the close. *)
Lemma transformer_asks (s : settings) (nodes : list codeNode) (w : world) :
  blockCount (js "svguitar") nodes <> 0 ->
  browserReady launch w ->
  let w' :=
    snd (fst (transformer jsonParse launch renderPage close thrown s
                          nodes w)) in
  (exists n closing,
      events w'
      = events w ++ launchEvents s w
          ++ firstn n (renderEvents jsonParse s 0 nodes) ++ closing /\
      existsb isLaunch closing = false) /\
  (toBoolean (keepAlive s) = true ->
   browserInstance w' = Some (browserOf w)).
Proof.
  intros E Hready w'. subst w'.
  rewrite (@transformer_loop s nodes w E Hready).
  destruct (pass_world s nodes 0
              (World (Some (browserOf w)) (events w ++ launchEvents s w)))
    as [n Hn].
  destruct (pass _ _ 0 nodes _) as [[children w1] e].
  cbn [fst snd browserInstance events] in Hn. subst w1.
  rewrite <- app_assoc.
  destruct e as [| |error].
  - rewrite (@finish_cases s children (World (Some (browserOf w)) _)
               (browserOf w) eq_refl).
    cbn [events]. destruct (toBoolean (keepAlive s)).
    + cbn [fst snd events browserInstance]. split; [|reflexivity].
      exists n, []. now rewrite app_nil_r.
    + split; [|discriminate].
      exists n, [Close (browserOf w)].
      destruct (close _); cbn [fst snd events];
        now rewrite <- !app_assoc.
  - cbn [settle fst snd events browserInstance]. split; [|reflexivity].
    exists n, []. now rewrite app_nil_r.
  - cbn [settle fst snd events browserInstance]. split; [|reflexivity].
    exists n, []. now rewrite app_nil_r.
Qed.

End Run.

End SvguitarFacts.

Module SingleFacts.

Import Number RegExp Js Mdast Statements SvguitarSingle.
Import RemarkLilypond RemarkSvguitar.
Import LoopFacts SvguitarFacts.

Lemma single_world_eta (w : world) :
  World (browserInstance w) (events w) = w.
Proof. now destruct w. Qed.

Section Run.

Variable jsonParse : jsstring -> SvguitarTransformer.parsed.
Variable launch : nat -> SvguitarTransformer.launched.
Variable renderPage : nat -> SvguitarTransformer.page.
Variable thrown : error -> caught.

Lemma single_handleError (s : settings) (error : caught) :
  printable (message error) = true ->
  handleError thrown s error
  = if toBoolean (errorInline s)
    then Replace (errorBox (js "SVGuitar rendering error: "
                              ++ printed (message error)))
    else Keep.
Proof.
  intros H. unfold handleError, createErrorNode.
  now rewrite (printable_printed _ H), createErrorNode_Str.
Qed.

Lemma single_invalidJson (parseError : caught) :
  invalidJson thrown parseError
  = if printable (message parseError)
    then Caught (Str (js "Invalid JSON in SVGuitar block: "
                        ++ printed (message parseError))) Undefined
    else thrown TypeError.
Proof.
  unfold invalidJson, printable, printed.
  now destruct (toStringValue (message parseError)) as [text|[]].
Qed.

(** Whatever the body of the loop does with a block, the browser stays
    and the one event it can add is the page of the block. *)
Lemma single_processBlock_world (s : settings) (blockIndex : nat)
  (node : codeNode) (w : world) :
  snd (processBlock jsonParse renderPage thrown s blockIndex node w)
  = World (browserInstance w) (events w ++ singleEvents jsonParse node).
Proof.
  unfold processBlock, singleEvents, renderChordWithPuppeteer, log.
  destruct (jsonParse (trim (Mdast.text node))) as [chordData|parseError].
  - destruct (renderPage (List.length (events w))) as [svgContent|error];
      [|reflexivity].
    now destruct (fixSvgViewBox (Str svgContent)).
  - cbn [snd]. now rewrite app_nil_r, single_world_eta.
Qed.

Lemma singleEvents_no_launch (node : codeNode) :
  existsb (fun e => match e with Launch _ => true | Render _ => false end)
          (singleEvents jsonParse node) = false.
Proof.
  unfold singleEvents. now destruct (jsonParse (trim (Mdast.text node))).
Qed.

Lemma single_pass_world (s : settings) (nodes : list codeNode) :
  forall (blockIndex : nat) (w : world),
  exists more,
    snd (fst (pass (processBlock jsonParse renderPage thrown s)
                   (js "svguitar") blockIndex nodes w))
    = World (browserInstance w) (events w ++ more) /\
    existsb (fun e => match e with Launch _ => true | Render _ => false end)
            more = false.
Proof.
  induction nodes as [|node rest IH]; intros b w.
  - exists []. cbn. now rewrite app_nil_r, single_world_eta.
  - cbn [pass]. fold (isBlock (js "svguitar") node).
    destruct (isBlock (js "svguitar") node) eqn:Eb.
    + pose proof (single_processBlock_world s b node w) as Hw.
      destruct (processBlock jsonParse renderPage thrown s b node w)
        as [a w1].
      cbn [snd] in Hw. subst w1.
      destruct (IH (S b) (World (browserInstance w)
                            (events w ++ singleEvents jsonParse node)))
        as (more & Hmore & Hno).
      cbn [browserInstance events] in Hmore.
      destruct a as [html| | |error].
      * exists (singleEvents jsonParse node ++ more).
        destruct (pass _ _ (S b) rest _) as [[cs w'] e].
        cbn [fst snd] in *. rewrite Hmore, <- app_assoc.
        split; [reflexivity|].
        now rewrite existsb_app, singleEvents_no_launch, Hno.
      * exists (singleEvents jsonParse node ++ more).
        destruct (pass _ _ (S b) rest _) as [[cs w'] e].
        cbn [fst snd] in *. rewrite Hmore, <- app_assoc.
        split; [reflexivity|].
        now rewrite existsb_app, singleEvents_no_launch, Hno.
      * exists (singleEvents jsonParse node). cbn [fst snd].
        split; [reflexivity|apply singleEvents_no_launch].
      * exists (singleEvents jsonParse node). cbn [fst snd].
        split; [reflexivity|apply singleEvents_no_launch].
    + destruct (IH b w) as (more & Hmore & Hno). exists more.
      destruct (pass _ _ b rest w) as [[cs w'] e]. now split.
Qed.

Section Printing.

Hypothesis prints : errorsPrint renderPage thrown.

(** When the messages have a text, the body of the loop never ends the
    loop. *)
Lemma single_processBlock (s : settings) (blockIndex : nat) (node : codeNode)
  (w : world) :
  exists a,
    processBlock jsonParse renderPage thrown s blockIndex node w
    = (a, World (browserInstance w)
                (events w ++ singleEvents jsonParse node)) /\
    match a with
    | Replace html =>
        singleShown jsonParse renderPage thrown s node
                    (List.length (events w)) = Html html
    | Keep =>
        singleShown jsonParse renderPage thrown s node
                    (List.length (events w)) = Code node
    | _ => False
    end.
Proof.
  destruct prints as [Hthrown Hpage].
  pose proof (single_processBlock_world s blockIndex node w) as Hw.
  destruct (processBlock jsonParse renderPage thrown s blockIndex node w)
    as [a w1] eqn:Ep.
  cbn [snd] in Hw. subst w1. exists a. split; [reflexivity|].
  apply (f_equal fst) in Ep. cbn [fst] in Ep. subst a.
  unfold processBlock, singleShown, renderChordWithPuppeteer.
  assert (Hcatch : forall error,
             printable (message error) = true ->
             match handleError thrown s error with
             | Replace html =>
                 singleFailed s node (printed (message error)) = Html html
             | Keep =>
                 singleFailed s node (printed (message error)) = Code node
             | _ => False
             end).
  { intros error Hp. rewrite (single_handleError s error Hp).
    unfold singleFailed. now destruct (toBoolean (errorInline s)). }
  destruct (jsonParse (trim (Mdast.text node))) as [chordData|parseError].
  - destruct (renderPage (List.length (events w))) as [svgContent|error]
      eqn:Er; [|apply Hcatch, (Hpage _ _ Er)].
    destruct (fixSvgViewBox (Str svgContent)) as [fixed|e];
      [reflexivity|apply Hcatch, Hthrown].
  - cbn [fst]. rewrite single_invalidJson.
    destruct (printable (message parseError)).
    + apply (Hcatch (Caught (Str _) Undefined)). reflexivity.
    + apply Hcatch, Hthrown.
Qed.

Lemma single_pass (s : settings) (nodes : list codeNode) :
  forall (blockIndex : nat) (w : world),
    pass (processBlock jsonParse renderPage thrown s) (js "svguitar")
         blockIndex nodes w
    = (singleTree jsonParse renderPage thrown s (List.length (events w))
                  nodes,
       World (browserInstance w) (events w ++ singlePages jsonParse nodes),
       Done).
Proof.
  induction nodes as [|node rest IH]; intros b w.
  - cbn [pass singleTree]. unfold singlePages.
    cbn [List.filter flat_map]. now rewrite app_nil_r, single_world_eta.
  - cbn [pass singleTree]. unfold singlePages. cbn [List.filter].
    fold (isBlock (js "svguitar") node).
    destruct (isBlock (js "svguitar") node) eqn:Eb.
    + destruct (single_processBlock s b node w) as (a & -> & Ha).
      rewrite (IH (S b)). cbn [browserInstance events flat_map].
      fold (singlePages jsonParse rest).
      rewrite length_app, <- app_assoc.
      destruct a as [html| | |error]; try contradiction; now rewrite Ha.
    + rewrite (IH b). reflexivity.
Qed.

End Printing.

Lemma single_launchFailed (nodes : list codeNode) :
  forall (blockIndex : nat) (w : world),
    pass (launchFailedBlock thrown) (js "svguitar") blockIndex nodes w
    = (List.map (fun node =>
                   if isBlock (js "svguitar") node
                   then Html (errorBox
                                (js "Failed to launch Puppeteer browser"))
                   else Code node) nodes,
       w, Done).
Proof.
  induction nodes as [|node rest IH]; intros b w; [reflexivity|].
  cbn [pass List.map]. fold (isBlock (js "svguitar") node).
  unfold launchFailedBlock at 1. unfold createErrorNode.
  rewrite createErrorNode_Str.
  destruct (isBlock (js "svguitar") node); now rewrite IH.
Qed.

(** The three ways of a run *)
Lemma single_no_block (s : settings) (nodes : list codeNode) (w : world) :
  blockCount (js "svguitar") nodes = 0 ->
  transformer jsonParse launch renderPage thrown s nodes w
  = (List.map Code nodes, w, Fulfilled).
Proof.
  intros H. unfold transformer, collect.
  now rewrite blockCount_collect, H.
Qed.

Lemma single_launch_failed (s : settings) (nodes : list codeNode)
  (w : world) (error : caught) :
  blockCount (js "svguitar") nodes <> 0 ->
  browserInstance w = None ->
  launch (List.length (events w)) = SvguitarTransformer.LaunchFailed error ->
  transformer jsonParse launch renderPage thrown s nodes w
  = (if toBoolean (skipOnMissing s) || negb (toBoolean (errorInline s))
     then List.map Code nodes
     else List.map (fun node =>
                      if isBlock (js "svguitar") node
                      then Html (errorBox
                                   (js "Failed to launch Puppeteer browser"))
                      else Code node) nodes,
     World None (events w ++ [Launch (launchOptions s)]), Fulfilled).
Proof.
  intros Hcount Hb Hl. unfold transformer, collect.
  rewrite blockCount_collect.
  destruct (Nat.eqb_spec (blockCount (js "svguitar") nodes) 0) as [E|_];
    [contradiction|].
  fold (collect (js "svguitar") nodes). rewrite Hb, Hl. unfold log.
  rewrite Hb.
  destruct (toBoolean (skipOnMissing s)); [reflexivity|].
  destruct (toBoolean (errorInline s)); [|reflexivity].
  cbn [orb negb]. now rewrite forEachBlock_pass, single_launchFailed.
Qed.

(** The run when a browser is there or is launched: the loop *)
Lemma single_loop (s : settings) (nodes : list codeNode) (w : world) :
  blockCount (js "svguitar") nodes <> 0 ->
  singleReady launch w ->
  transformer jsonParse launch renderPage thrown s nodes w
  = settle (pass (processBlock jsonParse renderPage thrown s)
                 (js "svguitar") 0 nodes
                 (World (Some (singleBrowser w))
                        (events w ++ singleLaunch s w))).
Proof.
  intros Hcount Hready. unfold transformer, collect.
  rewrite blockCount_collect.
  destruct (Nat.eqb_spec (blockCount (js "svguitar") nodes) 0) as [E|_];
    [contradiction|].
  fold (collect (js "svguitar") nodes).
  unfold singleReady in Hready. unfold singleBrowser, singleLaunch.
  destruct (browserInstance w) as [b|] eqn:Eb.
  - rewrite forEachBlock_pass, app_nil_r.
    replace (World (Some b) (events w)) with w
      by (rewrite <- Eb; symmetry; apply single_world_eta).
    reflexivity.
  - rewrite (Hready eq_refl). cbv beta iota zeta.
    now rewrite forEachBlock_pass.
Qed.

Lemma single_started (s : settings) (nodes : list codeNode) (w : world) :
  errorsPrint renderPage thrown ->
  blockCount (js "svguitar") nodes <> 0 ->
  singleReady launch w ->
  transformer jsonParse launch renderPage thrown s nodes w
  = (singleTree jsonParse renderPage thrown s
       (List.length (events w ++ singleLaunch s w)) nodes,
     World (Some (singleBrowser w))
           (events w ++ singleLaunch s w ++ singlePages jsonParse nodes),
     Fulfilled).
Proof.
  intros Hprints Hcount Hready.
  rewrite (@single_loop s nodes w Hcount Hready), (single_pass Hprints).
  cbn [settle browserInstance events]. now rewrite <- app_assoc.
Qed.

Lemma single_start (s : settings) (nodes : list codeNode) (w : world) :
  blockCount (js "svguitar") nodes = 0 \/
  (blockCount (js "svguitar") nodes <> 0 /\
   browserInstance w = None /\
   exists error,
     launch (List.length (events w))
     = SvguitarTransformer.LaunchFailed error) \/
  (blockCount (js "svguitar") nodes <> 0 /\ singleReady launch w).
Proof.
  destruct (Nat.eq_dec (blockCount (js "svguitar") nodes) 0) as [E|E];
    [now left|right].
  unfold singleReady.
  destruct (browserInstance w) as [b|]; [right; split; [exact E|discriminate]|].
  destruct (launch (List.length (events w))) as [|error] eqn:El.
  - right. now split.
  - left. split; [exact E|]. split; [reflexivity|]. now exists error.
Qed.

End Run.

End SingleFacts.

(* ===================================================================== *)
(** ** The claims *)
(* ===================================================================== *)

Module Claims.

Import Number RegExp Js Statements.
Import RegExpFacts SearchFacts NumberFacts ViewBoxFacts BatchFacts CropFacts
       EscapeFacts.
Import TagFacts EstimateFacts.
Import RemarkSvguitar RemarkLilypond.

(** C1. Where the first viewBox attribute of a fragment holds four
    numbers x, y, w, h (the first four pieces of its value between
    blanks) and h is not greater than 0, fixSvgViewBox writes the
    attribute again as x, y, w and w * 1.2 and leaves the text before and
    after the attribute as it is.  In particular the viewBox 0 0 300 0
    becomes 0 0 300 360. *)
Theorem fixSvgViewBox_synthesizes_height :
  (forall pre box post x y w h rest,
      firstAt viewBoxOpen pre = true ->
      ~ In dquote box ->
      split (ch " ") box = x :: y :: w :: h :: rest ->
      gt (parseFloat h) (of_Z 0) = false ->
      fixSvgViewBox (Str (pre ++ viewBoxOpen ++ box ++ dquote :: post))
      = Normal (pre ++ viewBoxOpen ++
                Number.toString (parseFloat x) ++ js " " ++
                Number.toString (parseFloat y) ++ js " " ++
                Number.toString (parseFloat w) ++ js " " ++
                Number.toString (mul (parseFloat w) aspectRatio) ++
                dquote :: post)) /\
  fixSvgViewBox (Str (jsq "<svg viewBox='0 0 300 0'>"))
  = Normal (jsq "<svg viewBox='0 0 300 360'>").
Proof.
  split.
  - intros pre box post x y w h rest Hpre Hq Hsplit Hh.
    rewrite fixSvgViewBox_Str.
    erewrite fixSvgTag_degenerate by eassumption.
    unfold synthesized. now rewrite <- !app_assoc.
  - vm_compute. reflexivity.
Qed.

Lemma fixSvgViewBox_synthesizes_height_witness :
  firstAt viewBoxOpen (js "<svg ") = true /\
  ~ In dquote (js "0 0 200 -1") /\
  split (ch " ") (js "0 0 200 -1") = [js "0"; js "0"; js "200"; js "-1"] /\
  gt (parseFloat (js "-1")) (of_Z 0) = false /\
  fixSvgViewBox (Str (js "<svg " ++ viewBoxOpen ++ js "0 0 200 -1" ++ dquote :: js ">"))
  = Normal (js "<svg " ++ viewBoxOpen ++
            Number.toString (parseFloat (js "0")) ++ js " " ++
            Number.toString (parseFloat (js "0")) ++ js " " ++
            Number.toString (parseFloat (js "200")) ++ js " " ++
            Number.toString (mul (parseFloat (js "200")) aspectRatio) ++
            dquote :: js ">").
Proof.
  assert (H1 : firstAt viewBoxOpen (js "<svg ") = true) by reflexivity.
  assert (H2 : ~ In dquote (js "0 0 200 -1")) by plain.
  assert (H3 : split (ch " ") (js "0 0 200 -1")
               = [js "0"; js "0"; js "200"; js "-1"]) by reflexivity.
  assert (H4 : gt (parseFloat (js "-1")) (of_Z 0) = false) by reflexivity.
  refine (conj H1 (conj H2 (conj H3 (conj H4 _)))).
  exact (proj1 fixSvgViewBox_synthesizes_height (js "<svg ") (js "0 0 200 -1")
           (js ">") (js "0") (js "0") (js "200") (js "-1") [] H1 H2 H3 H4).
Defined.

(** C2. In a container made of pieces of text, each one followed by an
    opening svg tag, fixMultipleSvgViewBoxes repairs every tag on its own
    and keeps the text between the tags: a tag whose viewBox height is
    not greater than 0 gets the height of its own width * 1.2, a tag whose
    viewBox height is positive (or that has no viewBox) stays as it is.
    In particular, of the siblings with the viewBoxes 0 0 200 0 and
    0 0 100 40 only the first is rewritten, to the height 240. *)
Theorem fixMultipleSvgViewBoxes_repairs_each_tag :
  (forall segs tail,
      forallb wellFormed segs = true ->
      includes svgOpen tail = false ->
      exists tags,
        Forall2 (fun g tag' => repairedTag (openingTag (attrs g)) tag')
                segs tags /\
        fixMultipleSvgViewBoxes (Str (container segs tail))
        = Normal (rebuilt segs tags tail)) /\
  fixMultipleSvgViewBoxes
    (Str (jsq "<div><svg viewBox='0 0 200 0'></svg><svg viewBox='0 0 100 40'></svg></div>"))
  = Normal (jsq "<div><svg viewBox='0 0 200 240'></svg><svg viewBox='0 0 100 40'></svg></div>").
Proof.
  split.
  - intros segs tail Hwf Htail.
    assert (Hfuel : List.length segs <= S (List.length (container segs tail)))
      by (pose proof (container_length segs tail); lia).
    destruct (replaceWithFrom_container segs tail Hwf Htail Hfuel)
      as (tags & Htags & Hout).
    exists tags. split; [|exact Hout].
    clear Hout Hfuel Hwf.
    induction Htags as [|g tag' segs' tags' Hg _ IH]; [constructor|].
    constructor; [now apply fixSvgTag_repairedTag|assumption].
  - vm_compute. reflexivity.
Qed.

Lemma fixMultipleSvgViewBoxes_repairs_each_tag_witness :
  let segs := [Segment (js "<div>") (jsq " viewBox='0 0 200 0'");
               Segment (js "</svg>") (jsq " viewBox='0 0 100 40'")] in
  let tail := js "</svg></div>" in
  forallb wellFormed segs = true /\
  includes svgOpen tail = false /\
  exists tags,
    Forall2 (fun g tag' => repairedTag (openingTag (attrs g)) tag') segs tags /\
    fixMultipleSvgViewBoxes (Str (container segs tail))
    = Normal (rebuilt segs tags tail).
Proof.
  intros segs tail.
  assert (H1 : forallb wellFormed segs = true) by reflexivity.
  assert (H2 : includes svgOpen tail = false) by reflexivity.
  refine (conj H1 (conj H2 _)).
  exact (proj1 fixMultipleSvgViewBoxes_repairs_each_tag segs tail H1 H2).
Defined.

(** C3 (the code departs from the claim).  On a viewBox with fewer than
    three pieces the repair is not idempotent: the first pass writes the
    missing pieces as the text undefined, the second pass reads them back
    as NaN.  Both versions of the repair do so. *)
Theorem fixSvgViewBox_short_viewBox_not_idempotent :
  fixSvgViewBox (Str (jsq "<svg viewBox='5'>"))
  = Normal (jsq "<svg viewBox='5 undefined undefined NaN'>") /\
  fixSvgViewBox (Str (jsq "<svg viewBox='5 undefined undefined NaN'>"))
  = Normal (jsq "<svg viewBox='5 NaN NaN NaN'>") /\
  fixMultipleSvgViewBoxes (Str (jsq "<svg viewBox='5'>"))
  = Normal (jsq "<svg viewBox='5 undefined undefined NaN'>") /\
  fixMultipleSvgViewBoxes (Str (jsq "<svg viewBox='5 undefined undefined NaN'>"))
  = Normal (jsq "<svg viewBox='5 NaN NaN NaN'>").
Proof. repeat split; vm_compute; reflexivity. Qed.

(** C4. Where the first viewBox attribute of a fragment holds four
    numbers and the height is greater than 0, fixSvgViewBox returns the
    fragment as it is.  In particular the viewBox 0 0 300 150 is not
    rewritten. *)
Theorem fixSvgViewBox_keeps_positive_height :
  (forall pre box post x y w h rest,
      firstAt viewBoxOpen pre = true ->
      ~ In dquote box ->
      split (ch " ") box = x :: y :: w :: h :: rest ->
      gt (parseFloat h) (of_Z 0) = true ->
      fixSvgViewBox (Str (pre ++ viewBoxOpen ++ box ++ dquote :: post))
      = Normal (pre ++ viewBoxOpen ++ box ++ dquote :: post)) /\
  fixSvgViewBox (Str (jsq "<svg viewBox='0 0 300 150'>"))
  = Normal (jsq "<svg viewBox='0 0 300 150'>").
Proof.
  split.
  - intros pre box post x y w h rest Hpre Hq Hsplit Hh.
    rewrite fixSvgViewBox_Str. eapply fixSvgTag_positive; eassumption.
  - vm_compute. reflexivity.
Qed.

Lemma fixSvgViewBox_keeps_positive_height_witness :
  firstAt viewBoxOpen (js "<svg ") = true /\
  ~ In dquote (js "0 0 400 2.5e1") /\
  split (ch " ") (js "0 0 400 2.5e1") = [js "0"; js "0"; js "400"; js "2.5e1"] /\
  gt (parseFloat (js "2.5e1")) (of_Z 0) = true /\
  fixSvgViewBox
    (Str (js "<svg " ++ viewBoxOpen ++ js "0 0 400 2.5e1" ++ dquote :: js ">"))
  = Normal (js "<svg " ++ viewBoxOpen ++ js "0 0 400 2.5e1" ++ dquote :: js ">").
Proof.
  assert (H1 : firstAt viewBoxOpen (js "<svg ") = true) by reflexivity.
  assert (H2 : ~ In dquote (js "0 0 400 2.5e1")) by plain.
  assert (H3 : split (ch " ") (js "0 0 400 2.5e1")
               = [js "0"; js "0"; js "400"; js "2.5e1"]) by reflexivity.
  assert (H4 : gt (parseFloat (js "2.5e1")) (of_Z 0) = true) by reflexivity.
  refine (conj H1 (conj H2 (conj H3 (conj H4 _)))).
  exact (proj1 fixSvgViewBox_keeps_positive_height (js "<svg ")
           (js "0 0 400 2.5e1") (js ">") (js "0") (js "0") (js "400")
           (js "2.5e1") [] H1 H2 H3 H4).
Defined.

(** C5. A fragment in which no viewBox attribute opens is returned as it
    is, as a normal result, by both versions of the repair. *)
Theorem viewBox_repair_without_viewBox (s : jsstring) :
  includes viewBoxOpen s = false ->
  fixSvgViewBox (Str s) = Normal s /\
  fixMultipleSvgViewBoxes (Str s) = Normal s.
Proof.
  intros H. split.
  - rewrite fixSvgViewBox_Str. now apply fixSvgTag_absent.
  - now apply fixMultiple_absent.
Qed.

Lemma viewBox_repair_without_viewBox_witness :
  let s := jsq "<div><svg width='120' height='80'><path d='M0 0'/></svg></div>" in
  includes viewBoxOpen s = false /\
  fixSvgViewBox (Str s) = Normal s /\
  fixMultipleSvgViewBoxes (Str s) = Normal s.
Proof.
  intros s.
  assert (H : includes viewBoxOpen s = false) by reflexivity.
  exact (conj H (viewBox_repair_without_viewBox s H)).
Defined.

(** C6 (the code departs from the claim).  The removal of the
    attribution text takes a text element without any marker along with
    the marked one that follows it: the lazy run after the opening tag
    passes over the end of the first element. *)
Theorem compactSvg_removes_unmarked_text :
  compactSvg (Str (jsq "<svg><text>Title</text><text>LilyPond</text></svg>"))
  = Normal (jsq "<svg></svg>") /\
  removeAttribution (jsq "<svg><text>Title</text><text>LilyPond</text></svg>")
  = jsq "<svg></svg>".
Proof. split; vm_compute; reflexivity. Qed.

(** C7, as stated, fails: a fragment with a line end point, a hint, and
    no translate transform gets no estimate, and is returned as it is. *)
Lemma line_hint_gives_no_estimate :
  let s := jsq "<svg viewBox='0 0 100 0'><line x2='150'></svg>" in
  hintPresent s /\ ~ estimateProduced s /\ compactSvg (Str s) = Normal s.
Proof.
  intros s. split; [|split].
  - right. left. vm_compute. discriminate.
  - intros (b & Hb & He). vm_compute in Hb. inversion Hb; subst b.
    vm_compute in He. discriminate.
  - vm_compute. reflexivity.
Qed.

(** C7, amended.  The scan always ends with the bounds [estimate]: the
    least x and the least y of the origins (the first two coordinates
    of the translate transforms that have two or more), the greatest
    right edge (the x of the origins, the x2 of the lines that are
    numbers, x plus width of the rects, x plus 2 of the path groups)
    and the greatest y.  An estimate is produced exactly when no y of
    an origin and no right edge is NaN, some x and some y of an origin
    are below Infinity and some right edge is above -Infinity.  So an
    estimate needs an origin, and with it a match of the translate
    pattern and the text that opens a translate transform: lines, rects
    and path groups alone give none; and when
    every y of an origin and every right edge is finite, one origin is
    enough.  Without an estimate the crop returns the fragment as it
    is, no ratio is made up.  With an estimate, where the first opening
    svg tag is a list of plain attributes, none of whose names ends
    with viewBox, width or height without being that name, with a
    viewBox of four pieces, a width and a height, the crop sets the
    last viewBox to max(0, minX - 5), max(0, minY - 5),
    maxX - minX + 10 and maxY - minY + 10, the last width to 100% and
    the last height to maxY - minY + 10 with two decimals, and changes
    nothing else.  The origin of the rectangle is clamped at 0: on the
    sample with translate(2,3) the viewBox is 0 0 158 10, and with
    translate(10,20) it is 5 15 150 10. *)
Theorem estimate_produced_exactly (s : jsstring) :
  contentBounds s = Normal (estimate s) /\
  (estimateProduced s <-> estimable s = true) /\
  (estimateProduced s ->
   origins s <> [] /\ matchAll false translateTransform s <> [] /\
   includes translateOpen s = true) /\
  (forallb finite (List.map snd (origins s)) = true ->
   forallb finite (rightEdges s) = true ->
   origins s <> [] ->
   estimateProduced s) /\
  (~ estimateProduced s -> cropToContent s = Normal s) /\
  (forall pre attrs rest box,
      s = svgElement pre attrs rest ->
      firstAt svgOpen pre = true ->
      plainTag attrs = true ->
      getLast (js "viewBox") attrs = Some box ->
      existsb (named (js "width")) attrs = true ->
      existsb (named (js "height")) attrs = true ->
      List.length (splitRe false whiteSpaces box) = 4 ->
      estimateProduced s ->
      cropToContent s
      = Normal (svgElement pre (croppedAttributes (estimate s) attrs) rest)) /\
  compactSvg
    (Str (jsq "<svg width='100mm' height='20mm' viewBox='0 0 100 20'><g transform='translate(2,3)'><line x1='0' x2='150'/></g></svg>"))
  = Normal (jsq "<svg width='100%' height='10.00' viewBox='0 0 158 10'><g transform='translate(2,3)'><line x1='0' x2='150'/></g></svg>") /\
  compactSvg
    (Str (jsq "<svg width='100mm' height='20mm' viewBox='0 0 100 20'><g transform='translate(10,20)'><line x1='0' x2='150'/></g></svg>"))
  = Normal (jsq "<svg width='100%' height='10.00' viewBox='5 15 150 10'><g transform='translate(10,20)'><line x1='0' x2='150'/></g></svg>").
Proof.
  split; [apply contentBounds_estimate|].
  split; [apply estimateProduced_estimable|].
  split.
  { intros H. apply estimateProduced_estimable, estimable_origins in H.
    destruct H as [Ho Hm]. split; [exact Ho|]. split; [exact Hm|].
    destruct (includes translateOpen s) eqn:E; [reflexivity|].
    now apply matchAll_no_translate in E. }
  split; [intros Hy Hr Ho; apply estimateProduced_estimable;
          now apply finite_estimable|].
  split; [|split; [|split]].
  - intros H. apply cropToContent_not_estimable.
    destruct (estimable s) eqn:E; [|reflexivity].
    exfalso. apply H. now apply estimateProduced_estimable.
  - intros pre attrs rest box -> Hpre Hplain Hbox Hw Hh Hlen He.
    apply cropToContent_svgElement with (v := box); try assumption.
    + apply contentBounds_estimate.
    + rewrite hasEstimate_estimate. now apply estimateProduced_estimable.
  - vm_compute. reflexivity.
  - vm_compute. reflexivity.
Qed.

Lemma estimate_produced_exactly_witness :
  let pre := js "<?xml?>" in
  let attrs := [(js "width", js "100mm"); (js "height", js "20mm");
                (js "viewBox", js "0 0 100 20")] in
  let rest :=
    jsq "<g transform='translate(2,3)'><line x1='0' x2='150'/></g></svg>" in
  let s := svgElement pre attrs rest in
  origins s = [(of_Z 2, of_Z 3)] /\
  rightEdges s = [of_Z 2; of_Z 150] /\
  estimate s = Bounds (of_Z 2) (of_Z 150) (of_Z 3) (of_Z 3) /\
  estimateProduced s /\
  croppedAttributes (estimate s) attrs
  = [(js "width", js "100%"); (js "height", js "10.00");
     (js "viewBox", js "0 0 158 10")] /\
  cropToContent s
  = Normal (svgElement pre (croppedAttributes (estimate s) attrs) rest).
Proof.
  intros pre attrs rest s.
  assert (He : estimateProduced s).
  { apply (proj1 (proj2 (proj2 (proj2 (estimate_produced_exactly s)))));
      [vm_compute; reflexivity|vm_compute; reflexivity|].
    vm_compute. discriminate. }
  refine (conj _ (conj _ (conj _ (conj He (conj _ _)))));
    [vm_compute; reflexivity|vm_compute; reflexivity|vm_compute; reflexivity
    |vm_compute; reflexivity|].
  exact (proj1 (proj2 (proj2 (proj2 (proj2 (proj2
           (estimate_produced_exactly s))))))
           pre attrs rest (js "0 0 100 20") eq_refl eq_refl eq_refl eq_refl
           eq_refl eq_refl eq_refl He).
Defined.

(** C8. On every string compactSvg, fixSvgViewBox and
    fixMultipleSvgViewBoxes end with a string, whatever the markup and
    the viewBox hold; on null and on undefined they throw a TypeError. *)
Theorem operations_total_on_strings (s : jsstring) :
  (exists out, compactSvg (Str s) = Normal out) /\
  (exists out, fixSvgViewBox (Str s) = Normal out) /\
  (exists out, fixMultipleSvgViewBoxes (Str s) = Normal out) /\
  compactSvg Null = Throw TypeError /\
  compactSvg Undefined = Throw TypeError /\
  fixSvgViewBox Null = Throw TypeError /\
  fixSvgViewBox Undefined = Throw TypeError /\
  fixMultipleSvgViewBoxes Null = Throw TypeError /\
  fixMultipleSvgViewBoxes Undefined = Throw TypeError.
Proof.
  split; [|split; [|split]].
  - cbn [compactSvg thisString bind]. apply cropToContent_total.
  - rewrite fixSvgViewBox_Str. apply fixSvgTag_total.
  - cbn [fixMultipleSvgViewBoxes thisString bind]. unfold replaceWith.
    apply replaceWithFrom_total. apply fixSvgTag_total.
  - repeat split.
Qed.

(** C9. The output of escapeHtml (the same function in both plugins) has
    none of the characters <, >, double quote and single quote, and every
    ampersand in it opens one of the five entities; the ampersands of the
    input are replaced first, so that the output is the input with each
    of the five characters replaced by its entity, once. *)
Theorem escapeHtml_escapes (s : jsstring) :
  exists out,
    RemarkLilypond.escapeHtml (Str s) = Normal out /\
    RemarkSvguitar.escapeHtml (Str s) = Normal out /\
    out = flat_map escapeChar s /\
    ~ In (ch "<") out /\ ~ In (ch ">") out /\
    ~ In dquote out /\ ~ In (ch "'") out /\
    forall a b,
      out = a ++ ch "&" :: b ->
      exists e, In e entities /\ startsWith e (ch "&" :: b) = true.
Proof.
  exists (flat_map escapeChar s).
  split; [apply escapeHtml_flat_map|].
  split; [rewrite escapeHtml_same; apply escapeHtml_flat_map|].
  split; [reflexivity|].
  repeat split; try (apply escaped_free; tauto).
  intros a b H. eapply ampersand_entity; eassumption.
Qed.

(** C10 (the code departs from the claim).  A chord whose own barres
    property is falsy keeps it: the spread that follows the default
    writes the chord's own value over it. *)
Theorem normaliseChordData_keeps_falsy_barres :
  normaliseChordData
    (Arr [Obj [(js "barres", Null); (js "fingers", Arr [])]])
  = Normal (Arr [Obj [(js "barres", Null); (js "fingers", Arr [])]]).
Proof. vm_compute. reflexivity. Qed.

End Claims.

(* ===================================================================== *)
(** ** Further properties of the code *)
(* ===================================================================== *)

Module Coverage.

Import Number RegExp Js Statements.
Import SearchFacts ChordFacts MarkerFacts ErrorFacts CropFacts TagFacts.
Import EndingFacts.
Import ViewBoxFacts BatchFacts ConfigFacts.
Import RemarkSvguitar RemarkLilypond.

(** X1. What normaliseChordData does on a list of chord objects: the
    result has the same length, every element has a barres property,
    which is the chord's own barres property when the chord has one
    (whatever its value) and the empty array otherwise, and the other
    properties of each chord are kept. *)
Theorem normaliseChordData_adds_missing_barres (chords : list value) :
  Forall chordObject chords ->
  exists out,
    normaliseChordData (Arr chords) = Normal (Arr out) /\
    List.length out = List.length chords /\
    Forall2 withBarres chords out.
Proof.
  intros H. cbn [normaliseChordData].
  enough (exists out, mapM normaliseChord chords = Normal out /\
                      List.length out = List.length chords /\
                      Forall2 withBarres chords out) as (out & -> & Hl & Hf)
    by (exists out; cbn [bind]; auto).
  induction H as [|chord chords (props & -> & Hnd) _ (out & Hout & Hlen & Hall)].
  - exists []. repeat split. constructor.
  - cbn [mapM normaliseChord getProperty bind ownProperties]. rewrite Hout.
    cbn [bind]. eexists. split; [reflexivity|]. split.
    + cbn [List.length]. now rewrite Hlen.
    + constructor; [|assumption].
      eexists. eexists. split; [reflexivity|]. split; [reflexivity|]. split.
      * rewrite lookup_spread by assumption.
        destruct (lookup (js "barres") props) as [v|]; [reflexivity|].
        reflexivity.
      * intros k Hk. rewrite lookup_spread by assumption.
        destruct (lookup k props) as [v|]; [reflexivity|].
        cbn [lookup]. rewrite jsstring_eqb_neq; [reflexivity|].
        intros E. now apply Hk.
Qed.

Lemma normaliseChordData_adds_missing_barres_witness :
  let chords := [Obj [(js "fingers", Arr []); (js "title", Str (js "C"))];
                 Obj [(js "barres", Bool false)]] in
  Forall chordObject chords /\
  exists out,
    normaliseChordData (Arr chords) = Normal (Arr out) /\
    List.length out = List.length chords /\
    Forall2 withBarres chords out.
Proof.
  intros chords.
  assert (H : Forall chordObject chords).
  { repeat constructor; eexists; (split; [reflexivity|]);
      repeat constructor; cbv; intuition discriminate. }
  exact (conj H (normaliseChordData_adds_missing_barres H)).
Defined.

(** X2. A fragment in which neither the word lilypond nor the words
    music engraving stand, letter case apart, goes through the removal
    of the attribution unchanged: compactSvg only crops it. *)
Theorem removeAttribution_keeps_unmarked (s : jsstring) :
  marked s = false ->
  removeAttribution s = s /\ compactSvg (Str s) = cropToContent s.
Proof.
  intros H. cbn [compactSvg thisString bind].
  now rewrite removeAttribution_unmarked.
Qed.

Lemma removeAttribution_keeps_unmarked_witness :
  let s := jsq "<svg viewBox='0 0 10 10'><a href='x'><text>Title</text></a></svg>" in
  marked s = false /\
  removeAttribution s = s /\ compactSvg (Str s) = cropToContent s.
Proof.
  intros s.
  assert (H : marked s = false) by reflexivity.
  exact (conj H (removeAttribution_keeps_unmarked s H)).
Defined.

(** X3. The width and the height the crop sets are those of the last
    attributes of the first opening svg tag whose names END with width
    and with height, whatever stands before in the name: in a tag that
    carries a stroke-width after its width, the stroke-width is set to
    100% and the width is kept. *)
Theorem crop_sets_last_name_ending (pre rest : jsstring)
  (before after : list attribute) (x v : jsstring) (b : bounds) :
  firstAt svgOpen pre = true ->
  (forallb plainAttribute (before ++ (x ++ js "width", v) :: after) = true ->
   forallb (endingFree (js "width")) after = true ->
   replaceFirst false svgWidth (jsq "$1width='100%'")
     (svgElement pre (before ++ (x ++ js "width", v) :: after) rest)
   = svgElement pre (before ++ (x ++ js "width", js "100%") :: after) rest) /\
  (forallb plainAttribute (before ++ (x ++ js "height", v) :: after) = true ->
   forallb (endingFree (js "height")) after = true ->
   replaceFirst false svgHeight
     (jsq "$1height='" ++ croppedHeight b ++ [dquote])
     (svgElement pre (before ++ (x ++ js "height", v) :: after) rest)
   = svgElement pre (before ++ (x ++ js "height", croppedHeight b) :: after)
                rest).
Proof.
  intros Hpre. destruct (croppedHeight_value b) as [Hh1 Hh2]. split.
  - intros Hplain Hfree.
    change (replaceFirst false svgWidth (jsq "$1width='100%'"))
      with (replaceFirst false (tagAttribute (js "width"))
              (js "$1" ++ opening (js "width") ++ js "100%" ++ [dquote])).
    apply replaceFirst_tagAttribute_ending; try assumption;
      try reflexivity; try discriminate; cbv; intuition discriminate.
  - intros Hplain Hfree.
    change (replaceFirst false svgHeight
              (jsq "$1height='" ++ croppedHeight b ++ [dquote]))
      with (replaceFirst false (tagAttribute (js "height"))
              (js "$1" ++ opening (js "height") ++ croppedHeight b
                 ++ [dquote])).
    apply replaceFirst_tagAttribute_ending; try assumption;
      try reflexivity; try discriminate.
    cbv; intuition discriminate.
Qed.

Lemma crop_sets_last_name_ending_witness :
  let before := [(js "width", js "100mm"); (js "height", js "20mm")] in
  let after := [(js "viewBox", js "5 15 150 10")] in
  let rest := jsq "<g transform='translate(10,20)'><line x2='150'/></g></svg>" in
  replaceFirst false svgWidth (jsq "$1width='100%'")
    (jsq "<svg width='100mm' height='20mm' stroke-width='2' viewBox='5 15 150 10'>"
       ++ rest)
  = jsq "<svg width='100mm' height='20mm' stroke-width='100%' viewBox='5 15 150 10'>"
      ++ rest /\
  compactSvg
    (Str (jsq "<svg width='100mm' height='20mm' stroke-width='2' viewBox='0 0 100 20'>"
            ++ rest))
  = Normal (jsq "<svg width='100mm' height='10.00' stroke-width='100%' viewBox='5 15 150 10'>"
              ++ rest).
Proof.
  intros before after rest. split.
  - exact (proj1 (@crop_sets_last_name_ending [] rest before after
                    (js "stroke-") (js "2") noBounds eq_refl)
                 eq_refl eq_refl).
  - vm_compute. reflexivity.
Defined.

(** X4. parseLilyPondError is idempotent on strings: it always gives a
    text, and the text it gives is kept as it is when it is parsed
    again. *)
Theorem parseLilyPondError_idempotent (text : jsstring) :
  exists parsed,
    parseLilyPondError (Str text) = Normal parsed /\
    parseLilyPondError (Str parsed) = Normal parsed.
Proof.
  eexists. split; [apply parseLilyPondError_Str|].
  apply parseLilyPondError_again.
Qed.

(** X5. On a message that names no missing executable,
    parseLilyPondError keeps the lines that carry [error:] or
    [warning:], in their order, joined by line feeds; the tests for
    [programming error:] and [fatal error:] select no further line.
    Without such a line the message is returned as it is. *)
Theorem parseLilyPondError_keeps_error_lines (text : jsstring) :
  mentionsMissing text = false ->
  let errorLines := List.filter mentionsError (split lineFeed text) in
  parseLilyPondError (Str text)
  = Normal (if existsb mentionsError (split lineFeed text)
            then join [lineFeed] errorLines else text).
Proof.
  intros H. cbv zeta. rewrite parseLilyPondError_Str.
  unfold parsedError. now rewrite H.
Qed.

Lemma parseLilyPondError_keeps_error_lines_witness :
  let text := js "Processing" ++ lineFeed :: js "a.ly:3:1: error: syntax" ++
              lineFeed :: js "a.ly:9:2: warning: barcheck" ++
              lineFeed :: js "fatal error: failed files" in
  mentionsMissing text = false /\
  parseLilyPondError (Str text)
  = Normal (js "a.ly:3:1: error: syntax" ++
            lineFeed :: js "a.ly:9:2: warning: barcheck" ++
            lineFeed :: js "fatal error: failed files").
Proof.
  intros text.
  assert (H : mentionsMissing text = false) by reflexivity.
  exact (conj H (parseLilyPondError_keeps_error_lines text H)).
Defined.

(** X6. The two readings of a caught error agree: isLilyPondNotFound
    holds exactly when parseLilyPondError gives the text for a missing
    executable or the code of the error is ENOENT. *)
Theorem isLilyPondNotFound_agrees (text : jsstring) (code : value) :
  exists found parsed,
    isLilyPondNotFound (Caught (Str text) code) = Normal found /\
    parseLilyPondError (Str text) = Normal parsed /\
    (found = true <->
     parsed = notFoundText \/ code = Str (js "ENOENT")).
Proof.
  eexists. eexists. split; [|split; [apply parseLilyPondError_Str|]].
  - unfold isLilyPondNotFound. cbn [message RemarkLilypond.code
      includesMethod bind].
    instantiate (1 := mentionsMissing text ||
                      strictEqualsString code (js "ENOENT")).
    unfold mentionsMissing.
    destruct (includes (js "not found") text); [reflexivity|].
    cbn [bind orb]. now destruct (includes (js "ENOENT") text).
  - assert (Hcode : strictEqualsString code (js "ENOENT") = true <->
                    code = Str (js "ENOENT")).
    { split.
      - destruct code as [| | | |s| |]; try discriminate.
        cbn [strictEqualsString]. intros H.
        apply jsstring_eqb_spec in H. now subst.
      - intros ->. reflexivity. }
    destruct (mentionsMissing text) eqn:Em.
    + cbn [orb]. split; [|reflexivity].
      intros _. left. unfold parsedError. now rewrite Em.
    + cbn [orb]. rewrite Hcode. split; [now right|].
      intros [H|H]; [|assumption]. exfalso.
      unfold parsedError in H. rewrite Em in H.
      destruct (existsb mentionsError (split lineFeed text)) eqn:Ee.
      * assert (Hne : List.filter mentionsError (split lineFeed text) <> []).
        { intros Hf. apply existsb_filter_nil in Hf. congruence. }
        pose proof (mentionsMissing_kept text Hne Em) as Hk.
        rewrite H in Hk. discriminate.
      * rewrite H in Em. discriminate.
Qed.

(** X7. The crop acts only on a viewBox of four pieces between white
    space: where the last viewBox of the first opening tag has another
    number of pieces (commas between the numbers, a blank in front, a
    piece missing), the fragment is returned as it is, whatever the
    scan would find. *)
Theorem crop_needs_four_pieces (pre rest : jsstring)
  (attrs : list attribute) (box : jsstring) :
  firstAt svgOpen pre = true ->
  forallb plainAttribute attrs = true ->
  forallb (distinctName (js "viewBox")) attrs = true ->
  getLast (js "viewBox") attrs = Some box ->
  List.length (splitRe false whiteSpaces box) <> 4 ->
  cropToContent (svgElement pre attrs rest)
  = Normal (svgElement pre attrs rest).
Proof.
  intros Hpre Hplain Hdist Hbox Hlen.
  destruct (exec_svgViewBox pre rest attrs Hpre Hplain Hdist Hbox)
    as (m & Hm & Hcap).
  unfold cropToContent. rewrite Hm. unfold groupString. rewrite Hcap.
  cbn [bind]. rewrite length_map.
  destruct (Nat.eqb_spec (List.length (splitRe false whiteSpaces box)) 4);
    [contradiction|reflexivity].
Qed.

Lemma crop_needs_four_pieces_witness :
  let attrs := [(js "width", js "100mm"); (js "height", js "20mm");
                (js "viewBox", js "0,0,100,20")] in
  let rest :=
    jsq "<g transform='translate(10,20)'><line x2='150'/></g></svg>" in
  List.length (splitRe false whiteSpaces (js "0,0,100,20")) <> 4 /\
  cropToContent (svgElement [] attrs rest) = Normal (svgElement [] attrs rest).
Proof.
  intros attrs rest.
  assert (H : List.length (splitRe false whiteSpaces (js "0,0,100,20")) <> 4)
    by (vm_compute; discriminate).
  exact (conj H (@crop_needs_four_pieces [] rest attrs (js "0,0,100,20")
                   eq_refl eq_refl eq_refl eq_refl H)).
Defined.

(** X8. One translate transform with a first or second coordinate that
    is not a number takes the estimate away: the left or the top edge
    becomes NaN and stays so, so that the crop returns the fragment as
    it is, whatever the other transforms, lines and rects give. *)
Theorem crop_lost_to_nan_coordinate (s : jsstring) (m : matchResult)
  (c0 c1 : number) (cs : list number) :
  In m (matchAll false translateTransform s) ->
  coordinates m = Normal (c0 :: c1 :: cs) ->
  isNaN c0 || isNaN c1 = true ->
  ~ estimateProduced s /\ cropToContent s = Normal s.
Proof.
  intros Hin Hc Hnan.
  destruct (contentBounds_nan_coordinate s m Hin Hc Hnan) as (b & Hb & He).
  split.
  - intros (b' & Hb' & He'). congruence.
  - now apply cropToContent_no_estimate with (b := b).
Qed.

Lemma crop_lost_to_nan_coordinate_witness :
  let s := jsq "<svg width='9' height='9' viewBox='0 0 100 20'><g transform='translate(10,20)'/><g transform='translate(a,5)'/><line x2='150'/></svg>" in
  ~ estimateProduced s /\ cropToContent s = Normal s.
Proof.
  intros s.
  assert (Hc : match nth_error (matchAll false translateTransform s) 1 with
               | Some m => coordinates m = Normal [NaN; of_Z 5]
               | None => False
               end) by (vm_compute; reflexivity).
  destruct (nth_error (matchAll false translateTransform s) 1) as [m|] eqn:Hm;
    [|contradiction].
  exact (@crop_lost_to_nan_coordinate s m NaN (of_Z 5) []
           (nth_error_In _ _ Hm) Hc eq_refl).
Defined.

(** X9. The two versions of the viewBox repair agree on a fragment with
    one svg opening tag that carries the first viewBox attribute of
    the fragment: both rewrite that attribute in place, from its value
    alone, whatever the number of pieces of the value, and leave the
    rest of the fragment as it is. *)
Theorem repairs_agree_on_one_tag (pre a1 box a2 rest : jsstring) :
  firstAt svgOpen pre = true ->
  firstAt viewBoxOpen (pre ++ svgOpen ++ a1) = true ->
  ~ In (ch ">") (a1 ++ viewBoxOpen ++ box ++ dquote :: a2) ->
  box <> [] -> ~ In dquote box ->
  includes svgOpen rest = false ->
  let s := pre ++ openingTag (a1 ++ viewBoxOpen ++ box ++ dquote :: a2) ++
           rest in
  let s' := pre ++ openingTag (a1 ++ repairedAttribute box ++ a2) ++ rest in
  fixSvgViewBox (Str s) = Normal s' /\
  fixMultipleSvgViewBoxes (Str s) = Normal s'.
Proof.
  intros Hpre Hvb Hgt Hne Hq Hrest s s'. split.
  - rewrite fixSvgViewBox_Str. subst s s'. unfold openingTag.
    replace (pre ++ (svgOpen ++ (a1 ++ viewBoxOpen ++ box ++ dquote :: a2) ++
                     [ch ">"]) ++ rest)
      with ((pre ++ svgOpen ++ a1) ++ viewBoxOpen ++ box ++
            dquote :: (a2 ++ ch ">" :: rest))
      by (repeat (rewrite <- ?app_assoc; cbn [app]); reflexivity).
    rewrite fixSvgTag_at by assumption.
    repeat (rewrite <- ?app_assoc; cbn [app]). reflexivity.
  - subst s s'. apply fixMultiple_one_tag; try assumption.
    unfold openingTag.
    replace (svgOpen ++ (a1 ++ viewBoxOpen ++ box ++ dquote :: a2) ++
             [ch ">"])
      with ((svgOpen ++ a1) ++ viewBoxOpen ++ box ++ dquote :: (a2 ++ [ch ">"]))
      by (repeat (rewrite <- ?app_assoc; cbn [app]); reflexivity).
    rewrite fixSvgTag_at; try assumption.
    + repeat (rewrite <- ?app_assoc; cbn [app]). reflexivity.
    + now apply firstAt_suffix with (a := pre).
Qed.

Lemma repairs_agree_on_one_tag_witness :
  let pre := js "<div class=" ++ dquote :: js "chord" ++ dquote :: js ">" in
  let a1 := js " width=" ++ dquote :: js "400" ++ dquote :: js " " in
  let box := js "0 0 400" in
  let a2 := js " class=" ++ dquote :: js "c" ++ dquote :: [] in
  let rest := js "<g></g></svg></div>" in
  let s := pre ++ openingTag (a1 ++ viewBoxOpen ++ box ++ dquote :: a2) ++
           rest in
  let s' := pre ++ openingTag (a1 ++ repairedAttribute box ++ a2) ++ rest in
  repairedAttribute box = jsq "viewBox='0 0 400 480'" /\
  fixSvgViewBox (Str s) = Normal s' /\
  fixMultipleSvgViewBoxes (Str s) = Normal s'.
Proof.
  intros pre a1 box a2 rest s s'.
  split; [vm_compute; reflexivity|].
  apply (@repairs_agree_on_one_tag pre a1 box a2 rest);
    try reflexivity; try discriminate; cbv; intuition discriminate.
Defined.

(** X10. What adaptConfigToChord returns, when it returns: the default
    configuration with its frets set to a Number that is below none of
    the frets the chord asks for (the Number frets of the fingers, the
    frets of the barres, each of which converts to a Number) and not
    below 3; it is NaN exactly when one of these frets converts to NaN.
    The other properties of the configuration are kept. *)
Theorem adaptConfigToChord_covers_frets (chord config out : value) :
  adaptConfigToChord chord config = Normal out ->
  exists props frets,
    out = Obj props /\
    lookup (js "frets") props = Some (Num frets) /\
    (forall k, k <> js "frets" -> lookup k props = lookup k (spread config)) /\
    lt frets (of_Z 3) = false /\
    (forall fret, askedFret chord fret ->
                  exists n, toNumberValue fret = Normal n /\
                            lt frets n = false) /\
    (isNaN frets = true <->
     exists fret, askedFret chord fret /\ toNumberValue fret = Normal NaN).
Proof.
  intros H. apply adaptConfigToChord_Normal in H.
  destruct H as (fingers & fingerFrets & barres & bs & barreFrets & frets &
                 Hf & Hff & Hb & Hbs & Hbf & Hmax & ->).
  eexists. exists frets. split; [reflexivity|].
  split; [rewrite lookup_setProperty; now rewrite jsstring_eqb_refl|].
  split.
  { intros k Hk. rewrite lookup_setProperty.
    rewrite jsstring_eqb_neq; [reflexivity|congruence]. }
  split.
  { destruct (@mathMax_not_below _ frets (Num (of_Z 3)) Hmax) as (n & Hn & Hlt).
    - apply in_or_app. right. apply in_or_app. right. now left.
    - cbn [toNumberValue] in Hn. inversion Hn; subst n. exact Hlt. }
  split.
  { intros fret Hfret. apply (@mathMax_not_below _ frets fret Hmax).
    eapply askedFret_argument; eassumption. }
  rewrite (@isNaN_mathMax _ frets Hmax). split.
  - intros (v & Hin & Hnan). exists v. split; [|assumption].
    eapply argument_askedFret; eassumption.
  - intros (fret & Hfret & Hnan). exists fret. split; [|assumption].
    eapply askedFret_argument; eassumption.
Qed.

Lemma adaptConfigToChord_covers_frets_witness :
  let chord :=
    Obj [(js "fingers",
          Arr [Arr [Num (of_Z 1); Num (of_Z 2)];
               Arr [Num (of_Z 2); Num (of_Z 5)];
               Arr [Num (of_Z 6); Str (js "x")]]);
         (js "barres",
          Arr [Obj [(js "fromString", Num (of_Z 5));
                    (js "toString", Num (of_Z 1));
                    (js "fret", Num (of_Z 7))]])] in
  let config := Obj [(js "strings", Num (of_Z 6));
                     (js "frets", Num (of_Z 4))] in
  let out := Obj [(js "strings", Num (of_Z 6));
                  (js "frets", Num (of_Z 7))] in
  adaptConfigToChord chord config = Normal out /\
  exists props frets,
    out = Obj props /\
    lookup (js "frets") props = Some (Num frets) /\
    (forall k, k <> js "frets" -> lookup k props = lookup k (spread config)) /\
    lt frets (of_Z 3) = false /\
    (forall fret, askedFret chord fret ->
                  exists n, toNumberValue fret = Normal n /\
                            lt frets n = false) /\
    (isNaN frets = true <->
     exists fret, askedFret chord fret /\ toNumberValue fret = Normal NaN).
Proof.
  intros chord config out.
  assert (H : adaptConfigToChord chord config = Normal out)
    by (vm_compute; reflexivity).
  exact (conj H (adaptConfigToChord_covers_frets chord config H)).
Defined.

(** X11. adaptConfigToChord needs the fingers and takes the barres as an
    option: it returns for the chords whose fingers are an array of
    values other than [undefined] and [null] and whose barres are falsy
    (missing, null) or an array of such values whose frets convert to
    Numbers; for every other chord it throws a TypeError: a chord with
    barres and no fingers, or a chord with the fret of a barre an
    object that has an own property called toString, which Math.max
    cannot convert. *)
Theorem adaptConfigToChord_needs_fingers (chord config : value) :
  (acceptedChord chord ->
   exists out, adaptConfigToChord chord config = Normal out) /\
  (~ acceptedChord chord ->
   adaptConfigToChord chord config = Throw TypeError).
Proof.
  split.
  - apply adaptConfigToChord_accepted.
  - intros H.
    destruct (adaptConfigToChord chord config) as [out|[]] eqn:E;
      [|reflexivity].
    exfalso. apply H.
    apply (adaptConfigToChord_accepted chord config). now exists out.
Qed.

Lemma adaptConfigToChord_needs_fingers_witness :
  let noFingers :=
    Obj [(js "title", Str (js "F"));
         (js "barres", Arr [Obj [(js "fret", Num (of_Z 1))]])] in
  let oddFret :=
    Obj [(js "fingers", Arr []);
         (js "barres",
          Arr [Obj [(js "fret", Obj [(js "toString", Num (of_Z 1))])]])] in
  let plain :=
    Obj [(js "fingers", Arr []);
         (js "barres", Arr [Obj [(js "fret", Arr [Str (js "0x10")])]])] in
  (~ acceptedChord noFingers /\
   adaptConfigToChord noFingers (Obj []) = Throw TypeError) /\
  (~ acceptedChord oddFret /\
   adaptConfigToChord oddFret (Obj []) = Throw TypeError) /\
  (acceptedChord plain /\
   adaptConfigToChord plain (Obj [])
   = Normal (Obj [(js "frets", Num (of_Z 16))])).
Proof.
  intros noFingers oddFret plain.
  assert (H1 : ~ acceptedChord noFingers).
  { intros (fingers & barres & Hf & _). discriminate Hf. }
  assert (H2 : ~ acceptedChord oddFret).
  { intros (fingers & barres & _ & _ & Hb & Hor).
    vm_compute in Hb. inversion Hb as [Hbarres]. clear Hb.
    destruct Hor as [Hfalse|(bs & Hbs & Hu)]; rewrite <- Hbarres in *.
    - discriminate Hfalse.
    - inversion Hbs as [Hbs']. rewrite <- Hbs' in Hu.
      vm_compute in Hu. discriminate Hu. }
  assert (H3 : acceptedChord plain).
  { eexists. eexists. split; [reflexivity|]. split; [reflexivity|].
    split; [reflexivity|]. right. eexists. split; reflexivity. }
  split; [|split].
  - exact (conj H1 (proj2 (adaptConfigToChord_needs_fingers noFingers (Obj []))
                          H1)).
  - exact (conj H2 (proj2 (adaptConfigToChord_needs_fingers oddFret (Obj []))
                          H2)).
  - split; [exact H3|].
    destruct (proj1 (adaptConfigToChord_needs_fingers plain (Obj [])) H3)
      as [out Hout].
    rewrite Hout. f_equal.
    assert (E : adaptConfigToChord plain (Obj [])
                = Normal (Obj [(js "frets", Num (of_Z 16))]))
      by (vm_compute; reflexivity).
    congruence.
Defined.

(** X12. The chords of a block, objects as JSON.parse gives them, are
    prepared (normalised, each with its configuration) exactly when
    every one of them is a chord adaptConfigToChord takes (fingers an
    array of values other than [undefined] and [null]; barres falsy or
    an array of such values whose frets convert to Numbers): one chord
    that is not fails the whole block.  What is prepared has one chord
    and one configuration for each chord of the block, a single object
    counting as a block of one chord. *)
Theorem prepareChords_all_or_nothing (parsedData config : value) :
  Forall chordObject (chordsOf parsedData) ->
  ((exists prepared, prepareChords parsedData config = Normal prepared) <->
   Forall acceptedChord (chordsOf parsedData)) /\
  forall chords configs,
    prepareChords parsedData config = Normal (chords, configs) ->
    List.length chords = List.length (chordsOf parsedData) /\
    List.length configs = List.length (chordsOf parsedData).
Proof. apply prepareChords_accepted. Qed.

Lemma prepareChords_all_or_nothing_witness :
  let chord :=
    Obj [(js "fingers", Arr [Arr [Num (of_Z 1); Num (of_Z 5)]]);
         (js "title", Str (js "A"))] in
  let prepared :=
    ([Obj [(js "barres", Arr []);
           (js "fingers", Arr [Arr [Num (of_Z 1); Num (of_Z 5)]]);
           (js "title", Str (js "A"))]],
     [Obj [(js "frets", Num (of_Z 5))]]) in
  Forall chordObject (chordsOf chord) /\
  prepareChords chord (Obj []) = Normal prepared /\
  Forall acceptedChord (chordsOf chord).
Proof.
  intros chord prepared.
  assert (H : Forall chordObject (chordsOf chord)).
  { repeat constructor. eexists. split; [reflexivity|].
    repeat constructor; cbv; intuition discriminate. }
  assert (Hp : prepareChords chord (Obj []) = Normal prepared)
    by (vm_compute; reflexivity).
  refine (conj H (conj Hp _)).
  apply (proj1 (proj1 (prepareChords_all_or_nothing chord (Obj []) H))).
  now exists prepared.
Defined.

End Coverage.

(* ===================================================================== *)
(** ** Properties of the transformer of remark-lilypond *)
(* ===================================================================== *)

Module LilypondProperties.

Import Number RegExp Js Mdast Statements LilypondTransformer.
Import RemarkSvguitar RemarkLilypond.
Import LoopFacts LilypondFacts.

(** X13. What the transformer of remark-lilypond never does, whatever
    render answers and however the run ends: the number of places is
    kept; a code node of another language is left as it is; a place
    holds the node that was there or an html node; render is called for
    the lilypond blocks in their order, each at most once, with the
    code of the block (after the paper block in compact mode) and the
    binary path. *)
Theorem lilypond_transformer_frame (respond : nat -> rendered)
  (thrown : error -> caught) (s : settings) (nodes : list codeNode)
  (calls : list call) :
  let '(children, calls', _) := transformer respond thrown s nodes calls in
  List.length children = List.length nodes /\
  (forall i node,
     nth_error nodes i = Some node ->
     (isBlock (js "lilypond") node = false ->
      nth_error children i = Some (Code node)) /\
     (nth_error children i = Some (Code node) \/
      exists html, nth_error children i = Some (Html html))) /\
  exists n, calls' = calls ++ firstn n (submittedCalls s nodes).
Proof.
  rewrite transformer_pass.
  pose proof (pass_calls respond thrown s nodes 0 calls) as [n Hn].
  pose proof (@pass_frame (list call) (processBlock respond thrown s)
                (js "lilypond") nodes 0 calls) as Hframe.
  destruct (pass (processBlock respond thrown s) (js "lilypond") 0 nodes calls)
    as [[children calls'] e].
  destruct (Hframe children calls' e eq_refl) as [Hlen Hall].
  cbn [fst snd] in Hn.
  split; [exact Hlen|]. split; [exact Hall|]. now exists n.
Qed.

(** X14. As long as no answer of render ends the run (an svg, or an
    error whose message is a string and which, with skipOnMissing, does
    not name a missing executable), the transformer handles every
    lilypond block on its own and is fulfilled: render is called once
    for each block, in order; a block whose call gave an svg is replaced
    by it (compacted in compact mode); a block whose call failed is
    replaced, with errorInline, by the not-found text or by the parsed
    message with its five special characters escaped inside the error
    frame, and is left as it is without errorInline. *)
Theorem transformer_handles_blocks_apart (respond : nat -> rendered)
  (thrown : error -> caught) (s : settings) (nodes : list codeNode)
  (calls : list call) :
  allGoOn s respond (List.length calls) (blockCount (js "lilypond") nodes) ->
  transformer respond thrown s nodes calls
  = (shownTree s respond (List.length calls) nodes,
     calls ++ submittedCalls s nodes, Fulfilled).
Proof.
  intros Hall. rewrite transformer_pass.
  now rewrite (@pass_allGoOn respond thrown s nodes 0 calls Hall).
Qed.

Lemma transformer_handles_blocks_apart_witness :
  let respond := fun k =>
    match k with
    | 0 => Rendered (js "<svg><path/></svg>")
    | _ => RenderFailed (Caught (Str (js "a.ly:1:2: error: <bad> & 'odd'"))
                                Undefined)
    end in
  let thrown := fun _ : error => Caught (Str (js "TypeError")) Undefined in
  let s := Settings (Str (js "lilypond")) (Bool true) (Bool true)
                    (Bool false) in
  let first := CodeNode (Str (js "lilypond")) (js "{ c' }") in
  let other := CodeNode (Str (js "js")) (js "let x") in
  let second := CodeNode (Str (js "lilypond")) (js "{ d' ") in
  transformer respond thrown s [first; other; second] []
  = ([Html (js "<svg><path/></svg>"); Code other;
      Html (compileErrorOpen
              ++ js "a.ly:1:2: error: &lt;bad&gt; &amp; &#039;odd&#039;"
              ++ compileErrorClose)],
     [(js "{ c' }", Str (js "lilypond")); (js "{ d' ", Str (js "lilypond"))],
     Fulfilled).
Proof.
  intros respond thrown s first other second.
  assert (H : allGoOn s respond (List.length (@nil call))
                (blockCount (js "lilypond") [first; other; second])).
  { intros [|[|k]] Hk; cbn [List.length Nat.add respond goesOn]; auto.
    - eexists. split; reflexivity.
    - exfalso. vm_compute in Hk. lia. }
  rewrite (@transformer_handles_blocks_apart respond thrown s
             [first; other; second] [] H).
  vm_compute. reflexivity.
Defined.

(** X15. With skipOnMissing, the first error that names a missing
    executable (in its message, a string, or by the code ENOENT) ends
    the run: the transformer is fulfilled, the blocks before keep what
    they were given, the failing block and all the nodes after it are
    left as they are, and render is not called again.  The binary path
    is one that has a text, as a string has: the warning is written
    with it. *)
Theorem skipOnMissing_ends_run (respond : nat -> rendered)
  (thrown : error -> caught) (s : settings)
  (before after : list codeNode) (node : codeNode) (calls : list call)
  (error : caught) (text : jsstring) :
  isBlock (js "lilypond") node = true ->
  toBoolean (skipOnMissing s) = true ->
  printable (binaryPath s) = true ->
  allGoOn s respond (List.length calls) (blockCount (js "lilypond") before) ->
  respond (List.length calls + blockCount (js "lilypond") before)
  = RenderFailed error ->
  message error = Str text ->
  missingExecutable text (code error) = true ->
  transformer respond thrown s (before ++ node :: after) calls
  = (shownTree s respond (List.length calls) before
       ++ List.map Code (node :: after),
     calls ++ submittedCalls s (before ++ [node]), Fulfilled).
Proof.
  intros Hb Hskip Hpath Hall Hr Hm Hmiss. rewrite transformer_pass.
  rewrite (@pass_ends respond thrown s before after node calls Returned Hb
             Hall); [reflexivity| |discriminate].
  unfold processBlock.
  replace (List.length (calls ++ submittedCalls s before))
    with (List.length calls + blockCount (js "lilypond") before)
    by (unfold submittedCalls, blockCount;
        now rewrite length_app, length_map).
  rewrite Hr. cbn [fst]. destruct error as [m c]. cbn [message code] in *.
  subst m. rewrite handleError_Str, Hskip, Hmiss. cbn [andb].
  unfold printable in Hpath.
  now destruct (toStringValue (binaryPath s)).
Qed.

Lemma skipOnMissing_ends_run_witness :
  let respond := fun k =>
    match k with
    | 0 => Rendered (js "<svg><path/></svg>")
    | _ => RenderFailed (Caught (Str (js "spawn lilypond ENOENT"))
                                (Str (js "ENOENT")))
    end in
  let thrown := fun _ : error => Caught (Str (js "TypeError")) Undefined in
  let s := Settings (Str (js "lilypond")) (Bool true) (Bool true)
                    (Bool false) in
  let first := CodeNode (Str (js "lilypond")) (js "{ c' }") in
  let second := CodeNode (Str (js "lilypond")) (js "{ d' }") in
  let third := CodeNode (Str (js "lilypond")) (js "{ e' }") in
  transformer respond thrown s [first; second; third] []
  = ([Html (js "<svg><path/></svg>"); Code second; Code third],
     [(js "{ c' }", Str (js "lilypond")); (js "{ d' }", Str (js "lilypond"))],
     Fulfilled).
Proof.
  intros respond thrown s first second third.
  assert (H : allGoOn s respond (List.length (@nil call))
                (blockCount (js "lilypond") [first])).
  { intros [|k] Hk; cbn [List.length Nat.add respond goesOn]; auto.
    exfalso. vm_compute in Hk. lia. }
  change [first; second; third] with ([first] ++ second :: [third]).
  rewrite (@skipOnMissing_ends_run respond thrown s [first] [third] second []
             (Caught (Str (js "spawn lilypond ENOENT")) (Str (js "ENOENT")))
             (js "spawn lilypond ENOENT")
             eq_refl eq_refl eq_refl H eq_refl eq_refl eq_refl).
  vm_compute. reflexivity.
Defined.

(** X16. An error of render whose message is neither a string nor an
    array (an exception without a message, say) is not handled,
    whatever the options: the catch clause throws a TypeError when it
    reads the message, the promise of the transformer is rejected, the
    failing block and the nodes after it are left as they are, and
    render is not called again. *)
Theorem error_without_message_rejects (respond : nat -> rendered)
  (thrown : error -> caught) (s : settings)
  (before after : list codeNode) (node : codeNode) (calls : list call)
  (error : caught) :
  isBlock (js "lilypond") node = true ->
  allGoOn s respond (List.length calls) (blockCount (js "lilypond") before) ->
  respond (List.length calls + blockCount (js "lilypond") before)
  = RenderFailed error ->
  noText (message error) = true ->
  transformer respond thrown s (before ++ node :: after) calls
  = (shownTree s respond (List.length calls) before
       ++ List.map Code (node :: after),
     calls ++ submittedCalls s (before ++ [node]),
     Rejected (thrown TypeError)).
Proof.
  intros Hb Hall Hr Hm. rewrite transformer_pass.
  rewrite (@pass_ends respond thrown s before after node calls
             (Threw (thrown TypeError)) Hb Hall); [reflexivity| |discriminate].
  unfold processBlock.
  replace (List.length (calls ++ submittedCalls s before))
    with (List.length calls + blockCount (js "lilypond") before)
    by (unfold submittedCalls, blockCount;
        now rewrite length_app, length_map).
  rewrite Hr. cbn [fst]. now apply handleError_noText.
Qed.

Lemma error_without_message_rejects_witness :
  let respond := fun _ : nat => RenderFailed (Caught Undefined Undefined) in
  let thrown := fun _ : error =>
    Caught (Str (js "Cannot read properties of undefined")) Undefined in
  let s := Settings (Str (js "lilypond")) (Bool true) (Bool true)
                    (Bool true) in
  let first := CodeNode (Str (js "lilypond")) (js "{ c' }") in
  let second := CodeNode (Str (js "lilypond")) (js "{ d' }") in
  transformer respond thrown s [first; second] []
  = ([Code first; Code second],
     [(paperBlock ++ js "{ c' }", Str (js "lilypond"))],
     Rejected (thrown TypeError)).
Proof.
  intros respond thrown s first second.
  assert (H : allGoOn s respond (List.length (@nil call))
                (blockCount (js "lilypond") [])).
  { intros k Hk. exfalso. vm_compute in Hk. lia. }
  change [first; second] with ([] ++ first :: [second]).
  rewrite (@error_without_message_rejects respond thrown s [] [second] first
             [] (Caught Undefined Undefined) eq_refl H eq_refl eq_refl).
  vm_compute. reflexivity.
Defined.

End LilypondProperties.

(* ===================================================================== *)
(** ** Properties of the transformer of remark-svguitar *)
(* ===================================================================== *)

Module SvguitarProperties.

Import Number RegExp Js Mdast Statements SvguitarTransformer.
Import RemarkLilypond RemarkSvguitar.
Import LoopFacts SvguitarFacts.

(** X17. With errorInline, a run leaves no svguitar block in the tree:
    every one of them is replaced by an html node (its diagrams, or the
    error box of what failed: the JSON, the chord data, the page, the
    launch), whatever JSON.parse and puppeteer answer, as long as the
    messages of the errors have a text (as strings have).  The one
    exception is skipOnMissing with a launch that fails, which leaves
    the blocks. *)
Theorem errorInline_replaces_every_block
  (jsonParse : jsstring -> parsed) (launch : nat -> launched)
  (renderPage : nat -> page) (close : nat -> option caught)
  (thrown : error -> caught)
  (s : settings)
  (nodes : list codeNode) (w : world) :
  errorsPrint renderPage thrown ->
  toBoolean (errorInline s) = true ->
  (toBoolean (skipOnMissing s) = true -> browserReady launch w) ->
  forall i node,
    nth_error nodes i = Some node ->
    isBlock (js "svguitar") node = true ->
    exists html,
      nth_error
        (fst (fst (transformer jsonParse launch renderPage close thrown s
                               nodes w))) i
      = Some (Html html).
Proof.
  intros Hprints Hinline Hskip i node Hn Hblock.
  destruct (@transformer_start launch s nodes w)
    as [E|[(E & Hb & error & El)|(E & Hready)]].
  - rewrite (@no_block_at _ _ E i node Hn) in Hblock. discriminate.
  - rewrite (@transformer_launch_failed jsonParse launch renderPage close
               thrown s nodes w error E Hb El).
    cbn [fst]. rewrite Hinline.
    destruct (toBoolean (skipOnMissing s)).
    + specialize (Hskip eq_refl Hb). rewrite El in Hskip. discriminate.
    + cbn [orb negb]. rewrite nth_error_map, Hn. cbn [option_map].
      rewrite Hblock. now eexists.
  - rewrite (@transformer_started jsonParse launch renderPage close thrown
               s nodes w Hprints E Hready), finish_children.
    exact (@chordTree_replaced jsonParse renderPage thrown Hprints s nodes
             Hinline _ i node Hn Hblock).
Qed.

Lemma errorInline_replaces_every_block_witness :
  let jsonParse := fun text : jsstring =>
    if JsString.eqb text (jsq "{'fingers':[[1,2]]}")
    then Parsed (Obj [(js "fingers",
                       Arr [Arr [Num (of_Z 1); Num (of_Z 2)]])])
    else SyntaxError (Caught (Str (js "Unexpected token o")) Undefined) in
  let launch := fun _ : nat => Launched in
  let renderPage := fun _ : nat =>
    Page (jsq "<div class='chord-container'><svg viewBox='0 0 400 0'></svg></div>") in
  let close := fun _ : nat => @None caught in
  let thrown := fun _ : error => Caught (Str (js "TypeError")) Undefined in
  let good := CodeNode (Str (js "svguitar")) (jsq " {'fingers':[[1,2]]} ") in
  let bad := CodeNode (Str (js "svguitar")) (js "oops") in
  let other := CodeNode (Str (js "js")) (js "let x") in
  let s := Settings (Bool true) (Bool false) (Obj []) (Obj [])
                    (Bool false) in
  let r := transformer jsonParse launch renderPage close thrown s
             [good; other; bad] (World None []) in
  (exists html, nth_error (fst (fst r)) 0 = Some (Html html)) /\
  (exists html, nth_error (fst (fst r)) 2 = Some (Html html)) /\
  fst (fst r)
  = [Html (jsq "<div class='chord-container'><svg viewBox='0 0 400 480'></svg></div>");
     Code other;
     Html (errorBox (js "SVGuitar rendering error: Invalid JSON in SVGuitar block: Unexpected token o"))].
Proof.
  intros jsonParse launch renderPage close thrown good bad other s r.
  assert (Hprints : errorsPrint renderPage thrown)
    by (split; [intros e; reflexivity|intros k error H; discriminate H]).
  split; [|split].
  - apply (@errorInline_replaces_every_block jsonParse launch renderPage
             close thrown s [good; other; bad] (World None []) Hprints
             eq_refl ltac:(discriminate) 0 good eq_refl eq_refl).
  - apply (@errorInline_replaces_every_block jsonParse launch renderPage
             close thrown s [good; other; bad] (World None []) Hprints
             eq_refl ltac:(discriminate) 2 bad eq_refl eq_refl).
  - vm_compute. reflexivity.
Defined.

(** X18. What a run with a block asks of puppeteer when a browser is
    there or the launch succeeds: the launch, when no browser was
    there; then one page for each block whose text parses and whose
    chords are accepted, in the order of the blocks, with the prepared
    chords and configurations and the rank of the block among the
    svguitar blocks as block id; then the close of the browser, unless
    keepAlive is set.  A block that fails asks for no page, and no two
    pages have the same block id.  The messages of the errors are taken
    to have a text, as strings have. *)
Theorem pages_asked
  (jsonParse : jsstring -> parsed) (launch : nat -> launched)
  (renderPage : nat -> page) (close : nat -> option caught)
  (thrown : error -> caught)
  (s : settings) (nodes : list codeNode) (w : world) :
  errorsPrint renderPage thrown ->
  blockCount (js "svguitar") nodes <> 0 ->
  browserReady launch w ->
  events (snd (fst (transformer jsonParse launch renderPage close thrown s
                                nodes w)))
  = events w ++ launchEvents s w ++ renderEvents jsonParse s 0 nodes
      ++ (if toBoolean (keepAlive s) then [] else [Close (browserOf w)]) /\
  exists ids,
    List.map blockIdOf (renderEvents jsonParse s 0 nodes) = List.map Some ids /\
    NoDup ids /\
    Forall (fun k => k < blockCount (js "svguitar") nodes) ids.
Proof.
  intros Hprints E Hready. split.
  - rewrite (@transformer_result jsonParse launch renderPage close thrown
               s nodes w Hprints E Hready).
    destruct (toBoolean (keepAlive s)).
    + cbn [fst snd events]. now rewrite !app_nil_r.
    + destruct (close _); cbn [fst snd events];
        now rewrite <- !app_assoc.
  - destruct (@renderEvents_ids jsonParse s nodes 0) as (ids & Hids & Hr & Hnd).
    exists ids. split; [exact Hids|]. split; [exact Hnd|].
    eapply Forall_impl; [|exact Hr]. cbn beta. intros k Hk. lia.
Qed.

Lemma pages_asked_witness :
  let jsonParse := fun text : jsstring =>
    if JsString.eqb text (jsq "{'fingers':[[1,2]]}")
    then Parsed (Obj [(js "fingers",
                       Arr [Arr [Num (of_Z 1); Num (of_Z 2)]])])
    else SyntaxError (Caught (Str (js "Unexpected token o")) Undefined) in
  let launch := fun _ : nat => Launched in
  let renderPage := fun _ : nat =>
    Page (jsq "<div class='chord-container'><svg viewBox='0 0 400 0'></svg></div>") in
  let close := fun _ : nat => @None caught in
  let thrown := fun _ : error => Caught (Str (js "TypeError")) Undefined in
  let good := CodeNode (Str (js "svguitar")) (jsq " {'fingers':[[1,2]]} ") in
  let bad := CodeNode (Str (js "svguitar")) (js "oops") in
  let other := CodeNode (Str (js "js")) (js "let x") in
  let s := Settings (Bool true) (Bool false) (Obj []) (Obj [])
                    (Bool false) in
  events (snd (fst (transformer jsonParse launch renderPage close thrown s
                                [bad; other; good] (World None []))))
  = [Launch (Obj [(js "headless", Bool true);
                  (js "args", Arr [Str (js "--no-sandbox");
                                   Str (js "--disable-setuid-sandbox")])]);
     Render [Obj [(js "barres", Arr []);
                  (js "fingers", Arr [Arr [Num (of_Z 1); Num (of_Z 2)]])]]
            [Obj [(js "frets", Num (of_Z 3))]] 1;
     Close 0].
Proof.
  intros jsonParse launch renderPage close thrown good bad other s.
  assert (Hprints : errorsPrint renderPage thrown)
    by (split; [intros e; reflexivity|intros k error H; discriminate H]).
  assert (E : blockCount (js "svguitar") [bad; other; good] <> 0)
    by (vm_compute; discriminate).
  assert (Hready : browserReady launch (World None []))
    by (intros _; reflexivity).
  rewrite (proj1 (@pages_asked jsonParse launch renderPage close thrown s
                    [bad; other; good] (World None []) Hprints E Hready)).
  vm_compute. reflexivity.
Defined.

(** X19. How such a run ends when the messages of the errors have a
    text, as strings have.  A block that fails never rejects the
    promise.  With keepAlive the promise is fulfilled and the browser
    stays in browserInstance.  Without it the browser is closed after
    the last block: browserInstance is null again and the promise is
    fulfilled when the close succeeds; when the close fails the promise
    is rejected with its error and browserInstance keeps the browser. *)
Theorem browser_after_run
  (jsonParse : jsstring -> parsed) (launch : nat -> launched)
  (renderPage : nat -> page) (close : nat -> option caught)
  (thrown : error -> caught)
  (s : settings) (nodes : list codeNode) (w : world) :
  errorsPrint renderPage thrown ->
  blockCount (js "svguitar") nodes <> 0 ->
  browserReady launch w ->
  let r := transformer jsonParse launch renderPage close thrown s nodes w in
  let asked :=
    List.length (events w ++ launchEvents s w
                   ++ renderEvents jsonParse s 0 nodes) in
  if toBoolean (keepAlive s)
  then browserInstance (snd (fst r)) = Some (browserOf w) /\ snd r = Fulfilled
  else match close asked with
       | None => browserInstance (snd (fst r)) = None /\ snd r = Fulfilled
       | Some error =>
           browserInstance (snd (fst r)) = Some (browserOf w) /\
           snd r = Rejected error
       end.
Proof.
  intros Hprints E Hready r asked. subst r asked.
  rewrite (@transformer_result jsonParse launch renderPage close thrown
             s nodes w Hprints E Hready).
  destruct (toBoolean (keepAlive s)); [now split|].
  now destruct (close _).
Qed.

Lemma browser_after_run_witness :
  let jsonParse := fun text : jsstring =>
    if JsString.eqb text (jsq "{'fingers':[[1,2]]}")
    then Parsed (Obj [(js "fingers",
                       Arr [Arr [Num (of_Z 1); Num (of_Z 2)]])])
    else SyntaxError (Caught (Str (js "Unexpected token o")) Undefined) in
  let launch := fun _ : nat => Launched in
  let renderPage := fun _ : nat =>
    Page (jsq "<div class='chord-container'><svg viewBox='0 0 400 0'></svg></div>") in
  let close := fun _ : nat => @None caught in
  let thrown := fun _ : error => Caught (Str (js "TypeError")) Undefined in
  let good := CodeNode (Str (js "svguitar")) (jsq " {'fingers':[[1,2]]} ") in
  let bad := CodeNode (Str (js "svguitar")) (js "oops") in
  let other := CodeNode (Str (js "js")) (js "let x") in
  let failing := fun _ : nat =>
    Some (Caught (Str (js "Protocol error")) Undefined) in
  let s := Settings (Bool true) (Bool false) (Obj []) (Obj [])
                    (Bool false) in
  let r := transformer jsonParse launch renderPage failing thrown s
             [bad; good] (World None []) in
  browserInstance (snd (fst r)) = Some 0 /\
  snd r = Rejected (Caught (Str (js "Protocol error")) Undefined).
Proof.
  intros jsonParse launch renderPage close thrown good bad other failing s r.
  assert (Hprints : errorsPrint renderPage thrown)
    by (split; [intros e; reflexivity|intros k error H; discriminate H]).
  assert (E : blockCount (js "svguitar") [bad; good] <> 0)
    by (vm_compute; discriminate).
  assert (Hready : browserReady launch (World None []))
    by (intros _; reflexivity).
  exact (@browser_after_run jsonParse launch renderPage failing thrown s
           [bad; good] (World None []) Hprints E Hready).
Defined.

(** X20. With keepAlive the browser of a run serves the next run,
    whatever its options: the next run does not launch, and what it
    asks is added to what was asked before. *)
Theorem keepAlive_reuses_browser
  (jsonParse : jsstring -> parsed) (launch : nat -> launched)
  (renderPage : nat -> page) (close : nat -> option caught)
  (thrown : error -> caught)
  (s1 s2 : settings)
  (nodes1 nodes2 : list codeNode) (w : world) :
  toBoolean (keepAlive s1) = true ->
  blockCount (js "svguitar") nodes1 <> 0 ->
  browserReady launch w ->
  let w1 :=
    snd (fst (transformer jsonParse launch renderPage close thrown s1
                          nodes1 w)) in
  let w2 :=
    snd (fst (transformer jsonParse launch renderPage close thrown s2
                          nodes2 w1)) in
  browserInstance w1 = Some (browserOf w) /\
  exists more,
    events w2 = events w1 ++ more /\
    existsb isLaunch more = false.
Proof.
  intros Hkeep E Hready w1 w2.
  destruct (@transformer_asks jsonParse launch renderPage close thrown
              s1 nodes1 w E Hready) as [_ Hb1].
  specialize (Hb1 Hkeep). fold w1 in Hb1. split; [exact Hb1|].
  assert (Hready1 : browserReady launch w1)
    by (unfold browserReady; rewrite Hb1; discriminate).
  destruct (Nat.eq_dec (blockCount (js "svguitar") nodes2) 0) as [E2|E2].
  - exists []. subst w2.
    rewrite (@transformer_no_block jsonParse launch renderPage close thrown
               s2 nodes2 w1 E2).
    cbn [fst snd]. now rewrite app_nil_r.
  - destruct (@transformer_asks jsonParse launch renderPage close thrown
                s2 nodes2 w1 E2 Hready1)
      as [(n & closing & Hev & Hno) _].
    fold w2 in Hev. rewrite Hev.
    eexists. split; [reflexivity|].
    unfold launchEvents. rewrite Hb1. cbn [app].
    rewrite existsb_app, Hno, orb_false_r.
    pose proof (@renderEvents_no_launch jsonParse s2 nodes2 0) as Hall.
    rewrite <- (firstn_skipn n (renderEvents jsonParse s2 0 nodes2)) in Hall.
    rewrite existsb_app in Hall. now apply orb_false_iff in Hall.
Qed.

Lemma keepAlive_reuses_browser_witness :
  let jsonParse := fun text : jsstring =>
    if JsString.eqb text (jsq "{'fingers':[[1,2]]}")
    then Parsed (Obj [(js "fingers",
                       Arr [Arr [Num (of_Z 1); Num (of_Z 2)]])])
    else SyntaxError (Caught (Str (js "Unexpected token o")) Undefined) in
  let launch := fun _ : nat => Launched in
  let renderPage := fun _ : nat =>
    Page (jsq "<div class='chord-container'><svg viewBox='0 0 400 0'></svg></div>") in
  let close := fun _ : nat => @None caught in
  let thrown := fun _ : error => Caught (Str (js "TypeError")) Undefined in
  let good := CodeNode (Str (js "svguitar")) (jsq " {'fingers':[[1,2]]} ") in
  let bad := CodeNode (Str (js "svguitar")) (js "oops") in
  let other := CodeNode (Str (js "js")) (js "let x") in
  let s1 := Settings (Bool false) (Bool false) (Obj []) (Obj [])
                     (Bool true) in
  let s2 := Settings (Bool false) (Bool false) (Obj []) (Obj [])
                     (Bool false) in
  let w1 :=
    snd (fst (transformer jsonParse launch renderPage close thrown s1
                          [good] (World None []))) in
  let w2 :=
    snd (fst (transformer jsonParse launch renderPage close thrown s2
                          [other; good] w1)) in
  browserInstance w1 = Some 0 /\
  exists more,
    events w2 = events w1 ++ more /\
    existsb isLaunch more = false.
Proof.
  intros jsonParse launch renderPage close thrown good bad other s1 s2.
  assert (E : blockCount (js "svguitar") [good] <> 0)
    by (vm_compute; discriminate).
  assert (Hready : browserReady launch (World None []))
    by (intros _; reflexivity).
  exact (@keepAlive_reuses_browser jsonParse launch renderPage close thrown
           s1 s2 [good] [other; good] (World None []) eq_refl E Hready).
Defined.

(** X21. When no browser is there and the launch fails, the run is
    over: the launch is the one thing asked, browserInstance stays
    null, the promise is fulfilled.  With skipOnMissing, or without
    errorInline, the tree is left as it is; otherwise every svguitar
    block is replaced by the same error box, the one of the fixed text
    of a failed launch, and the other code nodes stay. *)
Theorem launch_failure
  (jsonParse : jsstring -> parsed) (launch : nat -> launched)
  (renderPage : nat -> page) (close : nat -> option caught)
  (thrown : error -> caught)
  (s : settings) (nodes : list codeNode) (w : world)
  (error : caught) :
  blockCount (js "svguitar") nodes <> 0 ->
  browserInstance w = None ->
  launch (List.length (events w)) = LaunchFailed error ->
  transformer jsonParse launch renderPage close thrown s nodes w
  = (if toBoolean (skipOnMissing s) || negb (toBoolean (errorInline s))
     then List.map Code nodes
     else List.map (fun node =>
                      if isBlock (js "svguitar") node
                      then Html (errorBox
                                   (js "Failed to launch Puppeteer browser"))
                      else Code node) nodes,
     World None (events w ++ [Launch (launchOptions s)]), Fulfilled).
Proof.
  intros E Hb El.
  rewrite (@transformer_launch_failed jsonParse launch renderPage close thrown
             s nodes w error E Hb El).
  unfold log. now rewrite Hb.
Qed.

Lemma launch_failure_witness :
  let jsonParse := fun text : jsstring =>
    if JsString.eqb text (jsq "{'fingers':[[1,2]]}")
    then Parsed (Obj [(js "fingers",
                       Arr [Arr [Num (of_Z 1); Num (of_Z 2)]])])
    else SyntaxError (Caught (Str (js "Unexpected token o")) Undefined) in
  let launch := fun _ : nat => Launched in
  let renderPage := fun _ : nat =>
    Page (jsq "<div class='chord-container'><svg viewBox='0 0 400 0'></svg></div>") in
  let close := fun _ : nat => @None caught in
  let thrown := fun _ : error => Caught (Str (js "TypeError")) Undefined in
  let good := CodeNode (Str (js "svguitar")) (jsq " {'fingers':[[1,2]]} ") in
  let bad := CodeNode (Str (js "svguitar")) (js "oops") in
  let other := CodeNode (Str (js "js")) (js "let x") in
  let failing := fun _ : nat =>
    LaunchFailed (Caught (Str (js "Could not find Chrome")) Undefined) in
  let s := Settings (Bool true) (Bool false) (Obj []) (Obj [])
                    (Bool false) in
  transformer jsonParse failing renderPage close thrown s
              [good; other; bad] (World None [])
  = ([Html (errorBox (js "Failed to launch Puppeteer browser"));
      Code other;
      Html (errorBox (js "Failed to launch Puppeteer browser"))],
     World None [Launch (launchOptions s)], Fulfilled).
Proof.
  intros jsonParse launch renderPage close thrown good bad other failing s.
  assert (E : blockCount (js "svguitar") [good; other; bad] <> 0)
    by (vm_compute; discriminate).
  exact (@launch_failure jsonParse failing renderPage close thrown s
           [good; other; bad] (World None [])
           (Caught (Str (js "Could not find Chrome")) Undefined)
           E eq_refl eq_refl).
Defined.

(** X22. Whatever JSON.parse and puppeteer answer, a run keeps the
    number of places, leaves the code nodes of the other languages as
    they are, and puts at a place nothing but the node that was there
    or an html node.  In a tree without svguitar block it asks nothing:
    no launch, and no close of a browser an earlier run left open. *)
Theorem svguitar_transformer_frame
  (jsonParse : jsstring -> parsed) (launch : nat -> launched)
  (renderPage : nat -> page) (close : nat -> option caught)
  (thrown : error -> caught)
  (s : settings) (nodes : list codeNode)
  (w : world) :
  let r := transformer jsonParse launch renderPage close thrown s nodes w in
  List.length (fst (fst r)) = List.length nodes /\
  (forall i node,
     nth_error nodes i = Some node ->
     (isBlock (js "svguitar") node = false ->
      nth_error (fst (fst r)) i = Some (Code node)) /\
     (nth_error (fst (fst r)) i = Some (Code node) \/
      exists html, nth_error (fst (fst r)) i = Some (Html html))) /\
  (blockCount (js "svguitar") nodes = 0 ->
   snd (fst r) = w /\ snd r = Fulfilled).
Proof.
  intros r. subst r.
  destruct (@transformer_children jsonParse launch renderPage close thrown
              s nodes w) as [Hlen Hall].
  split; [exact Hlen|]. split; [exact Hall|].
  intros E.
  now rewrite (@transformer_no_block jsonParse launch renderPage close thrown
                 s nodes w E).
Qed.

Lemma svguitar_transformer_frame_witness :
  let jsonParse := fun text : jsstring =>
    if JsString.eqb text (jsq "{'fingers':[[1,2]]}")
    then Parsed (Obj [(js "fingers",
                       Arr [Arr [Num (of_Z 1); Num (of_Z 2)]])])
    else SyntaxError (Caught (Str (js "Unexpected token o")) Undefined) in
  let launch := fun _ : nat => Launched in
  let renderPage := fun _ : nat =>
    Page (jsq "<div class='chord-container'><svg viewBox='0 0 400 0'></svg></div>") in
  let close := fun _ : nat => @None caught in
  let thrown := fun _ : error => Caught (Str (js "TypeError")) Undefined in
  let good := CodeNode (Str (js "svguitar")) (jsq " {'fingers':[[1,2]]} ") in
  let bad := CodeNode (Str (js "svguitar")) (js "oops") in
  let other := CodeNode (Str (js "js")) (js "let x") in
  let s := Settings (Bool true) (Bool false) (Obj []) (Obj [])
                    (Bool false) in
  let r := transformer jsonParse launch renderPage close thrown s
             [other] (World (Some 0) [Launch (launchOptions s)]) in
  snd (fst r) = World (Some 0) [Launch (launchOptions s)] /\
  snd r = Fulfilled.
Proof.
  intros jsonParse launch renderPage close thrown good bad other s r.
  exact (proj2 (proj2 (@svguitar_transformer_frame jsonParse launch
                         renderPage close thrown s [other]
                         (World (Some 0) [Launch (launchOptions s)])))
               eq_refl).
Defined.



(** X26. A failure whose message has no text ends the run: when the
    page of the first svguitar block fails with an error whose message
    is an object that cannot be turned into a string (an own toString
    key that is no function), the template of the catch clause throws a
    TypeError out of the loop.  The promise is rejected with it, with
    or without errorInline; every node is left as it was, the blocks
    that follow are not handled, and the browser is not closed, with or
    without keepAlive. *)
Theorem message_without_text_rejects
  (jsonParse : jsstring -> parsed) (launch : nat -> launched)
  (renderPage : nat -> page) (close : nat -> option caught)
  (thrown : error -> caught)
  (s : settings) (before : list codeNode) (node : codeNode)
  (rest : list codeNode) (w : world)
  (parsedData : value) (chords configs : list value) (error : caught) :
  blockCount (js "svguitar") before = 0 ->
  isBlock (js "svguitar") node = true ->
  browserReady launch w ->
  jsonParse (trim (Mdast.text node)) = Parsed parsedData ->
  prepareChords parsedData (SVGuitarConfig s) = Normal (chords, configs) ->
  renderPage (List.length (events w ++ launchEvents s w)) = PageFailed error ->
  printable (message error) = false ->
  transformer jsonParse launch renderPage close thrown s
              (before ++ node :: rest) w
  = (List.map Code (before ++ node :: rest),
     World (Some (browserOf w))
           (events w ++ launchEvents s w ++ [Render chords configs 0]),
     Rejected (thrown TypeError)).
Proof.
  intros Hbefore Hblock Hready Hparse Hchords Hpage Htext.
  assert (Hcount : blockCount (js "svguitar") (before ++ node :: rest) <> 0).
  { unfold blockCount. rewrite filter_app, length_app. cbn [List.filter].
    rewrite Hblock. cbn [List.length]. lia. }
  assert (Hnone : forallb (fun n => negb (isBlock (js "svguitar") n)) before
                  = true).
  { unfold blockCount in Hbefore. clear - Hbefore.
    induction before as [|n l IH]; [reflexivity|].
    cbn [List.filter forallb] in *.
    destruct (isBlock (js "svguitar") n); [discriminate|].
    now rewrite IH. }
  rewrite (@transformer_loop jsonParse launch renderPage close thrown
             s (before ++ node :: rest) w Hcount Hready).
  rewrite pass_app, (pass_no_block _ _ _ _ _ Hnone), Hbefore, Nat.add_0_r.
  cbn [pass]. unfold isBlock in Hblock. rewrite Hblock.
  unfold processBlock. rewrite Hparse, Hchords.
  unfold renderChordsWithPuppeteer. cbn [events]. rewrite Hpage.
  rewrite (@handleError_unprintable thrown s error Htext).
  cbn [settle]. unfold log. cbn [browserInstance events].
  now rewrite map_app, <- app_assoc.
Qed.

Lemma message_without_text_rejects_witness :
  let jsonParse := fun _ : jsstring =>
    Parsed (Obj [(js "fingers", Arr [Arr [Num (of_Z 1); Num (of_Z 2)]])]) in
  let launch := fun _ : nat => Launched in
  let failure := Caught (Obj [(js "toString", Num (of_Z 1))]) Undefined in
  let renderPage := fun _ : nat => PageFailed failure in
  let close := fun _ : nat => @None caught in
  let thrown := fun _ : error => Caught (Str (js "TypeError")) Undefined in
  let block := CodeNode (Str (js "svguitar")) (js "{}") in
  let other := CodeNode (Str (js "js")) (js "let x") in
  let s := Settings (Bool true) (Bool false) (Obj []) (Obj [])
                    (Bool false) in
  transformer jsonParse launch renderPage close thrown s
              [other; block; block] (World None [])
  = ([Code other; Code block; Code block],
     World (Some 0)
       [Launch (launchOptions s);
        Render [Obj [(js "barres", Arr []);
                     (js "fingers", Arr [Arr [Num (of_Z 1); Num (of_Z 2)]])]]
               [Obj [(js "frets", Num (of_Z 3))]] 0],
     Rejected (Caught (Str (js "TypeError")) Undefined)).
Proof.
  intros jsonParse launch failure renderPage close thrown block other s.
  assert (Hready : browserReady launch (World None []))
    by (intros _; reflexivity).
  exact (@message_without_text_rejects jsonParse launch renderPage close
           thrown s [other] block [block] (World None []) _ _ _ failure
           eq_refl eq_refl Hready eq_refl eq_refl eq_refl eq_refl).
Defined.

End SvguitarProperties.

(* ===================================================================== *)
(** ** Properties of the transformer of the first remark-svguitar *)
(* ===================================================================== *)

Module SingleProperties.

Import Number RegExp Js Mdast Statements SvguitarSingle.
Import RemarkLilypond RemarkSvguitar.
Import LoopFacts SvguitarFacts SingleFacts.

(** X24. A run of the first version with a block, when a browser is
    there or the launch succeeds: every svguitar block is handled on
    its own, the page of a block being the next thing asked.  A block
    whose text parses and whose page answers is replaced by the svg of
    the page as fixSvgViewBox repairs it; every other block is
    replaced, with errorInline, by the error box of its failure and is
    left as it is without errorInline.  One page is asked for each
    block that parses, with the parsed chord; the browser is never
    closed and stays in browserInstance; the promise is fulfilled.  The
    messages of the errors are taken to have a text, as strings
    have. *)
Theorem single_run
  (jsonParse : jsstring -> SvguitarTransformer.parsed)
  (launch : nat -> SvguitarTransformer.launched)
  (renderPage : nat -> SvguitarTransformer.page)
  (thrown : error -> caught)
  (s : settings) (nodes : list codeNode) (w : world) :
  errorsPrint renderPage thrown ->
  blockCount (js "svguitar") nodes <> 0 ->
  singleReady launch w ->
  transformer jsonParse launch renderPage thrown s nodes w
  = (singleTree jsonParse renderPage thrown s
       (List.length (events w ++ singleLaunch s w)) nodes,
     World (Some (singleBrowser w))
           (events w ++ singleLaunch s w ++ singlePages jsonParse nodes),
     Fulfilled).
Proof. apply single_started. Qed.

Lemma single_run_witness :
  let jsonParse := fun text : jsstring =>
    if JsString.eqb text (jsq "{'fingers':[[1,2]]}")
    then SvguitarTransformer.Parsed
           (Obj [(js "fingers", Arr [Arr [Num (of_Z 1); Num (of_Z 2)]])])
    else SvguitarTransformer.SyntaxError
           (Caught (Str (js "Unexpected token o")) Undefined) in
  let launch := fun _ : nat => SvguitarTransformer.Launched in
  let renderPage := fun _ : nat =>
    SvguitarTransformer.Page (jsq "<svg viewBox='0 0 400 0'></svg>") in
  let thrown := fun _ : error => Caught (Str (js "TypeError")) Undefined in
  let good := CodeNode (Str (js "svguitar")) (jsq " {'fingers':[[1,2]]} ") in
  let bad := CodeNode (Str (js "svguitar")) (js "oops") in
  let other := CodeNode (Str (js "js")) (js "let x") in
  let s := Settings (Bool false) (Bool false) (Obj []) in
  transformer jsonParse launch renderPage thrown s [bad; other; good]
              (World None [])
  = ([Code bad; Code other; Html (jsq "<svg viewBox='0 0 400 480'></svg>")],
     World (Some 0)
       [Launch (Obj [(js "headless", Bool true);
                     (js "args", Arr [Str (js "--no-sandbox");
                                      Str (js "--disable-setuid-sandbox")])]);
        Render (Obj [(js "fingers",
                      Arr [Arr [Num (of_Z 1); Num (of_Z 2)]])])],
     Fulfilled).
Proof.
  intros jsonParse launch renderPage thrown good bad other s.
  assert (Hprints : errorsPrint renderPage thrown)
    by (split; [intros e; reflexivity|intros k error H; discriminate H]).
  assert (E : blockCount (js "svguitar") [bad; other; good] <> 0)
    by (vm_compute; discriminate).
  assert (Hready : singleReady launch (World None []))
    by (intros _; reflexivity).
  rewrite (@single_run jsonParse launch renderPage thrown s
             [bad; other; good] (World None []) Hprints E Hready).
  vm_compute. reflexivity.
Defined.

(** X25. The promise of the first version is never rejected, whatever
    JSON.parse and puppeteer answer with errors whose messages have a
    text (as strings have), and in every run a browser that is in
    browserInstance stays there: nothing closes it, and no run launches
    another one. *)
Theorem single_never_rejects
  (jsonParse : jsstring -> SvguitarTransformer.parsed)
  (launch : nat -> SvguitarTransformer.launched)
  (renderPage : nat -> SvguitarTransformer.page)
  (thrown : error -> caught)
  (s : settings) (nodes : list codeNode) (w : world) :
  let r := transformer jsonParse launch renderPage thrown s nodes w in
  (errorsPrint renderPage thrown -> snd r = Fulfilled) /\
  forall b,
    browserInstance w = Some b ->
    browserInstance (snd (fst r)) = Some b /\
    existsb (fun e => match e with Launch _ => true | Render _ => false end)
            (skipn (List.length (events w)) (events (snd (fst r))))
    = false.
Proof.
  intros r. subst r.
  destruct (@single_start launch s nodes w)
    as [E|[(E & Hb & error & El)|(E & Hready)]].
  - rewrite (@single_no_block jsonParse launch renderPage thrown s nodes w E).
    cbn [fst snd]. split; [reflexivity|]. intros b Hb.
    split; [exact Hb|]. now rewrite skipn_all.
  - rewrite (@single_launch_failed jsonParse launch renderPage thrown
               s nodes w error E Hb El).
    cbn [fst snd]. split; [reflexivity|]. intros b Hb'. congruence.
  - split.
    + intros Hprints.
      now rewrite (@single_started jsonParse launch renderPage thrown s
                     nodes w Hprints E Hready).
    + intros b Hb.
      rewrite (@single_loop jsonParse launch renderPage thrown s nodes w
                 E Hready).
      destruct (@single_pass_world jsonParse renderPage thrown s nodes 0
                  (World (Some (singleBrowser w))
                         (events w ++ singleLaunch s w)))
        as (more & Hw & Hno).
      destruct (pass _ _ 0 nodes _) as [[children w'] e].
      cbn [fst snd browserInstance events] in Hw. subst w'.
      assert (Hs : snd (fst (settle
                    (children,
                     World (Some (singleBrowser w))
                           ((events w ++ singleLaunch s w) ++ more), e)))
                   = World (Some (singleBrowser w))
                           ((events w ++ singleLaunch s w) ++ more))
        by now destruct e.
      rewrite Hs. cbn [browserInstance events].
      unfold singleBrowser, singleLaunch. rewrite Hb.
      split; [reflexivity|].
      rewrite app_nil_r, skipn_app, skipn_all, Nat.sub_diag.
      exact Hno.
Qed.

Lemma single_never_rejects_witness :
  let jsonParse := fun _ : jsstring =>
    SvguitarTransformer.Parsed (Obj []) in
  let launch := fun _ : nat => SvguitarTransformer.Launched in
  let renderPage := fun _ : nat =>
    SvguitarTransformer.PageFailed
      (Caught (Str (js "Waiting for selector failed")) Undefined) in
  let thrown := fun _ : error => Caught (Str (js "TypeError")) Undefined in
  let block := CodeNode (Str (js "svguitar")) (js "{}") in
  let s := Settings (Bool true) (Bool true) (Obj []) in
  let w := World (Some 0) [Launch (launchOptions s)] in
  let r := transformer jsonParse launch renderPage thrown s [block] w in
  snd r = Fulfilled /\ browserInstance (snd (fst r)) = Some 0.
Proof.
  intros jsonParse launch renderPage thrown block s w r.
  assert (Hprints : errorsPrint renderPage thrown).
  { split; [intros e; reflexivity|].
    intros k error H. inversion H. reflexivity. }
  pose proof (@single_never_rejects jsonParse launch renderPage thrown s
                [block] w) as [H1 H2].
  exact (conj (H1 Hprints) (proj1 (H2 0 eq_refl))).
Defined.

(** X27. In the first version too a failure whose message has no text
    ends the run: when the page of the first svguitar block fails with
    an error whose message is an object that cannot be turned into a
    string, the template of the catch clause throws a TypeError out of
    the loop; the promise is rejected with it, every node is left as it
    was and the browser stays in browserInstance. *)
Theorem single_message_without_text_rejects
  (jsonParse : jsstring -> SvguitarTransformer.parsed)
  (launch : nat -> SvguitarTransformer.launched)
  (renderPage : nat -> SvguitarTransformer.page)
  (thrown : error -> caught)
  (s : settings) (before : list codeNode) (node : codeNode)
  (rest : list codeNode) (w : world)
  (chordData : value) (error : caught) :
  blockCount (js "svguitar") before = 0 ->
  isBlock (js "svguitar") node = true ->
  singleReady launch w ->
  jsonParse (trim (Mdast.text node)) = SvguitarTransformer.Parsed chordData ->
  renderPage (List.length (events w ++ singleLaunch s w))
  = SvguitarTransformer.PageFailed error ->
  printable (message error) = false ->
  transformer jsonParse launch renderPage thrown s
              (before ++ node :: rest) w
  = (List.map Code (before ++ node :: rest),
     World (Some (singleBrowser w))
           (events w ++ singleLaunch s w ++ [Render chordData]),
     Rejected (thrown TypeError)).
Proof.
  intros Hbefore Hblock Hready Hparse Hpage Htext.
  assert (Hcount : blockCount (js "svguitar") (before ++ node :: rest) <> 0).
  { unfold blockCount. rewrite filter_app, length_app. cbn [List.filter].
    rewrite Hblock. cbn [List.length]. lia. }
  assert (Hnone : forallb (fun n => negb (isBlock (js "svguitar") n)) before
                  = true).
  { unfold blockCount in Hbefore. clear - Hbefore.
    induction before as [|n l IH]; [reflexivity|].
    cbn [List.filter forallb] in *.
    destruct (isBlock (js "svguitar") n); [discriminate|].
    now rewrite IH. }
  rewrite (@single_loop jsonParse launch renderPage thrown
             s (before ++ node :: rest) w Hcount Hready).
  rewrite pass_app, (pass_no_block _ _ _ _ _ Hnone), Hbefore, Nat.add_0_r.
  cbn [pass]. unfold isBlock in Hblock. rewrite Hblock.
  unfold processBlock. rewrite Hparse.
  unfold renderChordWithPuppeteer. cbn [events]. rewrite Hpage.
  unfold handleError.
  rewrite (SvguitarFacts.unprintable_throws _ Htext).
  cbn [settle]. unfold log. cbn [browserInstance events].
  now rewrite map_app, <- app_assoc.
Qed.

Lemma single_message_without_text_rejects_witness :
  let jsonParse := fun _ : jsstring =>
    SvguitarTransformer.Parsed (Obj []) in
  let launch := fun _ : nat => SvguitarTransformer.Launched in
  let failure := Caught (Obj [(js "toString", Num (of_Z 1))]) Undefined in
  let renderPage := fun _ : nat => SvguitarTransformer.PageFailed failure in
  let thrown := fun _ : error => Caught (Str (js "TypeError")) Undefined in
  let block := CodeNode (Str (js "svguitar")) (js "{}") in
  let other := CodeNode (Str (js "js")) (js "let x") in
  let s := Settings (Bool true) (Bool false) (Obj []) in
  transformer jsonParse launch renderPage thrown s [other; block; block]
              (World None [])
  = ([Code other; Code block; Code block],
     World (Some 0) [Launch (launchOptions s); Render (Obj [])],
     Rejected (Caught (Str (js "TypeError")) Undefined)).
Proof.
  intros jsonParse launch failure renderPage thrown block other s.
  assert (Hready : singleReady launch (World None []))
    by (intros _; reflexivity).
  exact (@single_message_without_text_rejects jsonParse launch renderPage
           thrown s [other] block [block] (World None []) _ failure
           eq_refl eq_refl Hready eq_refl eq_refl eq_refl).
Defined.

End SingleProperties.
